(** * ufo2ft: the kern feature writer (Lib/ufo2ft/kernFeatureWriter.py)

    A shallow embedding of [KernFeatureWriter] and the properties of its
    kerning classification, conflict resolution and text emission.

    Modelling conventions.
    - Glyph and class names are [string]s; kerning values are integers [Z]
      (they are printed with [%d]).
    - A Python [dict] is an association list with unique keys, kept in
      insertion order: assigning to a present key replaces the value in
      place, assigning to an absent key appends, [del] of an absent key
      raises [KeyError].
    - [d.items()] inside a [for] is the list of entries at loop entry (the
      module is written for Python 2, see its [__future__] imports, where
      [items()] returns a list).
    - Exceptions are values of [error]; a method of the writer is a function
      from the writer's fields to [result] of the new fields.
    - [font.kerning] is an object of the font library: [kerning[pair]]
      answers [None] for an absent pair (the source tests [is None]),
      [kerning.remove(pair)] deletes the pair, [kerning[pair] = v] assigns.
    - [feaTools.parser.parseFeatures] is a library outside this repository;
      it is a parameter [parseFeatures] giving, for a feature text, the
      sequence of [classDefinition(name, contents)] calls it makes on the
      writer, or a parse failure. *)

From Stdlib Require Import List String Ascii ZArith Lia Bool Arith.
From Stdlib Require Import Permutation Sorted DecimalString Decimal DecimalNat FinFun.
Import ListNotations.
Local Open Scope string_scope.
Local Open Scope list_scope.

Set Implicit Arguments.

(** ** Exceptions *)

Inductive error : Type :=
| IndexError      (* sequence index out of range *)
| KeyError        (* mapping key absent *)
| ParseError      (* raised by the feature parser *)
| OutOfFuel.      (* a [while] loop did not finish within its fuel *)

Inductive result (A : Type) : Type :=
| Ok (a : A)
| Err (e : error).

Arguments Ok {A} a.
Arguments Err {A} e.

Definition bind {A B : Type} (m : result A) (f : A -> result B) : result B :=
  match m with
  | Ok a => f a
  | Err e => Err e
  end.

Notation "x <- m ;; k" := (bind m (fun x => k))
  (at level 61, m at next level, right associativity).

(** [for x in xs: body] over a list, with the loop state threaded through
    and the first exception ending the loop. *)
Fixpoint forM {A S : Type} (body : A -> S -> result S) (xs : list A) (s : S)
  : result S :=
  match xs with
  | [] => Ok s
  | x :: xs' => s' <- body x s ;; forM body xs' s'
  end.

(** ** Decidable equality of keys *)

Class EqDec (A : Type) := eq_dec : forall x y : A, {x = y} + {x <> y}.

#[export] Instance string_EqDec : EqDec string := string_dec.

#[export] Instance pair_EqDec {A B : Type} `{EqDec A} `{EqDec B} : EqDec (A * B).
Proof. intros [a b] [c d]. destruct (eq_dec a c), (eq_dec b d);
  [left; congruence | right; congruence ..]. Defined.

#[export] Instance list_EqDec {A : Type} `{EqDec A} : EqDec (list A).
Proof. exact (list_eq_dec eq_dec). Defined.

Definition eqb_of {A : Type} `{EqDec A} (x y : A) : bool :=
  if eq_dec x y then true else false.

(** ** Python dictionaries *)

Module Dict.
Section Dict.
Context {K V : Type} `{EqDec K}.

Definition t : Type := list (K * V).

Definition keys (d : t) : list K := map fst d.

(** [d[k]] read as an optional value, [d.get(k)]. *)
Fixpoint get (k : K) (d : t) : option V :=
  match d with
  | [] => None
  | (k', v) :: d' => if eq_dec k k' then Some v else get k d'
  end.

(** [k in d] *)
Definition mem (k : K) (d : t) : bool :=
  match get k d with Some _ => true | None => false end.

(** [d[k]], raising [KeyError] *)
Definition lookup (k : K) (d : t) : result V :=
  match get k d with Some v => Ok v | None => Err KeyError end.

(** [d[k] = v] *)
Fixpoint set (k : K) (v : V) (d : t) : t :=
  match d with
  | [] => [(k, v)]
  | (k', v') :: d' =>
      if eq_dec k k' then (k', v) :: d' else (k', v') :: set k v d'
  end.

(** the entries left once [k] is gone *)
Fixpoint remove (k : K) (d : t) : t :=
  match d with
  | [] => []
  | (k', v') :: d' =>
      if eq_dec k k' then d' else (k', v') :: remove k d'
  end.

(** [del d[k]] *)
Definition del (k : K) (d : t) : result t :=
  if mem k d then Ok (remove k d) else Err KeyError.

(** [d.update(d2)] *)
Definition update (d d2 : t) : t :=
  fold_left (fun acc kv => set (fst kv) (snd kv) acc) d2 d.

(** bool(d) *)
Definition nonempty (d : t) : bool :=
  match d with [] => false | _ => true end.
End Dict.
Arguments t : clear implicits.
End Dict.

(** ** Python sets, as duplicate-free lists *)

Module PySet.
Section PySet.
Context {A : Type} `{EqDec A}.

Definition memb (x : A) (s : list A) : bool :=
  if in_dec eq_dec x s then true else false.

(** [s.add(x)] *)
Definition add (x : A) (s : list A) : list A :=
  if memb x s then s else s ++ [x].

(** [set(xs)] *)
Definition of_list (xs : list A) : list A :=
  fold_left (fun s x => add x s) xs [].

Definition subset (s1 s2 : list A) : bool :=
  forallb (fun x => memb x s2) s1.

(** [s1 == s2] on sets *)
Definition eqb (s1 s2 : list A) : bool :=
  subset s1 s2 && subset s2 s1.
End PySet.
End PySet.

(** ** Strings: ordering, formatting, patterns *)

(** [a <= b] on tuples of two strings, as Python compares tuples. *)
Definition pair_leb (a b : string * string) : bool :=
  match String.compare (fst a) (fst b) with
  | Lt => true
  | Eq => String.leb (snd a) (snd b)
  | Gt => false
  end.

(** [sorted(xs)] for entries with distinct keys: a stable insertion sort on
    the key (the values are never compared, a dict has no two equal keys). *)
Section Sorting.
Context {K V : Type} (leb : K -> K -> bool).

Fixpoint insert_by (x : K * V) (l : list (K * V)) : list (K * V) :=
  match l with
  | [] => [x]
  | y :: l' => if leb (fst x) (fst y) then x :: l else y :: insert_by x l'
  end.

Fixpoint sorted_by (l : list (K * V)) : list (K * V) :=
  match l with
  | [] => []
  | x :: l' => insert_by x (sorted_by l')
  end.

(** the order of two entries is the order of their keys *)
Definition key_le (x y : K * V) : Prop := leb (fst x) (fst y) = true.
End Sorting.

(** [sorted(s)] for a list of strings *)
Definition sorted_strings (l : list string) : list string :=
  map fst (sorted_by String.leb (map (fun s => (s, tt)) l)).

(** [sep.join(xs)] *)
Definition join (sep : string) (xs : list string) : string :=
  String.concat sep xs.

(** [%d] of an integer and of a loop counter *)
Definition fmt_d (z : Z) : string := NilZero.string_of_int (Z.to_int z).
Definition fmt_nat (n : nat) : string := NilZero.string_of_uint (Nat.to_uint n).

(** The four patterns of the class all have the shape [prefix(.+)], and
    [re.match] anchors at the start: the name begins with the prefix and at
    least one more character follows, which [.] requires not to be a
    newline. *)
Definition pattern : Type := string.

Fixpoint strip_prefix (p s : string) : option string :=
  match p with
  | EmptyString => Some s
  | String c p' =>
      match s with
      | EmptyString => None
      | String d s' => if Ascii.eqb c d then strip_prefix p' s' else None
      end
  end.

Definition re_match (p : pattern) (s : string) : bool :=
  match strip_prefix p s with
  | Some (String c _) => negb (Ascii.eqb c "010"%char)
  | _ => false
  end.

Definition leftUfoGroupRe : pattern := "public.kern1.".
Definition rightUfoGroupRe : pattern := "public.kern2.".
Definition leftFeaClassRe : pattern := "@MMK_L_".
Definition rightFeaClassRe : pattern := "@MMK_R_".

(** the character class [A-Za-z0-9._] *)
Definition legal_char (c : ascii) : bool :=
  let n := nat_of_ascii c in
  (((65 <=? n) && (n <=? 90)) || ((97 <=? n) && (n <=? 122))
   || ((48 <=? n) && (n <=? 57)) || (n =? 46) || (n =? 95))%nat.

(** [re.sub(r"[^A-Za-z0-9._]", "", name)] *)
Fixpoint strip_illegal (s : string) : string :=
  match s with
  | EmptyString => EmptyString
  | String c s' =>
      if legal_char c then String c (strip_illegal s') else strip_illegal s'
  end.

(** ** The writer *)

(** a key of a kerning table: a left and a right name *)
Abbreviation kernKey := (string * string)%type (only parsing).
(** a class registry: class name to members *)
Abbreviation classes := (Dict.t string (list string)) (only parsing).
(** a kerning table or a bucket of rules: key to value *)
Abbreviation rules := (Dict.t (string * string) Z) (only parsing).

Record Font : Type := {
  font_kerning : rules;
  font_groups : classes;
  font_features_text : option string
}.

Record Writer : Type := {
  kerning : rules;
  groups : classes;
  featxt : string;
  leftFeaClasses : classes;
  rightFeaClasses : classes;
  leftUfoClasses : classes;
  rightUfoClasses : classes;
  glyphPairKerning : rules;
  leftClassKerning : rules;
  rightClassKerning : rules;
  classPairKerning : rules
}.

Definition with_kerning (k : rules) (w : Writer) : Writer :=
  {| kerning := k; groups := groups w; featxt := featxt w;
     leftFeaClasses := leftFeaClasses w; rightFeaClasses := rightFeaClasses w;
     leftUfoClasses := leftUfoClasses w; rightUfoClasses := rightUfoClasses w;
     glyphPairKerning := glyphPairKerning w;
     leftClassKerning := leftClassKerning w;
     rightClassKerning := rightClassKerning w;
     classPairKerning := classPairKerning w |}.

Definition with_leftFeaClasses (c : classes) (w : Writer) : Writer :=
  {| kerning := kerning w; groups := groups w; featxt := featxt w;
     leftFeaClasses := c; rightFeaClasses := rightFeaClasses w;
     leftUfoClasses := leftUfoClasses w; rightUfoClasses := rightUfoClasses w;
     glyphPairKerning := glyphPairKerning w;
     leftClassKerning := leftClassKerning w;
     rightClassKerning := rightClassKerning w;
     classPairKerning := classPairKerning w |}.

Definition with_rightFeaClasses (c : classes) (w : Writer) : Writer :=
  {| kerning := kerning w; groups := groups w; featxt := featxt w;
     leftFeaClasses := leftFeaClasses w; rightFeaClasses := c;
     leftUfoClasses := leftUfoClasses w; rightUfoClasses := rightUfoClasses w;
     glyphPairKerning := glyphPairKerning w;
     leftClassKerning := leftClassKerning w;
     rightClassKerning := rightClassKerning w;
     classPairKerning := classPairKerning w |}.

Definition with_leftUfoClasses (c : classes) (w : Writer) : Writer :=
  {| kerning := kerning w; groups := groups w; featxt := featxt w;
     leftFeaClasses := leftFeaClasses w; rightFeaClasses := rightFeaClasses w;
     leftUfoClasses := c; rightUfoClasses := rightUfoClasses w;
     glyphPairKerning := glyphPairKerning w;
     leftClassKerning := leftClassKerning w;
     rightClassKerning := rightClassKerning w;
     classPairKerning := classPairKerning w |}.

Definition with_rightUfoClasses (c : classes) (w : Writer) : Writer :=
  {| kerning := kerning w; groups := groups w; featxt := featxt w;
     leftFeaClasses := leftFeaClasses w; rightFeaClasses := rightFeaClasses w;
     leftUfoClasses := leftUfoClasses w; rightUfoClasses := c;
     glyphPairKerning := glyphPairKerning w;
     leftClassKerning := leftClassKerning w;
     rightClassKerning := rightClassKerning w;
     classPairKerning := classPairKerning w |}.

Definition with_glyphPairKerning (r : rules) (w : Writer) : Writer :=
  {| kerning := kerning w; groups := groups w; featxt := featxt w;
     leftFeaClasses := leftFeaClasses w; rightFeaClasses := rightFeaClasses w;
     leftUfoClasses := leftUfoClasses w; rightUfoClasses := rightUfoClasses w;
     glyphPairKerning := r;
     leftClassKerning := leftClassKerning w;
     rightClassKerning := rightClassKerning w;
     classPairKerning := classPairKerning w |}.

Definition with_leftClassKerning (r : rules) (w : Writer) : Writer :=
  {| kerning := kerning w; groups := groups w; featxt := featxt w;
     leftFeaClasses := leftFeaClasses w; rightFeaClasses := rightFeaClasses w;
     leftUfoClasses := leftUfoClasses w; rightUfoClasses := rightUfoClasses w;
     glyphPairKerning := glyphPairKerning w;
     leftClassKerning := r;
     rightClassKerning := rightClassKerning w;
     classPairKerning := classPairKerning w |}.

Definition with_rightClassKerning (r : rules) (w : Writer) : Writer :=
  {| kerning := kerning w; groups := groups w; featxt := featxt w;
     leftFeaClasses := leftFeaClasses w; rightFeaClasses := rightFeaClasses w;
     leftUfoClasses := leftUfoClasses w; rightUfoClasses := rightUfoClasses w;
     glyphPairKerning := glyphPairKerning w;
     leftClassKerning := leftClassKerning w;
     rightClassKerning := r;
     classPairKerning := classPairKerning w |}.

Definition with_classPairKerning (r : rules) (w : Writer) : Writer :=
  {| kerning := kerning w; groups := groups w; featxt := featxt w;
     leftFeaClasses := leftFeaClasses w; rightFeaClasses := rightFeaClasses w;
     leftUfoClasses := leftUfoClasses w; rightUfoClasses := rightUfoClasses w;
     glyphPairKerning := glyphPairKerning w;
     leftClassKerning := leftClassKerning w;
     rightClassKerning := rightClassKerning w;
     classPairKerning := r |}.

(** [KernFeatureWriter.__init__] *)
Definition init (font : Font) : Writer :=
  {| kerning := font_kerning font;
     groups := font_groups font;
     featxt := match font_features_text font with Some t => t | None => "" end;
     leftFeaClasses := []; rightFeaClasses := [];
     leftUfoClasses := []; rightUfoClasses := [];
     glyphPairKerning := []; leftClassKerning := [];
     rightClassKerning := []; classPairKerning := [] |}.

(** [k[index]] for a pair; the source only passes the literals 0 and 1. *)
Definition item (k : kernKey) (index : nat) : string :=
  match index with
  | O => fst k
  | _ => snd k
  end.

(** [_getGlyphKern(kerning, glyphName, index)] *)
Definition _getGlyphKern (kerning : rules) (glyphName : string) (index : nat)
  : list (kernKey * Z) :=
  filter (fun kv => eqb_of (item (fst kv) index) glyphName) kerning.

(** [_isClassName(nameRe, name)] *)
Definition _isClassName (nameRe : pattern) (name : string) : bool :=
  re_match nameRe name.

(** [_liststr(glyphs)] *)
Definition _liststr (glyphs : list string) : string :=
  ("[" ++ join " " glyphs ++ "]")%string.

(** [classDefinition(name, contents)], called back by the parser *)
Definition classDefinition (name : string) (contents : list string)
  (w : Writer) : Writer :=
  if _isClassName leftFeaClassRe name then
    with_leftFeaClasses (Dict.set name contents (leftFeaClasses w)) w
  else if _isClassName rightFeaClassRe name then
    with_rightFeaClasses (Dict.set name contents (rightFeaClasses w)) w
  else w.

(** [contents[0]] *)
Definition first (contents : list string) : result string :=
  match contents with
  | [] => Err IndexError
  | g :: _ => Ok g
  end.

(** *** [_collectFeaClassKerning] *)

(** the loop over the right classes, inside the loop over the left ones;
    its state is [(kerning, classPairKerning)] *)
Definition feaClassPair_body (leftName leftKey : string)
  (right_ : string * list string) (s : rules * rules) : result (rules * rules) :=
  let '(rightName, rightContents) := right_ in
  let '(kern, cpk) := s in
  rightKey <- first rightContents ;;
  let pair_ := (leftKey, rightKey) in
  match Dict.get pair_ kern with
  | None => Ok (kern, cpk)
  | Some kerningVal =>
      Ok (Dict.remove pair_ kern, Dict.set (leftName, rightName) kerningVal cpk)
  end.

(** the loop over [_getGlyphKern(self.kerning, leftKey, 0)]; its state is
    [(kerning, leftClassKerning)] *)
Definition feaLeftGlyph_body (leftName : string) (hit : kernKey * Z)
  (s : rules * rules) : rules * rules :=
  let '(pair_, kerningVal) := hit in
  let '(kern, lck) := s in
  (Dict.remove pair_ kern, Dict.set (leftName, snd pair_) kerningVal lck).

Definition feaLeft_body (left_ : string * list string) (w : Writer)
  : result Writer :=
  let '(leftName, leftContents) := left_ in
  leftKey <- first leftContents ;;
  s <- forM (feaClassPair_body leftName leftKey) (rightFeaClasses w)
            (kerning w, classPairKerning w) ;;
  let '(kern, cpk) := s in
  let '(kern', lck) :=
    fold_left (fun s hit => feaLeftGlyph_body leftName hit s)
              (_getGlyphKern kern leftKey 0) (kern, leftClassKerning w) in
  Ok (with_kerning kern' (with_classPairKerning cpk
        (with_leftClassKerning lck w))).

Definition feaRightGlyph_body (rightName : string) (hit : kernKey * Z)
  (s : rules * rules) : rules * rules :=
  let '(pair_, kerningVal) := hit in
  let '(kern, rck) := s in
  (Dict.remove pair_ kern, Dict.set (fst pair_, rightName) kerningVal rck).

Definition feaRight_body (right_ : string * list string) (w : Writer)
  : result Writer :=
  let '(rightName, rightContents) := right_ in
  rightKey <- first rightContents ;;
  let '(kern', rck) :=
    fold_left (fun s hit => feaRightGlyph_body rightName hit s)
              (_getGlyphKern (kerning w) rightKey 1)
              (kerning w, rightClassKerning w) in
  Ok (with_kerning kern' (with_rightClassKerning rck w)).

Definition _collectFeaClassKerning (w : Writer) : result Writer :=
  w1 <- forM feaLeft_body (leftFeaClasses w) w ;;
  forM feaRight_body (rightFeaClasses w1) w1.

(** *** [_collectUfoClasses] *)

Definition ufoClass_body (w : Writer) (group : string * list string) : Writer :=
  let '(name, contents) := group in
  let w1 := if _isClassName leftUfoGroupRe name
            then with_leftUfoClasses (Dict.set name contents (leftUfoClasses w)) w
            else w in
  if _isClassName rightUfoGroupRe name
  then with_rightUfoClasses (Dict.set name contents (rightUfoClasses w1)) w1
  else w1.

Definition _collectUfoClasses (w : Writer) : Writer :=
  fold_left ufoClass_body (groups w) w.

(** *** [_makeFeaClassName] *)

(** the [while name in existingClassNames] loop; every round costs one unit
    of fuel *)
Fixpoint suffix_loop (existingClassNames : list string) (origName : string)
  (name : string) (i : nat) (fuel : nat) : result string :=
  if PySet.memb name existingClassNames then
    match fuel with
    | O => Err OutOfFuel
    | S fuel' =>
        suffix_loop existingClassNames origName
                    (origName ++ "_" ++ fmt_nat i)%string (S i) fuel'
    end
  else Ok name.

Definition existingClassNames (w : Writer) : list string :=
  Dict.keys (leftFeaClasses w) ++ Dict.keys (rightFeaClasses w) ++
  Dict.keys (leftUfoClasses w) ++ Dict.keys (rightUfoClasses w).

Definition _makeFeaClassName (w : Writer) (name : string) : result string :=
  let name := ("@" ++ strip_illegal name)%string in
  let existing := existingClassNames w in
  suffix_loop existing name name 1 (List.length existing).

(** *** [_correctUfoClassNames] *)

Definition rekeyLeft_body (newName : string) (hit : kernKey * Z) (kern : rules)
  : rules :=
  let '(pair_, kerningVal) := hit in
  Dict.remove pair_ (Dict.set (newName, snd pair_) kerningVal kern).

Definition correctLeft_body (cls : string * list string) (w : Writer)
  : result Writer :=
  let '(name, members) := cls in
  newName <- _makeFeaClassName w name ;;
  if eqb_of name newName then Ok w else
  luc <- Dict.del name (Dict.set newName members (leftUfoClasses w)) ;;
  let kern := fold_left (fun k hit => rekeyLeft_body newName hit k)
                        (_getGlyphKern (kerning w) name 0) (kerning w) in
  Ok (with_kerning kern (with_leftUfoClasses luc w)).

Definition rekeyRight_body (newName : string) (hit : kernKey * Z) (kern : rules)
  : rules :=
  let '(pair_, kerningVal) := hit in
  Dict.remove pair_ (Dict.set (fst pair_, newName) kerningVal kern).

Definition correctRight_body (cls : string * list string) (w : Writer)
  : result Writer :=
  let '(name, members) := cls in
  newName <- _makeFeaClassName w name ;;
  if eqb_of name newName then Ok w else
  ruc <- Dict.del name (Dict.set newName members (rightUfoClasses w)) ;;
  let kern := fold_left (fun k hit => rekeyRight_body newName hit k)
                        (_getGlyphKern (kerning w) name 1) (kerning w) in
  Ok (with_kerning kern (with_rightUfoClasses ruc w)).

Definition _correctUfoClassNames (w : Writer) : result Writer :=
  w1 <- forM correctLeft_body (leftUfoClasses w) w ;;
  forM correctRight_body (rightUfoClasses w1) w1.

(** *** [_collectUfoKerning] *)

Definition ufoKerning_body (w : Writer) (entry : kernKey * Z) : Writer :=
  let '(glyphPair, val) := entry in
  let '(left_, right_) := glyphPair in
  let leftIsClass := Dict.mem left_ (leftUfoClasses w) in
  let rightIsClass := Dict.mem right_ (rightUfoClasses w) in
  if leftIsClass then
    if rightIsClass
    then with_classPairKerning (Dict.set glyphPair val (classPairKerning w)) w
    else with_leftClassKerning (Dict.set glyphPair val (leftClassKerning w)) w
  else if rightIsClass
  then with_rightClassKerning (Dict.set glyphPair val (rightClassKerning w)) w
  else with_glyphPairKerning (Dict.set glyphPair val (glyphPairKerning w)) w.

Definition _collectUfoKerning (w : Writer) : Writer :=
  fold_left ufoKerning_body (sorted_by pair_leb (kerning w)) w.

(** *** [_removeConflictingKerningRules] *)

(** the loop over the members of a left class against one right glyph; its
    state is [(nlGlyphs, seen)] *)
Definition keepLeft_body (rGlyph : string) (val : Z)
  (s : list string * rules) (lGlyph : string) : list string * rules :=
  let '(nlGlyphs, seen) := s in
  let pair_ := (lGlyph, rGlyph) in
  if negb (Dict.mem pair_ seen)
  then (nlGlyphs ++ [lGlyph], Dict.set pair_ val seen)
  else (nlGlyphs, seen).

(** one rule of the left class / right glyph bucket; the state is
    [(seen, leftClassKerning)] *)
Definition conflictLeft_body (leftClasses : classes) (rule : kernKey * Z)
  (s : rules * rules) : result (rules * rules) :=
  let '((lClass, rGlyph), val) := rule in
  let '(seen, lck) := s in
  lGlyphs <- Dict.lookup lClass leftClasses ;;
  let '(nlGlyphs, seen') :=
    fold_left (keepLeft_body rGlyph val) lGlyphs ([], seen) in
  if negb (eqb_of nlGlyphs lGlyphs) then
    lck' <- Dict.del (lClass, rGlyph)
              (Dict.set (_liststr nlGlyphs, rGlyph) val lck) ;;
    Ok (seen', lck')
  else Ok (seen', lck).

Definition keepRight_body (lGlyph : string) (val : Z)
  (s : list string * rules) (rGlyph : string) : list string * rules :=
  let '(nrGlyphs, seen) := s in
  let pair_ := (lGlyph, rGlyph) in
  if negb (Dict.mem pair_ seen)
  then (nrGlyphs ++ [rGlyph], Dict.set pair_ val seen)
  else (nrGlyphs, seen).

(** one rule of the left glyph / right class bucket; the state is
    [(seen, rightClassKerning)] *)
Definition conflictRight_body (rightClasses : classes) (rule : kernKey * Z)
  (s : rules * rules) : result (rules * rules) :=
  let '((lGlyph, rClass), val) := rule in
  let '(seen, rck) := s in
  rGlyphs <- Dict.lookup rClass rightClasses ;;
  let '(nrGlyphs, seen') :=
    fold_left (keepRight_body lGlyph val) rGlyphs ([], seen) in
  if negb (eqb_of nrGlyphs rGlyphs) then
    rck' <- Dict.del (lGlyph, rClass)
              (Dict.set (lGlyph, _liststr nrGlyphs) val rck) ;;
    Ok (seen', rck')
  else Ok (seen', rck).

(** the two nested loops over the members of both classes; the state is
    [(nlGlyphs, nrGlyphs, seen)] with two Python sets *)
Definition keepPair_body (val : Z) (lGlyph : string)
  (s : list string * list string * rules) (rGlyph : string)
  : list string * list string * rules :=
  let '(nlGlyphs, nrGlyphs, seen) := s in
  let pair_ := (lGlyph, rGlyph) in
  if negb (Dict.mem pair_ seen)
  then (PySet.add lGlyph nlGlyphs, PySet.add rGlyph nrGlyphs,
        Dict.set pair_ val seen)
  else (nlGlyphs, nrGlyphs, seen).

Definition keepPairs (val : Z) (lGlyphs rGlyphs : list string) (seen : rules)
  : list string * list string * rules :=
  fold_left (fun s lGlyph => fold_left (keepPair_body val lGlyph) rGlyphs s)
            lGlyphs ([], [], seen).

(** one rule of the class / class bucket; the state is
    [(seen, classPairKerning)] *)
Definition conflictPair_body (leftClasses rightClasses : classes)
  (rule : kernKey * Z) (s : rules * rules) : result (rules * rules) :=
  let '((lClass, rClass), val) := rule in
  let '(seen, cpk) := s in
  lGlyphs <- Dict.lookup lClass leftClasses ;;
  rGlyphs <- Dict.lookup rClass rightClasses ;;
  let '(nlGlyphs, nrGlyphs, seen') := keepPairs val lGlyphs rGlyphs seen in
  let nlClass :=
    if negb (PySet.eqb nlGlyphs (PySet.of_list lGlyphs))
    then _liststr (sorted_strings nlGlyphs) else lClass in
  let nrClass :=
    if negb (PySet.eqb nrGlyphs (PySet.of_list rGlyphs))
    then _liststr (sorted_strings nrGlyphs) else rClass in
  if negb (eqb_of nlClass lClass) || negb (eqb_of nrClass rClass) then
    cpk' <- Dict.del (lClass, rClass) (Dict.set (nlClass, nrClass) val cpk) ;;
    Ok (seen', cpk')
  else Ok (seen', cpk).

Definition _removeConflictingKerningRules (w : Writer) : result Writer :=
  let leftClasses := Dict.update (leftFeaClasses w) (leftUfoClasses w) in
  let rightClasses := Dict.update (rightFeaClasses w) (rightUfoClasses w) in
  let seen := glyphPairKerning w in
  s1 <- forM (conflictLeft_body leftClasses) (leftClassKerning w)
             (seen, leftClassKerning w) ;;
  let '(seen1, lck) := s1 in
  s2 <- forM (conflictRight_body rightClasses) (rightClassKerning w)
             (seen1, rightClassKerning w) ;;
  let '(seen2, rck) := s2 in
  s3 <- forM (conflictPair_body leftClasses rightClasses) (classPairKerning w)
             (seen2, classPairKerning w) ;;
  let '(_, cpk) := s3 in
  Ok (with_classPairKerning cpk
        (with_rightClassKerning rck (with_leftClassKerning lck w))).

(** *** Emission *)

(** ["%s = [%s];" % (key, " ".join(members))] *)
Definition classLine (cls : string * list string) : string :=
  (fst cls ++ " = [" ++ join " " (snd cls) ++ "];")%string.

(** [_addGlyphClasses(lines)] *)
Definition _addGlyphClasses (w : Writer) (lines : list string) : list string :=
  let ufoClasses := Dict.update (leftUfoClasses w) (rightUfoClasses w) in
  lines ++ map classLine (sorted_by String.leb ufoClasses).

(** ["    %spos %s %s %d;" % (enum, left, right, val)] *)
Definition kernLine (enum : string) (rule : kernKey * Z) : string :=
  ("    " ++ enum ++ "pos " ++ fst (fst rule) ++ " " ++ snd (fst rule) ++ " "
     ++ fmt_d (snd rule) ++ ";")%string.

(** [_addKerning(lines, kerning, enum)] *)
Definition _addKerning (lines : list string) (kerning : rules) (enum : bool)
  : list string :=
  let enum := if enum then "enum " else "" in
  lines ++ map (kernLine enum) (sorted_by pair_leb kerning).

Section Write.
(** the feature parser: the class definitions it reports for a text *)
Variable parseFeatures : string -> result (list (string * list string)).

(** [_collectFeaClasses] *)
Definition _collectFeaClasses (w : Writer) : result Writer :=
  defs <- parseFeatures (featxt w) ;;
  Ok (fold_left (fun w d => classDefinition (fst d) (snd d) w) defs w).

(** [write], lines 61-65: the class registry is complete *)
Definition registry (w : Writer) : result Writer :=
  w1 <- _collectFeaClasses w ;;
  w2 <- _collectFeaClassKerning w1 ;;
  _correctUfoClassNames (_collectUfoClasses w2).

(** [write], lines 61-68: the four buckets are final *)
Definition collect (w : Writer) : result Writer :=
  w3 <- registry w ;;
  _removeConflictingKerningRules (_collectUfoKerning w3).

(** [write], lines 75-94: the text written once some bucket is known to
    hold a rule *)
Definition emit (w : Writer) (linesep : string) : string :=
  let lines := [] in
  let lines := _addGlyphClasses w lines in
  let lines := lines ++ [""] in
  let lines := lines ++ ["feature kern {"] in
  let lines := _addKerning lines (glyphPairKerning w) false in
  let lines :=
    if Dict.nonempty (leftClassKerning w)
    then _addKerning (lines ++ ["    subtable;"]) (leftClassKerning w) true
    else lines in
  let lines :=
    if Dict.nonempty (rightClassKerning w)
    then _addKerning (lines ++ ["    subtable;"]) (rightClassKerning w) true
    else lines in
  let lines :=
    if Dict.nonempty (classPairKerning w)
    then _addKerning (lines ++ ["    subtable;"]) (classPairKerning w) false
    else lines in
  let lines := lines ++ ["} kern;"] in
  join linesep lines.

(** [write(linesep)] *)
Definition write (w : Writer) (linesep : string) : result string :=
  w' <- collect w ;;
  if negb (existsb Dict.nonempty
             [glyphPairKerning w'; leftClassKerning w';
              rightClassKerning w'; classPairKerning w'])
  then Ok ""
  else Ok (emit w' linesep).
End Write.

(** ** Scenarios *)

(** the default line separator of [write] *)
Definition LF : string := String "010"%char EmptyString.

(** a feature parser that reports no class definition, as for a feature
    text without any *)
Definition parse_no_classes (_ : string) : result (list (string * list string)) :=
  Ok [].

(** section 8 of the specification, class / class narrowing *)
Definition font_classpair : Font :=
  {| font_kerning := [(("public.kern1.L", "public.kern2.R"), (-15)%Z);
                      (("A", "X"), (-5)%Z)];
     font_groups := [("public.kern1.L", ["A"; "B"]);
                     ("public.kern2.R", ["X"; "Y"])];
     font_features_text := None |}.

(** section 8 of the specification, pure glyph conflict *)
Definition font_leftconflict : Font :=
  {| font_kerning := [(("A", "B"), (-10)%Z); (("A", "C"), (-10)%Z);
                      (("public.kern1.LEFT", "B"), (-20)%Z)];
     font_groups := [("public.kern1.LEFT", ["A"; "D"])];
     font_features_text := None |}.

(** a left class all of whose members are claimed by glyph pairs *)
Definition font_allconflict : Font :=
  {| font_kerning := [(("A", "B"), (-10)%Z);
                      (("public.kern1.LEFT", "B"), (-20)%Z)];
     font_groups := [("public.kern1.LEFT", ["A"])];
     font_features_text := None |}.

(** ** Predicates used in the statements *)

Definition buckets_empty (w : Writer) : Prop :=
  glyphPairKerning w = [] /\ leftClassKerning w = [] /\
  rightClassKerning w = [] /\ classPairKerning w = [].

(** a class of the dictionary has no member *)
Definition has_empty_class (cls : classes) : Prop :=
  exists name, In (name, []) cls.

(** ** More scenarios *)

(** a font with a kerning group and no kerning at all *)
Definition font_groups_only : Font :=
  {| font_kerning := [];
     font_groups := [("public.kern1.LEFT", ["A"; "D"])];
     font_features_text := Some "" |}.

Definition font_empty : Font :=
  {| font_kerning := []; font_groups := []; font_features_text := None |}.

(** a feature parser that reports one empty right kerning class *)
Definition parse_empty_right (_ : string) : result (list (string * list string)) :=
  Ok [("@MMK_R_o", [])].


(** ** Names tried by [_makeFeaClassName] *)

(** the name the [while] loop tests in its round [k]: the stripped name
    first, then the name with the suffixes [_1], [_2], ... *)
Definition candidate (origName : string) (k : nat) : string :=
  match k with
  | O => origName
  | S _ => (origName ++ "_" ++ fmt_nat k)%string
  end.

(** the name begins with the class marker *)
Definition starts_with_at (s : string) : Prop :=
  exists rest, s = String "@"%char rest.

(** ** Renaming one side of a kerning key *)

(** the pair [k] with its component [index] replaced by [name] *)
Definition with_item (k : kernKey) (index : nat) (name : string) : kernKey :=
  match index with
  | O => (name, snd k)
  | _ => (fst k, name)
  end.

(** the body shared by the two loops that move the entries of a renamed
    group: [rekeyLeft_body] is [rekey 0], [rekeyRight_body] is [rekey 1] *)
Definition rekey (index : nat) (newName : string) (hit : kernKey * Z)
  (kern : rules) : rules :=
  Dict.remove (fst hit)
    (Dict.set (with_item (fst hit) index newName) (snd hit) kern).

(** what a lookup in the kerning table gives once the entries of [name]
    have moved to [newName] *)
Definition renamed_get (index : nat) (name newName : string) (kern : rules)
  (key : kernKey) : option Z :=
  if eq_dec (item key index) newName
  then match Dict.get (with_item key index name) kern with
       | Some v => Some v
       | None => Dict.get key kern
       end
  else if eq_dec (item key index) name then None
  else Dict.get key kern.

(** the side of a pair that a renaming of side [index] leaves alone *)
Definition other (index : nat) : nat :=
  match index with
  | O => 1
  | _ => 0
  end.

(** ** What a renaming loop of [_correctUfoClassNames] does

    [renames index avoid todo (d, kern) (d', kern')]: the classes [todo] of
    the dictionary [d] are renamed one after the other, each to the first
    candidate that is neither in [avoid] (the names of the three other class
    dictionaries) nor a key of the dictionary at that moment, and the
    kerning entries with the old name on side [index] move with it. *)
Inductive renames (index : nat) (avoid : list string)
  : classes -> classes * rules -> classes * rules -> Prop :=
| renames_nil : forall s, renames index avoid [] s s
| renames_cons : forall name members todo d kern m s',
    let newName := candidate ("@" ++ strip_illegal name) m in
    ~ In newName (avoid ++ Dict.keys d) ->
    (forall j, j < m ->
       In (candidate ("@" ++ strip_illegal name) j) (avoid ++ Dict.keys d)) ->
    renames index avoid todo
      (Dict.remove name (Dict.set newName members d),
       fold_left (fun k hit => rekey index newName hit k)
                 (_getGlyphKern kern name index) kern) s' ->
    renames index avoid ((name, members) :: todo) (d, kern) s'.

(** [newName] is the class name made for the group [name] when the names
    [known] are taken: the first free candidate *)
Definition first_free (name newName : string) (known : list string) : Prop :=
  exists m,
    newName = candidate ("@" ++ strip_illegal name) m /\
    ~ In newName known /\
    (forall j, j < m -> In (candidate ("@" ++ strip_illegal name) j) known).

(** no key of the kerning table has a side that starts with the class
    marker *)
Definition no_marked_key (kern : rules) : Prop :=
  forall key, In key (Dict.keys kern) ->
              ~ starts_with_at (fst key) /\ ~ starts_with_at (snd key).

(** the class registry as [_collectUfoClasses] leaves it, and a kerning
    table with distinct keys *)
Definition ufo_collected (w : Writer) : Prop :=
  NoDup (Dict.keys (leftUfoClasses w)) /\
  NoDup (Dict.keys (rightUfoClasses w)) /\
  NoDup (Dict.keys (kerning w)) /\
  (forall n, In n (Dict.keys (leftUfoClasses w)) ->
             _isClassName leftUfoGroupRe n = true) /\
  (forall n, In n (Dict.keys (rightUfoClasses w)) ->
             _isClassName rightUfoGroupRe n = true).

(** the classes [names] of one registry are renamed in turn: each gets
    the first free candidate, where the names taken are [known] (the names
    of the other registries and the new names of the classes renamed
    before it) and the old names of the classes from it on *)
Fixpoint named_in_turn (known names newNames : list string) : Prop :=
  match names, newNames with
  | [], [] => True
  | name :: rest, newName :: newRest =>
      first_free name newName (known ++ name :: rest) /\
      named_in_turn (known ++ [newName]) rest newRest
  | _, _ => False
  end.

(** the name that replaced [x] when the classes [before] became the
    classes [after], listed in the same order; [x] itself when [x] is not
    one of them *)
Definition renaming (before after : classes) (x : string) : string :=
  match Dict.get x (combine (Dict.keys before) (Dict.keys after)) with
  | Some n => n
  | None => x
  end.

(** a key of the kerning table with its left side renamed by [rhoL] and
    its right side by [rhoR] *)
Definition rename_key (rhoL rhoR : string -> string) (k : kernKey) : kernKey :=
  (rhoL (fst k), rhoR (snd k)).

(** a key with its side [index] renamed by [rho] *)
Definition rename_side (index : nat) (rho : string -> string) (k : kernKey)
  : kernKey :=
  with_item k index (rho (item k index)).

(** where the key [k] is once the entries of [name] on side [index] have
    moved to [newName] *)
Definition moved (index : nat) (name newName : string) (k : kernKey) : kernKey :=
  if eq_dec (item k index) name then with_item k index newName else k.

(** two groups whose names hold a character that a class name cannot, and
    two kerning entries of the left group: one against the right group, one
    against the name that the right group is about to get *)
Definition font_marked : Font :=
  {| font_kerning := [(("public.kern1.a b", "@public.kern2.xy"), 1%Z);
                      (("public.kern1.a b", "public.kern2.x-y"), 2%Z)];
     font_groups := [("public.kern1.a b", ["A"]); ("public.kern2.x-y", ["X"])];
     font_features_text := None |}.

(** two groups whose names contain characters that a class name cannot *)
Definition font_illegal : Font :=
  {| font_kerning := [(("public.kern1.o acute", "public.kern2.a-z"), (-7)%Z);
                      (("public.kern1.o acute", "T"), 3%Z);
                      (("public.kern1.oacute", "T"), 4%Z)];
     font_groups := [("public.kern1.o acute", ["o"; "oacute"]);
                     ("public.kern1.oacute", ["ohungarumlaut"]);
                     ("public.kern2.a-z", ["a"; "z"])];
     font_features_text := None |}.

(** ** Narrowed rules *)

(** the side [name'] of a rule after conflict resolution is the side [name]
    it had before, or a bracketed list of some members of the class [name] *)
Definition narrowed_side (cls : classes) (name name' : string) : Prop :=
  name' = name \/
  exists members kept,
    Dict.get name cls = Some members /\ incl kept members /\
    name' = _liststr kept.

(** all the rules of [after] come, with their values, from rules of
    [before], each side kept or narrowed as [left_] and [right_] allow *)
Definition rules_from (left_ right_ : string -> string -> Prop)
  (before after : rules) : Prop :=
  forall k' v, In (k', v) after ->
    exists k, In (k, v) before /\ left_ (fst k) (fst k') /\ right_ (snd k) (snd k').

(** a left class with three members, two rules on it and two glyph pairs
    that claim a member each *)
Definition font_twoleft : Font :=
  {| font_kerning := [(("A", "X"), 10%Z); (("B", "Y"), 20%Z);
                      (("public.kern1.L", "X"), (-30)%Z);
                      (("public.kern1.L", "Y"), (-40)%Z);
                      (("public.kern1.L", "public.kern2.R"), (-50)%Z)];
     font_groups := [("public.kern1.L", ["A"; "B"; "C"]);
                     ("public.kern2.R", ["X"; "Z"])];
     font_features_text := None |}.

(** ** The layout of the text *)

(** the lines of a class bucket in the feature block: none for an empty
    bucket, else the subtable break and the lines of the rules *)
Definition subtable (lines : list string) : list string :=
  match lines with
  | [] => []
  | _ => "    subtable;" :: lines
  end.

(** [l] lists the entries of [d] in the order of their keys *)
Definition sorted_entries {K V : Type} (leb : K -> K -> bool)
  (d l : list (K * V)) : Prop :=
  Permutation l d /\ StronglySorted (key_le leb) l.

(** a kerning group that no kerning entry refers to *)
Definition font_unused_group : Font :=
  {| font_kerning := [(("B", "C"), 1%Z)];
     font_groups := [("public.kern1.LEFT", ["A"; "D"])];
     font_features_text := None |}.

(** a rule of the bucket has the name on one of its sides *)
Definition used_in (name : string) (bucket : rules) : Prop :=
  exists key, In key (Dict.keys bucket) /\ (fst key = name \/ snd key = name).

(** ** Concrete glyph pairs *)

(** the words of a string between single spaces: the inverse of
    [" ".join] on names without spaces *)
Fixpoint words_from (cur : string) (s : string) : list string :=
  match s with
  | EmptyString => [cur]
  | String c s' =>
      if Ascii.eqb c " "%char then cur :: words_from "" s'
      else words_from (cur ++ String c "")%string s'
  end.

Definition words (s : string) : list string :=
  match s with
  | EmptyString => []
  | _ => words_from "" s
  end.

(** the text between the brackets of a glyph list written by [_liststr] *)
Definition unbracket (s : string) : option string :=
  match s with
  | String "["%char rest =>
      match String.length rest with
      | O => None
      | S n => if eqb_of (String.substring n 1 rest) "]"
               then Some (String.substring 0 n rest) else None
      end
  | _ => None
  end.

(** the glyphs that one side of a class rule stands for: the members of
    the class it names, the glyphs of the list it spells out, or itself *)
Definition members_of (cls : classes) (side : string) : list string :=
  match Dict.get side cls with
  | Some members => members
  | None =>
      match unbracket side with
      | Some inner => words inner
      | None => [side]
      end
  end.

(** the concrete glyph pairs covered by the rules of the four buckets *)
Definition covered_glyph (bucket : rules) : list (string * string) :=
  Dict.keys bucket.

Definition covered_left (leftClasses : classes) (bucket : rules)
  : list (string * string) :=
  flat_map (fun key => map (fun g => (g, snd key))
                           (members_of leftClasses (fst key)))
           (Dict.keys bucket).

Definition covered_right (rightClasses : classes) (bucket : rules)
  : list (string * string) :=
  flat_map (fun key => map (fun g => (fst key, g))
                           (members_of rightClasses (snd key)))
           (Dict.keys bucket).

Definition covered_pair (leftClasses rightClasses : classes) (bucket : rules)
  : list (string * string) :=
  flat_map (fun key => list_prod (members_of leftClasses (fst key))
                                 (members_of rightClasses (snd key)))
           (Dict.keys bucket).

Definition concrete_pairs (w : Writer) : list (string * string) :=
  let leftClasses := Dict.update (leftFeaClasses w) (leftUfoClasses w) in
  let rightClasses := Dict.update (rightFeaClasses w) (rightUfoClasses w) in
  covered_glyph (glyphPairKerning w)
  ++ covered_left leftClasses (leftClassKerning w)
  ++ covered_right rightClasses (rightClassKerning w)
  ++ covered_pair leftClasses rightClasses (classPairKerning w).

(** a right class all of whose members are claimed by glyph pairs *)
Definition font_allconflict_right : Font :=
  {| font_kerning := [(("T", "a"), (-10)%Z); (("T", "o"), (-12)%Z);
                      (("T", "public.kern2.ROUND"), (-20)%Z)];
     font_groups := [("public.kern2.ROUND", ["a"; "o"])];
     font_features_text := None |}.

(** ** Two runs *)

(** two dictionaries with the same entries, listed in any order *)
Definition same_entries {K V : Type} (d1 d2 : list (K * V)) : Prop :=
  NoDup (map fst d1) /\ Permutation d1 d2.

(** the states of two runs when the buckets are final: the same classes,
    the same rules in the glyph pair and the class pair bucket, and the
    same rules, in some order, in the two mixed buckets *)
Definition final_eq (w1 w2 : Writer) : Prop :=
  leftUfoClasses w1 = leftUfoClasses w2 /\
  rightUfoClasses w1 = rightUfoClasses w2 /\
  glyphPairKerning w1 = glyphPairKerning w2 /\
  classPairKerning w1 = classPairKerning w2 /\
  same_entries (leftClassKerning w1) (leftClassKerning w2) /\
  same_entries (rightClassKerning w1) (rightClassKerning w2).

(** [font_twoleft] with its kerning table listed in another order *)
Definition font_twoleft_reordered : Font :=
  {| font_kerning := [(("public.kern1.L", "public.kern2.R"), (-50)%Z);
                      (("public.kern1.L", "Y"), (-40)%Z);
                      (("B", "Y"), 20%Z);
                      (("public.kern1.L", "X"), (-30)%Z);
                      (("A", "X"), 10%Z)];
     font_groups := [("public.kern1.L", ["A"; "B"; "C"]);
                     ("public.kern2.R", ["X"; "Z"])];
     font_features_text := None |}.

(** two dictionaries that answer every lookup alike *)
Definition map_eq {K V : Type} `{EqDec K} (d1 d2 : Dict.t K V) : Prop :=
  forall k, Dict.get k d1 = Dict.get k d2.

(** two results of a run: the same exception, or related values *)
Definition res_rel {A : Type} (R : A -> A -> Prop) (r1 r2 : result A) : Prop :=
  match r1, r2 with
  | Ok a1, Ok a2 => R a1 a2
  | Err e1, Err e2 => e1 = e2
  | _, _ => False
  end.

(** [swaps side l1 l2]: the list of rules [l2] is [l1] with neighbours
    exchanged, again and again, and never two rules with the same [side] *)
Inductive swaps (side : string * string -> string)
  : list (string * string * Z) -> list (string * string * Z) -> Prop :=
| swaps_refl : forall l, swaps side l l
| swaps_skip : forall x l l', swaps side l l' -> swaps side (x :: l) (x :: l')
| swaps_swap : forall x y l,
    side (fst x) <> side (fst y) -> swaps side (x :: y :: l) (y :: x :: l)
| swaps_trans : forall l1 l2 l3,
    swaps side l1 l2 -> swaps side l2 l3 -> swaps side l1 l3.

(** the states of two runs on fonts that differ in the order of the
    kerning table only: everything is the same but the order of the
    kerning table and the order, inside the two mixed buckets, of rules
    that have different glyphs *)
Record weq (w1 w2 : Writer) : Prop := {
  weq_groups : groups w1 = groups w2;
  weq_featxt : featxt w1 = featxt w2;
  weq_leftFea : leftFeaClasses w1 = leftFeaClasses w2;
  weq_rightFea : rightFeaClasses w1 = rightFeaClasses w2;
  weq_leftUfo : leftUfoClasses w1 = leftUfoClasses w2;
  weq_rightUfo : rightUfoClasses w1 = rightUfoClasses w2;
  weq_glyphPair : glyphPairKerning w1 = glyphPairKerning w2;
  weq_classPair : classPairKerning w1 = classPairKerning w2;
  weq_kerning_nodup1 : NoDup (Dict.keys (kerning w1));
  weq_kerning_nodup2 : NoDup (Dict.keys (kerning w2));
  weq_kerning : map_eq (kerning w1) (kerning w2);
  weq_left_nodup : NoDup (Dict.keys (leftClassKerning w1));
  weq_left : swaps snd (leftClassKerning w1) (leftClassKerning w2);
  weq_right_nodup : NoDup (Dict.keys (rightClassKerning w1));
  weq_right : swaps fst (rightClassKerning w1) (rightClassKerning w2)
}.

(** the states [(seen, bucket)] of two runs of a conflict loop agree on
    the pairs and the keys whose side is [t] *)
Definition view_eq (side : string * string -> string) (t : string)
  (s1 s2 : rules * rules) : Prop :=
  (forall p, side p = t -> Dict.mem p (fst s1) = Dict.mem p (fst s2)) /\
  (forall k, side k = t -> Dict.get k (snd s1) = Dict.get k (snd s2)).

(** the two states agree on every pair and key, and the buckets have no
    repeated key *)
Definition loop_eq (side : string * string -> string) (s1 s2 : rules * rules)
  : Prop :=
  NoDup (Dict.keys (snd s1)) /\ NoDup (Dict.keys (snd s2)) /\
  forall t, view_eq side t s1 s2.

(** two groups whose names give the same class name, listed in the two
    possible orders *)
Definition font_collide : Font :=
  {| font_kerning := [(("public.kern1.a b", "T"), 1%Z);
                      (("public.kern1.ab", "T"), 2%Z)];
     font_groups := [("public.kern1.a b", ["A"]); ("public.kern1.ab", ["B"])];
     font_features_text := None |}.


(** a feature text that declares one left kerning class, and a font whose
    kerning table has a rule of the key glyph of that class against a right
    group *)
Definition parse_left_class (_ : string)
  : result (list (string * list string)) :=
  Ok [("@MMK_L_A", ["A"; "Agrave"])].

Definition font_mixed : Font :=
  {| font_kerning := [(("A", "public.kern2.O"), (-20)%Z)];
     font_groups := [("public.kern2.O", ["O"])];
     font_features_text := Some "@MMK_L_A = [A Agrave];" |}.

(** ** Further predicates on the writer *)

(** every character of the string is in [A-Za-z0-9._] *)
Fixpoint all_legal (s : string) : bool :=
  match s with
  | EmptyString => true
  | String c s' => legal_char c && all_legal s'
  end.

(** the bucket [after] answers as the bucket [before] with the entries of
    the table [kern] that [sel] picks written over it *)
Definition takes (sel : kernKey -> bool) (kern before after : rules) : Prop :=
  forall k,
    Dict.get k after =
    match (if sel k then Dict.get k kern else None) with
    | Some v => Some v
    | None => Dict.get k before
    end.

(** the left side of the key names a class of [lcls]; the right side names
    a class of [rcls] *)
Definition isL (lcls : classes) (k : kernKey) : bool := Dict.mem (fst k) lcls.
Definition isR (rcls : classes) (k : kernKey) : bool := Dict.mem (snd k) rcls.

(** where the rules of the three class buckets come from, for the feature
    classes [lcls] and [rcls] and the kerning table [kern0] *)
Definition fea_rules_from (lcls rcls : classes) (kern0 : rules) (w0 w : Writer)
  : Prop :=
  (forall kv, In kv (kerning w) -> In kv kern0) /\
  (forall ln r v, In ((ln, r), v) (leftClassKerning w) ->
     In ((ln, r), v) (leftClassKerning w0) \/
     exists key rest, In (ln, key :: rest) lcls /\ In ((key, r), v) kern0) /\
  (forall l rn v, In ((l, rn), v) (rightClassKerning w) ->
     In ((l, rn), v) (rightClassKerning w0) \/
     exists key rest, In (rn, key :: rest) rcls /\ In ((l, key), v) kern0) /\
  (forall ln rn v, In ((ln, rn), v) (classPairKerning w) ->
     In ((ln, rn), v) (classPairKerning w0) \/
     exists lkey lrest rkey rrest,
       In (ln, lkey :: lrest) lcls /\ In (rn, rkey :: rrest) rcls /\
       In ((lkey, rkey), v) kern0).

(** a feature text in which the parser finds a left and a right kerning
    class, and a font whose kerning table has rules for their key glyphs *)
Definition parse_fea (_ : string) : result (list (string * list string)) :=
  Ok [("@MMK_L_A", ["A"; "Agrave"]); ("@MMK_R_o", ["o"; "e"]);
      ("@lowercase", ["a"; "b"])].

Definition font_fea : Font :=
  {| font_kerning := [(("A", "o"), (-20)%Z); (("A", "v"), (-10)%Z);
                      (("T", "o"), (-30)%Z); (("T", "x"), 5%Z);
                      (("Agrave", "v"), (-11)%Z)];
     font_groups := [];
     font_features_text := Some "@MMK_L_A = [A Agrave]; @MMK_R_o = [o e];" |}.

(** a feature text in which a class is defined twice, and a class is named
    by the prefix alone *)
Definition parse_redefined (_ : string)
  : result (list (string * list string)) :=
  Ok [("@MMK_L_A", ["A"]); ("@MMK_L_", ["x"]); ("@MMK_R_o", ["o"]);
      ("@MMK_L_A", ["A"; "Agrave"])].

(** every class side of a rule of the three class buckets names a class of
    the registry, and no bucket has a key twice *)
Definition buckets_resolvable (w : Writer) : Prop :=
  let leftClasses := Dict.update (leftFeaClasses w) (leftUfoClasses w) in
  let rightClasses := Dict.update (rightFeaClasses w) (rightUfoClasses w) in
  NoDup (Dict.keys (leftClassKerning w)) /\
  NoDup (Dict.keys (rightClassKerning w)) /\
  NoDup (Dict.keys (classPairKerning w)) /\
  (forall k, In k (Dict.keys (leftClassKerning w)) ->
             In (fst k) (Dict.keys leftClasses)) /\
  (forall k, In k (Dict.keys (rightClassKerning w)) ->
             In (snd k) (Dict.keys rightClasses)) /\
  (forall k, In k (Dict.keys (classPairKerning w)) ->
             In (fst k) (Dict.keys leftClasses) /\
             In (snd k) (Dict.keys rightClasses)).

(** what the loops of [_collectFeaClassKerning] leave alone, and the keys
    of the buckets stay distinct *)
Definition fea_stage_frame (w w' : Writer) : Prop :=
  groups w' = groups w /\
  leftFeaClasses w' = leftFeaClasses w /\ rightFeaClasses w' = rightFeaClasses w /\
  leftUfoClasses w' = leftUfoClasses w /\ rightUfoClasses w' = rightUfoClasses w /\
  glyphPairKerning w' = glyphPairKerning w /\
  NoDup (Dict.keys (leftClassKerning w')) /\
  NoDup (Dict.keys (rightClassKerning w')) /\
  NoDup (Dict.keys (classPairKerning w')).

(** the side [name'] that conflict resolution gives to a rule on the class
    [name]: the class itself when all its members are kept, else the list
    of the members kept; and no member kept makes, with the glyph on the
    other side of the rule, a pair that has a glyph pair rule in [gp]
    ([mk g] is the pair of the member [g] and that other glyph) *)
Definition kept_from (cls : classes) (gp : rules) (mk : string -> kernKey)
  (name name' : string) : Prop :=
  exists members kept,
    Dict.get name cls = Some members /\ incl kept members /\
    (name' = name /\ kept = members \/ name' = _liststr kept) /\
    forall g, In g kept -> Dict.get (mk g) gp = None.

(** a font with a group that is no kerning group, and a feature parser
    that reports a class that is no kerning class *)
Definition font_flat : Font :=
  {| font_kerning := [(("T", "o"), (-30)%Z); (("A", "V"), (-80)%Z)];
     font_groups := [("lowercase", ["a"; "o"])];
     font_features_text := None |}.

Definition parse_other (_ : string) : result (list (string * list string)) :=
  Ok [("@lowercase", ["a"; "o"])].

(** every value of the table [d] is a value of the table [kern0] *)
Definition values_from (kern0 d : rules) : Prop :=
  forall k v, In (k, v) d -> exists k0, In (k0, v) kern0.

(** * ufo2ft: the feature compiler (Lib/ufo2ft/makeotfParts.py)

    ** The maximal context, [maxCtxFont]

    The functions read compiled layout tables, which are objects of the
    font library.  An object is modelled by its attributes, with the kinds
    of values that the library stores in them: integers (formats and
    counts), objects, lists whose entries are objects or [None], and
    dictionaries from glyph names to such lists.  Reading an attribute that
    the object lacks, or any attribute of [None], raises [AttributeError];
    it is the only exception these functions can meet. *)

#[local] Unset Elimination Schemes.
Inductive obj : Type :=
| Obj (ints : list (string * Z))
      (objs : list (string * obj))
      (lists : list (string * list (option obj)))
      (dicts : list (string * list (string * list (option obj)))).
#[local] Set Elimination Schemes.

Inductive outcome (A : Type) : Type :=
| Returns (a : A)
| AttributeError.

Arguments Returns {A} a.
Arguments AttributeError {A}.

Definition and_then {A B : Type} (m : outcome A) (f : A -> outcome B) : outcome B :=
  match m with
  | Returns a => f a
  | AttributeError => AttributeError
  end.

Notation "x <~ m ;; k" := (and_then m (fun x => k))
  (at level 61, m at next level, right associativity).

(** [for x in xs: s = body(s, x)], ended by the first exception *)
Fixpoint for_each {A S : Type} (body : S -> A -> outcome S) (xs : list A) (s : S)
  : outcome S :=
  match xs with
  | [] => Returns s
  | x :: xs' => s' <~ body s x ;; for_each body xs' s'
  end.

Definition of_option {A : Type} (v : option A) : outcome A :=
  match v with
  | Some a => Returns a
  | None => AttributeError
  end.

(** [o.name] for an attribute of each kind *)
Definition attr_int (o : obj) (name : string) : outcome Z :=
  match o with Obj ints _ _ _ => of_option (Dict.get name ints) end.

Definition attr_obj (o : obj) (name : string) : outcome obj :=
  match o with Obj _ objs _ _ => of_option (Dict.get name objs) end.

Definition attr_list (o : obj) (name : string) : outcome (list (option obj)) :=
  match o with Obj _ _ lists _ => of_option (Dict.get name lists) end.

Definition attr_dict (o : obj) (name : string)
  : outcome (list (string * list (option obj))) :=
  match o with Obj _ _ _ dicts => of_option (Dict.get name dicts) end.

(** [hasattr(o, name)], asked of an integer attribute *)
Definition hasattr (o : obj) (name : string) : bool :=
  match o with Obj ints _ _ _ => Dict.mem name ints end.

(** [x.name] for an entry [x] of a list, which may be [None] *)
Definition entry_int (x : option obj) (name : string) : outcome Z :=
  o <~ of_option x ;; attr_int o name.

(** [maxCtxContextualRule(maxCtx, st, chain)]; the callers pass the
    strings [''] and ['Chain'] and the value [True] for [chain], of which
    only the truth value is used *)
Definition maxCtxContextualRule (maxCtx : Z) (st : obj) (chain : bool)
  : outcome Z :=
  if negb chain then
    glyphCount <~ attr_int st "GlyphCount" ;;
    Returns (Z.max maxCtx glyphCount)
  else
    inputCount <~ (if hasattr st "InputGlyphCount"
                   then attr_int st "InputGlyphCount" else Returns 1%Z) ;;
    lookAhead <~ attr_int st "LookAheadGlyphCount" ;;
    backtrack <~ attr_int st "BacktrackGlyphCount" ;;
    Returns (Z.max (Z.max maxCtx (inputCount + lookAhead))
                   (inputCount + backtrack)).

(** the truth value of a string *)
Definition truthy (s : string) : bool :=
  match s with EmptyString => false | _ => true end.

(** the loop over the rules of a rule set, and the loop over the rule
    sets, of which the attribute names end in [setSuffix] and
    [ruleSuffix] *)
Definition ruleLoop (chain : string) (maxCtx : Z) (rules_ : list (option obj))
  : outcome Z :=
  for_each (fun maxCtx rule =>
              match rule with
              | None => Returns maxCtx
              | Some rule => maxCtxContextualRule maxCtx rule (truthy chain)
              end) rules_ maxCtx.

Definition ruleSetLoop (chain ruleType ruleSuffix : string) (maxCtx : Z)
  (rulesets : list (option obj)) : outcome Z :=
  for_each (fun maxCtx ruleset =>
              match ruleset with
              | None => Returns maxCtx
              | Some ruleset =>
                  rules_ <~ attr_list ruleset (chain ++ ruleType ++ ruleSuffix) ;;
                  ruleLoop chain maxCtx rules_
              end) rulesets maxCtx.

(** [maxCtxContextualSubtable(maxCtx, st, ruleType, chain='')] *)
Definition maxCtxContextualSubtable (maxCtx : Z) (st : obj)
  (ruleType chain : string) : outcome Z :=
  format <~ attr_int st "Format" ;;
  if (format =? 1)%Z then
    rulesets <~ attr_list st (chain ++ ruleType ++ "RuleSet") ;;
    ruleSetLoop chain ruleType "Rule" maxCtx rulesets
  else if (format =? 2)%Z then
    rulesets <~ attr_list st (chain ++ ruleType ++ "ClassSet") ;;
    ruleSetLoop chain ruleType "ClassRule" maxCtx rulesets
  else if (format =? 3)%Z then
    maxCtxContextualRule maxCtx st (truthy chain)
  else Returns maxCtx.

(** the branch of [maxCtxSubtable] for pair positioning *)
Definition pairPosCtx (maxCtx : Z) (st : obj) : outcome Z :=
  format <~ attr_int st "Format" ;;
  ruleCount <~ (if (format =? 1)%Z then attr_int st "PairSetCount"
                else if (format =? 2)%Z then
                  class1Count <~ attr_int st "Class1Count" ;;
                  class2Count <~ attr_int st "Class2Count" ;;
                  Returns (class1Count * class2Count)%Z
                else Returns 0%Z) ;;
  Returns (if (ruleCount >? 0)%Z then Z.max maxCtx 2 else maxCtx).

(** the branch for mark-to-ligature positioning *)
Definition markLigPosCtx (maxCtx : Z) (st : obj) : outcome Z :=
  ligatureArray <~ attr_obj st "LigatureArray" ;;
  ligatureAttach <~ attr_list ligatureArray "LigatureAttach" ;;
  for_each (fun maxCtx ligature =>
              componentCount <~ entry_int ligature "ComponentCount" ;;
              Returns (Z.max maxCtx (1 + componentCount)))
           ligatureAttach maxCtx.

(** the branch for ligature substitution *)
Definition ligatureSubstCtx (maxCtx : Z) (st : obj) : outcome Z :=
  ligatures <~ attr_dict st "ligatures" ;;
  for_each (fun maxCtx ligatures =>
              for_each (fun maxCtx ligature =>
                          compCount <~ entry_int ligature "CompCount" ;;
                          Returns (Z.max maxCtx compCount))
                       ligatures maxCtx)
           (map snd ligatures) maxCtx.

(** [maxCtxSubtable(maxCtx, tag, lookupType, st)].  The call on the
    subtable of an extension is the only recursive one; [st.ExtSubTable]
    is looked up by the inner function, in the object attributes of [st]. *)
Fixpoint maxCtxSubtable (maxCtx : Z) (tag : string) (lookupType : Z) (st : obj)
  {struct st} : outcome Z :=
  let gpos := String.eqb tag "GPOS" in
  let gsub := String.eqb tag "GSUB" in
  if gpos && (lookupType =? 2)%Z then pairPosCtx maxCtx st
  else if gpos && (lookupType =? 4)%Z then Returns maxCtx
  else if gpos && (lookupType =? 5)%Z then markLigPosCtx maxCtx st
  else if gpos && (lookupType =? 6)%Z then Returns maxCtx
  else if gsub && (lookupType =? 4)%Z then ligatureSubstCtx maxCtx st
  else if gpos && (lookupType =? 7)%Z || gsub && (lookupType =? 5)%Z then
    maxCtxContextualSubtable maxCtx st (if gpos then "Pos" else "Sub") ""
  else if gpos && (lookupType =? 8)%Z || gsub && (lookupType =? 6)%Z then
    maxCtxContextualSubtable maxCtx st (if gpos then "Pos" else "Sub") "Chain"
  else if gpos && (lookupType =? 9)%Z || gsub && (lookupType =? 7)%Z then
    extensionLookupType <~ attr_int st "ExtensionLookupType" ;;
    match st with
    | Obj _ objs _ _ =>
        (fix extSubTable (l : list (string * obj)) : outcome Z :=
           match l with
           | [] => AttributeError
           | (name, sub) :: l' =>
               if eq_dec "ExtSubTable" name
               then maxCtxSubtable maxCtx tag extensionLookupType sub
               else extSubTable l'
           end) objs
    end
  else if gsub && (lookupType =? 8)%Z then maxCtxContextualRule maxCtx st true
  else Returns maxCtx.

(** a lookup of a layout table: [lookup.LookupType] and
    [lookup.SubTable] *)
Record Lookup : Type := {
  LookupType : Z;
  SubTable : list obj
}.

(** a layout table [font[tag].table]: its [LookupList] is [None], or holds
    the list [LookupList.Lookup] *)
Record LayoutTable : Type := {
  LookupList : option (list Lookup)
}.

(** a compiled font, as far as [maxCtxFont] reads it: its layout tables
    by tag *)
Definition TTFont : Type := Dict.t string LayoutTable.

(** the two loops of [maxCtxFont] over the lookups of one table *)
Definition lookupLoop (tag : string) (maxCtx : Z) (lookups : list Lookup)
  : outcome Z :=
  for_each (fun maxCtx lookup =>
              for_each (fun maxCtx st =>
                          maxCtxSubtable maxCtx tag (LookupType lookup) st)
                       (SubTable lookup) maxCtx)
           lookups maxCtx.

(** [maxCtxFont(font)] *)
Definition maxCtxFont (font : TTFont) : outcome Z :=
  for_each (fun maxCtx tag =>
              match Dict.get tag font with
              | None => Returns maxCtx
              | Some table =>
                  match LookupList table with
                  | None => Returns maxCtx
                  | Some lookups => lookupLoop tag maxCtx lookups
                  end
              end)
           ["GSUB"; "GPOS"] 0%Z.

(** [f], a function of the running maximum, adds a maximum to it: from a
    running maximum [m >= 0] it gives the larger of [m] and what it gives
    from 0, and it fails from [m] when it fails from 0 *)
Definition adds_max (f : Z -> outcome Z) : Prop :=
  forall m, (0 <= m)%Z -> f m = (c <~ f 0%Z ;; Returns (Z.max m c)).

(** the subtables of the lookups of one table, each with the tag of the
    table and the type of its lookup *)
Definition subtablesOf (tag : string) (lookups : list Lookup)
  : list (string * Z * obj) :=
  flat_map (fun lookup => map (fun st => (tag, LookupType lookup, st))
                              (SubTable lookup)) lookups.

(** the subtables that [maxCtxFont] visits, in the order of the visit *)
Definition visited (font : TTFont) : list (string * Z * obj) :=
  flat_map (fun tag =>
              match Dict.get tag font with
              | None => []
              | Some table =>
                  match LookupList table with
                  | None => []
                  | Some lookups => subtablesOf tag lookups
                  end
              end) ["GSUB"; "GPOS"].

(** one visit: [maxCtxSubtable] on a subtable with its tag and type *)
Definition visit (maxCtx : Z) (x : string * Z * obj) : outcome Z :=
  maxCtxSubtable maxCtx (fst (fst x)) (snd (fst x)) (snd x).

(** the context of one subtable: what [maxCtxSubtable] makes of it from
    the maximum 0 *)
Definition context_of (x : string * Z * obj) : outcome Z := visit 0 x.

(** a pair positioning subtable with three pair sets, a ligature
    substitution subtable with ligatures of two and three components, and
    an extension subtable that wraps it *)
Definition st_pairpos : obj :=
  Obj [("Format", 1%Z); ("PairSetCount", 3%Z)] [] [] [].

Definition st_ligature : obj :=
  Obj [] [] []
      [("ligatures",
        [("f", [Some (Obj [("CompCount", 2%Z)] [] [] []);
                Some (Obj [("CompCount", 3%Z)] [] [] [])])])].

Definition st_extension : obj :=
  Obj [("ExtensionLookupType", 4%Z)] [("ExtSubTable", st_ligature)] [] [].

(** a chaining substitution subtable of format 1 with one rule, and a
    reverse chaining subtable *)
Definition st_chain : obj :=
  Obj [("Format", 1%Z)] []
      [("ChainSubRuleSet",
        [None;
         Some (Obj [] []
                   [("ChainSubRule",
                     [None;
                      Some (Obj [("BacktrackGlyphCount", 2%Z);
                                 ("LookAheadGlyphCount", 1%Z);
                                 ("InputGlyphCount", 3%Z)] [] [] [])])] [])])]
      [].

Definition st_reverse : obj :=
  Obj [("BacktrackGlyphCount", 2%Z); ("LookAheadGlyphCount", 4%Z);
       ("GlyphCount", 1%Z)] [] [] [].


Definition ttfont_liga : TTFont :=
  [("GSUB", {| LookupList :=
                 Some [{| LookupType := 7; SubTable := [st_extension] |};
                       {| LookupType := 1; SubTable := [st_pairpos] |}] |});
   ("GPOS", {| LookupList :=
                 Some [{| LookupType := 2; SubTable := [st_pairpos] |}] |})].

Definition ttfont_liga_reordered : TTFont :=
  [("GPOS", {| LookupList :=
                 Some [{| LookupType := 2; SubTable := [st_pairpos] |}] |});
   ("GSUB", {| LookupList :=
                 Some [{| LookupType := 1; SubTable := [st_pairpos] |};
                       {| LookupType := 7; SubTable := [st_extension] |}] |})].

(** ** The anchor pairs, [FeatureOTFCompiler.setupAnchorPairs]

    The compiler iterates over the glyphs of the font and over the anchors
    of each glyph; an anchor has a name or [None].  [print] appends a line
    to the standard output. *)

Record Anchor : Type := {
  anchor_name : option string
}.

Record Glyph : Type := {
  glyph_name : string;
  anchors : list Anchor
}.

(** what [setupAnchorPairs] sets and prints *)
Record AnchorSetup : Type := {
  anchorPairs : list (string * string);
  mkmkAnchorPairs : list (string * string);
  printed : list string
}.

(** the two nested loops that collect the anchor names; the state is
    [(anchorNames, printed)] *)
Definition anchorName_body (glyph : Glyph) (s : list string * list string)
  (anchor : Anchor) : list string * list string :=
  let '(anchorNames, out) := s in
  match anchor_name anchor with
  | None =>
      (anchorNames,
       out ++ [("warning: unnamed anchor discarded in " ++ glyph_name glyph)%string])
  | Some name => (PySet.add name anchorNames, out)
  end.

Definition collectAnchorNames (font : list Glyph) : list string * list string :=
  fold_left (fun s glyph => fold_left (anchorName_body glyph) (anchors glyph) s)
            font ([], []).

(** the loop over the sorted names *)
Definition anchorPair_body (anchorNames : list string)
  (pairs : list (string * string)) (baseName : string) : list (string * string) :=
  let accentName := ("_" ++ baseName)%string in
  if PySet.memb accentName anchorNames
  then pairs ++ [(baseName, accentName)]
  else pairs.

(** [setupAnchorPairs()] *)
Definition setupAnchorPairs (font : list Glyph) : AnchorSetup :=
  let '(anchorNames, out) := collectAnchorNames font in
  {| anchorPairs :=
       fold_left (anchorPair_body anchorNames) (sorted_strings anchorNames) [];
     mkmkAnchorPairs := [];
     printed := out |}.

(** the names of the named anchors of the font *)
Definition named_anchors (font : list Glyph) : list string :=
  flat_map (fun glyph =>
              flat_map (fun anchor =>
                          match anchor_name anchor with
                          | Some name => [name]
                          | None => []
                          end) (anchors glyph)) font.

(** three glyphs with anchors, one of which has no name *)
Definition glyphs_marks : list Glyph :=
  [{| glyph_name := "a";
      anchors := [{| anchor_name := Some "top" |};
                  {| anchor_name := Some "bottom" |}] |};
   {| glyph_name := "acutecomb";
      anchors := [{| anchor_name := Some "_top" |};
                  {| anchor_name := None |};
                  {| anchor_name := Some "top" |}] |};
   {| glyph_name := "ogonekcomb";
      anchors := [{| anchor_name := Some "_ogonek" |}] |}].

(** ** Include statements, [forceAbsoluteIncludesInFeatures]

    The regular expression engine and [os.path] are libraries outside the
    repository; they are parameters.  A match object gives [start()],
    [end()] and the three groups of [includeRE]: the text up to the path,
    the path, and the closing text. *)

Record Match : Type := {
  m_start : nat;
  m_end : nat;
  m_groups : string * string * string
}.

(** [s[:n]] and [s[n:]] *)
Fixpoint take (n : nat) (s : string) : string :=
  match n, s with
  | S n', String c s' => String c (take n' s')
  | _, _ => EmptyString
  end.

Fixpoint drop (n : nat) (s : string) : string :=
  match n, s with
  | S n', String _ s' => drop n' s'
  | _, _ => s
  end.

Section Includes.
(** [includeRE.finditer(text)], [os.path.isabs], [os.path.join],
    [os.path.normpath] and [str.strip] *)
Variable finditer : string -> list Match.
Variable isabs : string -> bool.
Variable path_join : string -> string -> string.
Variable normpath : string -> string.
Variable strip : string -> string.

(** the text that replaces a match *)
Definition includeText (directory : string) (groups_ : string * string * string)
  : string :=
  let '(start, includePath, close) := groups_ in
  let srcPath := normpath (path_join directory (strip includePath)) in
  (start ++ srcPath ++ close)%string.

(** one round of the loop *)
Definition include_body (directory : string) (text : string) (m : Match)
  : string :=
  let '(start, includePath, close) := m_groups m in
  if isabs includePath then text
  else (take (m_start m) text ++ includeText directory (m_groups m)
        ++ drop (m_end m) text)%string.

(** [forceAbsoluteIncludesInFeatures(text, directory)] *)
Definition forceAbsoluteIncludesInFeatures (text directory : string) : string :=
  fold_left (include_body directory) (List.rev (finditer text)) text.

(** *** What the matches of a text are

    A text with its matches is a sequence of pieces, each the text before
    a match and the three groups of the match, and the text after the last
    match.  The matches that an engine reports for it are at the positions
    of the pieces. *)
Definition piece : Type := string * (string * string * string).

Definition matched (g : string * string * string) : string :=
  let '(start, includePath, close) := g in (start ++ includePath ++ close)%string.

Fixpoint text_of (pieces : list piece) (rest : string) : string :=
  match pieces with
  | [] => rest
  | (before, g) :: pieces' =>
      (before ++ matched g ++ text_of pieces' rest)%string
  end.

Fixpoint matches_at (pos : nat) (pieces : list piece) : list Match :=
  match pieces with
  | [] => []
  | (before, g) :: pieces' =>
      let s := pos + String.length before in
      let e := s + String.length (matched g) in
      {| m_start := s; m_end := e; m_groups := g |} :: matches_at e pieces'
  end.

(** the text with every relative include made absolute *)
Fixpoint rewritten (directory : string) (pieces : list piece) (rest : string)
  : string :=
  match pieces with
  | [] => rest
  | (before, g) :: pieces' =>
      (before
       ++ (if isabs (snd (fst g)) then matched g else includeText directory g)
       ++ rewritten directory pieces' rest)%string
  end.
End Includes.

(** a feature text with a relative and an absolute include, cut at its
    matches; an engine that reports these matches; and path functions for
    the witness *)
Definition include_pieces : list piece :=
  [("languagesystem DFLT dflt; ", ("include(", "family.fea", ")"));
   ((";" ++ LF)%string, ("include (", "/usr/share/kern.fea", ")"))].

Definition include_text : string := text_of include_pieces (";" ++ LF)%string.

Definition include_matches (_ : string) : list Match := matches_at 0 include_pieces.

Definition posix_isabs (p : string) : bool :=
  match p with String "/"%char _ => true | _ => false end.

Definition posix_join (a b : string) : string := (a ++ "/" ++ b)%string.

(** ** The feature text, [FeatureOTFCompiler.setupFile_features]

    *** The three regular expressions

    [kernRE] is [feature\s+kern\s+{.*?}\s+kern\s*;], compiled with
    [DOTALL]; [markRE] and [mkmkRE] are the same text with [mark] and
    [mkmk] in the place of [kern].  An expression of this kind is a
    sequence of atoms, matched from left to right with backtracking, each
    atom trying its alternatives in the order of the engine: [\s+] and
    [\s*] the longest run of white space first, [.*?] the shortest text
    first.  White space is [ \t\n\r\f\v]. *)

Inductive atom : Type :=
| Lit (s : string)   (* the characters of [s] *)
| Spaces (min : bool) (* [\s+] when [min], else [\s*] *)
| AnyLazy.           (* [.*?], with [DOTALL] *)

Definition regex : Type := list atom.

Definition featureRE (name : string) : regex :=
  [Lit "feature"; Spaces true; Lit name; Spaces true; Lit "{"; AnyLazy; Lit "}";
   Spaces true; Lit name; Spaces false; Lit ";"].

Definition kernRE : regex := featureRE "kern".
Definition markRE : regex := featureRE "mark".
Definition mkmkRE : regex := featureRE "mkmk".

Definition is_space (c : ascii) : bool :=
  let n := nat_of_ascii c in
  ((n =? 32) || ((9 <=? n) && (n <=? 13)))%nat.

(** [\s*] before the continuation [k]: one more white space if the rest
    then matches, else the continuation here *)
Fixpoint star_spaces (k : string -> option string) (s : string) : option string :=
  match s with
  | String c s' =>
      if is_space c
      then match star_spaces k s' with
           | Some r => Some r
           | None => k s
           end
      else k s
  | EmptyString => k s
  end.

(** [.*?] before the continuation [k]: the continuation here if it
    matches, else one more character *)
Fixpoint lazy_any (k : string -> option string) (s : string) : option string :=
  match k s with
  | Some r => Some r
  | None =>
      match s with
      | String _ s' => lazy_any k s'
      | EmptyString => None
      end
  end.

(** a match of the expression at the start of the text: the text after
    the match *)
Fixpoint match_here (re : regex) : string -> option string :=
  match re with
  | [] => fun s => Some s
  | a :: re' =>
      let k := match_here re' in
      match a with
      | Lit l => fun s =>
          match strip_prefix l s with
          | Some s' => k s'
          | None => None
          end
      | Spaces true => fun s =>
          match s with
          | String c s' => if is_space c then star_spaces k s' else None
          | EmptyString => None
          end
      | Spaces false => star_spaces k
      | AnyLazy => lazy_any k
      end
  end.

(** [re.search(text)], as a truth value *)
Fixpoint search (re : regex) (text : string) : bool :=
  match match_here re text with
  | Some _ => true
  | None =>
      match text with
      | String _ text' => search re text'
      | EmptyString => false
      end
  end.

(** [re.sub("", text)] for an expression that matches no empty text: the
    matches are taken out from left to right; [skip] counts the characters
    of a match that are still to be passed *)
Fixpoint sub_from (re : regex) (skip : nat) (text : string) : string :=
  match text with
  | EmptyString => EmptyString
  | String c text' =>
      match skip with
      | S skip' => sub_from re skip' text'
      | O =>
          match match_here re text with
          | Some rest =>
              sub_from re (String.length text' - String.length rest) text'
          | None => String c (sub_from re 0 text')
          end
      end
  end.

Definition sub (re : regex) (text : string) : string := sub_from re 0 text.

(** *** The compiler

    The kern writer and the mark writer are classes given to the
    constructor.  [kernWriter font] stands for [kernWriter(font).write()]:
    it gives the text, and the font as the writer leaves it, since the
    writer works on the kerning table of the font itself.
    [markWriter font pairs aliases mkmk] stands for
    [markWriter(font, pairs, aliases=aliases, mkmk=mkmk).write()]. *)

Record Compiler : Type := {
  c_font : Font;
  c_glyphs : list Glyph;
  mtiFeaFiles : option (list (string * string));
  c_anchorPairs : list (string * string);
  c_mkmkAnchorPairs : list (string * string);
  aliases : list (string * string);
  overwriteFeatures : bool;
  features : option string
}.

Definition with_font (f : Font) (c : Compiler) : Compiler :=
  {| c_font := f; c_glyphs := c_glyphs c; mtiFeaFiles := mtiFeaFiles c;
     c_anchorPairs := c_anchorPairs c; c_mkmkAnchorPairs := c_mkmkAnchorPairs c;
     aliases := aliases c; overwriteFeatures := overwriteFeatures c;
     features := features c |}.

Definition with_features (t : string) (c : Compiler) : Compiler :=
  {| c_font := c_font c; c_glyphs := c_glyphs c; mtiFeaFiles := mtiFeaFiles c;
     c_anchorPairs := c_anchorPairs c; c_mkmkAnchorPairs := c_mkmkAnchorPairs c;
     aliases := aliases c; overwriteFeatures := overwriteFeatures c;
     features := Some t |}.

(** [precompile()] *)
Definition precompile (c : Compiler) : Compiler :=
  {| c_font := c_font c; c_glyphs := c_glyphs c; mtiFeaFiles := mtiFeaFiles c;
     c_anchorPairs := c_anchorPairs c; c_mkmkAnchorPairs := c_mkmkAnchorPairs c;
     aliases := aliases c; overwriteFeatures := false;
     features := features c |}.

Section Compile.
Variable kernWriter : Font -> result (string * Font).
Variable markWriter :
  Font -> list (string * string) -> list (string * string) -> bool -> result string.

(** [writeFeatures_kern()], [writeFeatures_mark()], [writeFeatures_mkmk()] *)
Definition writeFeatures_kern (c : Compiler) : result (string * Compiler) :=
  r <- kernWriter (c_font c) ;;
  Ok (fst r, with_font (snd r) c).

Definition writeFeatures_mark (c : Compiler) : result string :=
  markWriter (c_font c) (c_anchorPairs c) (aliases c) false.

Definition writeFeatures_mkmk (c : Compiler) : result string :=
  markWriter (c_font c) (c_mkmkAnchorPairs c) (aliases c) true.

(** [setupFile_features()]; the state of its middle part is the compiler
    and the dictionary [autoFeatures] *)
Definition setupFile_features (c : Compiler) : result Compiler :=
  match mtiFeaFiles c with
  | Some _ => Ok c
  | None =>
      let existing :=
        match font_features_text (c_font c) with Some t => t | None => "" end in
      let autoFeatures : Dict.t string string := [] in
      s1 <- (if overwriteFeatures c || negb (search kernRE existing)
             then r <- writeFeatures_kern c ;;
                  Ok (snd r, Dict.set "kern" (fst r) autoFeatures)
             else Ok (c, autoFeatures)) ;;
      let '(c, autoFeatures) := s1 in
      autoFeatures <-
        (if overwriteFeatures c || negb (search markRE existing)
         then t <- writeFeatures_mark c ;; Ok (Dict.set "mark" t autoFeatures)
         else Ok autoFeatures) ;;
      autoFeatures <-
        (if overwriteFeatures c || negb (search mkmkRE existing)
         then t <- writeFeatures_mkmk c ;; Ok (Dict.set "mkmk" t autoFeatures)
         else Ok autoFeatures) ;;
      let existing :=
        if overwriteFeatures c
        then sub kernRE (sub markRE (sub mkmkRE existing))
        else existing in
      let features_ := existing :: map snd (sorted_by String.leb autoFeatures) in
      Ok (with_features (join (LF ++ LF) features_) c)
  end.
End Compile.

(** [KernFeatureWriter] as the kern writer of the compiler: the text that
    [write()] returns, and the font with the kerning table as the writer
    leaves it *)
Definition KernFeatureWriter
  (parseFeatures : string -> result (list (string * list string)))
  (font : Font) : result (string * Font) :=
  w' <- collect parseFeatures (init font) ;;
  text <- write parseFeatures (init font) LF ;;
  Ok (text, {| font_kerning := kerning w';
               font_groups := font_groups font;
               font_features_text := font_features_text font |}).

(** a compiler for a font whose feature text has a kern feature, and a
    mark writer that writes nothing *)
Definition compiler_with_kern : Compiler :=
  {| c_font := {| font_kerning := [(("A", "V"), (-80)%Z)];
                  font_groups := [];
                  font_features_text :=
                    Some ("feature kern {" ++ LF ++ "    pos A V -75;" ++ LF
                          ++ "} kern;")%string |};
     c_glyphs := [];
     mtiFeaFiles := None;
     c_anchorPairs := []; c_mkmkAnchorPairs := []; aliases := [];
     overwriteFeatures := false;
     features := None |}.

Definition no_marks (_ : Font) (_ _ : list (string * string)) (_ : bool)
  : result string := Ok "".
(** ** Facts about dictionaries *)

Section DictFacts.
Context {K V : Type} `{EqDec K}.
Implicit Types (d : Dict.t K V) (k : K) (v : V).

Lemma get_set k' k v d :
  Dict.get k' (Dict.set k v d) = if eq_dec k' k then Some v else Dict.get k' d.
Proof.
  induction d as [|[k0 v0] d IH]; simpl.
  - destruct (eq_dec k' k); reflexivity.
  - destruct (eq_dec k k0) as [->|Hk]; simpl.
    + destruct (eq_dec k' k0); reflexivity.
    + destruct (eq_dec k' k0) as [->|Hk'].
      * destruct (eq_dec k0 k); congruence.
      * exact IH.
Qed.

Lemma get_set_same k v d : Dict.get k (Dict.set k v d) = Some v.
Proof. rewrite get_set. destruct (eq_dec k k); congruence. Qed.

Lemma get_set_other k' k v d :
  k' <> k -> Dict.get k' (Dict.set k v d) = Dict.get k' d.
Proof. intros. rewrite get_set. destruct (eq_dec k' k); congruence. Qed.

Lemma get_Some_In k v d : Dict.get k d = Some v -> In (k, v) d.
Proof.
  induction d as [|[k0 v0] d IH]; simpl; [discriminate|].
  destruct (eq_dec k k0) as [->|]; intros E.
  - left. congruence.
  - right. auto.
Qed.

Lemma get_None_keys k d : Dict.get k d = None <-> ~ In k (Dict.keys d).
Proof.
  induction d as [|[k0 v0] d IH]; simpl.
  - tauto.
  - destruct (eq_dec k k0) as [->|Hk].
    + split; [discriminate | intros N; exfalso; auto].
    + rewrite IH. split; [intros N [E|I]; [congruence | auto] | tauto].
Qed.

Lemma mem_keys k d : Dict.mem k d = true <-> In k (Dict.keys d).
Proof.
  unfold Dict.mem. destruct (Dict.get k d) eqn:E.
  - split; [intros _ | reflexivity].
    apply get_Some_In in E. apply (in_map fst) in E. exact E.
  - apply get_None_keys in E. split; [discriminate | tauto].
Qed.

Lemma mem_false_keys k d : Dict.mem k d = false <-> ~ In k (Dict.keys d).
Proof.
  rewrite <- mem_keys. destruct (Dict.mem k d); split; congruence.
Qed.

Lemma In_get k v d : NoDup (Dict.keys d) -> In (k, v) d -> Dict.get k d = Some v.
Proof.
  induction d as [|[k0 v0] d IH]; simpl; [tauto|].
  intros ND [E|I].
  - inversion E; subst. destruct (eq_dec k k); congruence.
  - inversion ND; subst. destruct (eq_dec k k0) as [->|].
    + exfalso. apply H2. apply (in_map fst) in I. exact I.
    + auto.
Qed.

Lemma keys_set k v d :
  Dict.keys (Dict.set k v d) =
  if Dict.mem k d then Dict.keys d else Dict.keys d ++ [k].
Proof.
  unfold Dict.mem.
  induction d as [|[k0 v0] d IH]; simpl; [reflexivity|].
  destruct (eq_dec k k0) as [->|Hk]; simpl; [reflexivity|].
  fold (Dict.keys (Dict.set k v d)). rewrite IH.
  destruct (Dict.get k d); reflexivity.
Qed.

Lemma In_keys_set k' k v d :
  In k' (Dict.keys (Dict.set k v d)) <-> k' = k \/ In k' (Dict.keys d).
Proof.
  rewrite keys_set. destruct (Dict.mem k d) eqn:E.
  - apply mem_keys in E. split; [tauto | intros [->|]; auto].
  - rewrite in_app_iff. simpl. intuition congruence.
Qed.

Lemma NoDup_keys_set k v d :
  NoDup (Dict.keys d) -> NoDup (Dict.keys (Dict.set k v d)).
Proof.
  intros ND. rewrite keys_set. destruct (Dict.mem k d) eqn:E; [exact ND|].
  apply mem_false_keys in E.
  apply NoDup_app; [exact ND | repeat constructor; simpl; tauto |].
  intros x Hx [<-|[]]. auto.
Qed.

Lemma In_set kv k v d : In kv (Dict.set k v d) -> kv = (k, v) \/ In kv d.
Proof.
  induction d as [|[k0 v0] d IH]; simpl.
  - intros [<-|[]]. auto.
  - destruct (eq_dec k k0) as [->|Hk]; simpl.
    + intros [<-|I]; auto.
    + intros [<-|I]; auto. destruct (IH I); auto.
Qed.

Lemma In_remove kv k d : In kv (Dict.remove k d) -> In kv d.
Proof.
  induction d as [|[k0 v0] d IH]; simpl; [tauto|].
  destruct (eq_dec k k0); simpl; intuition.
Qed.

Lemma In_keys_remove k' k d :
  In k' (Dict.keys (Dict.remove k d)) -> In k' (Dict.keys d).
Proof.
  unfold Dict.keys. rewrite !in_map_iff. intros [kv [E I]].
  exists kv. split; [exact E | eapply In_remove; eauto].
Qed.

Lemma NoDup_keys_remove k d :
  NoDup (Dict.keys d) -> NoDup (Dict.keys (Dict.remove k d)).
Proof.
  induction d as [|[k0 v0] d IH]; simpl; [auto|].
  intros ND. inversion ND; subst.
  destruct (eq_dec k k0); [assumption|]. simpl. constructor; auto.
  intros I. apply H2. eapply In_keys_remove; eauto.
Qed.

Lemma get_remove k' k d :
  NoDup (Dict.keys d) ->
  Dict.get k' (Dict.remove k d) = if eq_dec k' k then None else Dict.get k' d.
Proof.
  induction d as [|[k0 v0] d IH]; simpl; intros ND.
  - destruct (eq_dec k' k); reflexivity.
  - inversion ND; subst. destruct (eq_dec k k0) as [->|Hk]; simpl.
    + destruct (eq_dec k' k0) as [->|]; [|reflexivity].
      apply get_None_keys. assumption.
    + destruct (eq_dec k' k0) as [->|].
      * destruct (eq_dec k0 k); congruence.
      * auto.
Qed.

Lemma keys_remove_other k' k d :
  k' <> k -> In k' (Dict.keys d) -> In k' (Dict.keys (Dict.remove k d)).
Proof.
  intros Hne. induction d as [|[k0 v0] d IH]; simpl; [tauto|].
  destruct (eq_dec k k0) as [->|]; simpl.
  - intros [E|I]; [congruence | exact I].
  - intros [E|I]; auto.
Qed.

Lemma del_Ok k d d' :
  Dict.del k d = Ok d' -> d' = Dict.remove k d /\ In k (Dict.keys d).
Proof.
  unfold Dict.del. destruct (Dict.mem k d) eqn:E; [|discriminate].
  intros E'. inversion E'. split; [reflexivity | apply mem_keys; exact E].
Qed.

Lemma del_present k d :
  In k (Dict.keys d) -> Dict.del k d = Ok (Dict.remove k d).
Proof.
  intros I. unfold Dict.del. apply mem_keys in I. rewrite I. reflexivity.
Qed.

Lemma NoDup_keys_update d d2 :
  NoDup (Dict.keys d) -> NoDup (Dict.keys (Dict.update d d2)).
Proof.
  unfold Dict.update. revert d.
  induction d2 as [|[k v] d2 IH]; simpl; intros d ND; [exact ND|].
  apply IH. apply NoDup_keys_set. exact ND.
Qed.

Lemma get_update k d d2 :
  NoDup (Dict.keys d2) ->
  Dict.get k (Dict.update d d2) =
  match Dict.get k d2 with Some v => Some v | None => Dict.get k d end.
Proof.
  unfold Dict.update. revert d.
  induction d2 as [|[k2 v2] d2 IH]; simpl; intros d ND; [reflexivity|].
  inversion ND; subst. rewrite IH by assumption.
  destruct (eq_dec k k2) as [->|Hk].
  - assert (E : Dict.get k2 d2 = None) by (apply get_None_keys; assumption).
    rewrite E. apply get_set_same.
  - destruct (Dict.get k d2); [reflexivity|]. apply get_set_other. exact Hk.
Qed.
End DictFacts.

(** ** Facts about the monad and the loops *)

Lemma bind_Ok {A B : Type} (m : result A) (f : A -> result B) (b : B) :
  bind m f = Ok b -> exists a, m = Ok a /\ f a = Ok b.
Proof. destruct m; simpl; [eauto | discriminate]. Qed.

(** an invariant kept by every round of a loop holds when the loop ends *)
Lemma forM_invariant {A S : Type} (body : A -> S -> result S) (P : S -> Prop)
  (xs : list A) :
  (forall x s s', In x xs -> P s -> body x s = Ok s' -> P s') ->
  forall s s', P s -> forM body xs s = Ok s' -> P s'.
Proof.
  induction xs as [|x xs IH]; simpl; intros Hb s s' Hs E.
  - inversion E; subst. exact Hs.
  - apply bind_Ok in E. destruct E as [s1 [E1 E2]].
    apply IH with (s := s1); eauto.
Qed.

(** ** Nothing to write *)

Lemma collect_empty_font parse (font : Font) :
  parse (featxt (init font)) = Ok [] ->
  font_kerning font = [] -> font_groups font = [] ->
  collect parse (init font) = Ok (init font).
Proof.
  intros Hp Hk Hg. unfold collect, registry, _collectFeaClasses.
  rewrite Hp. simpl. unfold init. rewrite Hk, Hg. reflexivity.
Qed.

(** C5. When the buckets are all empty after collection and conflict
    resolution, [write] returns the empty string, whatever classes were
    collected; and a font with no kerning, no groups and an empty feature
    text (in which the parser finds no class) gives the empty string. *)
Theorem write_empty_when_no_rules
  (parse : string -> result (list (string * list string))) (linesep : string) :
  (forall w w', collect parse w = Ok w' -> buckets_empty w' ->
                write parse w linesep = Ok "") /\
  (forall font, parse "" = Ok [] ->
                font_kerning font = [] -> font_groups font = [] ->
                font_features_text font = None \/ font_features_text font = Some "" ->
                write parse (init font) linesep = Ok "").
Proof.
  assert (P1 : forall w w', collect parse w = Ok w' -> buckets_empty w' ->
                            write parse w linesep = Ok "").
  { intros w w' Hc (Hg & Hl & Hr & Hp). unfold write. rewrite Hc. simpl.
    rewrite Hg, Hl, Hr, Hp. reflexivity. }
  split; [exact P1|].
  intros font Hparse Hk Hg Ht.
  assert (Hf : featxt (init font) = "").
  { simpl. destruct Ht as [-> | ->]; reflexivity. }
  apply P1 with (w' := init font).
  - apply collect_empty_font; [rewrite Hf; exact Hparse | exact Hk | exact Hg].
  - unfold buckets_empty. simpl. auto.
Qed.

Lemma write_empty_when_no_rules_witness :
  write parse_no_classes (init font_groups_only) LF = Ok "" /\
  write parse_no_classes (init font_empty) LF = Ok "".
Proof.
  destruct (write_empty_when_no_rules parse_no_classes LF) as [P1 P2].
  split.
  - eapply P1; [vm_compute; reflexivity | vm_compute; auto].
  - apply P2; [reflexivity | reflexivity | reflexivity | left; reflexivity].
Defined.

(** ** Empty feature classes *)

#[local] Arguments feaLeft_body : simpl never.
#[local] Arguments feaRight_body : simpl never.

(** the inner loop over the right classes stops with [IndexError] exactly
    when one of them has no member *)
Lemma feaClassPair_loop leftName leftKey (rcls : classes) s :
  (has_empty_class rcls /\
   forM (feaClassPair_body leftName leftKey) rcls s = Err IndexError) \/
  (~ has_empty_class rcls /\
   exists s', forM (feaClassPair_body leftName leftKey) rcls s = Ok s').
Proof.
  revert s. induction rcls as [|[rn rc] rcls IH]; intros [kern cpk]; simpl.
  - right. split; [intros [n []] | eauto].
  - destruct rc as [|g rc]; simpl.
    + left. split; [exists rn; simpl; auto | reflexivity].
    + destruct (Dict.get (leftKey, g) kern); simpl;
        match goal with |- context [forM _ rcls ?s0] =>
          destruct (IH s0) as [[He E]|[He [s' E]]] end;
        rewrite E;
        try (left; split; [destruct He as [n I]; exists n; simpl; auto
                          | reflexivity]);
        right; (split; [intros [n [I|I]]; [inversion I | apply He; exists n; exact I]
                       | eauto]).
Qed.

Lemma feaLeft_body_classes cls w w' :
  feaLeft_body cls w = Ok w' ->
  leftFeaClasses w' = leftFeaClasses w /\ rightFeaClasses w' = rightFeaClasses w.
Proof.
  destruct cls as [ln lc]. unfold feaLeft_body. intros E.
  apply bind_Ok in E. destruct E as [lk [_ E]].
  apply bind_Ok in E. destruct E as [[kern cpk] [_ E]].
  destruct (fold_left _ _ _) as [kern' lck]. inversion E; subst. simpl. auto.
Qed.

Lemma feaLeft_body_result ln lc w :
  match feaLeft_body (ln, lc) w with
  | Ok _ => lc <> [] /\ ~ has_empty_class (rightFeaClasses w)
  | Err e => e = IndexError /\ (lc = [] \/ has_empty_class (rightFeaClasses w))
  end.
Proof.
  unfold feaLeft_body. destruct lc as [|g lc]; simpl; [auto|].
  destruct (feaClassPair_loop ln g (rightFeaClasses w)
              (kerning w, classPairKerning w)) as [[He E]|[He [[kern cpk] E]]];
    rewrite E; simpl; [auto|].
  destruct (fold_left _ _ _) as [kern' lck]. split; [discriminate | exact He].
Qed.

Lemma feaLeft_loop (lcls : classes) w :
  match forM feaLeft_body lcls w with
  | Ok w' => ~ has_empty_class lcls /\
             rightFeaClasses w' = rightFeaClasses w /\
             leftFeaClasses w' = leftFeaClasses w
  | Err e => e = IndexError
  end.
Proof.
  revert w. induction lcls as [|[ln lc] lcls IH]; intros w; simpl.
  - split; [intros [n []] | auto].
  - pose proof (feaLeft_body_result ln lc w) as Hb.
    destruct (feaLeft_body (ln, lc) w) as [w1|e] eqn:E1; simpl in *; [|tauto].
    apply feaLeft_body_classes in E1. destruct E1 as [El Er].
    specialize (IH w1). destruct (forM feaLeft_body lcls w1) as [w'|e]; [|exact IH].
    destruct IH as (He & Hr & Hl). split; [|split; congruence].
    intros [n [I|I]]; [inversion I; tauto | apply He; exists n; exact I].
Qed.

Lemma feaRight_body_result rn rc w :
  match feaRight_body (rn, rc) w with
  | Ok _ => rc <> []
  | Err e => e = IndexError /\ rc = []
  end.
Proof.
  unfold feaRight_body. destruct rc as [|g rc]; simpl; [auto|].
  destruct (fold_left _ _ _) as [kern' rck]. discriminate.
Qed.

Lemma feaRight_loop (rcls : classes) w :
  match forM feaRight_body rcls w with
  | Ok _ => ~ has_empty_class rcls
  | Err e => e = IndexError
  end.
Proof.
  revert w. induction rcls as [|[rn rc] rcls IH]; intros w; simpl.
  - intros [n []].
  - pose proof (feaRight_body_result rn rc w) as Hb.
    destruct (feaRight_body (rn, rc) w) as [w1|e]; simpl in *; [|tauto].
    specialize (IH w1). destruct (forM feaRight_body rcls w1); [|exact IH].
    intros [n [I|I]]; [inversion I; tauto | apply IH; exists n; exact I].
Qed.

(** [_collectFeaClassKerning] raises nothing but [IndexError], and it does
    raise it when a left or a right feature class has no member *)
Lemma _collectFeaClassKerning_result w :
  match _collectFeaClassKerning w with
  | Ok w' => ~ has_empty_class (leftFeaClasses w) /\
             ~ has_empty_class (rightFeaClasses w) /\
             leftFeaClasses w' = leftFeaClasses w /\
             rightFeaClasses w' = rightFeaClasses w
  | Err e => e = IndexError
  end.
Proof.
  unfold _collectFeaClassKerning.
  pose proof (feaLeft_loop (leftFeaClasses w) w) as HL.
  destruct (forM feaLeft_body (leftFeaClasses w) w) as [w1|e]; simpl; [|exact HL].
  destruct HL as (He & Hr & Hl).
  pose proof (feaRight_loop (rightFeaClasses w1) w1) as HR.
  destruct (forM feaRight_body (rightFeaClasses w1) w1) as [w2|e] eqn:E2; [|exact HR].
  rewrite Hr in HR. repeat split; try assumption.
  - revert E2.
    apply (@forM_invariant _ _ feaRight_body
             (fun s => leftFeaClasses s = leftFeaClasses w)); [|exact Hl].
    intros [rn rc] s s' _ Hs Hb. unfold feaRight_body in Hb.
    apply bind_Ok in Hb. destruct Hb as [g [_ Hb]].
    destruct (fold_left _ _ _) as [k r]. inversion Hb; subst. exact Hs.
  - revert E2.
    apply (@forM_invariant _ _ feaRight_body
             (fun s => rightFeaClasses s = rightFeaClasses w)); [|exact Hr].
    intros [rn rc] s s' _ Hs Hb. unfold feaRight_body in Hb.
    apply bind_Ok in Hb. destruct Hb as [g [_ Hb]].
    destruct (fold_left _ _ _) as [k r]. inversion Hb; subst. exact Hs.
Qed.

(** C9. [write] needs every feature-declared kerning class to have a
    member: when the classes collected from the feature text include a left
    or a right kerning class without members, the pass ends in [IndexError]
    and returns no text. *)
Theorem write_empty_fea_class_IndexError
  (parse : string -> result (list (string * list string)))
  (w w1 : Writer) (linesep : string) :
  _collectFeaClasses parse w = Ok w1 ->
  has_empty_class (leftFeaClasses w1) \/ has_empty_class (rightFeaClasses w1) ->
  write parse w linesep = Err IndexError.
Proof.
  intros E1 He. unfold write, collect, registry. rewrite E1. simpl.
  pose proof (_collectFeaClassKerning_result w1) as Hr.
  destruct (_collectFeaClassKerning w1) as [w2|e]; simpl.
  - destruct Hr as (Hl & Hr & _). tauto.
  - rewrite Hr. reflexivity.
Qed.

Lemma write_empty_fea_class_IndexError_witness :
  write parse_empty_right (init font_leftconflict) LF = Err IndexError.
Proof.
  eapply write_empty_fea_class_IndexError.
  - vm_compute. reflexivity.
  - right. exists "@MMK_R_o". simpl. left. reflexivity.
Defined.

(** ** Class names made by [_makeFeaClassName] *)

Lemma fmt_nat_parse n :
  option_map Nat.of_uint (NilZero.uint_of_string (fmt_nat n)) = Some n.
Proof.
  unfold fmt_nat.
  destruct (NilZero.usu_gen (Nat.to_uint n)) as [E|E]; rewrite E; simpl.
  - now rewrite DecimalNat.Unsigned.of_to.
  - destruct (Nat.to_uint n) eqn:En;
      try (rewrite NilZero.usu in E by discriminate; inversion E; subst;
           rewrite <- En; now rewrite DecimalNat.Unsigned.of_to).
    rewrite <- (DecimalNat.Unsigned.of_to n), En. reflexivity.
Qed.

Lemma fmt_nat_inj i j : fmt_nat i = fmt_nat j -> i = j.
Proof.
  intros E. pose proof (fmt_nat_parse i) as Hi. rewrite E, fmt_nat_parse in Hi.
  congruence.
Qed.

Lemma append_inj_l (p s t : string) : (p ++ s = p ++ t)%string -> s = t.
Proof. induction p; simpl; intros E; [exact E | inversion E; auto]. Qed.

Lemma append_length (s t : string) :
  String.length (s ++ t) = String.length s + String.length t.
Proof. induction s; simpl; auto. Qed.

Lemma candidate_inj orig i j : candidate orig i = candidate orig j -> i = j.
Proof.
  destruct i as [|i], j as [|j]; simpl; intros E; [reflexivity | | |].
  - apply (f_equal String.length) in E. rewrite append_length in E. simpl in E. lia.
  - apply (f_equal String.length) in E. rewrite append_length in E. simpl in E. lia.
  - apply append_inj_l in E. inversion E as [E']. apply fmt_nat_inj. exact E'.
Qed.

Lemma memb_In {A : Type} `{EqDec A} (x : A) (s : list A) :
  PySet.memb x s = true <-> In x s.
Proof. unfold PySet.memb. destruct (in_dec eq_dec x s); split; congruence. Qed.

Lemma memb_not_In {A : Type} `{EqDec A} (x : A) (s : list A) :
  PySet.memb x s = false <-> ~ In x s.
Proof. unfold PySet.memb. destruct (in_dec eq_dec x s); split; congruence. Qed.

(** more than [length existing] distinct candidates cannot all exist *)
Lemma candidates_exhaust existing orig k :
  (forall j, j <= k -> In (candidate orig j) existing) ->
  k < List.length existing.
Proof.
  intros Hall.
  assert (Hle : List.length (map (candidate orig) (seq 0 (S k)))
                <= List.length existing).
  { apply NoDup_incl_length.
    - apply Injective_map_NoDup; [|apply seq_NoDup].
      intros i j. apply candidate_inj.
    - intros x Hx. apply in_map_iff in Hx. destruct Hx as [j [<- Hj]].
      apply in_seq in Hj. apply Hall. lia. }
  rewrite length_map, length_seq in Hle. lia.
Qed.

Lemma suffix_loop_spec existing orig fuel : forall k,
  (forall j, j < k -> In (candidate orig j) existing) ->
  List.length existing <= k + fuel ->
  exists m, k <= m /\
    suffix_loop existing orig (candidate orig k) (S k) fuel
      = Ok (candidate orig m) /\
    ~ In (candidate orig m) existing /\
    (forall j, j < m -> In (candidate orig j) existing).
Proof.
  induction fuel as [|fuel IH]; intros k Hbelow Hlen; simpl.
  - destruct (PySet.memb (candidate orig k) existing) eqn:E.
    + exfalso. apply memb_In in E.
      assert (k < List.length existing); [|lia].
      apply candidates_exhaust with (orig := orig). intros j Hj.
      destruct (Nat.eq_dec j k) as [->|]; [exact E | apply Hbelow; lia].
    + exists k. apply memb_not_In in E. auto.
  - destruct (PySet.memb (candidate orig k) existing) eqn:E.
    + apply memb_In in E.
      destruct (IH (S k)) as (m & Hm & Hr & Hn & Hb).
      * intros j Hj. destruct (Nat.eq_dec j k) as [->|]; [exact E | apply Hbelow; lia].
      * lia.
      * exists m. split; [lia|]. split; [exact Hr | auto].
    + exists k. apply memb_not_In in E. auto.
Qed.

(** [_makeFeaClassName] always returns: it gives the first candidate that
    is not yet a class name *)
Lemma _makeFeaClassName_spec w name :
  exists m,
    _makeFeaClassName w name = Ok (candidate ("@" ++ strip_illegal name) m) /\
    ~ In (candidate ("@" ++ strip_illegal name) m) (existingClassNames w) /\
    (forall j, j < m ->
       In (candidate ("@" ++ strip_illegal name) j) (existingClassNames w)).
Proof.
  unfold _makeFeaClassName.
  destruct (suffix_loop_spec (existingClassNames w) ("@" ++ strip_illegal name)
              (List.length (existingClassNames w)) (k := 0))
    as (m & _ & Hr & Hn & Hb); [intros j Hj; lia | lia |].
  exists m. auto.
Qed.

Lemma candidate_starts_with_at s m : starts_with_at (candidate ("@" ++ s) m).
Proof. destruct m; simpl; eexists; reflexivity. Qed.

Lemma _makeFeaClassName_fresh w name r :
  _makeFeaClassName w name = Ok r ->
  starts_with_at r /\ ~ In r (existingClassNames w).
Proof.
  destruct (_makeFeaClassName_spec w name) as (m & E & Hn & _).
  rewrite E. intros E'. inversion E'; subst.
  split; [apply candidate_starts_with_at | exact Hn].
Qed.

(** ** Moving the kerning entries of a renamed group *)

Lemma item_with_item k index name : item (with_item k index name) index = name.
Proof. destruct index; reflexivity. Qed.

Lemma with_item_item k index : with_item k index (item k index) = k.
Proof. destruct k, index; reflexivity. Qed.

Lemma with_item_twice k index a b :
  with_item (with_item k index a) index b = with_item k index b.
Proof. destruct index; reflexivity. Qed.

Lemma rekeyLeft_body_rekey newName hit kern :
  rekeyLeft_body newName hit kern = rekey 0 newName hit kern.
Proof. destruct hit as [[l r] v]. reflexivity. Qed.

Lemma rekeyRight_body_rekey newName hit kern :
  rekeyRight_body newName hit kern = rekey 1 newName hit kern.
Proof. destruct hit as [[l r] v]. reflexivity. Qed.

Lemma fold_left_ext {A B : Type} (f g : A -> B -> A) (l : list B) (a : A) :
  (forall a b, f a b = g a b) -> fold_left f l a = fold_left g l a.
Proof.
  intros E. revert a. induction l as [|b l IH]; simpl; intros a; [reflexivity|].
  rewrite E. apply IH.
Qed.

Lemma _getGlyphKern_In kern name index p v :
  In (p, v) (_getGlyphKern kern name index) <->
  In (p, v) kern /\ item p index = name.
Proof.
  unfold _getGlyphKern. rewrite filter_In. simpl. unfold eqb_of.
  destruct (eq_dec (item p index) name); intuition congruence.
Qed.

Lemma NoDup_keys_filter {K V : Type} (f : K * V -> bool) (d : list (K * V)) :
  NoDup (map fst d) -> NoDup (map fst (filter f d)).
Proof.
  induction d as [|x d IH]; simpl; intros ND; [constructor|].
  inversion ND; subst. destruct (f x); simpl; auto.
  constructor; auto. intros I. apply H1.
  apply in_map_iff in I. destruct I as [y [E I]]. apply filter_In in I.
  apply in_map_iff. exists y. tauto.
Qed.

Section Rekey.
Variables (index : nat) (name newName : string).
Hypothesis Hne : name <> newName.

(** the moves of a list of hits, seen through lookups *)
Lemma rekey_fold (hits : list (kernKey * Z)) : forall kern : rules,
  NoDup (Dict.keys kern) ->
  NoDup (Dict.keys hits) ->
  (forall p v, In (p, v) hits ->
               item p index = name /\ Dict.get p kern = Some v) ->
  let kern' := fold_left (fun k hit => rekey index newName hit k) hits kern in
  NoDup (Dict.keys kern') /\
  forall key,
    Dict.get key kern' =
    if eq_dec (item key index) newName
    then match Dict.get (with_item key index name) hits with
         | Some v => Some v
         | None => Dict.get key kern
         end
    else match Dict.get key hits with
         | Some _ => None
         | None => Dict.get key kern
         end.
Proof.
  induction hits as [|[p v] rest IH]; intros kern NDk NDh Hhits; simpl.
  - split; [exact NDk|]. intros key.
    destruct (eq_dec (item key index) newName); reflexivity.
  - inversion NDh as [|? ? Hnotin NDrest]; subst.
    destruct (Hhits p v (or_introl eq_refl)) as [Hp Hpv].
    set (kern1 := rekey index newName (p, v) kern).
    assert (ND1 : NoDup (Dict.keys kern1)).
    { apply NoDup_keys_remove, NoDup_keys_set, NDk. }
    assert (G1 : forall key, Dict.get key kern1 =
              if eq_dec key p then None
              else if eq_dec key (with_item p index newName) then Some v
              else Dict.get key kern).
    { intros key. unfold kern1, rekey. simpl.
      rewrite get_remove by (apply NoDup_keys_set, NDk).
      destruct (eq_dec key p); [reflexivity|]. apply get_set. }
    destruct (IH kern1 ND1 NDrest) as [NDr Gr].
    { intros p' v' Hin. destruct (Hhits p' v' (or_intror Hin)) as [Hp' Hpv'].
      split; [exact Hp'|]. rewrite G1.
      destruct (eq_dec p' p) as [->|].
      - exfalso. apply Hnotin. apply (in_map fst) in Hin. exact Hin.
      - destruct (eq_dec p' (with_item p index newName)) as [->|]; [|exact Hpv'].
        rewrite item_with_item in Hp'. congruence. }
    split; [exact NDr|]. intros key. rewrite Gr.
    destruct (eq_dec (item key index) newName) as [En|En].
    + (* the key carries the new name *)
      destruct (eq_dec (with_item key index name) p) as [Ep|Ep].
      * (* it is the image of the first hit *)
        assert (Ek : key = with_item p index newName).
        { rewrite <- Ep, with_item_twice, <- En. symmetry. apply with_item_item. }
        assert (Er : Dict.get (with_item key index name) rest = None).
        { apply get_None_keys. rewrite Ep. exact Hnotin. }
        rewrite Er, G1.
        destruct (eq_dec key p) as [Ekp|_].
        { exfalso. rewrite Ekp in En. congruence. }
        destruct (eq_dec key (with_item p index newName)); [reflexivity | contradiction].
      * destruct (Dict.get (with_item key index name) rest); [reflexivity|].
        rewrite G1.
        destruct (eq_dec key p) as [Ekp|_].
        { exfalso. rewrite Ekp in En. congruence. }
        destruct (eq_dec key (with_item p index newName)) as [Ek|_]; [|reflexivity].
        exfalso. apply Ep. rewrite Ek, with_item_twice, <- Hp. apply with_item_item.
    + (* the key does not carry the new name *)
      destruct (eq_dec key p) as [->|Ekp].
      * assert (Er : Dict.get p rest = None) by (apply get_None_keys; exact Hnotin).
        rewrite Er, G1. destruct (eq_dec p p); congruence.
      * destruct (Dict.get key rest); [reflexivity|].
        rewrite G1. destruct (eq_dec key p); [contradiction|].
        destruct (eq_dec key (with_item p index newName)) as [Ek|_]; [|reflexivity].
        exfalso. apply En. rewrite Ek. apply item_with_item.
Qed.

(** one renamed group: every entry with [name] on side [index] is found
    under [newName], and nowhere else *)
Lemma rekey_all (kern : rules) :
  NoDup (Dict.keys kern) ->
  let kern' := fold_left (fun k hit => rekey index newName hit k)
                         (_getGlyphKern kern name index) kern in
  NoDup (Dict.keys kern') /\
  forall key, Dict.get key kern' = renamed_get index name newName kern key.
Proof.
  intros NDk.
  destruct (rekey_fold (_getGlyphKern kern name index) kern NDk) as [ND G].
  - apply NoDup_keys_filter. exact NDk.
  - intros p v Hin. apply _getGlyphKern_In in Hin. destruct Hin as [Hin Hp].
    split; [exact Hp | apply In_get; assumption].
  - split; [exact ND|]. intros key. rewrite G. unfold renamed_get.
    destruct (eq_dec (item key index) newName) as [En|En].
    + destruct (Dict.get (with_item key index name)
                  (_getGlyphKern kern name index)) eqn:Eh.
      * apply get_Some_In, _getGlyphKern_In in Eh. destruct Eh as [Eh _].
        apply In_get in Eh; [|exact NDk]. rewrite Eh. reflexivity.
      * destruct (Dict.get (with_item key index name) kern) eqn:Ek; [|reflexivity].
        exfalso. apply get_None_keys in Eh. apply Eh.
        apply get_Some_In in Ek.
        apply (in_map fst (_getGlyphKern kern name index)
                 (with_item key index name, z)).
        apply _getGlyphKern_In. split; [exact Ek | apply item_with_item].
    + destruct (eq_dec (item key index) name) as [Ei|Ei].
      * destruct (Dict.get key (_getGlyphKern kern name index)) eqn:Eh;
          [reflexivity|].
        destruct (Dict.get key kern) eqn:Ek; [|reflexivity].
        exfalso. apply get_None_keys in Eh. apply Eh.
        apply get_Some_In in Ek.
        apply (in_map fst (_getGlyphKern kern name index) (key, z)).
        apply _getGlyphKern_In. split; assumption.
      * destruct (Dict.get key (_getGlyphKern kern name index)) eqn:Eh;
          [|reflexivity].
        exfalso. apply get_Some_In, _getGlyphKern_In in Eh. tauto.
Qed.
End Rekey.

(** ** The renaming loops *)

Lemma In_keys_get {K V : Type} `{EqDec K} (k : K) (d : Dict.t K V) :
  In k (Dict.keys d) <-> Dict.get k d <> None.
Proof.
  pose proof (get_None_keys k d) as Hn.
  destruct (in_dec eq_dec k (Dict.keys d)) as [I|I].
  - split; [intros _ E; apply Hn in E; contradiction | auto].
  - split; [contradiction | intros E; exfalso; apply E, Hn, I].
Qed.

Lemma get_rename_class (d : classes) name newName members k :
  NoDup (Dict.keys d) -> name <> newName ->
  Dict.get k (Dict.remove name (Dict.set newName members d)) =
  if eq_dec k name then None
  else if eq_dec k newName then Some members else Dict.get k d.
Proof.
  intros ND Hne. rewrite get_remove by (apply NoDup_keys_set, ND).
  destruct (eq_dec k name); [reflexivity|]. apply get_set.
Qed.

(** the class dictionary after the renamings *)
Lemma renames_classes index avoid todo s s' :
  renames index avoid todo s s' ->
  NoDup (Dict.keys todo) -> NoDup (Dict.keys (fst s)) ->
  (forall n m, In (n, m) todo -> Dict.get n (fst s) = Some m) ->
  NoDup (Dict.keys (fst s')) /\
  (forall k m, Dict.get k (fst s) = Some m -> ~ In k (Dict.keys todo) ->
               Dict.get k (fst s') = Some m) /\
  (forall k, In k (Dict.keys (fst s')) ->
             (In k (Dict.keys (fst s)) /\ ~ In k (Dict.keys todo)) \/
             (starts_with_at k /\ ~ In k avoid)).
Proof.
  induction 1 as [s|name members todo d kern m s' newName Hfresh Hmin Hr IH];
    intros NDt NDd Hin.
  - split; [exact NDd|]. split; [auto|]. intros k Hk. left. simpl. auto.
  - simpl in *. inversion NDt as [|? ? Hnotin NDrest]; subst.
    assert (Hname : In name (Dict.keys d)).
    { apply In_keys_get. rewrite (Hin name members); [discriminate | auto]. }
    assert (Hnew : ~ In newName (Dict.keys d)).
    { intros I. apply Hfresh. apply in_or_app. auto. }
    assert (Hne : name <> newName) by (intros E; apply Hnew; rewrite <- E; exact Hname).
    destruct IH as (ND' & Hframe & Hkeys).
    + exact NDrest.
    + apply NoDup_keys_remove, NoDup_keys_set, NDd.
    + intros n' m' I. rewrite get_rename_class by assumption.
      destruct (eq_dec n' name) as [->|].
      { exfalso. apply Hnotin. apply (in_map fst) in I. exact I. }
      destruct (eq_dec n' newName) as [->|]; [|auto].
      exfalso. apply Hnew. apply In_keys_get. rewrite (Hin newName m'); [discriminate|auto].
    + split; [exact ND'|]. split.
      * intros k mk Hk Hnk. apply Hframe; [|tauto].
        rewrite get_rename_class by assumption.
        destruct (eq_dec k name) as [->|]; [tauto|].
        destruct (eq_dec k newName) as [->|]; [|exact Hk].
        exfalso. apply Hnew. apply In_keys_get. rewrite Hk. discriminate.
      * intros k Hk. destruct (Hkeys k Hk) as [[Hk1 Hk2]|Hk1]; [|auto].
        apply In_keys_get in Hk1. rewrite get_rename_class in Hk1 by assumption.
        destruct (eq_dec k name) as [->|Hkn]; [congruence|].
        destruct (eq_dec k newName) as [->|].
        { right. split; [apply candidate_starts_with_at|].
          intros I. apply Hfresh. apply in_or_app. auto. }
        left. split; [apply In_keys_get; exact Hk1|]. intros [E|I]; [congruence|auto].
Qed.

Lemma existing_left w x :
  In x (existingClassNames w) <->
  In x ((Dict.keys (leftFeaClasses w) ++ Dict.keys (rightFeaClasses w) ++
         Dict.keys (rightUfoClasses w)) ++ Dict.keys (leftUfoClasses w)).
Proof. unfold existingClassNames. rewrite !in_app_iff. tauto. Qed.

Lemma existing_right w x :
  In x (existingClassNames w) <->
  In x ((Dict.keys (leftFeaClasses w) ++ Dict.keys (rightFeaClasses w) ++
         Dict.keys (leftUfoClasses w)) ++ Dict.keys (rightUfoClasses w)).
Proof. unfold existingClassNames. rewrite !in_app_iff. tauto. Qed.

#[local] Arguments _makeFeaClassName : simpl never.
#[local] Arguments _getGlyphKern : simpl never.

(** the loop over the left classes never fails, and renames as specified *)
Lemma correctLeft_loop todo : forall w,
  NoDup (Dict.keys todo) ->
  (forall n, In n (Dict.keys todo) -> In n (Dict.keys (leftUfoClasses w))) ->
  exists w', forM correctLeft_body todo w = Ok w' /\
    renames 0 (Dict.keys (leftFeaClasses w) ++ Dict.keys (rightFeaClasses w) ++
               Dict.keys (rightUfoClasses w))
            todo (leftUfoClasses w, kerning w) (leftUfoClasses w', kerning w') /\
    w' = with_kerning (kerning w') (with_leftUfoClasses (leftUfoClasses w') w).
Proof.
  induction todo as [|[name members] todo IH]; intros w NDt Hin.
  - exists w. split; [reflexivity|]. split; [constructor | destruct w; reflexivity].
  - inversion NDt as [|? ? Hnotin NDrest]; subst.
    destruct (_makeFeaClassName_spec w name) as (m & E & Hfresh & Hmin).
    set (newName := candidate ("@" ++ strip_illegal name) m) in *.
    assert (Hname : In name (Dict.keys (leftUfoClasses w))) by (apply Hin; simpl; auto).
    assert (Hne : name <> newName).
    { intros Eq. apply Hfresh. rewrite <- Eq. apply existing_left.
      apply in_or_app. auto. }
    set (d1 := Dict.remove name (Dict.set newName members (leftUfoClasses w))).
    set (k1 := fold_left (fun k hit => rekey 0 newName hit k)
                         (_getGlyphKern (kerning w) name 0) (kerning w)).
    assert (Eb : correctLeft_body (name, members) w
                 = Ok (with_kerning k1 (with_leftUfoClasses d1 w))).
    { unfold correctLeft_body. rewrite E. simpl. unfold eqb_of.
      destruct (eq_dec name newName); [contradiction|].
      rewrite del_present by (apply In_keys_set; auto). simpl.
      rewrite (fold_left_ext _ (fun k hit => rekey 0 newName hit k));
        [reflexivity | intros; apply rekeyLeft_body_rekey]. }
    destruct (IH (with_kerning k1 (with_leftUfoClasses d1 w)) NDrest)
      as (w' & Ew & Hr & Hw).
    { intros n Hn. simpl. unfold d1. apply keys_remove_other.
      - intros ->. contradiction.
      - apply In_keys_set. right. apply Hin. simpl. auto. }
    exists w'. cbn [forM]. rewrite Eb. cbn [bind]. split; [exact Ew|]. split.
    + apply renames_cons with (m := m).
      * intros I. apply Hfresh, existing_left. exact I.
      * intros j Hj. apply existing_left. auto.
      * exact Hr.
    + rewrite Hw. reflexivity.
Qed.

(** the loop over the right classes never fails, and renames as specified *)
Lemma correctRight_loop todo : forall w,
  NoDup (Dict.keys todo) ->
  (forall n, In n (Dict.keys todo) -> In n (Dict.keys (rightUfoClasses w))) ->
  exists w', forM correctRight_body todo w = Ok w' /\
    renames 1 (Dict.keys (leftFeaClasses w) ++ Dict.keys (rightFeaClasses w) ++
               Dict.keys (leftUfoClasses w))
            todo (rightUfoClasses w, kerning w) (rightUfoClasses w', kerning w') /\
    w' = with_kerning (kerning w') (with_rightUfoClasses (rightUfoClasses w') w).
Proof.
  induction todo as [|[name members] todo IH]; intros w NDt Hin.
  - exists w. split; [reflexivity|]. split; [constructor | destruct w; reflexivity].
  - inversion NDt as [|? ? Hnotin NDrest]; subst.
    destruct (_makeFeaClassName_spec w name) as (m & E & Hfresh & Hmin).
    set (newName := candidate ("@" ++ strip_illegal name) m) in *.
    assert (Hname : In name (Dict.keys (rightUfoClasses w))) by (apply Hin; simpl; auto).
    assert (Hne : name <> newName).
    { intros Eq. apply Hfresh. rewrite <- Eq. apply existing_right.
      apply in_or_app. auto. }
    set (d1 := Dict.remove name (Dict.set newName members (rightUfoClasses w))).
    set (k1 := fold_left (fun k hit => rekey 1 newName hit k)
                         (_getGlyphKern (kerning w) name 1) (kerning w)).
    assert (Eb : correctRight_body (name, members) w
                 = Ok (with_kerning k1 (with_rightUfoClasses d1 w))).
    { unfold correctRight_body. rewrite E. simpl. unfold eqb_of.
      destruct (eq_dec name newName); [contradiction|].
      rewrite del_present by (apply In_keys_set; auto). simpl.
      rewrite (fold_left_ext _ (fun k hit => rekey 1 newName hit k));
        [reflexivity | intros; apply rekeyRight_body_rekey]. }
    destruct (IH (with_kerning k1 (with_rightUfoClasses d1 w)) NDrest)
      as (w' & Ew & Hr & Hw).
    { intros n Hn. simpl. unfold d1. apply keys_remove_other.
      - intros ->. contradiction.
      - apply In_keys_set. right. apply Hin. simpl. auto. }
    exists w'. cbn [forM]. rewrite Eb. cbn [bind]. split; [exact Ew|]. split.
    + apply renames_cons with (m := m).
      * intros I. apply Hfresh, existing_right. exact I.
      * intros j Hj. apply existing_right. auto.
      * exact Hr.
    + rewrite Hw. reflexivity.
Qed.

(** ** Sorting *)

Section SortingFacts.
Context {K V : Type} (leb : K -> K -> bool).
Hypothesis leb_total : forall a b, leb a b = true \/ leb b a = true.
Hypothesis leb_trans : forall a b c, leb a b = true -> leb b c = true -> leb a c = true.
Hypothesis leb_antisym : forall a b, leb a b = true -> leb b a = true -> a = b.

Lemma insert_by_perm x (l : list (K * V)) : Permutation (insert_by leb x l) (x :: l).
Proof.
  induction l as [|y l IH]; simpl; [reflexivity|].
  destruct (leb (fst x) (fst y)); [reflexivity|].
  rewrite IH. apply perm_swap.
Qed.

Lemma sorted_by_perm (l : list (K * V)) : Permutation (sorted_by leb l) l.
Proof.
  induction l as [|x l IH]; simpl; [reflexivity|].
  rewrite insert_by_perm, IH. reflexivity.
Qed.

Lemma sorted_by_In x (l : list (K * V)) : In x (sorted_by leb l) <-> In x l.
Proof.
  split; apply Permutation_in; [|symmetry]; apply sorted_by_perm.
Qed.

Lemma insert_by_sorted x (l : list (K * V)) :
  StronglySorted (key_le leb) l -> StronglySorted (key_le leb) (insert_by leb x l).
Proof.
  induction 1 as [|y l Hs IH Hall]; simpl.
  - constructor; constructor.
  - destruct (leb (fst x) (fst y)) eqn:E.
    + constructor; [constructor; assumption|].
      constructor; [exact E|].
      apply Forall_impl with (P := key_le leb y); [|exact Hall].
      intros z Hz. unfold key_le in *. eapply leb_trans; eauto.
    + constructor; [exact IH|].
      assert (Hyx : leb (fst y) (fst x) = true).
      { destruct (leb_total (fst x) (fst y)); congruence. }
      apply Forall_forall. intros z Hz.
      apply (Permutation_in _ (insert_by_perm x l)) in Hz.
      destruct Hz as [<-|Hz]; [exact Hyx|].
      rewrite Forall_forall in Hall. auto.
Qed.

Lemma sorted_by_sorted (l : list (K * V)) : StronglySorted (key_le leb) (sorted_by leb l).
Proof.
  induction l as [|x l IH]; simpl; [constructor | apply insert_by_sorted, IH].
Qed.

(** two sorted lists with the same entries and no repeated key are equal *)
Lemma sorted_unique (l1 l2 : list (K * V)) :
  StronglySorted (key_le leb) l1 -> StronglySorted (key_le leb) l2 ->
  NoDup (map fst l1) -> Permutation l1 l2 -> l1 = l2.
Proof.
  intros S1. revert l2. induction S1 as [|x l1 S1 IH Hall1]; intros l2 S2 ND P.
  - apply Permutation_nil in P. congruence.
  - destruct S2 as [|y l2 S2 Hall2].
    + symmetry in P. apply Permutation_nil in P. discriminate.
    + assert (ND2 : NoDup (map fst (y :: l2))).
      { eapply Permutation_NoDup; [apply Permutation_map; exact P | exact ND]. }
      assert (Exy : x = y).
      { assert (Ix : In x (y :: l2)) by (eapply Permutation_in; [exact P | left; reflexivity]).
        assert (Iy : In y (x :: l1))
          by (eapply Permutation_in; [symmetry; exact P | left; reflexivity]).
        destruct Ix as [E|Ix]; [congruence|].
        destruct Iy as [E|Iy]; [congruence|].
        rewrite Forall_forall in Hall1, Hall2.
        assert (Ek : fst x = fst y) by (apply leb_antisym; [apply Hall1, Iy | apply Hall2, Ix]).
        exfalso. inversion ND2 as [|? ? Hn _]; subst. apply Hn.
        rewrite <- Ek. apply in_map. exact Ix. }
      subst y. f_equal. apply IH; [exact S2 | inversion ND; assumption |].
      eapply Permutation_cons_inv. exact P.
Qed.

(** sorting forgets the order in which a dictionary lists its entries *)
Lemma sorted_by_order_free (l1 l2 : list (K * V)) :
  NoDup (map fst l1) -> Permutation l1 l2 -> sorted_by leb l1 = sorted_by leb l2.
Proof.
  intros ND P. apply sorted_unique; try apply sorted_by_sorted.
  - eapply Permutation_NoDup; [|exact ND].
    apply Permutation_map. symmetry. apply sorted_by_perm.
  - rewrite !sorted_by_perm. exact P.
Qed.
End SortingFacts.

Lemma ascii_compare_refl c : Ascii.compare c c = Eq.
Proof. unfold Ascii.compare. apply N.compare_refl. Qed.

Lemma string_compare_refl s : String.compare s s = Eq.
Proof.
  induction s as [|c s IH]; simpl; [reflexivity|].
  rewrite ascii_compare_refl. exact IH.
Qed.

Lemma string_compare_lt_trans x : forall y z,
  String.compare x y = Lt -> String.compare y z = Lt -> String.compare x z = Lt.
Proof.
  induction x as [|cx x IH]; intros [|cy y] [|cz z]; simpl; try congruence.
  destruct (Ascii.compare cx cy) eqn:E1; try discriminate;
    destruct (Ascii.compare cy cz) eqn:E2; try discriminate; intros H1 H2.
  - apply Ascii.compare_eq_iff in E1, E2. subst.
    rewrite ascii_compare_refl. eauto.
  - apply Ascii.compare_eq_iff in E1. subst. rewrite E2. reflexivity.
  - apply Ascii.compare_eq_iff in E2. subst. rewrite E1. reflexivity.
  - unfold Ascii.compare in *. rewrite N.compare_lt_iff in *.
    assert (E : (N_of_ascii cx ?= N_of_ascii cz)%N = Lt)
      by (apply N.compare_lt_iff; lia).
    rewrite E. reflexivity.
Qed.

Lemma string_leb_trans a b c :
  String.leb a b = true -> String.leb b c = true -> String.leb a c = true.
Proof.
  unfold String.leb.
  destruct (String.compare a b) eqn:E1; try discriminate;
    destruct (String.compare b c) eqn:E2; try discriminate; intros _ _.
  - apply String.compare_eq_iff in E1, E2. subst.
    rewrite string_compare_refl. reflexivity.
  - apply String.compare_eq_iff in E1. subst. rewrite E2. reflexivity.
  - apply String.compare_eq_iff in E2. subst. rewrite E1. reflexivity.
  - rewrite (string_compare_lt_trans _ _ _ E1 E2). reflexivity.
Qed.

Lemma pair_leb_total a b : pair_leb a b = true \/ pair_leb b a = true.
Proof.
  unfold pair_leb. rewrite (String.compare_antisym (fst b) (fst a)).
  destruct (String.compare (fst a) (fst b)); simpl; auto.
  apply String.leb_total.
Qed.

Lemma pair_leb_antisym (a b : kernKey) :
  pair_leb a b = true -> pair_leb b a = true -> a = b.
Proof.
  unfold pair_leb. rewrite (String.compare_antisym (fst b) (fst a)).
  destruct (String.compare (fst a) (fst b)) eqn:E; simpl; try discriminate.
  apply String.compare_eq_iff in E. intros H1 H2.
  destruct a, b; simpl in *. f_equal; [exact E | apply String.leb_antisym; assumption].
Qed.

Lemma pair_leb_trans a b c :
  pair_leb a b = true -> pair_leb b c = true -> pair_leb a c = true.
Proof.
  unfold pair_leb.
  destruct (String.compare (fst a) (fst b)) eqn:E1; try discriminate;
    destruct (String.compare (fst b) (fst c)) eqn:E2; try discriminate.
  - apply String.compare_eq_iff in E1, E2. rewrite E1, E2, string_compare_refl.
    apply string_leb_trans.
  - apply String.compare_eq_iff in E1. rewrite E1, E2. reflexivity.
  - apply String.compare_eq_iff in E2. rewrite <- E2, E1. reflexivity.
  - rewrite (string_compare_lt_trans _ _ _ E1 E2). reflexivity.
Qed.

(** ** [_correctUfoClassNames] *)

Lemma strip_prefix_Some p : forall s t,
  strip_prefix p s = Some t -> s = (p ++ t)%string.
Proof.
  induction p as [|c p IH]; intros s t; simpl.
  - congruence.
  - destruct s as [|d s]; [discriminate|].
    destruct (Ascii.eqb c d) eqn:E; [|discriminate].
    apply Ascii.eqb_eq in E. subst d. intros Hs. f_equal. auto.
Qed.

Lemma ufo_group_not_marked p n :
  p = leftUfoGroupRe \/ p = rightUfoGroupRe ->
  _isClassName p n = true -> ~ starts_with_at n.
Proof.
  unfold _isClassName, re_match. intros Hp.
  destruct (strip_prefix p n) as [t|] eqn:E; [|discriminate].
  apply strip_prefix_Some in E. intros _ [rest Hr].
  destruct Hp; subst p n; discriminate.
Qed.

#[local] Arguments correctLeft_body : simpl never.
#[local] Arguments correctRight_body : simpl never.

(** [_correctUfoClassNames] always returns; both registries are renamed as
    [renames] says, the right one from the kerning table the left loop left *)
Lemma _correctUfoClassNames_renames w :
  NoDup (Dict.keys (leftUfoClasses w)) -> NoDup (Dict.keys (rightUfoClasses w)) ->
  exists w' d1 k1,
    _correctUfoClassNames w = Ok w' /\
    renames 0 (Dict.keys (leftFeaClasses w) ++ Dict.keys (rightFeaClasses w) ++
               Dict.keys (rightUfoClasses w))
            (leftUfoClasses w) (leftUfoClasses w, kerning w) (d1, k1) /\
    renames 1 (Dict.keys (leftFeaClasses w) ++ Dict.keys (rightFeaClasses w) ++
               Dict.keys d1)
            (rightUfoClasses w) (rightUfoClasses w, k1)
            (rightUfoClasses w', kerning w') /\
    w' = with_kerning (kerning w')
           (with_rightUfoClasses (rightUfoClasses w') (with_leftUfoClasses d1 w)).
Proof.
  intros NDl NDr. unfold _correctUfoClassNames.
  destruct (correctLeft_loop (leftUfoClasses w) w NDl) as (w1 & E1 & R1 & F1); [auto|].
  assert (Er : rightUfoClasses w1 = rightUfoClasses w) by (rewrite F1; reflexivity).
  assert (Elf : leftFeaClasses w1 = leftFeaClasses w) by (rewrite F1; reflexivity).
  assert (Erf : rightFeaClasses w1 = rightFeaClasses w) by (rewrite F1; reflexivity).
  destruct (correctRight_loop (rightUfoClasses w1) w1) as (w2 & E2 & R2 & F2).
  - rewrite Er. exact NDr.
  - auto.
  - exists w2, (leftUfoClasses w1), (kerning w1). rewrite E1. cbn [bind].
    split; [exact E2|]. split; [exact R1|]. split.
    + rewrite Er, Elf, Erf in R2. exact R2.
    + transitivity (with_kerning (kerning w2)
                      (with_rightUfoClasses (rightUfoClasses w2) w1));
        [exact F2|].
      rewrite F1 at 1. reflexivity.
Qed.

Lemma _addGlyphClasses_declares w name members :
  Dict.get name (Dict.update (leftUfoClasses w) (rightUfoClasses w)) = Some members ->
  In (classLine (name, members)) (_addGlyphClasses w []).
Proof.
  intros G. unfold _addGlyphClasses. simpl. apply in_map.
  apply sorted_by_In. apply get_Some_In. exact G.
Qed.

(** ** Every group-declared class is renamed *)

Lemma renames_members index avoid todo s s' :
  renames index avoid todo s s' ->
  NoDup (Dict.keys todo) -> NoDup (Dict.keys (fst s)) ->
  (forall n m, In (n, m) todo -> Dict.get n (fst s) = Some m) ->
  forall n m, In (n, m) todo ->
    exists new, starts_with_at new /\ new <> n /\ Dict.get new (fst s') = Some m.
Proof.
  induction 1 as [s|name members todo d kern m0 s' newName Hfresh Hmin Hr IH];
    intros NDt NDd Hin n m I; [destruct I|].
  simpl in *. inversion NDt as [|? ? Hnotin NDrest]; subst.
  assert (Hname : In name (Dict.keys d)).
  { apply In_keys_get. rewrite (Hin name members); [discriminate | auto]. }
  assert (Hnew : ~ In newName (Dict.keys d)).
  { intros I'. apply Hfresh. apply in_or_app. auto. }
  assert (Hne : name <> newName) by (intros E; apply Hnew; rewrite <- E; exact Hname).
  assert (NDd1 : NoDup (Dict.keys (Dict.remove name (Dict.set newName members d)))).
  { apply NoDup_keys_remove, NoDup_keys_set, NDd. }
  assert (Hin1 : forall n' m', In (n', m') todo ->
            Dict.get n' (Dict.remove name (Dict.set newName members d)) = Some m').
  { intros n' m' I'. rewrite get_rename_class by assumption.
    destruct (eq_dec n' name) as [->|].
    { exfalso. apply Hnotin. apply (in_map fst) in I'. exact I'. }
    destruct (eq_dec n' newName) as [->|]; [|auto].
    exfalso. apply Hnew. apply In_keys_get. rewrite (Hin newName m'); [discriminate|auto]. }
  destruct I as [E|I].
  - inversion E; subst n m. exists newName.
    split; [apply candidate_starts_with_at|]. split; [congruence|].
    destruct (renames_classes Hr NDrest NDd1 Hin1) as (_ & Hframe & _).
    simpl in Hframe. apply Hframe.
    + rewrite get_rename_class by assumption.
      destruct (eq_dec newName name); [congruence|].
      destruct (eq_dec newName newName); [reflexivity | congruence].
    + intros Ir. apply Hnew. apply in_map_iff in Ir. destruct Ir as [[n' m'] [En Ir]].
      simpl in En. subst n'. apply In_keys_get.
      rewrite (Hin newName m'); [discriminate | auto].
  - apply (IH NDrest NDd1 Hin1 n m I).
Qed.

Lemma classLine_starts_with_at name members :
  starts_with_at name -> starts_with_at (classLine (name, members)).
Proof. intros [rest ->]. unfold classLine. simpl. eexists. reflexivity. Qed.

Lemma In_keys_update {K V : Type} `{EqDec K} (k : K) (d d2 : Dict.t K V) :
  In k (Dict.keys (Dict.update d d2)) -> In k (Dict.keys d) \/ In k (Dict.keys d2).
Proof.
  unfold Dict.update. revert d.
  induction d2 as [|[k2 v2] d2 IH]; simpl; intros d I; [auto|].
  destruct (IH _ I) as [I'|I']; [|auto].
  apply In_keys_set in I'. destruct I' as [->|I']; auto.
Qed.

(** Every group-declared kerning class is renamed, whatever its name:
    the name [_makeFeaClassName] makes for a class of the registry differs
    from the class's name and begins with ["@"]; after
    [_correctUfoClassNames], which always returns, each class is stored
    with its members under such a new name, every name of the two
    registries begins with ["@"], and so does every declaration line. *)
Theorem every_group_class_renamed (w : Writer) :
  NoDup (Dict.keys (leftUfoClasses w)) -> NoDup (Dict.keys (rightUfoClasses w)) ->
  (forall name newName,
     In name (Dict.keys (leftUfoClasses w) ++ Dict.keys (rightUfoClasses w)) ->
     _makeFeaClassName w name = Ok newName ->
     newName <> name /\ starts_with_at newName) /\
  exists w', _correctUfoClassNames w = Ok w' /\
    (forall name members, In (name, members) (leftUfoClasses w) ->
       exists newName, starts_with_at newName /\ newName <> name /\
                       Dict.get newName (leftUfoClasses w') = Some members) /\
    (forall name members, In (name, members) (rightUfoClasses w) ->
       exists newName, starts_with_at newName /\ newName <> name /\
                       Dict.get newName (rightUfoClasses w') = Some members) /\
    (forall name, In name (Dict.keys (leftUfoClasses w') ++
                           Dict.keys (rightUfoClasses w')) ->
                  starts_with_at name) /\
    (forall line, In line (_addGlyphClasses w' []) -> starts_with_at line).
Proof.
  intros NDl NDr. split.
  - intros name newName I E. apply _makeFeaClassName_fresh in E.
    destruct E as [Hat Hfresh]. split; [|exact Hat].
    intros ->. apply Hfresh. unfold existingClassNames.
    rewrite !in_app_iff in *. tauto.
  - destruct (_correctUfoClassNames_renames w NDl NDr)
      as (w' & d1 & k1 & Ew & R1 & R2 & F).
    assert (Fl : leftUfoClasses w' = d1) by (rewrite F; reflexivity).
    assert (Hinl : forall n m, In (n, m) (leftUfoClasses w) ->
                               Dict.get n (leftUfoClasses w) = Some m)
      by (intros; apply In_get; assumption).
    assert (Hinr : forall n m, In (n, m) (rightUfoClasses w) ->
                               Dict.get n (rightUfoClasses w) = Some m)
      by (intros; apply In_get; assumption).
    destruct (renames_classes R1 NDl NDl Hinl) as (_ & _ & Hk1).
    destruct (renames_classes R2 NDr NDr Hinr) as (_ & _ & Hk2).
    simpl in Hk1, Hk2.
    assert (Hkeys : forall name,
              In name (Dict.keys (leftUfoClasses w') ++ Dict.keys (rightUfoClasses w')) ->
              starts_with_at name).
    { intros name I. apply in_app_or in I. destruct I as [I|I].
      - rewrite Fl in I. destruct (Hk1 name I) as [[I1 I2]|[Hat _]]; [contradiction | exact Hat].
      - destruct (Hk2 name I) as [[I1 I2]|[Hat _]]; [contradiction | exact Hat]. }
    exists w'. split; [exact Ew|]. split; [|split; [|split; [exact Hkeys|]]].
    + intros name members I. rewrite Fl.
      apply (renames_members R1 NDl NDl Hinl name members I).
    + intros name members I.
      apply (renames_members R2 NDr NDr Hinr name members I).
    + intros line I. unfold _addGlyphClasses in I. simpl in I.
      apply in_map_iff in I. destruct I as [[name members] [<- I]].
      apply classLine_starts_with_at. apply Hkeys.
      apply sorted_by_In in I. apply (in_map fst) in I.
      apply In_keys_update in I. apply in_or_app. exact I.
Qed.

Lemma every_group_class_renamed_witness :
  exists w',
    _correctUfoClassNames (_collectUfoClasses (init font_leftconflict)) = Ok w' /\
    Dict.get "@public.kern1.LEFT" (leftUfoClasses w') = Some ["A"; "D"] /\
    _addGlyphClasses w' [] = ["@public.kern1.LEFT = [A D];"].
Proof.
  assert (NDl : NoDup (Dict.keys (leftUfoClasses
                                    (_collectUfoClasses (init font_leftconflict))))).
  { vm_compute. repeat constructor; simpl; intuition discriminate. }
  assert (NDr : NoDup (Dict.keys (rightUfoClasses
                                    (_collectUfoClasses (init font_leftconflict))))).
  { vm_compute. constructor. }
  destruct (every_group_class_renamed _ NDl NDr) as (_ & w' & E & _).
  exists w'. split; [exact E|]. vm_compute in E. inversion E. subst w'.
  vm_compute. auto.
Defined.

(** C10. Not every class name used in a rule for a group-declared class
    begins with ["@"]: [_collectFeaClassKerning] runs before the groups
    are renamed, and a rule that it takes for the key glyph of a feature
    class keeps the group on its other side under the name the font gives
    it.  Here the right group [public.kern2.O] is declared as
    [@public.kern2.O], and the rule of the feature class [@MMK_L_A] against
    it is written with [public.kern2.O]. *)
Theorem group_name_left_in_rule :
  rightUfoClasses (_collectUfoClasses (init font_mixed)) =
    [("public.kern2.O", ["O"])] /\
  (exists w, collect parse_left_class (init font_mixed) = Ok w /\
             rightUfoClasses w = [("@public.kern2.O", ["O"])] /\
             leftClassKerning w = [(("@MMK_L_A", "public.kern2.O"), (-20)%Z)]) /\
  write parse_left_class (init font_mixed) LF =
    Ok (join LF ["@public.kern2.O = [O];"; "";
                 "feature kern {"; "    subtable;";
                 "    enum pos @MMK_L_A public.kern2.O -20;"; "} kern;"]) /\
  ~ starts_with_at "public.kern2.O".
Proof.
  split; [reflexivity|]. split.
  - eexists. split; [vm_compute; reflexivity|]. split; reflexivity.
  - split; [vm_compute; reflexivity|]. intros [rest E]. discriminate.
Qed.

(** ** Conflict resolution keeps the values *)

Lemma keepLeft_fold rGlyph val (lGlyphs : list string) : forall nl seen,
  exists kept,
    fst (fold_left (keepLeft_body rGlyph val) lGlyphs (nl, seen)) = nl ++ kept /\
    incl kept lGlyphs.
Proof.
  induction lGlyphs as [|g l IH]; intros nl seen; cbn [fold_left].
  - exists []. rewrite app_nil_r. split; [reflexivity | apply incl_refl].
  - assert (Hstep : keepLeft_body rGlyph val (nl, seen) g =
                    if negb (Dict.mem (g, rGlyph) seen)
                    then (nl ++ [g], Dict.set (g, rGlyph) val seen)
                    else (nl, seen)) by reflexivity.
    rewrite Hstep. clear Hstep.
    destruct (negb (Dict.mem (g, rGlyph) seen)).
    + destruct (IH (nl ++ [g]) (Dict.set (g, rGlyph) val seen)) as (kept & E & Hi).
      exists (g :: kept). rewrite E, <- app_assoc. split; [reflexivity|].
      intros x [<-|I]; [left; reflexivity | right; auto].
    + destruct (IH nl seen) as (kept & E & Hi).
      exists kept. split; [exact E | apply incl_tl, Hi].
Qed.

Lemma keepRight_fold lGlyph val (rGlyphs : list string) : forall nr seen,
  exists kept,
    fst (fold_left (keepRight_body lGlyph val) rGlyphs (nr, seen)) = nr ++ kept /\
    incl kept rGlyphs.
Proof.
  induction rGlyphs as [|g l IH]; intros nr seen; cbn [fold_left].
  - exists []. rewrite app_nil_r. split; [reflexivity | apply incl_refl].
  - assert (Hstep : keepRight_body lGlyph val (nr, seen) g =
                    if negb (Dict.mem (lGlyph, g) seen)
                    then (nr ++ [g], Dict.set (lGlyph, g) val seen)
                    else (nr, seen)) by reflexivity.
    rewrite Hstep. clear Hstep.
    destruct (negb (Dict.mem (lGlyph, g) seen)).
    + destruct (IH (nr ++ [g]) (Dict.set (lGlyph, g) val seen)) as (kept & E & Hi).
      exists (g :: kept). rewrite E, <- app_assoc. split; [reflexivity|].
      intros x [<-|I]; [left; reflexivity | right; auto].
    + destruct (IH nr seen) as (kept & E & Hi).
      exists kept. split; [exact E | apply incl_tl, Hi].
Qed.

Lemma In_add {A : Type} `{EqDec A} (x y : A) (s : list A) :
  In x (PySet.add y s) <-> x = y \/ In x s.
Proof.
  unfold PySet.add. destruct (PySet.memb y s) eqn:E.
  - apply memb_In in E. split; [auto | intros [->|]; auto].
  - rewrite in_app_iff. simpl. intuition.
Qed.

Lemma keepPair_fold val lGlyph (rGlyphs : list string) : forall nl nr seen L R,
  In lGlyph L -> incl rGlyphs R -> incl nl L -> incl nr R ->
  incl (fst (fst (fold_left (keepPair_body val lGlyph) rGlyphs (nl, nr, seen)))) L /\
  incl (snd (fst (fold_left (keepPair_body val lGlyph) rGlyphs (nl, nr, seen)))) R.
Proof.
  induction rGlyphs as [|g l IH]; intros nl nr seen L R HL HR Hnl Hnr;
    cbn [fold_left].
  - auto.
  - assert (HR' : incl l R) by (intros x I; apply HR; right; exact I).
    assert (Hstep : keepPair_body val lGlyph (nl, nr, seen) g =
                    if negb (Dict.mem (lGlyph, g) seen)
                    then (PySet.add lGlyph nl, PySet.add g nr,
                          Dict.set (lGlyph, g) val seen)
                    else (nl, nr, seen)) by reflexivity.
    rewrite Hstep. clear Hstep.
    destruct (negb (Dict.mem (lGlyph, g) seen)).
    + apply IH; try assumption.
      * intros x I. apply In_add in I. destruct I as [->|I]; auto.
      * intros x I. apply In_add in I. destruct I as [->|I]; [apply HR; left; reflexivity | auto].
    + apply IH; assumption.
Qed.

Lemma keepPairs_incl val (lGlyphs rGlyphs : list string) seen :
  incl (fst (fst (keepPairs val lGlyphs rGlyphs seen))) lGlyphs /\
  incl (snd (fst (keepPairs val lGlyphs rGlyphs seen))) rGlyphs.
Proof.
  unfold keepPairs.
  assert (G : forall todo s,
             incl todo lGlyphs -> incl (fst (fst s)) lGlyphs -> incl (snd (fst s)) rGlyphs ->
             let s' := fold_left (fun s lGlyph =>
                          fold_left (keepPair_body val lGlyph) rGlyphs s) todo s in
             incl (fst (fst s')) lGlyphs /\ incl (snd (fst s')) rGlyphs).
  { induction todo as [|g todo IH]; intros [[nl nr] sn] Ht Hl Hr; simpl; [auto|].
    simpl in Hl, Hr.
    destruct (@keepPair_fold val g rGlyphs nl nr sn lGlyphs rGlyphs) as [A B];
      [apply Ht; left; reflexivity | apply incl_refl | exact Hl | exact Hr |].
    apply IH; [intros x I; apply Ht; right; exact I | exact A | exact B]. }
  apply G; simpl; auto using incl_refl; intros x [].
Qed.

Lemma sorted_strings_incl (l : list string) : incl (sorted_strings l) l.
Proof.
  intros x I. unfold sorted_strings in I. apply in_map_iff in I.
  destruct I as [[y u] [<- I]]. apply sorted_by_In in I.
  apply in_map_iff in I. destruct I as [z [E I]]. inversion E; subst. exact I.
Qed.

Lemma narrowed_side_refl cls name : narrowed_side cls name name.
Proof. left. reflexivity. Qed.

#[local] Hint Resolve narrowed_side_refl : core.

Lemma rules_from_refl (L R : string -> string -> Prop) (d : rules) :
  (forall x, L x x) -> (forall x, R x x) -> rules_from L R d d.
Proof. intros HL HR k' v I. exists k'. auto. Qed.

(** replacing the key of a rule of the snapshot keeps [rules_from] *)
Lemma rules_from_rekey (L R : string -> string -> Prop) (before cur cur' : rules)
  k k' v :
  rules_from L R before cur -> In (k, v) before ->
  L (fst k) (fst k') -> R (snd k) (snd k') ->
  Dict.del k (Dict.set k' v cur) = Ok cur' ->
  rules_from L R before cur'.
Proof.
  intros Hc Hk HL HR Hd k0 v0 I. apply del_Ok in Hd. destruct Hd as [-> _].
  apply In_remove, In_set in I. destruct I as [E|I]; [|apply Hc; exact I].
  inversion E; subst. exists k. auto.
Qed.

Lemma conflictLeft_body_from leftClasses before rule s s' :
  In rule before ->
  rules_from (narrowed_side leftClasses) eq before (snd s) ->
  conflictLeft_body leftClasses rule s = Ok s' ->
  rules_from (narrowed_side leftClasses) eq before (snd s').
Proof.
  destruct rule as [[lClass rGlyph] val], s as [seen lck]. simpl.
  intros Hrule Hs E. unfold conflictLeft_body in E.
  apply bind_Ok in E. destruct E as (lGlyphs & El & E).
  destruct (keepLeft_fold rGlyph val lGlyphs [] seen) as (kept & Ek & Hi).
  destruct (fold_left (keepLeft_body rGlyph val) lGlyphs ([], seen))
    as [nlGlyphs seen'] eqn:Ef.
  simpl in Ek. subst nlGlyphs.
  destruct (negb (eqb_of kept lGlyphs)).
  - apply bind_Ok in E. destruct E as (lck' & Ed & E). inversion E; subst. simpl.
    eapply rules_from_rekey; [exact Hs | exact Hrule | | | exact Ed]; simpl; [|reflexivity].
    right. exists lGlyphs, kept. split; [|auto].
    unfold Dict.lookup in El. destruct (Dict.get lClass leftClasses); congruence.
  - inversion E; subst. exact Hs.
Qed.

Lemma conflictRight_body_from rightClasses before rule s s' :
  In rule before ->
  rules_from eq (narrowed_side rightClasses) before (snd s) ->
  conflictRight_body rightClasses rule s = Ok s' ->
  rules_from eq (narrowed_side rightClasses) before (snd s').
Proof.
  destruct rule as [[lGlyph rClass] val], s as [seen rck]. simpl.
  intros Hrule Hs E. unfold conflictRight_body in E.
  apply bind_Ok in E. destruct E as (rGlyphs & El & E).
  destruct (keepRight_fold lGlyph val rGlyphs [] seen) as (kept & Ek & Hi).
  destruct (fold_left (keepRight_body lGlyph val) rGlyphs ([], seen))
    as [nrGlyphs seen'] eqn:Ef.
  simpl in Ek. subst nrGlyphs.
  destruct (negb (eqb_of kept rGlyphs)).
  - apply bind_Ok in E. destruct E as (rck' & Ed & E). inversion E; subst. simpl.
    eapply rules_from_rekey; [exact Hs | exact Hrule | | | exact Ed]; simpl; [reflexivity|].
    right. exists rGlyphs, kept. split; [|auto].
    unfold Dict.lookup in El. destruct (Dict.get rClass rightClasses); congruence.
  - inversion E; subst. exact Hs.
Qed.

Lemma conflictPair_body_from leftClasses rightClasses before rule s s' :
  In rule before ->
  rules_from (narrowed_side leftClasses) (narrowed_side rightClasses) before (snd s) ->
  conflictPair_body leftClasses rightClasses rule s = Ok s' ->
  rules_from (narrowed_side leftClasses) (narrowed_side rightClasses) before (snd s').
Proof.
  destruct rule as [[lClass rClass] val], s as [seen cpk]. simpl.
  intros Hrule Hs E. unfold conflictPair_body in E.
  apply bind_Ok in E. destruct E as (lGlyphs & El & E).
  apply bind_Ok in E. destruct E as (rGlyphs & Er & E).
  destruct (keepPairs_incl val lGlyphs rGlyphs seen) as [Hil Hir].
  destruct (keepPairs val lGlyphs rGlyphs seen) as [[nl nr] seen'].
  simpl in Hil, Hir.
  unfold Dict.lookup in El, Er.
  destruct (Dict.get lClass leftClasses) as [ml|] eqn:Gl; [|discriminate].
  destruct (Dict.get rClass rightClasses) as [mr|] eqn:Gr; [|discriminate].
  inversion El; inversion Er; subst ml mr.
  match type of E with (if ?c then _ else _) = _ => destruct c end.
  - apply bind_Ok in E. destruct E as (cpk' & Ed & E). inversion E; subst. simpl.
    eapply rules_from_rekey; [exact Hs | exact Hrule | | | exact Ed]; simpl.
    + destruct (negb (PySet.eqb nl (PySet.of_list lGlyphs))); [|left; reflexivity].
      right. exists lGlyphs, (sorted_strings nl). split; [exact Gl|]. split; [|reflexivity].
      eapply incl_tran; [apply sorted_strings_incl | exact Hil].
    + destruct (negb (PySet.eqb nr (PySet.of_list rGlyphs))); [|left; reflexivity].
      right. exists rGlyphs, (sorted_strings nr). split; [exact Gr|]. split; [|reflexivity].
      eapply incl_tran; [apply sorted_strings_incl | exact Hir].
  - inversion E; subst. exact Hs.
Qed.

(** C6. Conflict resolution never changes a value: the glyph pair rules
    are left as they are, and every rule of the three class buckets after
    [_removeConflictingKerningRules] comes from a rule of the same bucket
    before it, with the same value, and with each class side either kept or
    replaced by a bracketed list of members of that class. *)
Theorem conflict_resolution_keeps_values (w w' : Writer) :
  _removeConflictingKerningRules w = Ok w' ->
  let leftClasses := Dict.update (leftFeaClasses w) (leftUfoClasses w) in
  let rightClasses := Dict.update (rightFeaClasses w) (rightUfoClasses w) in
  glyphPairKerning w' = glyphPairKerning w /\
  rules_from (narrowed_side leftClasses) eq
             (leftClassKerning w) (leftClassKerning w') /\
  rules_from eq (narrowed_side rightClasses)
             (rightClassKerning w) (rightClassKerning w') /\
  rules_from (narrowed_side leftClasses) (narrowed_side rightClasses)
             (classPairKerning w) (classPairKerning w').
Proof.
  intros E leftClasses rightClasses. unfold _removeConflictingKerningRules in E.
  fold leftClasses rightClasses in E.
  apply bind_Ok in E. destruct E as ([seen1 lck] & E1 & E).
  apply bind_Ok in E. destruct E as ([seen2 rck] & E2 & E).
  apply bind_Ok in E. destruct E as ([seen3 cpk] & E3 & E).
  inversion E; subst w'; clear E. simpl.
  split; [reflexivity|]. split; [|split].
  - apply (@forM_invariant _ _ (conflictLeft_body leftClasses)
             (fun s => rules_from (narrowed_side leftClasses) eq
                                  (leftClassKerning w) (snd s))
             (leftClassKerning w)) in E1; [exact E1 | |].
    + intros rule s s' I Hs Hb. eapply conflictLeft_body_from; eauto.
    + apply rules_from_refl; auto.
  - apply (@forM_invariant _ _ (conflictRight_body rightClasses)
             (fun s => rules_from eq (narrowed_side rightClasses)
                                  (rightClassKerning w) (snd s))
             (rightClassKerning w)) in E2; [exact E2 | |].
    + intros rule s s' I Hs Hb. eapply conflictRight_body_from; eauto.
    + apply rules_from_refl; auto.
  - apply (@forM_invariant _ _ (conflictPair_body leftClasses rightClasses)
             (fun s => rules_from (narrowed_side leftClasses)
                                  (narrowed_side rightClasses)
                                  (classPairKerning w) (snd s))
             (classPairKerning w)) in E3; [exact E3 | |].
    + intros rule s s' I Hs Hb. eapply conflictPair_body_from; eauto.
    + apply rules_from_refl; auto.
Qed.

Lemma conflict_resolution_keeps_values_witness :
  exists w3 w',
    registry parse_no_classes (init font_twoleft) = Ok w3 /\
    _removeConflictingKerningRules (_collectUfoKerning w3) = Ok w' /\
    leftClassKerning (_collectUfoKerning w3) =
      [(("@public.kern1.L", "X"), (-30)%Z); (("@public.kern1.L", "Y"), (-40)%Z)] /\
    leftClassKerning w' = [(("[B C]", "X"), (-30)%Z); (("[A C]", "Y"), (-40)%Z)] /\
    rules_from (narrowed_side (Dict.update (leftFeaClasses (_collectUfoKerning w3))
                                           (leftUfoClasses (_collectUfoKerning w3))))
               eq (leftClassKerning (_collectUfoKerning w3)) (leftClassKerning w').
Proof.
  eexists. eexists. split; [vm_compute; reflexivity|].
  match goal with |- ?E /\ _ => assert (H : E) by (vm_compute; reflexivity) end.
  split; [exact H|]. split; [reflexivity|]. split; [reflexivity|].
  exact (proj1 (proj2 (conflict_resolution_keeps_values _ H))).
Defined.

(** ** The layout of the text *)

Lemma sorted_by_entries {K V : Type} (leb : K -> K -> bool) (d : list (K * V)) :
  (forall a b, leb a b = true \/ leb b a = true) ->
  (forall a b c, leb a b = true -> leb b c = true -> leb a c = true) ->
  sorted_entries leb d (sorted_by leb d).
Proof.
  intros Ht Htr. split; [apply sorted_by_perm | apply sorted_by_sorted; assumption].
Qed.

Lemma sorted_by_nil_iff {K V : Type} (leb : K -> K -> bool) (d : list (K * V)) :
  sorted_by leb d = [] <-> d = [].
Proof.
  split; [|intros ->; reflexivity].
  intros E. pose proof (sorted_by_perm leb d) as P. rewrite E in P.
  apply Permutation_nil in P. exact P.
Qed.

Lemma subtable_lines (lines : list string) enum (bucket : Dict.t (string * string) Z) :
  (if Dict.nonempty bucket
   then _addKerning (lines ++ ["    subtable;"]) bucket enum
   else lines)
  = lines ++ subtable (map (kernLine (if enum then "enum " else ""))
                           (sorted_by pair_leb bucket)).
Proof.
  destruct bucket as [|e bucket]; [simpl; rewrite app_nil_r; reflexivity|].
  cbn [Dict.nonempty]. unfold _addKerning.
  destruct (sorted_by pair_leb (e :: bucket)) eqn:E.
  - apply sorted_by_nil_iff in E. discriminate.
  - cbn [map subtable]. rewrite <- app_assoc. reflexivity.
Qed.

Lemma emit_layout w linesep :
  emit w linesep =
  join linesep
    (map classLine
         (sorted_by String.leb (Dict.update (leftUfoClasses w) (rightUfoClasses w)))
     ++ [""; "feature kern {"]
     ++ map (kernLine "") (sorted_by pair_leb (glyphPairKerning w))
     ++ subtable (map (kernLine "enum ") (sorted_by pair_leb (leftClassKerning w)))
     ++ subtable (map (kernLine "enum ") (sorted_by pair_leb (rightClassKerning w)))
     ++ subtable (map (kernLine "") (sorted_by pair_leb (classPairKerning w)))
     ++ ["} kern;"]).
Proof.
  unfold emit. rewrite !subtable_lines. unfold _addKerning, _addGlyphClasses.
  cbn [app]. f_equal. repeat rewrite <- app_assoc. reflexivity.
Qed.

Lemma not_buckets_empty w :
  ~ buckets_empty w ->
  existsb Dict.nonempty [glyphPairKerning w; leftClassKerning w;
                         rightClassKerning w; classPairKerning w] = true.
Proof.
  unfold buckets_empty. intros Hn.
  destruct (glyphPairKerning w); [|reflexivity].
  destruct (leftClassKerning w); [|reflexivity].
  destruct (rightClassKerning w); [|reflexivity].
  destruct (classPairKerning w); [|reflexivity].
  exfalso. apply Hn. auto.
Qed.

(** C8. When some bucket holds a rule, [write] returns the lines, joined
    by the line separator, that are, in this order: one declaration line
    for every class of the two group-declared registries merged (whether a
    rule uses the class or not), in the order of the class names; an empty
    line; the opening of the [kern] feature; the glyph pair rules; for the
    left class, the right class and the class pair bucket in turn, and only
    when the bucket is not empty, a subtable break and the rules of the
    bucket (with [enum] for the two mixed buckets); the closing of the
    feature. The rules of every bucket come in the order of their keys. *)
Theorem write_layout (parse : string -> result (list (string * list string)))
  (w w' : Writer) (linesep : string) :
  collect parse w = Ok w' -> ~ buckets_empty w' ->
  exists D G L R C,
    sorted_entries String.leb
      (Dict.update (leftUfoClasses w') (rightUfoClasses w')) D /\
    sorted_entries pair_leb (glyphPairKerning w') G /\
    sorted_entries pair_leb (leftClassKerning w') L /\
    sorted_entries pair_leb (rightClassKerning w') R /\
    sorted_entries pair_leb (classPairKerning w') C /\
    write parse w linesep =
    Ok (join linesep
          (map classLine D
           ++ [""; "feature kern {"]
           ++ map (kernLine "") G
           ++ subtable (map (kernLine "enum ") L)
           ++ subtable (map (kernLine "enum ") R)
           ++ subtable (map (kernLine "") C)
           ++ ["} kern;"])).
Proof.
  intros Hc Hn.
  exists (sorted_by String.leb (Dict.update (leftUfoClasses w') (rightUfoClasses w'))),
         (sorted_by pair_leb (glyphPairKerning w')),
         (sorted_by pair_leb (leftClassKerning w')),
         (sorted_by pair_leb (rightClassKerning w')),
         (sorted_by pair_leb (classPairKerning w')).
  repeat (split; [first [ apply sorted_by_entries;
                          [apply String.leb_total | apply string_leb_trans]
                        | apply sorted_by_entries;
                          [apply pair_leb_total | apply pair_leb_trans] ]|]).
  unfold write. rewrite Hc. cbn [bind].
  rewrite (not_buckets_empty Hn). cbn [negb]. rewrite emit_layout. reflexivity.
Qed.

Lemma write_layout_witness :
  exists w', collect parse_no_classes (init font_twoleft) = Ok w' /\
  exists D G L R C,
    sorted_entries String.leb
      (Dict.update (leftUfoClasses w') (rightUfoClasses w')) D /\
    sorted_entries pair_leb (glyphPairKerning w') G /\
    sorted_entries pair_leb (leftClassKerning w') L /\
    sorted_entries pair_leb (rightClassKerning w') R /\
    sorted_entries pair_leb (classPairKerning w') C /\
    write parse_no_classes (init font_twoleft) LF =
    Ok (join LF
          (map classLine D
           ++ [""; "feature kern {"]
           ++ map (kernLine "") G
           ++ subtable (map (kernLine "enum ") L)
           ++ subtable (map (kernLine "enum ") R)
           ++ subtable (map (kernLine "") C)
           ++ ["} kern;"])).
Proof.
  eexists. split; [vm_compute; reflexivity|].
  apply write_layout.
  - vm_compute. reflexivity.
  - intros (H & _). vm_compute in H. discriminate.
Defined.

Example write_font_twoleft :
  write parse_no_classes (init font_twoleft) LF =
  Ok (join LF ["@public.kern1.L = [A B C];"; "@public.kern2.R = [X Z];"; "";
               "feature kern {";
               "    pos A X 10;"; "    pos B Y 20;";
               "    subtable;";
               "    enum pos [A C] Y -40;"; "    enum pos [B C] X -30;";
               "    subtable;";
               "    pos @public.kern1.L [Z] -50;";
               "} kern;"]).
Proof. vm_compute. reflexivity. Qed.

(** C8, as stated, fails for a class that no rule uses: the group is
    declared all the same. *)
Lemma unused_class_declared :
  exists w', collect parse_no_classes (init font_unused_group) = Ok w' /\
    Dict.keys (leftUfoClasses w') = ["@public.kern1.LEFT"] /\
    ~ used_in "@public.kern1.LEFT" (glyphPairKerning w') /\
    ~ used_in "@public.kern1.LEFT" (leftClassKerning w') /\
    ~ used_in "@public.kern1.LEFT" (rightClassKerning w') /\
    ~ used_in "@public.kern1.LEFT" (classPairKerning w') /\
    write parse_no_classes (init font_unused_group) LF =
    Ok (join LF ["@public.kern1.LEFT = [A D];"; ""; "feature kern {";
                 "    pos B C 1;"; "} kern;"]).
Proof.
  eexists. split; [vm_compute; reflexivity|]. split; [reflexivity|].
  repeat split; try (intros (key & I & E); vm_compute in I;
                     repeat (destruct I as [<-|I]; [destruct E; discriminate|]);
                     destruct I).
Qed.

(** ** Where conflict resolution falls short *)

Example members_of_bracket_list :
  members_of [] "[B C]" = ["B"; "C"] /\ members_of [] "[]" = [] /\
  members_of [("@L", ["A"; "B"])] "@L" = ["A"; "B"] /\ members_of [] "A" = ["A"].
Proof. repeat split. Qed.

(** C3, at a left class (and at a right class) all of whose members are
    claimed by glyph pairs: the list of surviving members is empty and
    differs from the member list, so the rule is stored again under the
    key with the empty list ["[]"] and is written with it; it is not
    dropped. *)
Theorem empty_member_list_rule_is_kept :
  (exists w', collect parse_no_classes (init font_allconflict) = Ok w' /\
     leftClassKerning w' = [(("[]", "B"), (-20)%Z)] /\
     write parse_no_classes (init font_allconflict) LF =
     Ok (join LF ["@public.kern1.LEFT = [A];"; ""; "feature kern {";
                  "    pos A B -10;"; "    subtable;";
                  "    enum pos [] B -20;"; "} kern;"])) /\
  (exists w', collect parse_no_classes (init font_allconflict_right) = Ok w' /\
     rightClassKerning w' = [(("T", "[]"), (-20)%Z)] /\
     write parse_no_classes (init font_allconflict_right) LF =
     Ok (join LF ["@public.kern2.ROUND = [a o];"; ""; "feature kern {";
                  "    pos T a -10;"; "    pos T o -12;"; "    subtable;";
                  "    enum pos T [] -20;"; "} kern;"])).
Proof.
  split; eexists; (split; [vm_compute; reflexivity|]); split; reflexivity.
Qed.

(** C1, at the class / class scenario of the specification: after
    [_removeConflictingKerningRules] the glyph pair [(A, X)] is covered by
    the glyph pair rule and by the class pair rule, whose classes keep all
    their members. *)
Theorem concrete_pair_covered_twice :
  exists w', collect parse_no_classes (init font_classpair) = Ok w' /\
    glyphPairKerning w' = [(("A", "X"), (-5)%Z)] /\
    classPairKerning w' = [(("@public.kern1.L", "@public.kern2.R"), (-15)%Z)] /\
    In ("A", "X") (covered_glyph (glyphPairKerning w')) /\
    In ("A", "X") (covered_pair
                     (Dict.update (leftFeaClasses w') (leftUfoClasses w'))
                     (Dict.update (rightFeaClasses w') (rightUfoClasses w'))
                     (classPairKerning w')) /\
    ~ NoDup (concrete_pairs w').
Proof.
  eexists. split; [vm_compute; reflexivity|].
  split; [reflexivity|]. split; [reflexivity|].
  split; [vm_compute; auto|]. split; [vm_compute; auto|].
  vm_compute. intros ND. inversion ND as [|? ? Hn _]. apply Hn. simpl. auto.
Qed.

(** C2, the class / class scenario of the specification: [write] keeps the
    glyph pair rule [A X -5], and it keeps the class pair rule on the two
    whole classes; the left side is not narrowed to [[B]]. *)
Theorem class_pair_scenario_not_narrowed :
  write parse_no_classes (init font_classpair) LF =
  Ok (join LF ["@public.kern1.L = [A B];"; "@public.kern2.R = [X Y];"; "";
               "feature kern {"; "    pos A X -5;"; "    subtable;";
               "    pos @public.kern1.L @public.kern2.R -15;"; "} kern;"]) /\
  write parse_no_classes (init font_classpair) LF <>
  Ok (join LF ["@public.kern1.L = [A B];"; "@public.kern2.R = [X Y];"; "";
               "feature kern {"; "    pos A X -5;"; "    subtable;";
               "    pos [B] [X Y] -15;"; "} kern;"]).
Proof.
  split; [vm_compute; reflexivity|]. vm_compute. discriminate.
Qed.

(** ** Determinism *)

Lemma same_entries_sorted {K V : Type} (leb : K -> K -> bool) (d1 d2 : list (K * V)) :
  (forall a b, leb a b = true \/ leb b a = true) ->
  (forall a b c, leb a b = true -> leb b c = true -> leb a c = true) ->
  (forall a b, leb a b = true -> leb b a = true -> a = b) ->
  same_entries d1 d2 -> sorted_by leb d1 = sorted_by leb d2.
Proof.
  intros Ht Htr Ha [ND P]. apply sorted_by_order_free; assumption.
Qed.

(** the text does not depend on the order in which the two mixed buckets
    list their rules *)
Lemma emit_order_free w1 w2 linesep :
  final_eq w1 w2 -> emit w1 linesep = emit w2 linesep.
Proof.
  intros (Hlu & Hru & Hg & Hp & Hl & Hr). rewrite !emit_layout.
  rewrite Hlu, Hru, Hg, Hp.
  rewrite (@same_entries_sorted _ _ pair_leb _ _ pair_leb_total pair_leb_trans pair_leb_antisym Hl).
  rewrite (@same_entries_sorted _ _ pair_leb _ _ pair_leb_total pair_leb_trans pair_leb_antisym Hr).
  reflexivity.
Qed.

(** *** Dictionaries as maps *)

Lemma NoDup_keys_entries {K V : Type} (d : list (K * V)) :
  NoDup (map fst d) -> NoDup d.
Proof.
  induction d as [|x d IH]; intros ND; [constructor|].
  inversion ND; subst. constructor; auto.
  intros I. apply H1. apply in_map. exact I.
Qed.

Lemma perm_map_eq {K V : Type} `{EqDec K} (d1 d2 : Dict.t K V) :
  NoDup (Dict.keys d1) -> Permutation d1 d2 -> map_eq d1 d2.
Proof.
  intros ND P k.
  assert (ND2 : NoDup (Dict.keys d2)).
  { eapply Permutation_NoDup; [apply Permutation_map; exact P | exact ND]. }
  destruct (Dict.get k d1) as [v|] eqn:E1.
  - apply get_Some_In in E1. symmetry. apply In_get; [exact ND2|].
    eapply Permutation_in; eauto.
  - destruct (Dict.get k d2) as [v|] eqn:E2; [|reflexivity].
    apply get_Some_In in E2. apply Permutation_sym in P.
    apply (Permutation_in _ P) in E2. apply In_get in E2; [congruence | exact ND].
Qed.

Lemma map_eq_perm {K V : Type} `{EqDec K} (d1 d2 : Dict.t K V) :
  NoDup (Dict.keys d1) -> NoDup (Dict.keys d2) -> map_eq d1 d2 ->
  Permutation d1 d2.
Proof.
  intros ND1 ND2 E. apply NoDup_Permutation; try (apply NoDup_keys_entries; assumption).
  intros [k v]. split; intros I.
  - apply get_Some_In. rewrite <- E. apply In_get; assumption.
  - apply get_Some_In. rewrite E. apply In_get; assumption.
Qed.

Lemma map_eq_remove {K V : Type} `{EqDec K} (d1 d2 : Dict.t K V) k :
  NoDup (Dict.keys d1) -> NoDup (Dict.keys d2) ->
  map_eq d1 d2 -> map_eq (Dict.remove k d1) (Dict.remove k d2).
Proof. intros N1 N2 E k'. rewrite !get_remove, E by assumption. reflexivity. Qed.

(** *** Related runs of a loop *)

Lemma res_rel_bind {A B : Type} (RA : A -> A -> Prop) (RB : B -> B -> Prop)
  (m1 m2 : result A) (f1 f2 : A -> result B) :
  res_rel RA m1 m2 ->
  (forall a1 a2, RA a1 a2 -> res_rel RB (f1 a1) (f2 a2)) ->
  res_rel RB (bind m1 f1) (bind m2 f2).
Proof.
  destruct m1, m2; simpl; intros Hm Hf; try contradiction; auto.
Qed.

Lemma forM_rel {A S : Type} (R : S -> S -> Prop) (body : A -> S -> result S)
  (xs : list A) :
  (forall x s1 s2, In x xs -> R s1 s2 -> res_rel R (body x s1) (body x s2)) ->
  forall s1 s2, R s1 s2 -> res_rel R (forM body xs s1) (forM body xs s2).
Proof.
  induction xs as [|x xs IH]; intros Hb s1 s2 Hs; simpl; [exact Hs|].
  apply res_rel_bind with (RA := R).
  - apply Hb; [left; reflexivity | exact Hs].
  - intros a1 a2 Ha. apply IH; [|exact Ha].
    intros y t1 t2 I. apply Hb. right. exact I.
Qed.

(** *** Neighbour exchanges *)

Lemma swaps_perm side l1 l2 : swaps side l1 l2 -> Permutation l1 l2.
Proof.
  induction 1; [reflexivity | constructor; assumption | constructor |
                eapply perm_trans; eassumption].
Qed.

Lemma swaps_set side l1 l2 k v :
  swaps side l1 l2 -> swaps side (Dict.set k v l1) (Dict.set k v l2).
Proof.
  induction 1 as [l|[kx vx] l l' Hs IH|[kx vx] [ky vy] l Hne|l1 l2 l3 H1 IH1 H2 IH2].
  - apply swaps_refl.
  - simpl. destruct (eq_dec k kx).
    + apply swaps_skip. exact Hs.
    + apply swaps_skip. exact IH.
  - simpl in *. destruct (eq_dec k kx) as [Ex|Hx], (eq_dec k ky) as [Ey|Hy];
      try (apply swaps_swap; exact Hne).
    exfalso. apply Hne. congruence.
  - eapply swaps_trans; eassumption.
Qed.

(** two assignments to keys of different sides can be exchanged *)
Lemma set_set_swaps side (l : Dict.t (string * string) Z) k1 v1 k2 v2 :
  side k1 <> side k2 ->
  swaps side (Dict.set k2 v2 (Dict.set k1 v1 l)) (Dict.set k1 v1 (Dict.set k2 v2 l)).
Proof.
  intros Hne. assert (Hk : k1 <> k2) by (intros ->; contradiction).
  induction l as [|[k v] l IH]; simpl.
  - destruct (eq_dec k2 k1); [congruence|]. destruct (eq_dec k1 k2); [congruence|].
    simpl. apply swaps_swap. simpl. exact Hne.
  - destruct (eq_dec k1 k) as [E1|E1], (eq_dec k2 k) as [E2|E2]; simpl.
    + congruence.
    + destruct (eq_dec k2 k); [congruence|]. destruct (eq_dec k1 k); [|congruence].
      apply swaps_refl.
    + destruct (eq_dec k2 k); [|congruence]. destruct (eq_dec k1 k); [congruence|].
      apply swaps_refl.
    + destruct (eq_dec k2 k); [congruence|]. destruct (eq_dec k1 k); [congruence|].
      apply swaps_skip. exact IH.
Qed.

(** assigning the hits of a key glyph to a bucket: a different order of
    the hits exchanges rules of different sides only *)
Lemma fold_set_swaps side (mk : string * string * Z -> string * string)
  (h1 h2 : list (string * string * Z)) :
  Permutation h1 h2 ->
  NoDup (map (fun h => side (mk h)) h1) ->
  forall l1 l2, swaps side l1 l2 ->
  swaps side (fold_left (fun l h => Dict.set (mk h) (snd h) l) h1 l1)
             (fold_left (fun l h => Dict.set (mk h) (snd h) l) h2 l2).
Proof.
  induction 1 as [|x h h' P IH|x y h|h1 h2 h3 P1 IH1 P2 IH2]; intros ND l1 l2 Hs.
  - exact Hs.
  - simpl. apply IH; [inversion ND; assumption | apply swaps_set; exact Hs].
  - simpl. inversion ND as [|? ? Hx ND']; subst. simpl in Hx.
    assert (Hxy : side (mk x) <> side (mk y)) by (intros E; apply Hx; left; exact E).
    assert (G : forall l l', swaps side l l' ->
              swaps side (fold_left (fun l h => Dict.set (mk h) (snd h) l) h l)
                         (fold_left (fun l h => Dict.set (mk h) (snd h) l) h l')).
    { clear. induction h as [|a h IHh]; intros l l' Hl; simpl; [exact Hl|].
      apply IHh. apply swaps_set. exact Hl. }
    apply G. eapply swaps_trans.
    + apply set_set_swaps. intros E. apply Hxy. symmetry. exact E.
    + apply swaps_set, swaps_set. exact Hs.
  - eapply swaps_trans.
    + apply IH1; [exact ND | apply swaps_refl].
    + apply IH2; [|exact Hs].
      eapply Permutation_NoDup; [apply Permutation_map; exact P1 | exact ND].
Qed.

(** *** The hits of a key glyph *)

Lemma key_by_items (k k' : string * string) index :
  item k index = item k' index -> item k (other index) = item k' (other index) ->
  k = k'.
Proof.
  destruct k, k', index; simpl; intros; subst; reflexivity.
Qed.

Lemma NoDup_map_on {A B : Type} (f : A -> B) (l : list A) :
  (forall x y, In x l -> In y l -> f x = f y -> x = y) ->
  NoDup l -> NoDup (map f l).
Proof.
  induction l as [|a l IH]; intros Hinj ND; simpl; [constructor|].
  inversion ND; subst. constructor.
  - intros I. apply in_map_iff in I. destruct I as [y [E I]].
    assert (y = a) by (apply Hinj; simpl; auto). subst y. contradiction.
  - apply IH; [|assumption]. intros x y Ix Iy. apply Hinj; simpl; auto.
Qed.

Lemma hits_other_NoDup (kern : Dict.t (string * string) Z) g index :
  NoDup (Dict.keys kern) ->
  NoDup (map (fun h => item (fst h) (other index)) (_getGlyphKern kern g index)).
Proof.
  intros ND.
  assert (NDh : NoDup (Dict.keys (_getGlyphKern kern g index)))
    by (apply NoDup_keys_filter; exact ND).
  apply NoDup_map_on; [|apply NoDup_keys_entries; exact NDh].
  intros [k v] [k' v'] I I' E. simpl in E.
  pose proof I as J. pose proof I' as J'.
  apply _getGlyphKern_In in J, J'. destruct J as [J Hk], J' as [J' Hk'].
  assert (k = k') by (apply key_by_items with (index := index); congruence).
  subst k'. f_equal. apply In_get in J, J'; try assumption. congruence.
Qed.

Lemma hits_perm (k1 k2 : Dict.t (string * string) Z) g index :
  NoDup (Dict.keys k1) -> NoDup (Dict.keys k2) -> map_eq k1 k2 ->
  Permutation (_getGlyphKern k1 g index) (_getGlyphKern k2 g index).
Proof.
  intros N1 N2 E.
  apply NoDup_Permutation;
    try (apply NoDup_keys_entries, NoDup_keys_filter; assumption).
  intros [k v]. rewrite !_getGlyphKern_In. split; intros [I Hk]; split; try exact Hk.
  - apply get_Some_In. rewrite <- E. apply In_get; assumption.
  - apply get_Some_In. rewrite E. apply In_get; assumption.
Qed.

Lemma fold_remove_get (hits : list (string * string * Z)) :
  forall kern : Dict.t (string * string) Z,
  NoDup (Dict.keys kern) ->
  NoDup (Dict.keys (fold_left (fun k hit => Dict.remove (fst hit) k) hits kern)) /\
  forall k, Dict.get k (fold_left (fun k hit => Dict.remove (fst hit) k) hits kern)
            = if in_dec eq_dec k (map fst hits) then None else Dict.get k kern.
Proof.
  induction hits as [|[p v] hits IH]; intros kern ND; simpl.
  - split; [exact ND | reflexivity].
  - destruct (IH (Dict.remove p kern)) as [ND' G]; [apply NoDup_keys_remove, ND|].
    split; [exact ND'|]. intros k. rewrite G, get_remove by exact ND.
    destruct (in_dec eq_dec k (map fst hits)) as [I|I].
    + destruct (eq_dec p k); destruct (in_dec eq_dec k (map fst hits)); tauto.
    + destruct (eq_dec k p) as [->|Hk].
      * destruct (eq_dec p p); [reflexivity | congruence].
      * destruct (eq_dec p k); [congruence|].
        destruct (in_dec eq_dec k (map fst hits)); [contradiction | reflexivity].
Qed.

(** the kerning table once the hits of a key glyph are taken out *)
Lemma remove_hits_map_eq (k1 k2 : Dict.t (string * string) Z) g index :
  NoDup (Dict.keys k1) -> NoDup (Dict.keys k2) -> map_eq k1 k2 ->
  let out kern := fold_left (fun k hit => Dict.remove (fst hit) k)
                            (_getGlyphKern kern g index) kern in
  NoDup (Dict.keys (out k1)) /\ NoDup (Dict.keys (out k2)) /\
  map_eq (out k1) (out k2).
Proof.
  intros N1 N2 E out.
  destruct (fold_remove_get (_getGlyphKern k1 g index) k1 N1) as [M1 G1].
  destruct (fold_remove_get (_getGlyphKern k2 g index) k2 N2) as [M2 G2].
  split; [exact M1|]. split; [exact M2|]. intros k. unfold out. rewrite G1, G2.
  assert (Hin : In k (map fst (_getGlyphKern k1 g index)) <->
                In k (map fst (_getGlyphKern k2 g index))).
  { pose proof (hits_perm g index N1 N2 E) as P. split; intros I.
    - eapply Permutation_in; [apply Permutation_map; exact P | exact I].
    - eapply Permutation_in; [apply Permutation_map, Permutation_sym; exact P | exact I]. }
  destruct (in_dec eq_dec k (map fst (_getGlyphKern k1 g index)));
    destruct (in_dec eq_dec k (map fst (_getGlyphKern k2 g index)));
    try tauto. apply E.
Qed.

Lemma fold_feaLeftGlyph ln (hits : list (string * string * Z)) : forall kern lck,
  fold_left (fun s hit => feaLeftGlyph_body ln hit s) hits (kern, lck) =
  (fold_left (fun k hit => Dict.remove (fst hit) k) hits kern,
   fold_left (fun l hit => Dict.set (ln, snd (fst hit)) (snd hit) l) hits lck).
Proof.
  induction hits as [|[p v] hits IH]; intros kern lck; simpl; [reflexivity|].
  apply IH.
Qed.

Lemma fold_feaRightGlyph rn (hits : list (string * string * Z)) : forall kern rck,
  fold_left (fun s hit => feaRightGlyph_body rn hit s) hits (kern, rck) =
  (fold_left (fun k hit => Dict.remove (fst hit) k) hits kern,
   fold_left (fun l hit => Dict.set (fst (fst hit), rn) (snd hit) l) hits rck).
Proof.
  induction hits as [|[p v] hits IH]; intros kern rck; simpl; [reflexivity|].
  apply IH.
Qed.

Lemma NoDup_keys_fold_set {K V A : Type} `{EqDec K} (mk : A -> K) (val : A -> V)
  (hits : list A) : forall d : Dict.t K V,
  NoDup (Dict.keys d) ->
  NoDup (Dict.keys (fold_left (fun l h => Dict.set (mk h) (val h) l) hits d)).
Proof.
  induction hits as [|h hits IH]; intros d ND; simpl; [exact ND|].
  apply IH, NoDup_keys_set, ND.
Qed.

(** *** The stages of [write] on two related writers *)

Ltac weq_split H :=
  destruct H as [Hgr Hft Hlf Hrf Hlu Hru Hgp Hcp Hn1 Hn2 Hk Hln Hl Hrn Hr].

Ltac weq_easy :=
  constructor; simpl; try assumption; try congruence.

Lemma weq_init font1 font2 :
  same_entries (font_kerning font1) (font_kerning font2) ->
  font_groups font1 = font_groups font2 ->
  font_features_text font1 = font_features_text font2 ->
  weq (init font1) (init font2).
Proof.
  intros [ND P] Hg Ht. constructor; simpl; try congruence;
    try constructor; try apply swaps_refl.
  - rewrite Ht. reflexivity.
  - exact ND.
  - eapply Permutation_NoDup; [apply Permutation_map; exact P | exact ND].
  - apply perm_map_eq; assumption.
Qed.

Lemma classDefinition_weq name contents w1 w2 :
  weq w1 w2 -> weq (classDefinition name contents w1) (classDefinition name contents w2).
Proof.
  intros H. weq_split H. unfold classDefinition.
  destruct (_isClassName leftFeaClassRe name); [weq_easy|].
  destruct (_isClassName rightFeaClassRe name); weq_easy.
Qed.

Lemma _collectFeaClasses_weq parse w1 w2 :
  weq w1 w2 ->
  res_rel weq (_collectFeaClasses parse w1) (_collectFeaClasses parse w2).
Proof.
  intros H. unfold _collectFeaClasses. rewrite <- (weq_featxt H).
  destruct (parse (featxt w1)) as [defs|e]; simpl; [|reflexivity].
  clear - H. revert w1 w2 H. induction defs as [|d defs IH]; intros w1 w2 H; simpl.
  - exact H.
  - apply IH. apply classDefinition_weq. exact H.
Qed.

Lemma feaClassPair_body_rel leftName leftKey right_ s1 s2 :
  (NoDup (Dict.keys (fst s1)) /\ NoDup (Dict.keys (fst s2)) /\
   map_eq (fst s1) (fst s2) /\ snd s1 = snd s2) ->
  res_rel (fun t1 t2 => NoDup (Dict.keys (fst t1)) /\ NoDup (Dict.keys (fst t2)) /\
                        map_eq (fst t1) (fst t2) /\ snd t1 = snd t2)
          (feaClassPair_body leftName leftKey right_ s1)
          (feaClassPair_body leftName leftKey right_ s2).
Proof.
  destruct right_ as [rn rc], s1 as [k1 c1], s2 as [k2 c2]. simpl.
  intros (N1 & N2 & E & Ec). subst c2. unfold feaClassPair_body.
  destruct (first rc) as [rk|e]; simpl; [|reflexivity].
  rewrite <- (E (leftKey, rk)).
  destruct (Dict.get (leftKey, rk) k1); simpl.
  - repeat split; try (apply NoDup_keys_remove; assumption).
    apply map_eq_remove; assumption.
  - auto.
Qed.

Lemma feaLeft_body_weq cls w1 w2 :
  weq w1 w2 -> res_rel weq (feaLeft_body cls w1) (feaLeft_body cls w2).
Proof.
  destruct cls as [ln lc]. intros H. unfold feaLeft_body.
  destruct (first lc) as [lk|e]; cbn [bind]; [|reflexivity].
  rewrite <- (weq_rightFea H).
  eapply res_rel_bind.
  - apply forM_rel with
      (R := fun t1 t2 : Dict.t (string * string) Z * Dict.t (string * string) Z =>
              NoDup (Dict.keys (fst t1)) /\ NoDup (Dict.keys (fst t2)) /\
              map_eq (fst t1) (fst t2) /\ snd t1 = snd t2).
    + intros x s1 s2 _ Hs. apply feaClassPair_body_rel. exact Hs.
    + weq_split H. simpl. auto.
  - intros [k1 c1] [k2 c2] (N1 & N2 & E & Ec). simpl in N1, N2, E, Ec. subst c2.
    rewrite !fold_feaLeftGlyph. simpl.
    destruct (remove_hits_map_eq lk 0 N1 N2 E) as (M1 & M2 & E').
    weq_split H. constructor; simpl; try assumption; try congruence.
    + apply NoDup_keys_fold_set. exact Hln.
    + apply (@fold_set_swaps snd (fun h => (ln, snd (fst h)))).
      * apply hits_perm; assumption.
      * exact (@hits_other_NoDup k1 lk 0 N1).
      * exact Hl.
Qed.

Lemma feaRight_body_weq cls w1 w2 :
  weq w1 w2 -> res_rel weq (feaRight_body cls w1) (feaRight_body cls w2).
Proof.
  destruct cls as [rn rc]. intros H. unfold feaRight_body.
  destruct (first rc) as [rk|e]; cbn [bind]; [|reflexivity].
  rewrite !fold_feaRightGlyph. simpl.
  weq_split H.
  destruct (remove_hits_map_eq rk 1 Hn1 Hn2 Hk) as (M1 & M2 & E').
  constructor; simpl; try assumption; try congruence.
  - apply NoDup_keys_fold_set. exact Hrn.
  - apply (@fold_set_swaps fst (fun h => (fst (fst h), rn))).
    + apply hits_perm; assumption.
    + exact (@hits_other_NoDup (kerning w1) rk 1 Hn1).
    + exact Hr.
Qed.

Lemma forM_weq (body : string * list string -> Writer -> result Writer)
  (pick : Writer -> Dict.t string (list string)) w1 w2 :
  (forall cls t1 t2, weq t1 t2 -> res_rel weq (body cls t1) (body cls t2)) ->
  pick w1 = pick w2 -> weq w1 w2 ->
  res_rel weq (forM body (pick w1) w1) (forM body (pick w2) w2).
Proof.
  intros Hb Hp H. rewrite <- Hp. apply forM_rel; [|exact H].
  intros x s1 s2 _. apply Hb.
Qed.

Lemma _collectFeaClassKerning_weq w1 w2 :
  weq w1 w2 ->
  res_rel weq (_collectFeaClassKerning w1) (_collectFeaClassKerning w2).
Proof.
  intros H. unfold _collectFeaClassKerning.
  eapply res_rel_bind.
  - apply (forM_weq feaLeft_body leftFeaClasses);
      [intros; apply feaLeft_body_weq; assumption | apply (weq_leftFea H) | exact H].
  - intros a1 a2 Ha.
    apply (forM_weq feaRight_body rightFeaClasses);
      [intros; apply feaRight_body_weq; assumption | apply (weq_rightFea Ha) | exact Ha].
Qed.

Lemma _collectUfoClasses_weq w1 w2 :
  weq w1 w2 -> weq (_collectUfoClasses w1) (_collectUfoClasses w2).
Proof.
  intros H. unfold _collectUfoClasses. rewrite <- (weq_groups H).
  generalize (groups w1). intros gs. revert w1 w2 H.
  induction gs as [|[name contents] gs IH]; intros w1 w2 H; simpl; [exact H|].
  apply IH. unfold ufoClass_body.
  destruct (_isClassName leftUfoGroupRe name), (_isClassName rightUfoGroupRe name);
    weq_split H; weq_easy.
Qed.

Lemma _makeFeaClassName_weq w1 w2 name :
  weq w1 w2 -> _makeFeaClassName w1 name = _makeFeaClassName w2 name.
Proof.
  intros H. unfold _makeFeaClassName, existingClassNames.
  rewrite (weq_leftFea H), (weq_rightFea H), (weq_leftUfo H), (weq_rightUfo H).
  reflexivity.
Qed.

Lemma renamed_get_map_eq index name newName (k1 k2 : Dict.t (string * string) Z) key :
  map_eq k1 k2 ->
  renamed_get index name newName k1 key = renamed_get index name newName k2 key.
Proof. intros E. unfold renamed_get. rewrite !E. reflexivity. Qed.

Lemma rekey_map_eq index name newName (k1 k2 : Dict.t (string * string) Z) :
  name <> newName ->
  NoDup (Dict.keys k1) -> NoDup (Dict.keys k2) -> map_eq k1 k2 ->
  let moved kern := fold_left (fun k hit => rekey index newName hit k)
                              (_getGlyphKern kern name index) kern in
  NoDup (Dict.keys (moved k1)) /\ NoDup (Dict.keys (moved k2)) /\
  map_eq (moved k1) (moved k2).
Proof.
  intros Hne N1 N2 E moved.
  destruct (rekey_all index Hne k1 N1) as [M1 G1].
  destruct (rekey_all index Hne k2 N2) as [M2 G2].
  split; [exact M1|]. split; [exact M2|]. intros key. unfold moved.
  rewrite G1, G2. apply renamed_get_map_eq. exact E.
Qed.

Lemma correctLeft_body_weq cls w1 w2 :
  weq w1 w2 -> res_rel weq (correctLeft_body cls w1) (correctLeft_body cls w2).
Proof.
  destruct cls as [name members]. intros H. unfold correctLeft_body.
  rewrite <- (_makeFeaClassName_weq name H).
  destruct (_makeFeaClassName w1 name) as [newName|e]; cbn [bind]; [|reflexivity].
  unfold eqb_of. destruct (eq_dec name newName) as [|Hne]; [exact H|].
  rewrite <- (weq_leftUfo H).
  destruct (Dict.del name (Dict.set newName members (leftUfoClasses w1)))
    as [luc|e]; cbn [bind]; [|reflexivity].
  rewrite (fold_left_ext _ (fun k hit => rekey 0 newName hit k)
             (_getGlyphKern (kerning w1) name 0) (kerning w1))
    by (intros; apply rekeyLeft_body_rekey).
  rewrite (fold_left_ext _ (fun k hit => rekey 0 newName hit k)
             (_getGlyphKern (kerning w2) name 0) (kerning w2))
    by (intros; apply rekeyLeft_body_rekey).
  weq_split H.
  destruct (rekey_map_eq 0 Hne Hn1 Hn2 Hk) as (M1 & M2 & E').
  constructor; simpl; try assumption; try congruence;
    first [exact M1 | exact M2 | exact E'].
Qed.

Lemma correctRight_body_weq cls w1 w2 :
  weq w1 w2 -> res_rel weq (correctRight_body cls w1) (correctRight_body cls w2).
Proof.
  destruct cls as [name members]. intros H. unfold correctRight_body.
  rewrite <- (_makeFeaClassName_weq name H).
  destruct (_makeFeaClassName w1 name) as [newName|e]; cbn [bind]; [|reflexivity].
  unfold eqb_of. destruct (eq_dec name newName) as [|Hne]; [exact H|].
  rewrite <- (weq_rightUfo H).
  destruct (Dict.del name (Dict.set newName members (rightUfoClasses w1)))
    as [ruc|e]; cbn [bind]; [|reflexivity].
  rewrite (fold_left_ext _ (fun k hit => rekey 1 newName hit k)
             (_getGlyphKern (kerning w1) name 1) (kerning w1))
    by (intros; apply rekeyRight_body_rekey).
  rewrite (fold_left_ext _ (fun k hit => rekey 1 newName hit k)
             (_getGlyphKern (kerning w2) name 1) (kerning w2))
    by (intros; apply rekeyRight_body_rekey).
  weq_split H.
  destruct (rekey_map_eq 1 Hne Hn1 Hn2 Hk) as (M1 & M2 & E').
  constructor; simpl; try assumption; try congruence;
    first [exact M1 | exact M2 | exact E'].
Qed.

Lemma _correctUfoClassNames_weq w1 w2 :
  weq w1 w2 ->
  res_rel weq (_correctUfoClassNames w1) (_correctUfoClassNames w2).
Proof.
  intros H. unfold _correctUfoClassNames.
  eapply res_rel_bind.
  - apply (forM_weq correctLeft_body leftUfoClasses);
      [intros; apply correctLeft_body_weq; assumption | apply (weq_leftUfo H) | exact H].
  - intros a1 a2 Ha.
    apply (forM_weq correctRight_body rightUfoClasses);
      [intros; apply correctRight_body_weq; assumption | apply (weq_rightUfo Ha) | exact Ha].
Qed.

Lemma ufoKerning_body_weq entry w1 w2 :
  weq w1 w2 -> weq (ufoKerning_body w1 entry) (ufoKerning_body w2 entry).
Proof.
  destruct entry as [[l r] v]. intros H. unfold ufoKerning_body.
  rewrite <- (weq_leftUfo H), <- (weq_rightUfo H).
  weq_split H.
  destruct (Dict.mem l (leftUfoClasses w1)), (Dict.mem r (rightUfoClasses w1));
    constructor; simpl; try assumption; try congruence;
    try (apply NoDup_keys_set; assumption); try (apply swaps_set; assumption).
Qed.

Lemma _collectUfoKerning_weq w1 w2 :
  weq w1 w2 -> weq (_collectUfoKerning w1) (_collectUfoKerning w2).
Proof.
  intros H. unfold _collectUfoKerning.
  assert (E : sorted_by pair_leb (kerning w1) = sorted_by pair_leb (kerning w2)).
  { apply (@sorted_by_order_free _ _ pair_leb pair_leb_total pair_leb_trans pair_leb_antisym).
    - apply (weq_kerning_nodup1 H).
    - apply map_eq_perm; [apply (weq_kerning_nodup1 H) | apply (weq_kerning_nodup2 H)
                         | apply (weq_kerning H)]. }
  rewrite <- E. clear E. generalize (sorted_by pair_leb (kerning w1)). intros es.
  revert w1 w2 H. induction es as [|e es IH]; intros w1 w2 H; simpl; [exact H|].
  apply IH. apply ufoKerning_body_weq. exact H.
Qed.

(** *** Rules with different glyphs can be resolved in any order *)

Lemma view_eq_sym side t s1 s2 : view_eq side t s1 s2 -> view_eq side t s2 s1.
Proof. intros [A B]. split; intros; symmetry; auto. Qed.

Lemma view_eq_trans side t s1 s2 s3 :
  view_eq side t s1 s2 -> view_eq side t s2 s3 -> view_eq side t s1 s3.
Proof.
  intros [A B] [A' B']. split; intros.
  - rewrite A by assumption. auto.
  - rewrite B by assumption. auto.
Qed.

Lemma res_rel_trans {A : Type} (R : A -> A -> Prop) (r1 r2 r3 : result A) :
  (forall a b c, R a b -> R b c -> R a c) ->
  res_rel R r1 r2 -> res_rel R r2 r3 -> res_rel R r1 r3.
Proof.
  intros Ht. destruct r1, r2, r3; simpl; try tauto; try congruence. apply Ht.
Qed.

Lemma loop_eq_trans side s1 s2 s3 :
  loop_eq side s1 s2 -> loop_eq side s2 s3 -> loop_eq side s1 s3.
Proof.
  intros (N1 & N2 & V) (_ & N3 & V'). repeat split; try assumption;
    destruct (V t), (V' t); intros.
  - rewrite H by assumption. auto.
  - rewrite H0 by assumption. auto.
Qed.

Section Exchange.
Variable side : string * string -> string.
Variable body : string * string * Z -> Dict.t (string * string) Z * Dict.t (string * string) Z
                -> result (Dict.t (string * string) Z * Dict.t (string * string) Z).

Hypothesis body_nodup : forall r s s',
  NoDup (Dict.keys (snd s)) -> body r s = Ok s' -> NoDup (Dict.keys (snd s')).
Hypothesis body_error : forall r s e, body r s = Err e -> e = KeyError.
Hypothesis body_local : forall r s1 s2,
  NoDup (Dict.keys (snd s1)) -> NoDup (Dict.keys (snd s2)) ->
  view_eq side (side (fst r)) s1 s2 ->
  res_rel (view_eq side (side (fst r))) (body r s1) (body r s2).
Hypothesis body_frame : forall r s s' t,
  NoDup (Dict.keys (snd s)) -> body r s = Ok s' -> t <> side (fst r) ->
  view_eq side t s' s.

Lemma body_loop_eq r s1 s2 :
  loop_eq side s1 s2 -> res_rel (loop_eq side) (body r s1) (body r s2).
Proof.
  intros (N1 & N2 & V).
  pose proof (@body_local r s1 s2 N1 N2 (V (side (fst r)))) as HL.
  destruct (body r s1) as [s1'|e1] eqn:E1, (body r s2) as [s2'|e2] eqn:E2;
    simpl in *; try contradiction; [|exact HL].
  split; [exact (@body_nodup r s1 s1' N1 E1)|].
  split; [exact (@body_nodup r s2 s2' N2 E2)|].
  intros t. destruct (eq_dec t (side (fst r))) as [->|Hne]; [exact HL|].
  apply view_eq_trans with (s2 := s1); [exact (@body_frame r s1 s1' t N1 E1 Hne)|].
  apply view_eq_trans with (s2 := s2); [apply V|].
  apply view_eq_sym. exact (@body_frame r s2 s2' t N2 E2 Hne).
Qed.

Lemma forM_loop_eq l s1 s2 :
  loop_eq side s1 s2 -> res_rel (loop_eq side) (forM body l s1) (forM body l s2).
Proof.
  intros H. apply forM_rel; [|exact H]. intros x t1 t2 _. apply body_loop_eq.
Qed.

Lemma loop_eq_refl s : NoDup (Dict.keys (snd s)) -> loop_eq side s s.
Proof. intros N. repeat split; assumption. Qed.

(** two neighbours with different sides, run in either order from one state *)
Lemma body_exchange x y s :
  side (fst x) <> side (fst y) -> NoDup (Dict.keys (snd s)) ->
  res_rel (loop_eq side) (sx <- body x s ;; body y sx) (sy <- body y s ;; body x sy).
Proof.
  intros Hne N.
  assert (Hne' : side (fst y) <> side (fst x)) by (intros E; apply Hne; symmetry; exact E).
  destruct (body x s) as [sx|ex] eqn:Ex, (body y s) as [sy|ey] eqn:Ey; cbn [bind].
  - pose proof (@body_nodup x s sx N Ex) as Nx.
    pose proof (@body_nodup y s sy N Ey) as Ny.
    pose proof (@body_frame x s sx (side (fst y)) N Ex Hne') as Vy.
    pose proof (@body_frame y s sy (side (fst x)) N Ey Hne) as Vx.
    pose proof (@body_local y sx s Nx N Vy) as Ly. rewrite Ey in Ly.
    pose proof (@body_local x sy s Ny N Vx) as Lx. rewrite Ex in Lx.
    destruct (body y sx) as [sxy|e] eqn:Exy; simpl in Ly; [|contradiction].
    destruct (body x sy) as [syx|e] eqn:Eyx; simpl in Lx; [|contradiction].
    simpl. split; [exact (@body_nodup y sx sxy Nx Exy)|].
    split; [exact (@body_nodup x sy syx Ny Eyx)|].
    intros t.
    destruct (eq_dec t (side (fst y))) as [->|Hty].
    + apply view_eq_trans with (s2 := sy); [exact Ly|]. apply view_eq_sym.
      exact (@body_frame x sy syx (side (fst y)) Ny Eyx Hne').
    + destruct (eq_dec t (side (fst x))) as [->|Htx].
      * apply view_eq_trans with (s2 := sx);
          [exact (@body_frame y sx sxy (side (fst x)) Nx Exy Hne)|].
        apply view_eq_sym. exact Lx.
      * apply view_eq_trans with (s2 := sx);
          [exact (@body_frame y sx sxy t Nx Exy Hty)|].
        apply view_eq_trans with (s2 := s);
          [exact (@body_frame x s sx t N Ex Htx)|].
        apply view_eq_sym.
        apply view_eq_trans with (s2 := sy);
          [exact (@body_frame x sy syx t Ny Eyx Htx)|].
        exact (@body_frame y s sy t N Ey Hty).
  - pose proof (@body_nodup x s sx N Ex) as Nx.
    pose proof (@body_frame x s sx (side (fst y)) N Ex Hne') as Vy.
    pose proof (@body_local y sx s Nx N Vy) as Ly. rewrite Ey in Ly.
    destruct (body y sx); simpl in Ly; [contradiction|]. simpl. exact Ly.
  - pose proof (@body_nodup y s sy N Ey) as Ny.
    pose proof (@body_frame y s sy (side (fst x)) N Ey Hne) as Vx.
    pose proof (@body_local x sy s Ny N Vx) as Lx. rewrite Ex in Lx.
    destruct (body x sy); simpl in Lx; [contradiction|]. simpl. symmetry. exact Lx.
  - simpl. apply body_error in Ex, Ey. congruence.
Qed.

(** the loop over two lists of rules that differ by exchanges of rules
    with different sides ends in the same exception or in states that
    agree *)
Lemma forM_swaps l1 l2 :
  swaps side l1 l2 ->
  forall s1 s2, loop_eq side s1 s2 ->
  res_rel (loop_eq side) (forM body l1 s1) (forM body l2 s2).
Proof.
  induction 1 as [l|x l l' Hs IH|x y l Hne|l1 l2 l3 H1 IH1 H2 IH2]; intros s1 s2 H.
  - apply forM_loop_eq. exact H.
  - cbn [forM]. eapply res_rel_bind; [apply body_loop_eq; exact H | exact IH].
  - apply res_rel_trans with (r2 := forM body (x :: y :: l) s2);
      [apply loop_eq_trans | apply forM_loop_eq; exact H |].
    destruct H as (_ & N2 & _).
    pose proof (body_exchange x y s2 Hne N2) as Hx.
    cbn [forM].
    destruct (body x s2) as [sx|ex]; destruct (body y s2) as [sy|ey]; cbn [bind] in *.
    + destruct (body y sx) as [sxy|e1]; destruct (body x sy) as [syx|e2];
        simpl in Hx; try contradiction; cbn [bind].
      * apply forM_loop_eq. exact Hx.
      * exact Hx.
    + destruct (body y sx); simpl in Hx; [contradiction | exact Hx].
    + destruct (body x sy); simpl in Hx; [contradiction | exact Hx].
    + exact Hx.
  - apply res_rel_trans with (r2 := forM body l2 s1); [apply loop_eq_trans | |].
    + apply IH1. apply loop_eq_refl. apply H.
    + apply IH2. exact H.
Qed.
End Exchange.

(** *** The two mixed buckets *)

Lemma mem_set {K V : Type} `{EqDec K} (p k : K) (v : V) (d : Dict.t K V) :
  Dict.mem p (Dict.set k v d) = if eq_dec p k then true else Dict.mem p d.
Proof. unfold Dict.mem. rewrite get_set. destruct (eq_dec p k); reflexivity. Qed.

Lemma keepLeft_step r v nl seen g :
  keepLeft_body r v (nl, seen) g =
  if negb (Dict.mem (g, r) seen)
  then (nl ++ [g], Dict.set (g, r) v seen) else (nl, seen).
Proof. reflexivity. Qed.

Lemma keepRight_step l v nr seen g :
  keepRight_body l v (nr, seen) g =
  if negb (Dict.mem (l, g) seen)
  then (nr ++ [g], Dict.set (l, g) v seen) else (nr, seen).
Proof. reflexivity. Qed.

Lemma keepLeft_local r v (lG : list string) : forall nl (s1 s2 : Dict.t (string * string) Z),
  (forall p, snd p = r -> Dict.mem p s1 = Dict.mem p s2) ->
  fst (fold_left (keepLeft_body r v) lG (nl, s1)) =
  fst (fold_left (keepLeft_body r v) lG (nl, s2)) /\
  forall p, snd p = r ->
    Dict.mem p (snd (fold_left (keepLeft_body r v) lG (nl, s1))) =
    Dict.mem p (snd (fold_left (keepLeft_body r v) lG (nl, s2))).
Proof.
  induction lG as [|g lG IH]; intros nl s1 s2 Hs; cbn [fold_left]; [auto|].
  rewrite !keepLeft_step. rewrite <- (Hs (g, r) eq_refl).
  destruct (negb (Dict.mem (g, r) s1)); apply IH; [|exact Hs].
  intros p Hp. rewrite !mem_set, (Hs p Hp). reflexivity.
Qed.

Lemma keepLeft_frame r v (lG : list string) : forall nl (s : Dict.t (string * string) Z) p,
  snd p <> r ->
  Dict.mem p (snd (fold_left (keepLeft_body r v) lG (nl, s))) = Dict.mem p s.
Proof.
  induction lG as [|g lG IH]; intros nl s p Hp; cbn [fold_left]; [reflexivity|].
  rewrite keepLeft_step. destruct (negb (Dict.mem (g, r) s)); rewrite IH by exact Hp;
    [|reflexivity].
  rewrite mem_set. destruct (eq_dec p (g, r)) as [->|]; [|reflexivity].
  exfalso. apply Hp. reflexivity.
Qed.

Lemma keepRight_local l v (rG : list string) : forall nr (s1 s2 : Dict.t (string * string) Z),
  (forall p, fst p = l -> Dict.mem p s1 = Dict.mem p s2) ->
  fst (fold_left (keepRight_body l v) rG (nr, s1)) =
  fst (fold_left (keepRight_body l v) rG (nr, s2)) /\
  forall p, fst p = l ->
    Dict.mem p (snd (fold_left (keepRight_body l v) rG (nr, s1))) =
    Dict.mem p (snd (fold_left (keepRight_body l v) rG (nr, s2))).
Proof.
  induction rG as [|g rG IH]; intros nr s1 s2 Hs; cbn [fold_left]; [auto|].
  rewrite !keepRight_step. rewrite <- (Hs (l, g) eq_refl).
  destruct (negb (Dict.mem (l, g) s1)); apply IH; [|exact Hs].
  intros p Hp. rewrite !mem_set, (Hs p Hp). reflexivity.
Qed.

Lemma keepRight_frame l v (rG : list string) : forall nr (s : Dict.t (string * string) Z) p,
  fst p <> l ->
  Dict.mem p (snd (fold_left (keepRight_body l v) rG (nr, s))) = Dict.mem p s.
Proof.
  induction rG as [|g rG IH]; intros nr s p Hp; cbn [fold_left]; [reflexivity|].
  rewrite keepRight_step. destruct (negb (Dict.mem (l, g) s)); rewrite IH by exact Hp;
    [|reflexivity].
  rewrite mem_set. destruct (eq_dec p (l, g)) as [->|]; [|reflexivity].
  exfalso. apply Hp. reflexivity.
Qed.

(** one round of the loop over the left class / right glyph rules, spelled
    out *)
Lemma conflictLeft_body_shape cls c r v (seen d : Dict.t (string * string) Z) :
  conflictLeft_body cls ((c, r), v) (seen, d) =
  match Dict.get c cls with
  | None => Err KeyError
  | Some lG =>
      let res := fold_left (keepLeft_body r v) lG ([], seen) in
      if eqb_of (fst res) lG then Ok (snd res, d)
      else if Dict.mem (c, r) (Dict.set (_liststr (fst res), r) v d)
           then Ok (snd res, Dict.remove (c, r) (Dict.set (_liststr (fst res), r) v d))
           else Err KeyError
  end.
Proof.
  unfold conflictLeft_body, Dict.lookup. destruct (Dict.get c cls) as [lG|]; [|reflexivity].
  cbn [bind]. cbv zeta.
  destruct (fold_left (keepLeft_body r v) lG ([], seen)) as [nl seen'].
  cbn [fst snd]. destruct (eqb_of nl lG); cbn [negb]; [reflexivity|].
  unfold Dict.del. destruct (Dict.mem (c, r) (Dict.set (_liststr nl, r) v d)); reflexivity.
Qed.

Lemma conflictRight_body_shape cls l c v (seen d : Dict.t (string * string) Z) :
  conflictRight_body cls ((l, c), v) (seen, d) =
  match Dict.get c cls with
  | None => Err KeyError
  | Some rG =>
      let res := fold_left (keepRight_body l v) rG ([], seen) in
      if eqb_of (fst res) rG then Ok (snd res, d)
      else if Dict.mem (l, c) (Dict.set (l, _liststr (fst res)) v d)
           then Ok (snd res, Dict.remove (l, c) (Dict.set (l, _liststr (fst res)) v d))
           else Err KeyError
  end.
Proof.
  unfold conflictRight_body, Dict.lookup. destruct (Dict.get c cls) as [rG|]; [|reflexivity].
  cbn [bind]. cbv zeta.
  destruct (fold_left (keepRight_body l v) rG ([], seen)) as [nr seen'].
  cbn [fst snd]. destruct (eqb_of nr rG); cbn [negb]; [reflexivity|].
  unfold Dict.del. destruct (Dict.mem (l, c) (Dict.set (l, _liststr nr) v d)); reflexivity.
Qed.

Lemma conflictLeft_nodup cls rule s s' :
  NoDup (Dict.keys (snd s)) -> conflictLeft_body cls rule s = Ok s' ->
  NoDup (Dict.keys (snd s')).
Proof.
  destruct rule as [[c r] v], s as [seen d]. rewrite conflictLeft_body_shape.
  cbn [snd]. intros N. destruct (Dict.get c cls) as [lG|]; [|discriminate]. cbv zeta.
  destruct (eqb_of _ lG); [intros E; inversion E; exact N|].
  destruct (Dict.mem _ _); [|discriminate]. intros E. inversion E. cbn [snd].
  apply NoDup_keys_remove, NoDup_keys_set, N.
Qed.

Lemma conflictLeft_error cls rule s e :
  conflictLeft_body cls rule s = Err e -> e = KeyError.
Proof.
  destruct rule as [[c r] v], s as [seen d]. rewrite conflictLeft_body_shape.
  destruct (Dict.get c cls) as [lG|]; [|congruence]. cbv zeta.
  destruct (eqb_of _ lG); [discriminate|].
  destruct (Dict.mem _ _); [discriminate | congruence].
Qed.

Lemma conflictLeft_local cls rule s1 s2 :
  NoDup (Dict.keys (snd s1)) -> NoDup (Dict.keys (snd s2)) ->
  view_eq snd (snd (fst rule)) s1 s2 ->
  res_rel (view_eq snd (snd (fst rule)))
          (conflictLeft_body cls rule s1) (conflictLeft_body cls rule s2).
Proof.
  destruct rule as [[c r] v], s1 as [seen1 d1], s2 as [seen2 d2].
  cbn [fst snd]. intros N1 N2 [Hm Hg]. cbn [fst snd] in Hm, Hg.
  rewrite !conflictLeft_body_shape.
  destruct (Dict.get c cls) as [lG|]; [|reflexivity]. cbv zeta.
  destruct (@keepLeft_local r v lG [] seen1 seen2 Hm) as [En Hm'].
  rewrite <- En.
  destruct (eqb_of (fst (fold_left (keepLeft_body r v) lG ([], seen1))) lG).
  - split; [exact Hm' | exact Hg].
  - set (k' := (_liststr (fst (fold_left (keepLeft_body r v) lG ([], seen1))), r)).
    assert (Emem : Dict.mem (c, r) (Dict.set k' v d1) = Dict.mem (c, r) (Dict.set k' v d2)).
    { rewrite !mem_set. destruct (eq_dec (c, r) k'); [reflexivity|].
      unfold Dict.mem. rewrite (Hg (c, r) eq_refl). reflexivity. }
    rewrite <- Emem. destruct (Dict.mem (c, r) (Dict.set k' v d1)); [|reflexivity].
    split; [exact Hm'|]. cbn [snd]. intros k Hk.
    rewrite !get_remove by (apply NoDup_keys_set; assumption).
    rewrite !get_set, (Hg k Hk). reflexivity.
Qed.

Lemma conflictLeft_frame cls rule s s' t :
  NoDup (Dict.keys (snd s)) -> conflictLeft_body cls rule s = Ok s' ->
  t <> snd (fst rule) -> view_eq snd t s' s.
Proof.
  destruct rule as [[c r] v], s as [seen d]. cbn [fst snd].
  rewrite conflictLeft_body_shape. intros N E Ht.
  destruct (Dict.get c cls) as [lG|]; [|discriminate]. cbv zeta in E.
  assert (Hmem : forall p, snd p = t ->
            Dict.mem p (snd (fold_left (keepLeft_body r v) lG ([], seen))) = Dict.mem p seen).
  { intros p Hp. apply keepLeft_frame. congruence. }
  destruct (eqb_of _ lG).
  - inversion E; subst s'. split; [exact Hmem | reflexivity].
  - destruct (Dict.mem _ _); [|discriminate]. inversion E; subst s'.
    split; [exact Hmem|]. cbn [snd]. intros k Hk.
    rewrite get_remove by (apply NoDup_keys_set; assumption).
    destruct (eq_dec k (c, r)) as [->|]; [exfalso; apply Ht; symmetry; exact Hk|].
    rewrite get_set.
    destruct (eq_dec k _) as [->|]; [exfalso; apply Ht; symmetry; exact Hk | reflexivity].
Qed.

Lemma conflictRight_nodup cls rule s s' :
  NoDup (Dict.keys (snd s)) -> conflictRight_body cls rule s = Ok s' ->
  NoDup (Dict.keys (snd s')).
Proof.
  destruct rule as [[l c] v], s as [seen d]. rewrite conflictRight_body_shape.
  cbn [snd]. intros N. destruct (Dict.get c cls) as [rG|]; [|discriminate]. cbv zeta.
  destruct (eqb_of _ rG); [intros E; inversion E; exact N|].
  destruct (Dict.mem _ _); [|discriminate]. intros E. inversion E. cbn [snd].
  apply NoDup_keys_remove, NoDup_keys_set, N.
Qed.

Lemma conflictRight_error cls rule s e :
  conflictRight_body cls rule s = Err e -> e = KeyError.
Proof.
  destruct rule as [[l c] v], s as [seen d]. rewrite conflictRight_body_shape.
  destruct (Dict.get c cls) as [rG|]; [|congruence]. cbv zeta.
  destruct (eqb_of _ rG); [discriminate|].
  destruct (Dict.mem _ _); [discriminate | congruence].
Qed.

Lemma conflictRight_local cls rule s1 s2 :
  NoDup (Dict.keys (snd s1)) -> NoDup (Dict.keys (snd s2)) ->
  view_eq fst (fst (fst rule)) s1 s2 ->
  res_rel (view_eq fst (fst (fst rule)))
          (conflictRight_body cls rule s1) (conflictRight_body cls rule s2).
Proof.
  destruct rule as [[l c] v], s1 as [seen1 d1], s2 as [seen2 d2].
  cbn [fst snd]. intros N1 N2 [Hm Hg]. cbn [fst snd] in Hm, Hg.
  rewrite !conflictRight_body_shape.
  destruct (Dict.get c cls) as [rG|]; [|reflexivity]. cbv zeta.
  destruct (@keepRight_local l v rG [] seen1 seen2 Hm) as [En Hm'].
  rewrite <- En.
  destruct (eqb_of (fst (fold_left (keepRight_body l v) rG ([], seen1))) rG).
  - split; [exact Hm' | exact Hg].
  - set (k' := (l, _liststr (fst (fold_left (keepRight_body l v) rG ([], seen1))))).
    assert (Emem : Dict.mem (l, c) (Dict.set k' v d1) = Dict.mem (l, c) (Dict.set k' v d2)).
    { rewrite !mem_set. destruct (eq_dec (l, c) k'); [reflexivity|].
      unfold Dict.mem. rewrite (Hg (l, c) eq_refl). reflexivity. }
    rewrite <- Emem. destruct (Dict.mem (l, c) (Dict.set k' v d1)); [|reflexivity].
    split; [exact Hm'|]. cbn [snd]. intros k Hk.
    rewrite !get_remove by (apply NoDup_keys_set; assumption).
    rewrite !get_set, (Hg k Hk). reflexivity.
Qed.

Lemma conflictRight_frame cls rule s s' t :
  NoDup (Dict.keys (snd s)) -> conflictRight_body cls rule s = Ok s' ->
  t <> fst (fst rule) -> view_eq fst t s' s.
Proof.
  destruct rule as [[l c] v], s as [seen d]. cbn [fst snd].
  rewrite conflictRight_body_shape. intros N E Ht.
  destruct (Dict.get c cls) as [rG|]; [|discriminate]. cbv zeta in E.
  assert (Hmem : forall p, fst p = t ->
            Dict.mem p (snd (fold_left (keepRight_body l v) rG ([], seen))) = Dict.mem p seen).
  { intros p Hp. apply keepRight_frame. congruence. }
  destruct (eqb_of _ rG).
  - inversion E; subst s'. split; [exact Hmem | reflexivity].
  - destruct (Dict.mem _ _); [|discriminate]. inversion E; subst s'.
    split; [exact Hmem|]. cbn [snd]. intros k Hk.
    rewrite get_remove by (apply NoDup_keys_set; assumption).
    destruct (eq_dec k (l, c)) as [->|]; [exfalso; apply Ht; symmetry; exact Hk|].
    rewrite get_set.
    destruct (eq_dec k _) as [->|]; [exfalso; apply Ht; symmetry; exact Hk | reflexivity].
Qed.

(** *** The class pair bucket *)

Lemma keepPair_step val lGlyph nl nr seen g :
  keepPair_body val lGlyph (nl, nr, seen) g =
  if negb (Dict.mem (lGlyph, g) seen)
  then (PySet.add lGlyph nl, PySet.add g nr, Dict.set (lGlyph, g) val seen)
  else (nl, nr, seen).
Proof. reflexivity. Qed.

Lemma keepPair_rel val lGlyph (rG : list string) :
  forall nl nr (s1 s2 : Dict.t (string * string) Z),
  (forall p, Dict.mem p s1 = Dict.mem p s2) ->
  fst (fold_left (keepPair_body val lGlyph) rG (nl, nr, s1)) =
  fst (fold_left (keepPair_body val lGlyph) rG (nl, nr, s2)) /\
  forall p, Dict.mem p (snd (fold_left (keepPair_body val lGlyph) rG (nl, nr, s1))) =
            Dict.mem p (snd (fold_left (keepPair_body val lGlyph) rG (nl, nr, s2))).
Proof.
  induction rG as [|g rG IH]; intros nl nr s1 s2 Hs; cbn [fold_left]; [auto|].
  rewrite !keepPair_step, <- (Hs (lGlyph, g)).
  destruct (negb (Dict.mem (lGlyph, g) s1)); apply IH; [|exact Hs].
  intros p. rewrite !mem_set, Hs. reflexivity.
Qed.

Lemma keepPairs_rel val (lG rG : list string) (s1 s2 : Dict.t (string * string) Z) :
  (forall p, Dict.mem p s1 = Dict.mem p s2) ->
  fst (keepPairs val lG rG s1) = fst (keepPairs val lG rG s2) /\
  forall p, Dict.mem p (snd (keepPairs val lG rG s1)) =
            Dict.mem p (snd (keepPairs val lG rG s2)).
Proof.
  unfold keepPairs. generalize (@nil string) at 1 3 5 7 as nl.
  generalize (@nil string) as nr. revert s1 s2.
  induction lG as [|g lG IH]; intros s1 s2 nr nl Hs; cbn [fold_left]; [auto|].
  destruct (keepPair_rel val g rG nl nr s1 s2 Hs) as [E Hm].
  destruct (fold_left (keepPair_body val g) rG (nl, nr, s1)) as [[nl1 nr1] t1].
  destruct (fold_left (keepPair_body val g) rG (nl, nr, s2)) as [[nl2 nr2] t2].
  cbn [fst snd] in E, Hm. inversion E; subst nl2 nr2. apply IH. exact Hm.
Qed.

Lemma conflictPair_body_rel leftClasses rightClasses rule s1 s2 :
  ((forall p, Dict.mem p (fst s1) = Dict.mem p (fst s2)) /\ snd s1 = snd s2) ->
  res_rel (fun a b => (forall p, Dict.mem p (fst a) = Dict.mem p (fst b)) /\ snd a = snd b)
          (conflictPair_body leftClasses rightClasses rule s1)
          (conflictPair_body leftClasses rightClasses rule s2).
Proof.
  destruct rule as [[lClass rClass] val], s1 as [seen1 d1], s2 as [seen2 d2].
  cbn [fst snd]. intros [Hm Ed]. subst d2. unfold conflictPair_body.
  destruct (Dict.lookup lClass leftClasses) as [lG|e]; cbn [bind]; [|reflexivity].
  destruct (Dict.lookup rClass rightClasses) as [rG|e]; cbn [bind]; [|reflexivity].
  destruct (keepPairs_rel val lG rG seen1 seen2 Hm) as [E Hm'].
  destruct (keepPairs val lG rG seen1) as [[nl1 nr1] t1].
  destruct (keepPairs val lG rG seen2) as [[nl2 nr2] t2].
  cbn [fst snd] in E, Hm'. inversion E; subst nl2 nr2.
  match goal with |- res_rel _ (if ?c then _ else _) _ => destruct c end.
  - destruct (Dict.del _ _) as [d'|e]; cbn [bind]; [|reflexivity].
    simpl. auto.
  - simpl. auto.
Qed.

(** *** The whole of conflict resolution, and [write] *)

Lemma swaps_NoDup_keys side (l1 l2 : Dict.t (string * string) Z) :
  swaps side l1 l2 -> NoDup (Dict.keys l1) -> NoDup (Dict.keys l2).
Proof.
  intros Hs ND. eapply Permutation_NoDup; [|exact ND].
  apply Permutation_map. apply swaps_perm with (side := side). exact Hs.
Qed.

Lemma loop_eq_start side (seen : Dict.t (string * string) Z) l1 l2 :
  NoDup (Dict.keys l1) -> swaps side l1 l2 ->
  loop_eq side (seen, l1) (seen, l2).
Proof.
  intros ND Hs. pose proof (swaps_NoDup_keys Hs ND) as ND2.
  split; [exact ND|]. split; [exact ND2|]. intros t. split; cbn [fst snd].
  - reflexivity.
  - intros k _. apply perm_map_eq; [exact ND|].
    apply swaps_perm with (side := side). exact Hs.
Qed.

Lemma loop_eq_final side (s1 s2 : Dict.t (string * string) Z * Dict.t (string * string) Z) :
  loop_eq side s1 s2 ->
  (forall p, Dict.mem p (fst s1) = Dict.mem p (fst s2)) /\
  same_entries (snd s1) (snd s2).
Proof.
  intros (N1 & N2 & V). split.
  - intros p. apply (proj1 (V (side p))). reflexivity.
  - split; [exact N1|]. apply map_eq_perm; try assumption.
    intros k. apply (proj2 (V (side k))). reflexivity.
Qed.

Lemma _removeConflictingKerningRules_weq w1 w2 :
  weq w1 w2 ->
  res_rel final_eq (_removeConflictingKerningRules w1)
                   (_removeConflictingKerningRules w2).
Proof.
  intros H. unfold _removeConflictingKerningRules.
  rewrite <- (weq_leftFea H), <- (weq_rightFea H), <- (weq_leftUfo H),
          <- (weq_rightUfo H), <- (weq_glyphPair H), <- (weq_classPair H).
  set (leftClasses := Dict.update (leftFeaClasses w1) (leftUfoClasses w1)).
  set (rightClasses := Dict.update (rightFeaClasses w1) (rightUfoClasses w1)).
  eapply res_rel_bind.
  - apply (@forM_swaps snd (conflictLeft_body leftClasses)).
    + intros r s s'. apply conflictLeft_nodup.
    + intros r s e. apply conflictLeft_error.
    + intros r s1 s2. apply conflictLeft_local.
    + intros r s s' t. apply conflictLeft_frame.
    + apply (weq_left H).
    + apply loop_eq_start; [apply (weq_left_nodup H) | apply (weq_left H)].
  - intros [seen1 lck1] [seen2 lck2] HL.
    apply loop_eq_final in HL. cbn [fst snd] in HL. destruct HL as [Hm1 HE1].
    eapply res_rel_bind.
    + apply (@forM_swaps fst (conflictRight_body rightClasses)).
      * intros r s s'. apply conflictRight_nodup.
      * intros r s e. apply conflictRight_error.
      * intros r s1 s2. apply conflictRight_local.
      * intros r s s' t. apply conflictRight_frame.
      * apply (weq_right H).
      * pose proof (loop_eq_start seen1 (weq_right_nodup H) (weq_right H))
          as (N1 & N2 & V).
        split; [exact N1|]. split; [exact N2|]. intros t.
        destruct (V t) as [_ Vg]. split; cbn [fst snd]; [|exact Vg].
        intros p _. apply Hm1.
    + intros [seen1' rck1] [seen2' rck2] HR.
      apply loop_eq_final in HR. cbn [fst snd] in HR. destruct HR as [Hm2 HE2].
      eapply res_rel_bind.
      * apply forM_rel with
          (R := fun a b : Dict.t (string * string) Z * Dict.t (string * string) Z =>
                  (forall p, Dict.mem p (fst a) = Dict.mem p (fst b)) /\ snd a = snd b).
        -- intros x s1 s2 _. apply conflictPair_body_rel.
        -- cbn [fst snd]. auto.
      * intros [seen1'' cpk1] [seen2'' cpk2] [_ Ec]. cbn [snd] in Ec. subst cpk2.
        simpl. repeat split; try apply HE1; try apply HE2;
          first [apply (weq_leftUfo H) | apply (weq_rightUfo H)
                | apply (weq_glyphPair H) | idtac].
Qed.

Lemma collect_weq parse w1 w2 :
  weq w1 w2 -> res_rel final_eq (collect parse w1) (collect parse w2).
Proof.
  intros H. unfold collect, registry.
  eapply res_rel_bind with (RA := weq).
  - eapply res_rel_bind; [apply _collectFeaClasses_weq; exact H|].
    intros a1 a2 Ha.
    eapply res_rel_bind; [apply _collectFeaClassKerning_weq; exact Ha|].
    intros b1 b2 Hb. apply _correctUfoClassNames_weq, _collectUfoClasses_weq, Hb.
  - intros a1 a2 Ha. apply _removeConflictingKerningRules_weq, _collectUfoKerning_weq, Ha.
Qed.

Lemma nonempty_same_entries {K V : Type} (d1 d2 : list (K * V)) :
  same_entries d1 d2 -> Dict.nonempty d1 = Dict.nonempty d2.
Proof.
  intros [_ P]. destruct d1, d2; try reflexivity.
  - apply Permutation_nil in P. discriminate.
  - symmetry in P. apply Permutation_nil in P. discriminate.
Qed.

Lemma write_weq parse w1 w2 linesep :
  weq w1 w2 -> write parse w1 linesep = write parse w2 linesep.
Proof.
  intros H. unfold write. pose proof (collect_weq parse H) as Hc.
  destruct (collect parse w1) as [a1|e1], (collect parse w2) as [a2|e2];
    simpl in Hc; try contradiction; cbn [bind]; [|congruence].
  rewrite (emit_order_free linesep Hc).
  destruct Hc as (_ & _ & Hg & Hp & Hl & Hr).
  cbn [existsb].
  rewrite Hg, Hp, (nonempty_same_entries Hl), (nonempty_same_entries Hr).
  reflexivity.
Qed.

(** Two runs of [write] on fonts with the same kerning table, be it
    listed in another order, the same groups listed in the same order and
    the same feature text return the same string, or end in the same
    exception. *)
Theorem write_deterministic
  (parse : string -> result (list (string * list string)))
  (font1 font2 : Font) (linesep : string) :
  font_kerning font1 = font_kerning font2 \/
  same_entries (font_kerning font1) (font_kerning font2) ->
  font_groups font1 = font_groups font2 ->
  font_features_text font1 = font_features_text font2 ->
  write parse (init font1) linesep = write parse (init font2) linesep.
Proof.
  intros [Hk|Hk] Hg Ht.
  - destruct font1, font2. simpl in *. subst. reflexivity.
  - apply write_weq. apply weq_init; assumption.
Qed.

Lemma font_twoleft_same_entries :
  same_entries (font_kerning font_twoleft) (font_kerning font_twoleft_reordered).
Proof.
  split.
  - simpl. repeat constructor; simpl; intuition discriminate.
  - simpl.
    apply (Permutation_cons_app
             [(("public.kern1.L", "public.kern2.R"), (-50)%Z);
              (("public.kern1.L", "Y"), (-40)%Z); (("B", "Y"), 20%Z);
              (("public.kern1.L", "X"), (-30)%Z)] []).
    apply (Permutation_cons_app
             [(("public.kern1.L", "public.kern2.R"), (-50)%Z);
              (("public.kern1.L", "Y"), (-40)%Z)]
             [(("public.kern1.L", "X"), (-30)%Z)]).
    apply (Permutation_cons_app
             [(("public.kern1.L", "public.kern2.R"), (-50)%Z);
              (("public.kern1.L", "Y"), (-40)%Z)] []).
    simpl. apply perm_swap.
Defined.

Lemma write_deterministic_witness :
  write parse_no_classes (init font_twoleft) LF =
  write parse_no_classes (init font_twoleft_reordered) LF.
Proof.
  apply write_deterministic;
    [right; exact font_twoleft_same_entries | reflexivity | reflexivity].
Defined.

(** ** The registries and the kerning table that [write] hands to
    [_correctUfoClassNames] *)

(** the kerning table [kern] is what is left of [kern0] *)
Lemma remove_sub (kern0 kern : Dict.t (string * string) Z) k :
  NoDup (Dict.keys kern) /\ incl (Dict.keys kern) (Dict.keys kern0) ->
  NoDup (Dict.keys (Dict.remove k kern)) /\
  incl (Dict.keys (Dict.remove k kern)) (Dict.keys kern0).
Proof.
  intros [ND Hi]. split; [apply NoDup_keys_remove, ND|].
  intros x I. apply Hi. eapply In_keys_remove. exact I.
Qed.

Lemma fold_remove_sub (kern0 : Dict.t (string * string) Z)
  (hits : list (string * string * Z)) : forall kern : Dict.t (string * string) Z,
  NoDup (Dict.keys kern) /\ incl (Dict.keys kern) (Dict.keys kern0) ->
  let kern' := fold_left (fun k hit => Dict.remove (fst hit) k) hits kern in
  NoDup (Dict.keys kern') /\ incl (Dict.keys kern') (Dict.keys kern0).
Proof.
  induction hits as [|h hits IH]; intros kern H; simpl; [exact H|].
  apply IH. apply remove_sub. exact H.
Qed.

Lemma feaLeft_body_sub (kern0 : Dict.t (string * string) Z) cls w w' :
  (NoDup (Dict.keys (kerning w)) /\ incl (Dict.keys (kerning w)) (Dict.keys kern0) /\
   leftUfoClasses w = [] /\ rightUfoClasses w = []) ->
  feaLeft_body cls w = Ok w' ->
  NoDup (Dict.keys (kerning w')) /\ incl (Dict.keys (kerning w')) (Dict.keys kern0) /\
  leftUfoClasses w' = [] /\ rightUfoClasses w' = [].
Proof.
  destruct cls as [ln lc]. intros (ND & Hi & Hl & Hr) E. unfold feaLeft_body in E.
  apply bind_Ok in E. destruct E as (lk & _ & E).
  apply bind_Ok in E. destruct E as ([kern cpk] & Ef & E).
  assert (Hs : NoDup (Dict.keys kern) /\ incl (Dict.keys kern) (Dict.keys kern0)).
  { revert Ef.
    apply (@forM_invariant _ _ (feaClassPair_body ln lk)
             (fun s => NoDup (Dict.keys (fst s)) /\
                       incl (Dict.keys (fst s)) (Dict.keys kern0)));
      [|simpl; auto].
    intros [rn rc] [k c] s' _ Hs Hb. unfold feaClassPair_body in Hb.
    apply bind_Ok in Hb. destruct Hb as (rk & _ & Hb). simpl in Hs.
    destruct (Dict.get (lk, rk) k); inversion Hb; subst; simpl;
      [apply remove_sub; exact Hs | exact Hs]. }
  rewrite fold_feaLeftGlyph in E. inversion E; subst w'. simpl.
  destruct (fold_remove_sub kern0 (_getGlyphKern kern lk 0) kern Hs) as [A B].
  auto.
Qed.

Lemma feaRight_body_sub (kern0 : Dict.t (string * string) Z) cls w w' :
  (NoDup (Dict.keys (kerning w)) /\ incl (Dict.keys (kerning w)) (Dict.keys kern0) /\
   leftUfoClasses w = [] /\ rightUfoClasses w = []) ->
  feaRight_body cls w = Ok w' ->
  NoDup (Dict.keys (kerning w')) /\ incl (Dict.keys (kerning w')) (Dict.keys kern0) /\
  leftUfoClasses w' = [] /\ rightUfoClasses w' = [].
Proof.
  destruct cls as [rn rc]. intros (ND & Hi & Hl & Hr) E. unfold feaRight_body in E.
  apply bind_Ok in E. destruct E as (rk & _ & E).
  rewrite fold_feaRightGlyph in E. inversion E; subst w'. simpl.
  destruct (fold_remove_sub kern0 (_getGlyphKern (kerning w) rk 1) (kerning w)
              (conj ND Hi)) as [A B].
  auto.
Qed.

Lemma ufoClass_body_names w group :
  (NoDup (Dict.keys (leftUfoClasses w)) /\ NoDup (Dict.keys (rightUfoClasses w)) /\
   (forall n, In n (Dict.keys (leftUfoClasses w)) -> _isClassName leftUfoGroupRe n = true) /\
   (forall n, In n (Dict.keys (rightUfoClasses w)) -> _isClassName rightUfoGroupRe n = true)) ->
  let w' := ufoClass_body w group in
  kerning w' = kerning w /\
  NoDup (Dict.keys (leftUfoClasses w')) /\ NoDup (Dict.keys (rightUfoClasses w')) /\
  (forall n, In n (Dict.keys (leftUfoClasses w')) -> _isClassName leftUfoGroupRe n = true) /\
  (forall n, In n (Dict.keys (rightUfoClasses w')) -> _isClassName rightUfoGroupRe n = true).
Proof.
  destruct group as [name contents]. intros (Nl & Nr & Hl & Hr). unfold ufoClass_body.
  destruct (_isClassName leftUfoGroupRe name) eqn:El,
           (_isClassName rightUfoGroupRe name) eqn:Er; simpl;
    repeat split; try assumption;
    try (apply NoDup_keys_set; assumption);
    intros n I; try (apply In_keys_set in I; destruct I as [->|I]); auto.
Qed.

(** in [write], [_correctUfoClassNames] starts from registries of groups
    with distinct names of the two group patterns, and from what is left
    of the font's kerning table *)
Lemma write_ufo_collected parse font w1 w2 :
  NoDup (Dict.keys (font_kerning font)) ->
  _collectFeaClasses parse (init font) = Ok w1 ->
  _collectFeaClassKerning w1 = Ok w2 ->
  ufo_collected (_collectUfoClasses w2) /\
  (no_marked_key (font_kerning font) ->
   no_marked_key (kerning (_collectUfoClasses w2))).
Proof.
  intros ND E1 E2.
  assert (H1 : NoDup (Dict.keys (kerning w1)) /\
               incl (Dict.keys (kerning w1)) (Dict.keys (font_kerning font)) /\
               leftUfoClasses w1 = [] /\ rightUfoClasses w1 = []).
  { unfold _collectFeaClasses in E1. apply bind_Ok in E1.
    destruct E1 as (defs & _ & E1). inversion E1; subst w1. clear E1.
    assert (G : forall defs w,
              kerning (fold_left (fun w d => classDefinition (fst d) (snd d) w) defs w)
                = kerning w /\
              leftUfoClasses (fold_left (fun w d => classDefinition (fst d) (snd d) w) defs w)
                = leftUfoClasses w /\
              rightUfoClasses (fold_left (fun w d => classDefinition (fst d) (snd d) w) defs w)
                = rightUfoClasses w).
    { clear. induction defs as [|d defs IH]; intros w; simpl; [auto|].
      destruct (IH (classDefinition (fst d) (snd d) w)) as (A & B & C).
      rewrite A, B, C. unfold classDefinition.
      destruct (_isClassName leftFeaClassRe (fst d)); [simpl; auto|].
      destruct (_isClassName rightFeaClassRe (fst d)); simpl; auto. }
    destruct (G defs (init font)) as (A & B & C). rewrite A, B, C. simpl.
    repeat split; auto using incl_refl. }
  assert (H2 : NoDup (Dict.keys (kerning w2)) /\
               incl (Dict.keys (kerning w2)) (Dict.keys (font_kerning font)) /\
               leftUfoClasses w2 = [] /\ rightUfoClasses w2 = []).
  { unfold _collectFeaClassKerning in E2. apply bind_Ok in E2.
    destruct E2 as (wl & El & Er).
    apply (@forM_invariant _ _ feaRight_body
             (fun w => NoDup (Dict.keys (kerning w)) /\
                       incl (Dict.keys (kerning w)) (Dict.keys (font_kerning font)) /\
                       leftUfoClasses w = [] /\ rightUfoClasses w = [])) in Er.
    - exact Er.
    - intros cls s s' _ Hs Hb. eapply feaRight_body_sub; eauto.
    - apply (@forM_invariant _ _ feaLeft_body
               (fun w => NoDup (Dict.keys (kerning w)) /\
                         incl (Dict.keys (kerning w)) (Dict.keys (font_kerning font)) /\
                         leftUfoClasses w = [] /\ rightUfoClasses w = [])) in El.
      + exact El.
      + intros cls s s' _ Hs Hb. eapply feaLeft_body_sub; eauto.
      + exact H1. }
  destruct H2 as (N2 & I2 & L2 & R2).
  assert (G : forall gs w,
            (NoDup (Dict.keys (leftUfoClasses w)) /\ NoDup (Dict.keys (rightUfoClasses w)) /\
             (forall n, In n (Dict.keys (leftUfoClasses w)) ->
                        _isClassName leftUfoGroupRe n = true) /\
             (forall n, In n (Dict.keys (rightUfoClasses w)) ->
                        _isClassName rightUfoGroupRe n = true)) ->
            let w' := fold_left ufoClass_body gs w in
            kerning w' = kerning w /\
            NoDup (Dict.keys (leftUfoClasses w')) /\ NoDup (Dict.keys (rightUfoClasses w')) /\
            (forall n, In n (Dict.keys (leftUfoClasses w')) ->
                       _isClassName leftUfoGroupRe n = true) /\
            (forall n, In n (Dict.keys (rightUfoClasses w')) ->
                       _isClassName rightUfoGroupRe n = true)).
  { induction gs as [|g gs IH]; intros w Hw; simpl; [tauto|].
    destruct (ufoClass_body_names w g Hw) as (Ek & Hw').
    destruct (IH (ufoClass_body w g) Hw') as (Ek' & Hw'').
    split; [congruence | exact Hw'']. }
  destruct (G (groups w2) w2) as (Ek & Nl & Nr & Hl & Hr).
  { rewrite L2, R2. simpl. repeat split; try constructor; intros n []. }
  unfold _collectUfoClasses. split.
  - unfold ufo_collected. rewrite Ek. auto.
  - intros Hm key I. rewrite Ek in I. apply Hm. apply I2. exact I.
Qed.


(** ** [_correctUfoClassNames]: the renamed registries and kerning table *)

Lemma set_absent {K V : Type} `{EqDec K} (k : K) (v : V) (d : Dict.t K V) :
  ~ In k (Dict.keys d) -> Dict.set k v d = d ++ [(k, v)].
Proof.
  induction d as [|[k' v'] d IH]; simpl; intros Hn; [reflexivity|].
  destruct (eq_dec k k') as [->|Hk]; [exfalso; apply Hn; left; reflexivity|].
  rewrite IH; [reflexivity|]. intros I. apply Hn. right. exact I.
Qed.

Lemma keys_app {K V : Type} (d1 d2 : list (K * V)) :
  Dict.keys (d1 ++ d2) = Dict.keys d1 ++ Dict.keys d2.
Proof. apply map_app. Qed.

Lemma get_combine_None (olds news : list string) x :
  ~ In x olds -> Dict.get x (combine olds news) = None.
Proof.
  intros H. apply get_None_keys. intros I. apply H.
  apply in_map_iff in I. destruct I as [[a b] [E I]].
  apply in_combine_l in I. simpl in E. subst. exact I.
Qed.

Lemma get_combine_In (olds news : list string) x n :
  Dict.get x (combine olds news) = Some n -> In n news.
Proof. intros G. apply get_Some_In in G. apply in_combine_r in G. exact G. Qed.

Lemma keys_combine (news : list string) : forall (ms : list (list string)),
  List.length news = List.length ms -> Dict.keys (combine news ms) = news.
Proof.
  induction news as [|n news IH]; intros [|m ms] E; simpl in *; try discriminate;
    [reflexivity|].
  f_equal. apply IH. congruence.
Qed.

Lemma NoDup_map_inj {A B : Type} (f : A -> B) (l : list A) :
  NoDup (map f l) -> forall x y, In x l -> In y l -> f x = f y -> x = y.
Proof.
  induction l as [|a l IH]; simpl; intros ND x y Ix Iy E; [contradiction|].
  inversion ND as [|? ? Hn ND']; subst.
  destruct Ix as [<-|Ix], Iy as [<-|Iy]; [reflexivity| | |auto].
  - exfalso. apply Hn. rewrite E. apply in_map. exact Iy.
  - exfalso. apply Hn. rewrite <- E. apply in_map. exact Ix.
Qed.

(** *** One renamed group *)

Section OneGroup.
Variables (index : nat) (name newName : string).
Hypothesis Hne : name <> newName.
Variable kern : rules.
Hypothesis NDk : NoDup (Dict.keys kern).

(** every entry of the table after the move is an entry of the table
    before, at its moved key *)
Lemma moved_from key v :
  Dict.get key
    (fold_left (fun k hit => rekey index newName hit k)
               (_getGlyphKern kern name index) kern) = Some v ->
  exists key0, Dict.get key0 kern = Some v /\
               key = moved index name newName key0.
Proof.
  intros I.
  destruct (rekey_all index Hne kern NDk) as [_ G].
  rewrite G in I. unfold renamed_get in I.
  destruct (eq_dec (item key index) newName) as [En|En].
  - destruct (Dict.get (with_item key index name) kern) eqn:Eg.
    + exists (with_item key index name). split; [congruence|].
      unfold moved. rewrite item_with_item.
      destruct (eq_dec name name); [|congruence].
      rewrite with_item_twice, <- En. symmetry. apply with_item_item.
    + exists key. split; [exact I|].
      unfold moved. destruct (eq_dec (item key index) name); [congruence | reflexivity].
  - destruct (eq_dec (item key index) name) as [Ei|Ei]; [discriminate|].
    exists key. split; [exact I|].
    unfold moved. destruct (eq_dec (item key index) name); [congruence | reflexivity].
Qed.

(** the moved key of every key of the table is a key of the table after
    the move *)
Lemma moved_present key :
  In key (Dict.keys kern) ->
  In (moved index name newName key)
     (Dict.keys (fold_left (fun k hit => rekey index newName hit k)
                   (_getGlyphKern kern name index) kern)).
Proof.
  intros I. apply In_keys_get in I. apply In_keys_get.
  destruct (rekey_all index Hne kern NDk) as [_ G].
  rewrite G. unfold renamed_get, moved.
  destruct (eq_dec (item key index) name) as [Ei|Ei].
  - rewrite item_with_item. destruct (eq_dec newName newName); [|congruence].
    rewrite with_item_twice, <- Ei, with_item_item.
    destruct (Dict.get key kern); [discriminate | congruence].
  - destruct (eq_dec (item key index) newName) as [En|En];
      [|destruct (eq_dec (item key index) name); [contradiction | exact I]].
    destruct (Dict.get (with_item key index name) kern); [discriminate | exact I].
Qed.

(** no entry stays under the old name *)
Lemma moved_gone key :
  item key index = name ->
  Dict.get key
    (fold_left (fun k hit => rekey index newName hit k)
               (_getGlyphKern kern name index) kern) = None.
Proof.
  intros Ei. destruct (rekey_all index Hne kern NDk) as [_ G].
  rewrite G. unfold renamed_get.
  destruct (eq_dec (item key index) newName); [congruence|].
  destruct (eq_dec (item key index) name); [reflexivity | contradiction].
Qed.
End OneGroup.

Lemma first_free_ext name newName known known' :
  (forall x, In x known <-> In x known') ->
  first_free name newName known -> first_free name newName known'.
Proof.
  intros H (m & E & Hf & Hm). exists m. split; [exact E|]. split.
  - intros I. apply Hf, H, I.
  - intros j Hj. apply H, Hm, Hj.
Qed.

(** *** One renaming loop

    The classes [todo], which stand first in the dictionary, are renamed
    in turn and end up last, in the same order; no entry of the kerning
    table stays under an old name, the renamed key of every key is a key
    of the new table, and every entry of the new table is an entry of the
    old one at its renamed key. *)
Lemma renames_spec index avoid todo s s' :
  renames index avoid todo s s' ->
  forall done, fst s = todo ++ done ->
  NoDup (Dict.keys (fst s)) ->
  (forall n, In n (Dict.keys todo) -> ~ starts_with_at n) ->
  NoDup (Dict.keys (snd s)) ->
  exists news,
    List.length news = List.length todo /\
    fst s' = done ++ combine news (map snd todo) /\
    named_in_turn (avoid ++ Dict.keys done) (Dict.keys todo) news /\
    Forall starts_with_at news /\
    (forall n, In n news -> ~ In n avoid) /\
    NoDup (Dict.keys (fst s')) /\
    NoDup (Dict.keys (snd s')) /\
    forall rho : string -> string,
      (forall x, rho x = match Dict.get x (combine (Dict.keys todo) news) with
                         | Some n => n
                         | None => x
                         end) ->
      (forall key, In (item key index) (Dict.keys todo) ->
                   Dict.get key (snd s') = None) /\
      (forall key, In key (Dict.keys (snd s)) ->
                   In (rename_side index rho key) (Dict.keys (snd s'))) /\
      (forall key v, Dict.get key (snd s') = Some v ->
         exists key0, Dict.get key0 (snd s) = Some v /\
                      key = rename_side index rho key0).
Proof.
  induction 1 as [s|name members todo d kern m s' newName Hfresh Hmin Hr IH];
    intros done Hd NDd Hold NDk.
  - exists []. simpl in *. rewrite app_nil_r.
    repeat (split; [solve [auto]|]).
    intros rho Hrho.
    assert (Hid : forall key, rename_side index rho key = key).
    { intros key. unfold rename_side. rewrite Hrho. apply with_item_item. }
    split; [intros key []|]. split.
    + intros key I. rewrite Hid. exact I.
    + intros key v G. exists key. rewrite Hid. auto.
  - cbn [fst snd] in *. subst d.
    assert (Hnew : ~ In newName (Dict.keys (((name, members) :: todo) ++ done))).
    { intros I. apply Hfresh. apply in_or_app. auto. }
    assert (Hne : name <> newName).
    { intros E. apply Hnew. rewrite <- E. simpl. auto. }
    assert (Ed1 : Dict.remove name
                    (Dict.set newName members (((name, members) :: todo) ++ done))
                  = todo ++ (done ++ [(newName, members)])).
    { rewrite set_absent by exact Hnew. simpl.
      destruct (eq_dec name name); [|congruence]. rewrite app_assoc. reflexivity. }
    assert (NDd1 : NoDup (Dict.keys (todo ++ (done ++ [(newName, members)])))).
    { rewrite <- Ed1. apply NoDup_keys_remove, NoDup_keys_set, NDd. }
    destruct (rekey_all index Hne kern NDk) as [NDk1 _].
    set (k1 := fold_left (fun k hit => rekey index newName hit k)
                         (_getGlyphKern kern name index) kern) in *.
    rewrite Ed1 in IH.
    destruct (IH (done ++ [(newName, members)]) eq_refl NDd1
                 (fun n I => Hold n (or_intror I)) NDk1)
      as (news & Hlen & Hs' & Hturn & Hat & Hav & NDs' & NDks' & Hrho').
    exists (newName :: news).
    assert (Hnt : ~ In newName (Dict.keys todo)).
    { intros I. apply Hnew. simpl. right. rewrite keys_app. apply in_or_app. auto. }
    split; [simpl; congruence|]. split.
    { rewrite Hs'. simpl. rewrite <- app_assoc. reflexivity. }
    split.
    { simpl. split.
      - apply first_free_ext
          with (known := avoid ++ Dict.keys (((name, members) :: todo) ++ done)).
        + intros x. simpl. rewrite !keys_app, !in_app_iff. simpl.
          rewrite !in_app_iff. tauto.
        + exists m. auto.
      - rewrite keys_app in Hturn. simpl in Hturn. rewrite app_assoc in Hturn.
        exact Hturn. }
    split; [constructor; [apply candidate_starts_with_at | exact Hat]|].
    split.
    { intros n [<-|I]; [intros Ia; apply Hfresh, in_or_app; auto | auto]. }
    split; [exact NDs'|]. split; [exact NDks'|].
    intros rho Hrho.
    set (rho' := fun x => match Dict.get x (combine (Dict.keys todo) news) with
                          | Some n => n
                          | None => x
                          end).
    destruct (Hrho' rho' (fun x => eq_refl)) as (Hgone & Hpres & Hfrom).
    assert (Hr_name : rho name = newName).
    { rewrite Hrho. simpl. destruct (eq_dec name name); congruence. }
    assert (Hr_other : forall x, x <> name -> rho x = rho' x).
    { intros x Hx. rewrite Hrho. simpl. destruct (eq_dec x name); [contradiction|].
      reflexivity. }
    assert (Hr'_new : rho' newName = newName).
    { unfold rho'. rewrite get_combine_None by exact Hnt. reflexivity. }
    assert (Hr'_at : forall x, rho' x = x \/ starts_with_at (rho' x)).
    { intros x. unfold rho'.
      destruct (Dict.get x (combine (Dict.keys todo) news)) eqn:Eg; [|auto].
      right. apply get_combine_In in Eg. rewrite Forall_forall in Hat. auto. }
    assert (Hcomp : forall key, rename_side index rho key =
                                rename_side index rho' (moved index name newName key)).
    { intros key. unfold rename_side, moved.
      destruct (eq_dec (item key index) name) as [Ei|Ei].
      - rewrite Ei, Hr_name, item_with_item, Hr'_new, with_item_twice. reflexivity.
      - rewrite Hr_other by exact Ei. reflexivity. }
    split; [|split].
    + (* no entry stays under an old name *)
      intros key [Ei|I]; [|apply Hgone; exact I].
      simpl in Ei. destruct (Dict.get key (snd s')) eqn:Eg; [|reflexivity].
      exfalso.
      destruct (Hfrom key _ Eg) as (key1 & G1 & E1).
      assert (Ek : item key index = rho' (item key1 index)).
      { rewrite E1. unfold rename_side. apply item_with_item. }
      destruct (Hr'_at (item key1 index)) as [Hx|Hx].
      * rewrite Hx in Ek.
        assert (Hg : Dict.get key1 k1 = None)
          by (apply (moved_gone index Hne kern NDk); congruence).
        cbn [snd] in G1. congruence.
      * apply (Hold name); [simpl; auto|]. rewrite Ei, Ek. exact Hx.
    + (* the renamed key of every key is there *)
      intros key I. rewrite Hcomp. apply Hpres.
      apply (moved_present index Hne kern NDk). exact I.
    + (* every entry comes from an entry of the old table *)
      intros key v G. destruct (Hfrom key v G) as (key1 & G1 & E1).
      destruct (moved_from index Hne kern NDk key1 G1) as (key0 & G0 & E0).
      exists key0. split; [exact G0|]. rewrite Hcomp, <- E0. exact E1.
Qed.

Lemma combine_renamed (todo : classes) : forall news rho,
  NoDup (Dict.keys todo) -> List.length news = List.length todo ->
  (forall x, rho x = match Dict.get x (combine (Dict.keys todo) news) with
                     | Some n => n
                     | None => x
                     end) ->
  combine news (map snd todo) = map (fun c => (rho (fst c), snd c)) todo.
Proof.
  induction todo as [|[name members] todo IH]; intros [|new news] rho ND Hlen Hrho;
    simpl in *; try discriminate; [reflexivity|].
  inversion ND as [|? ? Hn ND']; subst. f_equal.
  - rewrite Hrho. destruct (eq_dec name name); congruence.
  - rewrite (IH news (fun x => match Dict.get x (combine (Dict.keys todo) news) with
                               | Some n => n
                               | None => x
                               end) ND'); [|congruence | reflexivity].
    apply map_ext_in. intros [n ms] I. simpl. rewrite Hrho.
    destruct (eq_dec n name) as [->|]; [|reflexivity].
    exfalso. apply Hn. apply (in_map fst) in I. exact I.
Qed.

Lemma rename_key_sides rhoL rhoR key :
  rename_key rhoL rhoR key = rename_side 1 rhoR (rename_side 0 rhoL key).
Proof. destruct key. reflexivity. Qed.

(** *** The two loops *)

Lemma _correctUfoClassNames_renamed (w : Writer) :
  ufo_collected w ->
  exists w', _correctUfoClassNames w = Ok w' /\
    let fea := Dict.keys (leftFeaClasses w) ++ Dict.keys (rightFeaClasses w) in
    let rhoL := renaming (leftUfoClasses w) (leftUfoClasses w') in
    let rhoR := renaming (rightUfoClasses w) (rightUfoClasses w') in
    leftUfoClasses w' = map (fun c => (rhoL (fst c), snd c)) (leftUfoClasses w) /\
    rightUfoClasses w' = map (fun c => (rhoR (fst c), snd c)) (rightUfoClasses w) /\
    named_in_turn (fea ++ Dict.keys (rightUfoClasses w))
                  (Dict.keys (leftUfoClasses w)) (Dict.keys (leftUfoClasses w')) /\
    named_in_turn (fea ++ Dict.keys (leftUfoClasses w'))
                  (Dict.keys (rightUfoClasses w)) (Dict.keys (rightUfoClasses w')) /\
    (forall c, In c (leftUfoClasses w' ++ rightUfoClasses w') ->
               In (classLine c) (_addGlyphClasses w' [])) /\
    (forall key, In (fst key) (Dict.keys (leftUfoClasses w)) \/
                 In (snd key) (Dict.keys (rightUfoClasses w)) ->
                 Dict.get key (kerning w') = None) /\
    (forall key, In key (Dict.keys (kerning w)) ->
                 In (rename_key rhoL rhoR key) (Dict.keys (kerning w'))) /\
    (forall key v, Dict.get key (kerning w') = Some v ->
       exists key0, Dict.get key0 (kerning w) = Some v /\
                    key = rename_key rhoL rhoR key0).
Proof.
  intros (NDl & NDr & NDk & Hlre & Hrre).
  destruct (_correctUfoClassNames_renames w NDl NDr)
    as (w' & d1 & k1 & Ew & R1 & R2 & F).
  assert (Fl : leftUfoClasses w' = d1) by (rewrite F; reflexivity).
  exists w'. split; [exact Ew|].
  destruct (renames_spec R1 [] (eq_sym (app_nil_r _)) NDl) as
    (newsL & HlenL & HdL & HturnL & HatL & HavL & NDdL & NDk1 & HrhoL).
  { intros n I. apply (@ufo_group_not_marked leftUfoGroupRe n); auto. }
  { exact NDk. }
  cbn [fst snd] in *. rewrite app_nil_l in HdL. rewrite app_nil_r in HturnL.
  destruct (renames_spec R2 [] (eq_sym (app_nil_r _)) NDr) as
    (newsR & HlenR & HdR & HturnR & HatR & HavR & NDdR & NDk2 & HrhoR).
  { intros n I. apply (@ufo_group_not_marked rightUfoGroupRe n); auto. }
  { exact NDk1. }
  cbn [fst snd] in *. rewrite app_nil_l in HdR. rewrite app_nil_r in HturnR.
  assert (KL : Dict.keys (leftUfoClasses w') = newsL).
  { rewrite Fl, HdL. apply keys_combine. rewrite length_map. exact HlenL. }
  assert (KR : Dict.keys (rightUfoClasses w') = newsR).
  { rewrite HdR. apply keys_combine. rewrite length_map. exact HlenR. }
  set (rhoL := renaming (leftUfoClasses w) (leftUfoClasses w')).
  set (rhoR := renaming (rightUfoClasses w) (rightUfoClasses w')).
  assert (EL : forall x, rhoL x =
            match Dict.get x (combine (Dict.keys (leftUfoClasses w)) newsL) with
            | Some n => n
            | None => x
            end).
  { intros x. unfold rhoL, renaming. rewrite KL. reflexivity. }
  assert (ER : forall x, rhoR x =
            match Dict.get x (combine (Dict.keys (rightUfoClasses w)) newsR) with
            | Some n => n
            | None => x
            end).
  { intros x. unfold rhoR, renaming. rewrite KR. reflexivity. }
  destruct (HrhoL rhoL EL) as (HgoneL & HpresL & HfromL).
  destruct (HrhoR rhoR ER) as (HgoneR & HpresR & HfromR).
  cbv zeta.
  split; [rewrite Fl, HdL; apply combine_renamed; assumption|].
  split; [rewrite HdR; apply combine_renamed; assumption|].
  split; [rewrite KL, <- app_assoc; exact HturnL|].
  split; [rewrite KR, KL, <- app_assoc; rewrite <- Fl, KL in HturnR; exact HturnR|].
  split; [|split; [|split]].
  - (* the declaration lines *)
    intros [n ms] I. apply _addGlyphClasses_declares.
    rewrite get_update by exact NDdR.
    apply in_app_or in I. destruct I as [I|I].
    + assert (Hn : Dict.get n (rightUfoClasses w') = None).
      { apply get_None_keys. rewrite KR. intros Ir. apply (HavR n Ir).
        rewrite !in_app_iff. right. right. rewrite <- Fl, KL, <- KL.
        apply (in_map fst) in I. exact I. }
      rewrite Hn. apply In_get; [rewrite Fl; exact NDdL | exact I].
    + rewrite (@In_get _ _ _ n ms _ NDdR I). reflexivity.
  - (* no entry under an old name *)
    intros key [I|I]; [|apply HgoneR; exact I].
    destruct (Dict.get key (kerning w')) eqn:Eg; [|reflexivity]. exfalso.
    destruct (HfromR key _ Eg) as (key1 & G1 & E1).
    rewrite HgoneL in G1; [discriminate|].
    rewrite E1 in I. destruct key1. exact I.
  - (* the renamed key of every key is there *)
    intros key I. rewrite rename_key_sides. apply HpresR, HpresL, I.
  - (* every entry comes from an entry of the old table *)
    intros key v G. destruct (HfromR key v G) as (key1 & G1 & E1).
    destruct (HfromL key1 v G1) as (key0 & G0 & E0).
    exists key0. split; [exact G0|]. rewrite rename_key_sides, <- E0. exact E1.
Qed.

(** C4. [_makeFeaClassName] always returns, and gives the name with the
    characters outside [A-Za-z0-9._] stripped and the class marker in
    front, or, when that name is taken by a class of any of the four
    registries, the same with the first free suffix [_1], [_2], ...
    [_correctUfoClassNames] always returns on the registries that
    [_collectUfoClasses] builds.  Each class is then stored, at its place
    and with its members, under the name made for it when its turn came:
    the names taken at that moment are those of the feature classes, of the
    other registry, the new names of the classes before it and the old
    names from it on.  [_addGlyphClasses] writes the declaration line of
    every class with its new name.  No entry of the kerning table is left
    under an old group name, the key of every entry is in the table with
    the groups replaced by their new names, and every entry of the new
    table has the value of an entry of the old one whose key became its
    key.  So every entry is found with its value under its renamed key
    exactly when no two entries with different values get the same renamed
    key. *)
Theorem correctUfoClassNames_rekeys (w : Writer) :
  ufo_collected w ->
  (forall name, exists newName,
     _makeFeaClassName w name = Ok newName /\
     first_free name newName (existingClassNames w)) /\
  exists w', _correctUfoClassNames w = Ok w' /\
    let fea := Dict.keys (leftFeaClasses w) ++ Dict.keys (rightFeaClasses w) in
    let rhoL := renaming (leftUfoClasses w) (leftUfoClasses w') in
    let rhoR := renaming (rightUfoClasses w) (rightUfoClasses w') in
    leftUfoClasses w' = map (fun c => (rhoL (fst c), snd c)) (leftUfoClasses w) /\
    rightUfoClasses w' = map (fun c => (rhoR (fst c), snd c)) (rightUfoClasses w) /\
    named_in_turn (fea ++ Dict.keys (rightUfoClasses w))
                  (Dict.keys (leftUfoClasses w)) (Dict.keys (leftUfoClasses w')) /\
    named_in_turn (fea ++ Dict.keys (leftUfoClasses w'))
                  (Dict.keys (rightUfoClasses w)) (Dict.keys (rightUfoClasses w')) /\
    (forall c, In c (leftUfoClasses w' ++ rightUfoClasses w') ->
               In (classLine c) (_addGlyphClasses w' [])) /\
    (forall key, In (fst key) (Dict.keys (leftUfoClasses w)) \/
                 In (snd key) (Dict.keys (rightUfoClasses w)) ->
                 Dict.get key (kerning w') = None) /\
    (forall key, In key (Dict.keys (kerning w)) ->
                 In (rename_key rhoL rhoR key) (Dict.keys (kerning w'))) /\
    (forall key v, Dict.get key (kerning w') = Some v ->
       exists key0, Dict.get key0 (kerning w) = Some v /\
                    key = rename_key rhoL rhoR key0) /\
    ((forall key1 key2 v1 v2,
        Dict.get key1 (kerning w) = Some v1 ->
        Dict.get key2 (kerning w) = Some v2 ->
        rename_key rhoL rhoR key1 = rename_key rhoL rhoR key2 -> v1 = v2) <->
     (forall key v, Dict.get key (kerning w) = Some v ->
                    Dict.get (rename_key rhoL rhoR key) (kerning w') = Some v)).
Proof.
  intros Hc. split.
  - intros name. destruct (_makeFeaClassName_spec w name) as (m & E & Hf & Hm).
    eexists. split; [exact E|]. exists m. auto.
  - destruct (_correctUfoClassNames_renamed Hc)
      as (w' & E & A & B & C & D & L & G & P & V).
    exists w'. split; [exact E|]. cbv zeta in *.
    repeat (split; [assumption|]). split.
    + intros Hagree key v Gk.
      assert (I : In key (Dict.keys (kerning w))).
      { apply In_keys_get. rewrite Gk. discriminate. }
      apply P, In_keys_get in I.
      destruct (Dict.get (rename_key _ _ key) (kerning w')) as [v'|] eqn:Eg;
        [|congruence].
      destruct (V _ _ Eg) as (key0 & G0 & E0).
      f_equal. exact (Hagree key0 key v' v G0 Gk (eq_sym E0)).
    + intros Hval key1 key2 v1 v2 G1 G2 Ek.
      apply Hval in G1, G2. rewrite Ek in G1. congruence.
Qed.

Lemma ufo_collected_font_illegal :
  ufo_collected (_collectUfoClasses (init font_illegal)).
Proof.
  split; [|split; [|split; [|split]]].
  - vm_compute. repeat constructor; simpl; intuition discriminate.
  - vm_compute. repeat constructor; simpl; intuition discriminate.
  - vm_compute. repeat constructor; simpl; intuition discriminate.
  - intros n I. vm_compute in I. destruct I as [<-|[<-|[]]]; reflexivity.
  - intros n I. vm_compute in I. destruct I as [<-|[]]; reflexivity.
Defined.

(** entries whose renamed keys are distinct do not get in each other's
    way *)
Lemma distinct_keys_agree {V : Type} (f : kernKey -> kernKey)
  (d : Dict.t kernKey V) :
  NoDup (map f (Dict.keys d)) ->
  forall key1 key2 v1 v2,
    Dict.get key1 d = Some v1 -> Dict.get key2 d = Some v2 ->
    f key1 = f key2 -> v1 = v2.
Proof.
  intros ND key1 key2 v1 v2 G1 G2 E.
  assert (key1 = key2).
  { apply (NoDup_map_inj _ _ ND); [| |exact E];
      apply In_keys_get; congruence. }
  subst. congruence.
Qed.

Lemma correctUfoClassNames_rekeys_witness :
  exists w',
    _correctUfoClassNames (_collectUfoClasses (init font_illegal)) = Ok w' /\
    leftUfoClasses w' = [("@public.kern1.oacute", ["o"; "oacute"]);
                         ("@public.kern1.oacute_1", ["ohungarumlaut"])] /\
    rightUfoClasses w' = [("@public.kern2.az", ["a"; "z"])] /\
    Dict.get ("@public.kern1.oacute", "@public.kern2.az") (kerning w') = Some (-7)%Z /\
    Dict.get ("@public.kern1.oacute", "T") (kerning w') = Some 3%Z /\
    Dict.get ("@public.kern1.oacute_1", "T") (kerning w') = Some 4%Z.
Proof.
  destruct (correctUfoClassNames_rekeys ufo_collected_font_illegal)
    as (_ & w' & E & _ & _ & _ & _ & _ & _ & _ & _ & Hval & _).
  exists w'. split; [exact E|].
  vm_compute in E. injection E as <-.
  split; [reflexivity|]. split; [reflexivity|].
  assert (ND : NoDup [("@public.kern1.oacute", "@public.kern2.az");
                      ("@public.kern1.oacute", "T");
                      ("@public.kern1.oacute_1", "T")]).
  { repeat constructor; simpl; intuition discriminate. }
  match type of Hval with
  | ?A -> _ => assert (Hag : A) by (apply distinct_keys_agree; exact ND)
  end.
  pose proof (Hval Hag) as H.
  split; [|split].
  - exact (H ("public.kern1.o acute", "public.kern2.a-z") (-7)%Z eq_refl).
  - exact (H ("public.kern1.o acute", "T") 3%Z eq_refl).
  - exact (H ("public.kern1.oacute", "T") 4%Z eq_refl).
Defined.

(** C4, as stated without the proviso, fails.  The two groups have names
    with a space and a hyphen; the entry of the left group against the name
    [@public.kern2.xy] has the value 1.  When the right group is renamed to
    [@public.kern2.xy], the entry of the left group against the right
    group is moved onto it, and the value 1 is lost. *)
Lemma rekey_value_lost :
  let w := _collectUfoClasses (init font_marked) in
  leftUfoClasses w = [("public.kern1.a b", ["A"])] /\
  rightUfoClasses w = [("public.kern2.x-y", ["X"])] /\
  strip_illegal "public.kern1.a b" <> "public.kern1.a b" /\
  strip_illegal "public.kern2.x-y" <> "public.kern2.x-y" /\
  Dict.get ("public.kern1.a b", "@public.kern2.xy") (kerning w) = Some 1%Z /\
  exists w', _correctUfoClassNames w = Ok w' /\
             Dict.keys (leftUfoClasses w') = ["@public.kern1.ab"] /\
             Dict.keys (rightUfoClasses w') = ["@public.kern2.xy"] /\
             kerning w' = [(("@public.kern1.ab", "@public.kern2.xy"), 2%Z)] /\
             Dict.get ("@public.kern1.ab", "@public.kern2.xy") (kerning w')
               <> Some 1%Z.
Proof.
  split; [reflexivity|]. split; [reflexivity|].
  split; [vm_compute; discriminate|]. split; [vm_compute; discriminate|].
  split; [reflexivity|].
  eexists. split; [vm_compute; reflexivity|].
  split; [reflexivity|]. split; [reflexivity|]. split; [reflexivity|].
  vm_compute. discriminate.
Qed.

(** *** Tables without marked keys *)

(** the names made in turn begin with the class marker, are distinct, and
    none is a name known before *)
Lemma named_in_turn_new (names : list string) : forall known newNames,
  named_in_turn known names newNames ->
  List.length newNames = List.length names /\
  Forall starts_with_at newNames /\ NoDup newNames /\
  (forall n, In n newNames -> ~ In n known).
Proof.
  induction names as [|name rest IH]; intros known [|new news] H; simpl in H;
    try contradiction.
  - repeat split; [constructor | constructor | intros n []].
  - destruct H as [(m & E & Hf & _) Ht].
    destruct (IH _ _ Ht) as (Hlen & Hat & ND & Hk).
    assert (Hnew : ~ In new news).
    { intros I. apply (Hk new I). apply in_or_app. right. left. reflexivity. }
    split; [simpl; congruence|]. split.
    { constructor; [rewrite E; apply candidate_starts_with_at | exact Hat]. }
    split; [constructor; assumption|].
    intros n [<-|I].
    + intros Ik. apply Hf. apply in_or_app. auto.
    + intros Ik. apply (Hk n I). apply in_or_app. auto.
Qed.

Lemma get_combine_inj (olds : list string) : forall (news : list string) x y n,
  NoDup news ->
  Dict.get x (combine olds news) = Some n ->
  Dict.get y (combine olds news) = Some n -> x = y.
Proof.
  induction olds as [|o olds IH]; intros [|new news] x y n ND Gx Gy; simpl in *;
    try discriminate.
  inversion ND as [|? ? Hn ND']; subst.
  destruct (eq_dec x o) as [->|Hx], (eq_dec y o) as [->|Hy].
  - reflexivity.
  - exfalso. apply Hn. injection Gx as ->. apply get_combine_In in Gy. exact Gy.
  - exfalso. apply Hn. injection Gy as ->. apply get_combine_In in Gx. exact Gx.
  - eapply IH; eassumption.
Qed.

Lemma renaming_inj (before after : classes) x y :
  NoDup (Dict.keys after) -> Forall starts_with_at (Dict.keys after) ->
  ~ starts_with_at x -> ~ starts_with_at y ->
  renaming before after x = renaming before after y -> x = y.
Proof.
  intros ND Hat Hx Hy. unfold renaming.
  destruct (Dict.get x (combine (Dict.keys before) (Dict.keys after))) eqn:Gx,
           (Dict.get y (combine (Dict.keys before) (Dict.keys after))) eqn:Gy;
    intros E.
  - subst. eapply get_combine_inj; eassumption.
  - exfalso. apply Hy. subst. apply get_combine_In in Gx.
    rewrite Forall_forall in Hat. auto.
  - exfalso. apply Hx. subst. apply get_combine_In in Gy.
    rewrite Forall_forall in Hat. auto.
  - exact E.
Qed.

(** in a kerning table none of whose keys has a side that begins with the
    class marker, no two keys get the same renamed key *)
Lemma unmarked_keys_stay_distinct (w w' : Writer) :
  ufo_collected w -> _correctUfoClassNames w = Ok w' ->
  no_marked_key (kerning w) ->
  NoDup (map (rename_key (renaming (leftUfoClasses w) (leftUfoClasses w'))
                         (renaming (rightUfoClasses w) (rightUfoClasses w')))
             (Dict.keys (kerning w))).
Proof.
  intros Hc E Hm.
  destruct (_correctUfoClassNames_renamed Hc)
    as (w'' & E' & _ & _ & HtL & HtR & _).
  assert (w'' = w') by congruence. subst w''.
  destruct (named_in_turn_new _ _ _ HtL) as (_ & HatL & NDL & _).
  destruct (named_in_turn_new _ _ _ HtR) as (_ & HatR & NDR & _).
  destruct Hc as (_ & _ & NDk & _).
  apply NoDup_map_on; [|exact NDk].
  intros [l r] [l' r'] I I' Eq. unfold rename_key in Eq. cbn [fst snd] in Eq.
  injection Eq as El Er.
  destruct (Hm _ I) as [Hl Hr]. destruct (Hm _ I') as [Hl' Hr'].
  cbn [fst snd] in *. f_equal.
  - apply (@renaming_inj (leftUfoClasses w) (leftUfoClasses w') l l'); assumption.
  - apply (@renaming_inj (rightUfoClasses w) (rightUfoClasses w') r r'); assumption.
Qed.

(** * Further properties of the writer *)

(** ** Class names made by [_makeFeaClassName] *)

Lemma all_legal_app s t :
  all_legal (s ++ t) = all_legal s && all_legal t.
Proof.
  induction s as [|c s IH]; simpl; [reflexivity|].
  rewrite IH. apply andb_assoc.
Qed.

Lemma all_legal_strip_illegal s : all_legal (strip_illegal s) = true.
Proof.
  induction s as [|c s IH]; simpl; [reflexivity|].
  destruct (legal_char c) eqn:E; simpl; [rewrite E|]; exact IH.
Qed.

Lemma all_legal_string_of_uint d :
  all_legal (DecimalString.NilEmpty.string_of_uint d) = true.
Proof. induction d; simpl; auto. Qed.

Lemma all_legal_fmt_nat n : all_legal (fmt_nat n) = true.
Proof.
  unfold fmt_nat, NilZero.string_of_uint.
  destruct (Nat.to_uint n); try reflexivity; apply all_legal_string_of_uint.
Qed.

(** X1. [_makeFeaClassName] always returns, and the name it returns is the
    class marker followed by characters of [A-Za-z0-9._] only, and is not
    the name of a class that exists already. *)
Theorem makeFeaClassName_legal_and_new (w : Writer) (name : string) :
  exists rest,
    _makeFeaClassName w name = Ok (String "@"%char rest) /\
    all_legal rest = true /\
    ~ In (String "@"%char rest) (existingClassNames w).
Proof.
  destruct (_makeFeaClassName_spec w name) as (m & E & Hn & _).
  destruct m as [|m].
  - exists (strip_illegal name). split; [exact E|].
    split; [apply all_legal_strip_illegal | exact Hn].
  - exists (strip_illegal name ++ "_" ++ fmt_nat (S m))%string.
    split; [exact E|]. split; [|exact Hn].
    rewrite all_legal_app, all_legal_strip_illegal. simpl.
    change (all_legal (fmt_nat (S m)) = true). apply all_legal_fmt_nat.
Qed.

(** ** The groups taken as kerning classes *)





(** ** The four buckets of [_collectUfoKerning] *)

Lemma ufoKerning_body_frame w entry :
  let w' := ufoKerning_body w entry in
  kerning w' = kerning w /\
  leftUfoClasses w' = leftUfoClasses w /\ rightUfoClasses w' = rightUfoClasses w /\
  leftFeaClasses w' = leftFeaClasses w /\ rightFeaClasses w' = rightFeaClasses w.
Proof.
  destruct entry as [[l r] v]. unfold ufoKerning_body.
  destruct (Dict.mem l (leftUfoClasses w)), (Dict.mem r (rightUfoClasses w));
    simpl; auto.
Qed.

Lemma ufoKerning_fold_frame (l : rules) : forall w,
  let w' := fold_left ufoKerning_body l w in
  kerning w' = kerning w /\
  leftUfoClasses w' = leftUfoClasses w /\ rightUfoClasses w' = rightUfoClasses w /\
  leftFeaClasses w' = leftFeaClasses w /\ rightFeaClasses w' = rightFeaClasses w.
Proof.
  induction l as [|e l IH]; intros w; cbn [fold_left]; cbv zeta; [auto 6|].
  destruct (IH (ufoKerning_body w e)) as (A & B & C & D & E).
  destruct (ufoKerning_body_frame w e) as (A' & B' & C' & D' & E').
  repeat split; congruence.
Qed.

Lemma ufoKerning_fold_takes (lcls rcls : classes) (l : rules) : forall w,
  NoDup (Dict.keys l) ->
  leftUfoClasses w = lcls -> rightUfoClasses w = rcls ->
  let w' := fold_left ufoKerning_body l w in
  takes (fun k => negb (isL lcls k) && negb (isR rcls k)) l
        (glyphPairKerning w) (glyphPairKerning w') /\
  takes (fun k => isL lcls k && negb (isR rcls k)) l
        (leftClassKerning w) (leftClassKerning w') /\
  takes (fun k => negb (isL lcls k) && isR rcls k) l
        (rightClassKerning w) (rightClassKerning w') /\
  takes (fun k => isL lcls k && isR rcls k) l
        (classPairKerning w) (classPairKerning w').
Proof.
  induction l as [|[k0 v0] l IH]; intros w ND El Er; cbn [fold_left]; cbv zeta.
  - unfold takes. simpl. repeat split; intros k; destruct (_ && _); reflexivity.
  - simpl in ND. inversion ND as [|? ? Hk0 ND']; subst.
    destruct (ufoKerning_body_frame w (k0, v0)) as (_ & Fl & Fr & _).
    destruct (IH (ufoKerning_body w (k0, v0)) ND') as (Tg & Tl & Tr & Tc);
      [congruence | congruence |].
    assert (Hget : forall k, Dict.get k l = Some v0 -> k <> k0).
    { intros k G ->. apply Hk0. apply get_Some_In in G.
      apply (in_map fst) in G. exact G. }
    assert (Hnone : Dict.get k0 l = None).
    { apply get_None_keys. exact Hk0. }
    unfold takes in *. unfold isL, isR in *.
    destruct k0 as [a b]. unfold ufoKerning_body in *. cbn [fst snd] in *.
    destruct (Dict.mem a (leftUfoClasses w)) eqn:Ma,
             (Dict.mem b (rightUfoClasses w)) eqn:Mb;
      cbn [glyphPairKerning leftClassKerning rightClassKerning classPairKerning
           with_glyphPairKerning with_leftClassKerning with_rightClassKerning
           with_classPairKerning] in *;
      repeat split; intros k;
      first [rewrite Tg | rewrite Tl | rewrite Tr | rewrite Tc];
      cbn [Dict.get];
      (destruct (eq_dec k (a, b)) as [->|Hne];
       [cbn [fst snd]; rewrite ?Ma, ?Mb; cbn [negb andb];
        rewrite ?Hnone, ?get_set_same; reflexivity
       |rewrite ?get_set_other by exact Hne; reflexivity]).
Qed.

(** X3. [_collectUfoKerning] puts every entry of the kerning table, with
    its value, into exactly one bucket: the class pair bucket when both
    sides are group classes, the left or the right class bucket when one
    side is, the glyph pair bucket when none is.  Rules that a bucket held
    before under other keys stay, and the kerning table and the classes are
    left as they were. *)
Theorem collectUfoKerning_partitions (w : Writer) :
  NoDup (Dict.keys (kerning w)) ->
  let w' := _collectUfoKerning w in
  let L := isL (leftUfoClasses w) in
  let R := isR (rightUfoClasses w) in
  takes (fun k => negb (L k) && negb (R k)) (kerning w)
        (glyphPairKerning w) (glyphPairKerning w') /\
  takes (fun k => L k && negb (R k)) (kerning w)
        (leftClassKerning w) (leftClassKerning w') /\
  takes (fun k => negb (L k) && R k) (kerning w)
        (rightClassKerning w) (rightClassKerning w') /\
  takes (fun k => L k && R k) (kerning w)
        (classPairKerning w) (classPairKerning w') /\
  kerning w' = kerning w /\
  leftUfoClasses w' = leftUfoClasses w /\ rightUfoClasses w' = rightUfoClasses w.
Proof.
  intros ND w' L R.
  pose proof (sorted_by_perm pair_leb (kerning w)) as P.
  assert (NDs : NoDup (Dict.keys (sorted_by pair_leb (kerning w)))).
  { eapply Permutation_NoDup;
      [apply Permutation_map, Permutation_sym; exact P | exact ND]. }
  assert (M : map_eq (sorted_by pair_leb (kerning w)) (kerning w)).
  { apply perm_map_eq; assumption. }
  destruct (@ufoKerning_fold_takes (leftUfoClasses w) (rightUfoClasses w)
              (sorted_by pair_leb (kerning w)) w NDs eq_refl eq_refl)
    as (Tg & Tl & Tr & Tc).
  destruct (ufoKerning_fold_frame (sorted_by pair_leb (kerning w)) w)
    as (Fk & Fl & Fr & _).
  unfold takes in *. fold (_collectUfoKerning w) in *. fold w' in Tg, Tl, Tr, Tc, Fk, Fl, Fr.
  repeat split; try assumption; intros k;
    first [rewrite Tg | rewrite Tl | rewrite Tr | rewrite Tc];
    rewrite (M k); reflexivity.
Qed.

Lemma collectUfoKerning_partitions_witness :
  let w := _collectUfoClasses (init font_twoleft) in
  Dict.get ("public.kern1.L", "X") (leftClassKerning (_collectUfoKerning w))
    = Some (-30)%Z /\
  Dict.get ("A", "X") (leftClassKerning (_collectUfoKerning w)) = None /\
  Dict.get ("A", "X") (glyphPairKerning (_collectUfoKerning w)) = Some 10%Z.
Proof.
  intros w.
  assert (ND : NoDup (Dict.keys (kerning w))).
  { simpl. repeat constructor; simpl; intuition discriminate. }
  destruct (collectUfoKerning_partitions w ND) as (Tg & Tl & _).
  split; [rewrite (Tl ("public.kern1.L", "X")); reflexivity|].
  split; [rewrite (Tl ("A", "X")) | rewrite (Tg ("A", "X"))]; reflexivity.
Defined.

(** ** The rules of the feature classes *)

Lemma In_fold_set {K V A : Type} `{EqDec K} (mk : A -> K) (val : A -> V)
  (hits : list A) : forall (d : Dict.t K V) kv,
  In kv (fold_left (fun l h => Dict.set (mk h) (val h) l) hits d) ->
  In kv d \/ exists h, In h hits /\ kv = (mk h, val h).
Proof.
  induction hits as [|h hits IH]; intros d kv I; simpl in I; [auto|].
  apply IH in I. destruct I as [I|(h' & Ih & E)].
  - apply In_set in I. destruct I as [->|I]; [|auto].
    right. exists h. split; [left; reflexivity | reflexivity].
  - right. exists h'. split; [right; exact Ih | exact E].
Qed.

Lemma In_fold_remove {K V A : Type} `{EqDec K} (mk : A -> K) (hits : list A) :
  forall (d : Dict.t K V) kv,
  In kv (fold_left (fun l h => Dict.remove (mk h) l) hits d) -> In kv d.
Proof.
  induction hits as [|h hits IH]; intros d kv I; simpl in I; [exact I|].
  apply IH in I. eapply In_remove. exact I.
Qed.

Lemma feaClassPair_body_from lcls rcls kern0 (w0 : Writer) ln lk lrest right_ s s' :
  In (ln, lk :: lrest) lcls -> In right_ rcls ->
  ((forall kv, In kv (fst s) -> In kv kern0) /\
   (forall ln rn v, In ((ln, rn), v) (snd s) ->
      In ((ln, rn), v) (classPairKerning w0) \/
      exists lkey lrest rkey rrest,
        In (ln, lkey :: lrest) lcls /\ In (rn, rkey :: rrest) rcls /\
        In ((lkey, rkey), v) kern0)) ->
  feaClassPair_body ln lk right_ s = Ok s' ->
  (forall kv, In kv (fst s') -> In kv kern0) /\
  (forall ln rn v, In ((ln, rn), v) (snd s') ->
     In ((ln, rn), v) (classPairKerning w0) \/
     exists lkey lrest rkey rrest,
       In (ln, lkey :: lrest) lcls /\ In (rn, rkey :: rrest) rcls /\
       In ((lkey, rkey), v) kern0).
Proof.
  destruct right_ as [rn rc], s as [kern cpk]. intros Il Ir [Hk Hc] E.
  unfold feaClassPair_body in E. apply bind_Ok in E. destruct E as (rk & Ef & E).
  destruct rc as [|g rc]; [discriminate|]. simpl in Ef. inversion Ef; subst g.
  cbn [fst snd] in *.
  destruct (Dict.get (lk, rk) kern) as [v0|] eqn:G; inversion E; subst s'; clear E;
    cbn [fst snd]; [|auto].
  split.
  - intros kv I. apply Hk. eapply In_remove. exact I.
  - intros ln' rn' v I. apply In_set in I. destruct I as [I|I]; [|auto].
    inversion I; subst. right. exists lk, lrest, rk, rc.
    split; [exact Il|]. split; [exact Ir|]. apply Hk. apply get_Some_In. exact G.
Qed.

Lemma feaLeft_body_from lcls rcls kern0 (w0 : Writer) cls w w' :
  In cls lcls -> rightFeaClasses w = rcls ->
  fea_rules_from lcls rcls kern0 w0 w -> feaLeft_body cls w = Ok w' ->
  fea_rules_from lcls rcls kern0 w0 w'.
Proof.
  destruct cls as [ln lc]. intros Il Er (Hk & Hl & Hr & Hc) E.
  unfold feaLeft_body in E. apply bind_Ok in E. destruct E as (lk & Ef & E).
  destruct lc as [|g lrest]; [discriminate|]. simpl in Ef. inversion Ef; subst g.
  apply bind_Ok in E. destruct E as ([kern cpk] & Ep & E).
  assert (Hp : (forall kv, In kv kern -> In kv kern0) /\
               (forall ln rn v, In ((ln, rn), v) cpk ->
                  In ((ln, rn), v) (classPairKerning w0) \/
                  exists lkey lrest rkey rrest,
                    In (ln, lkey :: lrest) lcls /\ In (rn, rkey :: rrest) rcls /\
                    In ((lkey, rkey), v) kern0)).
  { revert Ep.
    apply (@forM_invariant _ _ (feaClassPair_body ln lk)
             (fun s => (forall kv, In kv (fst s) -> In kv kern0) /\
                (forall ln rn v, In ((ln, rn), v) (snd s) ->
                   In ((ln, rn), v) (classPairKerning w0) \/
                   exists lkey lrest rkey rrest,
                     In (ln, lkey :: lrest) lcls /\ In (rn, rkey :: rrest) rcls /\
                     In ((lkey, rkey), v) kern0))); [|simpl; auto].
    intros x s s' Ix Hs Hb. rewrite Er in Ix.
    eapply feaClassPair_body_from; eauto. }
  destruct Hp as [Hk' Hc'].
  rewrite fold_feaLeftGlyph in E. inversion E; subst w'; clear E.
  unfold fea_rules_from. simpl. split; [|split; [|split]].
  - intros kv I. apply Hk'. eapply In_fold_remove. exact I.
  - intros ln' r v I.
    apply (In_fold_set (fun hit : kernKey * Z => (ln, snd (fst hit)))
                       (fun hit => snd hit)) in I.
    destruct I as [I|([p v'] & Ih & E)]; [auto|].
    simpl in E. inversion E; subst. right. exists lk, lrest.
    split; [exact Il|]. apply _getGlyphKern_In in Ih. destruct Ih as [Ih Hi].
    simpl in Hi. destruct p as [a b]. simpl in *. subst a. apply Hk'. exact Ih.
  - exact Hr.
  - exact Hc'.
Qed.

Lemma feaRight_body_from lcls rcls kern0 (w0 : Writer) cls w w' :
  In cls rcls ->
  fea_rules_from lcls rcls kern0 w0 w -> feaRight_body cls w = Ok w' ->
  fea_rules_from lcls rcls kern0 w0 w'.
Proof.
  destruct cls as [rn rc]. intros Ir (Hk & Hl & Hr & Hc) E.
  unfold feaRight_body in E. apply bind_Ok in E. destruct E as (rk & Ef & E).
  destruct rc as [|g rrest]; [discriminate|]. simpl in Ef. inversion Ef; subst g.
  rewrite fold_feaRightGlyph in E. inversion E; subst w'; clear E.
  unfold fea_rules_from. simpl. split; [|split; [|split]].
  - intros kv I. apply Hk. eapply In_fold_remove. exact I.
  - exact Hl.
  - intros l rn' v I.
    apply (In_fold_set (fun hit : kernKey * Z => (fst (fst hit), rn))
                       (fun hit => snd hit)) in I.
    destruct I as [I|([p v'] & Ih & E)]; [auto|].
    simpl in E. inversion E; subst. right. exists rk, rrest.
    split; [exact Ir|]. apply _getGlyphKern_In in Ih. destruct Ih as [Ih Hi].
    simpl in Hi. destruct p as [a b]. simpl in *. subst b. apply Hk. exact Ih.
  - exact Hc.
Qed.

Lemma _collectFeaClassKerning_from (w w' : Writer) :
  _collectFeaClassKerning w = Ok w' ->
  fea_rules_from (leftFeaClasses w) (rightFeaClasses w) (kerning w) w w'.
Proof.
  intros E. unfold _collectFeaClassKerning in E.
  apply bind_Ok in E. destruct E as (w1 & E1 & E2).
  pose proof (feaLeft_loop (leftFeaClasses w) w) as HL. rewrite E1 in HL.
  destruct HL as (_ & Hr1 & Hl1).
  assert (P1 : fea_rules_from (leftFeaClasses w) (rightFeaClasses w) (kerning w) w w1
               /\ rightFeaClasses w1 = rightFeaClasses w).
  { revert E1.
    apply (@forM_invariant _ _ feaLeft_body
             (fun s => fea_rules_from (leftFeaClasses w) (rightFeaClasses w)
                                      (kerning w) w s /\
                       rightFeaClasses s = rightFeaClasses w)).
    - intros cls s s' I [Hs Hrs] Hb. split.
      + eapply feaLeft_body_from; eauto.
      + apply feaLeft_body_classes in Hb. destruct Hb. congruence.
    - split; [|reflexivity]. unfold fea_rules_from. auto. }
  destruct P1 as [P1 _]. rewrite Hr1 in E2. revert E2.
  apply (@forM_invariant _ _ feaRight_body
           (fun s => fea_rules_from (leftFeaClasses w) (rightFeaClasses w)
                                    (kerning w) w s)); [|exact P1].
  intros cls s s' I Hs Hb. eapply feaRight_body_from; eauto.
Qed.


(** X4. Every class rule that [_collectFeaClassKerning] adds comes from
    the kerning of key glyphs: a rule for a left feature class has the
    value that the table gives to the first member of the class with the
    same right glyph, a rule for a right feature class the value of the
    first member of that class with the same left glyph, and a rule for two
    classes the value of the pair of their first members.  The entries left
    in the kerning table are entries it had. *)
Theorem feaClassKerning_from_key_glyphs (w w' : Writer) :
  _collectFeaClassKerning w = Ok w' ->
  (forall kv, In kv (kerning w') -> In kv (kerning w)) /\
  (forall ln r v, In ((ln, r), v) (leftClassKerning w') ->
     In ((ln, r), v) (leftClassKerning w) \/
     exists key rest, In (ln, key :: rest) (leftFeaClasses w) /\
                      In ((key, r), v) (kerning w)) /\
  (forall l rn v, In ((l, rn), v) (rightClassKerning w') ->
     In ((l, rn), v) (rightClassKerning w) \/
     exists key rest, In (rn, key :: rest) (rightFeaClasses w) /\
                      In ((l, key), v) (kerning w)) /\
  (forall ln rn v, In ((ln, rn), v) (classPairKerning w') ->
     In ((ln, rn), v) (classPairKerning w) \/
     exists lkey lrest rkey rrest,
       In (ln, lkey :: lrest) (leftFeaClasses w) /\
       In (rn, rkey :: rrest) (rightFeaClasses w) /\
       In ((lkey, rkey), v) (kerning w)).
Proof. exact (@_collectFeaClassKerning_from w w'). Qed.

Lemma feaClassKerning_from_key_glyphs_witness :
  exists w1 w2,
    _collectFeaClasses parse_fea (init font_fea) = Ok w1 /\
    _collectFeaClassKerning w1 = Ok w2 /\
    classPairKerning w2 = [(("@MMK_L_A", "@MMK_R_o"), (-20)%Z)] /\
    leftClassKerning w2 = [(("@MMK_L_A", "v"), (-10)%Z)] /\
    rightClassKerning w2 = [(("T", "@MMK_R_o"), (-30)%Z)] /\
    (forall kv, In kv (kerning w2) -> In kv (kerning w1)).
Proof.
  eexists. eexists. split; [vm_compute; reflexivity|].
  match goal with |- ?E /\ _ => assert (H : E) by (vm_compute; reflexivity) end.
  split; [exact H|]. do 3 (split; [reflexivity|]).
  exact (proj1 (@feaClassKerning_from_key_glyphs _ _ H)).
Defined.






(** ** Conflict resolution finds its classes *)

Lemma keys_update_intro {K V : Type} `{EqDec K} (k : K) (d d2 : Dict.t K V) :
  In k (Dict.keys d) \/ In k (Dict.keys d2) -> In k (Dict.keys (Dict.update d d2)).
Proof.
  unfold Dict.update. revert d.
  induction d2 as [|[k2 v2] d2 IH]; simpl; intros d I; [tauto|].
  apply IH. rewrite In_keys_set. simpl. intuition.
Qed.

Lemma lookup_In {K V : Type} `{EqDec K} (k : K) (d : Dict.t K V) :
  In k (Dict.keys d) -> exists v, Dict.lookup k d = Ok v.
Proof.
  intros I. apply In_keys_get in I. unfold Dict.lookup.
  destruct (Dict.get k d) as [v|]; [eauto | congruence].
Qed.

(** deleting a rule after writing another one: the rule is found, and the
    other rules of the bucket stay *)
Lemma del_after_set {K V : Type} `{EqDec K} (k k' : K) (v : V) (d : Dict.t K V) :
  In k (Dict.keys d) ->
  Dict.del k (Dict.set k' v d) = Ok (Dict.remove k (Dict.set k' v d)) /\
  forall k2, k2 <> k -> In k2 (Dict.keys d) ->
             In k2 (Dict.keys (Dict.remove k (Dict.set k' v d))).
Proof.
  intros I. split.
  - unfold Dict.del. rewrite mem_set. destruct (eq_dec k k'); [reflexivity|].
    apply mem_keys in I. rewrite I. reflexivity.
  - intros k2 Hne I2. apply keys_remove_other; [exact Hne|].
    apply In_keys_set. auto.
Qed.

Lemma conflictLeft_loop_Ok cls (todo : rules) : forall seen (cur : rules),
  NoDup (Dict.keys todo) ->
  (forall k, In k (Dict.keys todo) ->
             In (fst k) (Dict.keys cls) /\ In k (Dict.keys cur)) ->
  exists s', forM (conflictLeft_body cls) todo (seen, cur) = Ok s'.
Proof.
  induction todo as [|[[c r] v] todo IH]; intros seen cur ND Hk; cbn [forM];
    [eauto|].
  simpl in ND. inversion ND as [|? ? Hnotin ND']; subst.
  destruct (Hk (c, r) (or_introl eq_refl)) as [Ic Icur]. cbn [fst] in Ic.
  rewrite conflictLeft_body_shape.
  apply In_keys_get in Ic. destruct (Dict.get c cls) as [lG|]; [|congruence].
  cbv zeta. destruct (eqb_of _ lG).
  - cbn [bind]. apply IH; [exact ND'|]. intros k I. apply Hk. right. exact I.
  - destruct (del_after_set (c, r) (_liststr (fst (fold_left (keepLeft_body r v) lG ([], seen))), r)
                            v cur Icur) as [Ed Hrest].
    unfold Dict.del in Ed.
    destruct (Dict.mem (c, r) _); [|discriminate]. cbn [bind].
    apply IH; [exact ND'|]. intros k I.
    destruct (Hk k (or_intror I)) as [A B]. split; [exact A|].
    apply Hrest; [|exact B]. intros ->. contradiction.
Qed.

Lemma conflictRight_loop_Ok cls (todo : rules) : forall seen (cur : rules),
  NoDup (Dict.keys todo) ->
  (forall k, In k (Dict.keys todo) ->
             In (snd k) (Dict.keys cls) /\ In k (Dict.keys cur)) ->
  exists s', forM (conflictRight_body cls) todo (seen, cur) = Ok s'.
Proof.
  induction todo as [|[[l c] v] todo IH]; intros seen cur ND Hk; cbn [forM];
    [eauto|].
  simpl in ND. inversion ND as [|? ? Hnotin ND']; subst.
  destruct (Hk (l, c) (or_introl eq_refl)) as [Ic Icur]. cbn [snd] in Ic.
  rewrite conflictRight_body_shape.
  apply In_keys_get in Ic. destruct (Dict.get c cls) as [rG|]; [|congruence].
  cbv zeta. destruct (eqb_of _ rG).
  - cbn [bind]. apply IH; [exact ND'|]. intros k I. apply Hk. right. exact I.
  - destruct (del_after_set (l, c) (l, _liststr (fst (fold_left (keepRight_body l v) rG ([], seen))))
                            v cur Icur) as [Ed Hrest].
    unfold Dict.del in Ed.
    destruct (Dict.mem (l, c) _); [|discriminate]. cbn [bind].
    apply IH; [exact ND'|]. intros k I.
    destruct (Hk k (or_intror I)) as [A B]. split; [exact A|].
    apply Hrest; [|exact B]. intros ->. contradiction.
Qed.

Lemma conflictPair_loop_Ok lcls rcls (todo : rules) : forall seen (cur : rules),
  NoDup (Dict.keys todo) ->
  (forall k, In k (Dict.keys todo) ->
             (In (fst k) (Dict.keys lcls) /\ In (snd k) (Dict.keys rcls)) /\
             In k (Dict.keys cur)) ->
  exists s', forM (conflictPair_body lcls rcls) todo (seen, cur) = Ok s'.
Proof.
  induction todo as [|[[c1 c2] v] todo IH]; intros seen cur ND Hk; cbn [forM];
    [eauto|].
  simpl in ND. inversion ND as [|? ? Hnotin ND']; subst.
  destruct (Hk (c1, c2) (or_introl eq_refl)) as [[I1 I2] Icur]. cbn [fst snd] in I1, I2.
  unfold conflictPair_body.
  destruct (lookup_In _ _ I1) as [lG ->]. destruct (lookup_In _ _ I2) as [rG ->].
  cbn [bind]. destruct (keepPairs v lG rG seen) as [[nl nr] seen'].
  match goal with |- context [if ?b then _ else _] => destruct b end.
  - match goal with |- context [Dict.del _ (Dict.set ?k' _ _)] =>
      destruct (del_after_set (c1, c2) k' v cur Icur) as [Ed Hrest] end.
    rewrite Ed. cbn [bind].
    apply IH; [exact ND'|]. intros k I.
    destruct (Hk k (or_intror I)) as [A B]. split; [exact A|].
    apply Hrest; [|exact B]. intros ->. contradiction.
  - cbn [bind]. apply IH; [exact ND'|]. intros k I. apply Hk. right. exact I.
Qed.

(** [_removeConflictingKerningRules] returns when the rules name classes
    of the registry *)
Lemma _removeConflictingKerningRules_Ok w :
  buckets_resolvable w -> exists w', _removeConflictingKerningRules w = Ok w'.
Proof.
  intros (Nl & Nr & Nc & Hl & Hr & Hc). unfold _removeConflictingKerningRules.
  destruct (conflictLeft_loop_Ok
              (Dict.update (leftFeaClasses w) (leftUfoClasses w))
              (leftClassKerning w) (glyphPairKerning w) (leftClassKerning w) Nl)
    as [[seen1 lck] E1]; [intros k I; split; [apply Hl, I | exact I]|].
  rewrite E1. cbn [bind].
  destruct (conflictRight_loop_Ok
              (Dict.update (rightFeaClasses w) (rightUfoClasses w))
              (rightClassKerning w) seen1 (rightClassKerning w) Nr)
    as [[seen2 rck] E2]; [intros k I; split; [apply Hr, I | exact I]|].
  rewrite E2. cbn [bind].
  destruct (conflictPair_loop_Ok
              (Dict.update (leftFeaClasses w) (leftUfoClasses w))
              (Dict.update (rightFeaClasses w) (rightUfoClasses w))
              (classPairKerning w) seen2 (classPairKerning w) Nc)
    as [[seen3 cpk] E3]; [intros k I; split; [apply Hc, I | exact I]|].
  rewrite E3. cbn [bind]. eauto.
Qed.

Lemma classDefinition_fold_frame (defs : list (string * list string)) : forall w,
  let w' := fold_left (fun w d => classDefinition (fst d) (snd d) w) defs w in
  kerning w' = kerning w /\ groups w' = groups w /\
  leftUfoClasses w' = leftUfoClasses w /\ rightUfoClasses w' = rightUfoClasses w /\
  glyphPairKerning w' = glyphPairKerning w /\
  leftClassKerning w' = leftClassKerning w /\
  rightClassKerning w' = rightClassKerning w /\
  classPairKerning w' = classPairKerning w.
Proof.
  induction defs as [|d defs IH]; intros w; cbn [fold_left]; cbv zeta;
    [repeat split|].
  destruct (IH (classDefinition (fst d) (snd d) w))
    as (A & B & C & D & E & F & G & I).
  rewrite A, B, C, D, E, F, G, I. unfold classDefinition.
  destruct (_isClassName leftFeaClassRe (fst d)); [simpl; repeat split|].
  destruct (_isClassName rightFeaClassRe (fst d)); simpl; repeat split.
Qed.

Lemma feaLeft_body_frame cls w0 w w' :
  fea_stage_frame w0 w -> feaLeft_body cls w = Ok w' -> fea_stage_frame w0 w'.
Proof.
  destruct cls as [ln lc]. intros (A & B & C & D & E & F & Nl & Nr & Nc) Hb.
  unfold feaLeft_body in Hb. apply bind_Ok in Hb. destruct Hb as (lk & _ & Hb).
  apply bind_Ok in Hb. destruct Hb as ([kern cpk] & Ep & Hb).
  assert (Ncpk : NoDup (Dict.keys cpk)).
  { revert Ep.
    apply (@forM_invariant _ _ (feaClassPair_body ln lk)
             (fun s => NoDup (Dict.keys (snd s)))); [|exact Nc].
    intros [rn rc] [k c] s' _ Hs Hp. unfold feaClassPair_body in Hp.
    apply bind_Ok in Hp. destruct Hp as (rk & _ & Hp). simpl in Hs.
    destruct (Dict.get (lk, rk) k); inversion Hp; subst; simpl;
      [apply NoDup_keys_set|]; exact Hs. }
  rewrite fold_feaLeftGlyph in Hb. inversion Hb; subst w'; clear Hb.
  unfold fea_stage_frame. simpl. repeat split; try assumption.
  apply (NoDup_keys_fold_set (fun hit : kernKey * Z => (ln, snd (fst hit)))
                             (fun hit => snd hit)). exact Nl.
Qed.

Lemma feaRight_body_frame cls w0 w w' :
  fea_stage_frame w0 w -> feaRight_body cls w = Ok w' -> fea_stage_frame w0 w'.
Proof.
  destruct cls as [rn rc]. intros (A & B & C & D & E & F & Nl & Nr & Nc) Hb.
  unfold feaRight_body in Hb. apply bind_Ok in Hb. destruct Hb as (rk & _ & Hb).
  rewrite fold_feaRightGlyph in Hb. inversion Hb; subst w'; clear Hb.
  unfold fea_stage_frame. simpl. repeat split; try assumption.
  apply (NoDup_keys_fold_set (fun hit : kernKey * Z => (fst (fst hit), rn))
                             (fun hit => snd hit)). exact Nr.
Qed.

Lemma _collectFeaClassKerning_frame w w' :
  NoDup (Dict.keys (leftClassKerning w)) ->
  NoDup (Dict.keys (rightClassKerning w)) ->
  NoDup (Dict.keys (classPairKerning w)) ->
  _collectFeaClassKerning w = Ok w' -> fea_stage_frame w w'.
Proof.
  intros Nl Nr Nc E. unfold _collectFeaClassKerning in E.
  apply bind_Ok in E. destruct E as (w1 & E1 & E2).
  assert (F1 : fea_stage_frame w w1).
  { revert E1. apply (@forM_invariant _ _ feaLeft_body (fea_stage_frame w)).
    - intros cls s s' _ Hs Hb. eapply feaLeft_body_frame; eauto.
    - unfold fea_stage_frame. repeat split; assumption. }
  revert E2. apply (@forM_invariant _ _ feaRight_body (fea_stage_frame w));
    [|exact F1].
  intros cls s s' _ Hs Hb. eapply feaRight_body_frame; eauto.
Qed.

Lemma In_pair_keys {K V : Type} (k : K) (v : V) (d : list (K * V)) :
  In (k, v) d -> In k (Dict.keys d).
Proof. intros I. apply (in_map fst) in I. exact I. Qed.

Lemma In_keys_entry {K V : Type} (k : K) (d : list (K * V)) :
  In k (Dict.keys d) -> exists v, In (k, v) d.
Proof.
  intros I. apply in_map_iff in I. destruct I as ([k' v] & E & I).
  simpl in E. subst k'. eauto.
Qed.

Lemma ufoClass_fold_frame (gs : classes) : forall w,
  NoDup (Dict.keys (leftUfoClasses w)) -> NoDup (Dict.keys (rightUfoClasses w)) ->
  let w' := fold_left ufoClass_body gs w in
  NoDup (Dict.keys (leftUfoClasses w')) /\ NoDup (Dict.keys (rightUfoClasses w')) /\
  leftFeaClasses w' = leftFeaClasses w /\ rightFeaClasses w' = rightFeaClasses w /\
  kerning w' = kerning w /\
  glyphPairKerning w' = glyphPairKerning w /\
  leftClassKerning w' = leftClassKerning w /\
  rightClassKerning w' = rightClassKerning w /\
  classPairKerning w' = classPairKerning w.
Proof.
  induction gs as [|[n c] gs IH]; intros w Nl Nr; cbn [fold_left]; cbv zeta;
    [repeat split; assumption|].
  assert (S : NoDup (Dict.keys (leftUfoClasses (ufoClass_body w (n, c)))) /\
              NoDup (Dict.keys (rightUfoClasses (ufoClass_body w (n, c)))) /\
              leftFeaClasses (ufoClass_body w (n, c)) = leftFeaClasses w /\
              rightFeaClasses (ufoClass_body w (n, c)) = rightFeaClasses w /\
              kerning (ufoClass_body w (n, c)) = kerning w /\
              glyphPairKerning (ufoClass_body w (n, c)) = glyphPairKerning w /\
              leftClassKerning (ufoClass_body w (n, c)) = leftClassKerning w /\
              rightClassKerning (ufoClass_body w (n, c)) = rightClassKerning w /\
              classPairKerning (ufoClass_body w (n, c)) = classPairKerning w).
  { unfold ufoClass_body.
    destruct (_isClassName leftUfoGroupRe n), (_isClassName rightUfoGroupRe n);
      simpl; repeat split; try assumption; apply NoDup_keys_set; assumption. }
  destruct S as (A & B & C & D & E & F & G & H & I).
  destruct (IH (ufoClass_body w (n, c)) A B)
    as (A' & B' & C' & D' & E' & F' & G' & H' & I').
  repeat split; try assumption; congruence.
Qed.

Lemma ufoKerning_body_resolvable w entry :
  buckets_resolvable w -> buckets_resolvable (ufoKerning_body w entry).
Proof.
  destruct entry as [[l r] v]. intros (Nl & Nr & Nc & Hl & Hr & Hc).
  unfold ufoKerning_body.
  destruct (Dict.mem l (leftUfoClasses w)) eqn:Ml,
           (Dict.mem r (rightUfoClasses w)) eqn:Mr;
    unfold buckets_resolvable; simpl;
    repeat match goal with |- _ /\ _ => split end;
    try assumption; try (apply NoDup_keys_set; assumption);
    intros k I; apply In_keys_set in I; destruct I as [->|I]; auto;
    cbn [fst snd]; try split;
    apply keys_update_intro; right; apply mem_keys; assumption.
Qed.

Lemma _collectUfoKerning_resolvable w :
  buckets_resolvable w -> buckets_resolvable (_collectUfoKerning w).
Proof.
  unfold _collectUfoKerning. generalize (sorted_by pair_leb (kerning w)) as l.
  intros l. revert w. induction l as [|e l IH]; intros w H; simpl; [exact H|].
  apply IH. apply ufoKerning_body_resolvable. exact H.
Qed.

(** when the registry of [write] is complete, every rule that
    [_collectUfoKerning] and [_collectFeaClassKerning] have put into a
    class bucket names classes of the registry *)
Lemma registry_resolvable parse font w :
  registry parse (init font) = Ok w ->
  buckets_resolvable (_collectUfoKerning w).
Proof.
  intros E. unfold registry in E.
  apply bind_Ok in E. destruct E as (w1 & E1 & E).
  apply bind_Ok in E. destruct E as (w2 & E2 & E4).
  assert (F1 : leftUfoClasses w1 = [] /\ rightUfoClasses w1 = [] /\
               leftClassKerning w1 = [] /\ rightClassKerning w1 = [] /\
               classPairKerning w1 = []).
  { unfold _collectFeaClasses in E1. apply bind_Ok in E1.
    destruct E1 as (defs & _ & E1). inversion E1; subst w1.
    destruct (classDefinition_fold_frame defs (init font))
      as (_ & _ & A & B & _ & C & D & E). auto. }
  destruct F1 as (Ul & Ur & Bl & Br & Bc).
  destruct (@_collectFeaClassKerning_frame w1 w2)
    as (_ & Fl & Fr & Gl & Gr & _ & Nl & Nr & Nc);
    [rewrite Bl; constructor | rewrite Br; constructor | rewrite Bc; constructor
    | exact E2 |].
  destruct (@_collectFeaClassKerning_from _ _ E2) as (_ & Pl & Pr & Pc).
  destruct (ufoClass_fold_frame (groups w2) w2)
    as (NUl & NUr & Fl3 & Fr3 & _ & _ & Bl3 & Br3 & Bc3);
    [rewrite Gl, Ul; constructor | rewrite Gr, Ur; constructor |].
  fold (_collectUfoClasses w2) in *.
  destruct (_correctUfoClassNames_renames (_collectUfoClasses w2) NUl NUr)
    as (w4 & d1 & k1 & E4' & _ & _ & F4).
  assert (w4 = w) by congruence. subst w4.
  apply _collectUfoKerning_resolvable.
  assert (Fl4 : leftFeaClasses w = leftFeaClasses w1)
    by (rewrite F4; simpl; congruence).
  assert (Fr4 : rightFeaClasses w = rightFeaClasses w1)
    by (rewrite F4; simpl; congruence).
  assert (Bl4 : leftClassKerning w = leftClassKerning w2)
    by (rewrite F4; simpl; congruence).
  assert (Br4 : rightClassKerning w = rightClassKerning w2)
    by (rewrite F4; simpl; congruence).
  assert (Bc4 : classPairKerning w = classPairKerning w2)
    by (rewrite F4; simpl; congruence).
  unfold buckets_resolvable. rewrite Fl4, Fr4, Bl4, Br4, Bc4.
  repeat match goal with |- _ /\ _ => split end; try assumption.
  - intros [ln r] I. apply In_keys_entry in I. destruct I as [v I].
    apply Pl in I. rewrite Bl in I. destruct I as [[]|(key & rest & I & _)].
    apply keys_update_intro. left. eapply In_pair_keys. exact I.
  - intros [l rn] I. apply In_keys_entry in I. destruct I as [v I].
    apply Pr in I. rewrite Br in I. destruct I as [[]|(key & rest & I & _)].
    apply keys_update_intro. left. eapply In_pair_keys. exact I.
  - intros [ln rn] I. apply In_keys_entry in I. destruct I as [v I].
    apply Pc in I. rewrite Bc in I.
    destruct I as [[]|(lk & lrest & rk & rrest & I1 & I2 & _)].
    split; apply keys_update_intro; left; eapply In_pair_keys; eassumption.
Qed.

(** X6. When the collection stages of [write] have returned,
    [_removeConflictingKerningRules] returns as well: it raises no
    [KeyError], because every class that a rule of the three class buckets
    names is in [leftClasses] or [rightClasses], and every rule that it
    deletes is in its bucket. *)
Theorem conflict_resolution_finds_its_classes
  (parse : string -> result (list (string * list string)))
  (font : Font) (w : Writer) :
  registry parse (init font) = Ok w ->
  buckets_resolvable (_collectUfoKerning w) /\
  exists w', _removeConflictingKerningRules (_collectUfoKerning w) = Ok w' /\
             collect parse (init font) = Ok w'.
Proof.
  intros E. pose proof (registry_resolvable _ _ E) as H. split; [exact H|].
  destruct (_removeConflictingKerningRules_Ok H) as [w' E'].
  exists w'. split; [exact E'|]. unfold collect. rewrite E. exact E'.
Qed.

Lemma conflict_resolution_finds_its_classes_witness :
  exists w', collect parse_fea (init font_fea) = Ok w'.
Proof.
  assert (E : exists w, registry parse_fea (init font_fea) = Ok w)
    by (eexists; vm_compute; reflexivity).
  destruct E as [w E].
  destruct (conflict_resolution_finds_its_classes _ _ E) as (_ & w' & _ & Ec).
  exists w'. exact Ec.
Defined.

(** ** Glyph pairs come first *)

Lemma keepLeft_kept r v (lG : list string) : forall nl seen,
  exists kept,
    fst (fold_left (keepLeft_body r v) lG (nl, seen)) = nl ++ kept /\
    incl kept lG /\
    (forall g, In g kept -> Dict.mem (g, r) seen = false) /\
    (forall p, Dict.mem p seen = true ->
               Dict.mem p (snd (fold_left (keepLeft_body r v) lG (nl, seen))) = true).
Proof.
  induction lG as [|g l IH]; intros nl seen; cbn [fold_left].
  - exists []. rewrite app_nil_r. repeat split; auto using incl_refl.
    intros g [].
  - rewrite keepLeft_step. destruct (Dict.mem (g, r) seen) eqn:M; cbn [negb].
    + destruct (IH nl seen) as (kept & E & Hi & Hm & Hs).
      exists kept. repeat split; auto using incl_tl.
    + destruct (IH (nl ++ [g]) (Dict.set (g, r) v seen)) as (kept & E & Hi & Hm & Hs).
      exists (g :: kept). rewrite E, <- app_assoc. split; [reflexivity|].
      split; [intros x [<-|I]; [left; reflexivity | right; auto]|]. split.
      * intros x [<-|I]; [exact M|]. specialize (Hm x I). rewrite mem_set in Hm.
        destruct (eq_dec (x, r) (g, r)); [discriminate | exact Hm].
      * intros p Hp. apply Hs. rewrite mem_set, Hp.
        destruct (eq_dec p (g, r)); reflexivity.
Qed.

Lemma keepRight_kept l v (rG : list string) : forall nr seen,
  exists kept,
    fst (fold_left (keepRight_body l v) rG (nr, seen)) = nr ++ kept /\
    incl kept rG /\
    (forall g, In g kept -> Dict.mem (l, g) seen = false) /\
    (forall p, Dict.mem p seen = true ->
               Dict.mem p (snd (fold_left (keepRight_body l v) rG (nr, seen))) = true).
Proof.
  induction rG as [|g rG IH]; intros nr seen; cbn [fold_left].
  - exists []. rewrite app_nil_r. repeat split; auto using incl_refl.
    intros g [].
  - rewrite keepRight_step. destruct (Dict.mem (l, g) seen) eqn:M; cbn [negb].
    + destruct (IH nr seen) as (kept & E & Hi & Hm & Hs).
      exists kept. repeat split; auto using incl_tl.
    + destruct (IH (nr ++ [g]) (Dict.set (l, g) v seen)) as (kept & E & Hi & Hm & Hs).
      exists (g :: kept). rewrite E, <- app_assoc. split; [reflexivity|].
      split; [intros x [<-|I]; [left; reflexivity | right; auto]|]. split.
      * intros x [<-|I]; [exact M|]. specialize (Hm x I). rewrite mem_set in Hm.
        destruct (eq_dec (l, x) (l, g)); [discriminate | exact Hm].
      * intros p Hp. apply Hs. rewrite mem_set, Hp.
        destruct (eq_dec p (l, g)); reflexivity.
Qed.

Lemma mem_false_get {K V : Type} `{EqDec K} (k : K) (d : Dict.t K V) :
  Dict.mem k d = false <-> Dict.get k d = None.
Proof. unfold Dict.mem. destruct (Dict.get k d); split; congruence. Qed.

Lemma not_In_remove {K V : Type} `{EqDec K} (k : K) (v : V) (d : Dict.t K V) :
  NoDup (Dict.keys d) -> ~ In (k, v) (Dict.remove k d).
Proof.
  intros ND I. apply In_pair_keys in I.
  assert (G : Dict.get k (Dict.remove k d) = None).
  { rewrite get_remove by exact ND. destruct (eq_dec k k); congruence. }
  apply get_None_keys in G. contradiction.
Qed.

Lemma conflictLeft_loop_kept cls (gp lck0 : rules) (todo : rules) :
  forall seen (cur : rules) s',
  NoDup (Dict.keys cur) -> incl todo lck0 ->
  (forall p, Dict.mem p gp = true -> Dict.mem p seen = true) ->
  (forall side r v, In ((side, r), v) cur ->
     In ((side, r), v) todo \/
     exists lClass, In ((lClass, r), v) lck0 /\
                    kept_from cls gp (fun g => (g, r)) lClass side) ->
  forM (conflictLeft_body cls) todo (seen, cur) = Ok s' ->
  (forall p, Dict.mem p gp = true -> Dict.mem p (fst s') = true) /\
  forall side r v, In ((side, r), v) (snd s') ->
    exists lClass, In ((lClass, r), v) lck0 /\
                   kept_from cls gp (fun g => (g, r)) lClass side.
Proof.
  induction todo as [|[[c r] v] todo IH]; intros seen cur s' ND Hin Hseen Hcur E;
    cbn [forM] in E.
  - inversion E; subst s'. cbn [fst snd]. split; [exact Hseen|].
    intros side r v I. destruct (Hcur side r v I) as [[]|G]. exact G.
  - apply bind_Ok in E. destruct E as ([seen1 cur1] & Eb & E).
    rewrite conflictLeft_body_shape in Eb.
    destruct (Dict.get c cls) as [lG|] eqn:Gc; [|discriminate]. cbv zeta in Eb.
    destruct (keepLeft_kept r v lG [] seen) as (kept & Ek & Hi & Hm & Hs).
    cbn [app] in Ek.
    assert (Hgp : forall g, In g kept -> Dict.get (g, r) gp = None).
    { intros g Ig. apply mem_false_get.
      destruct (Dict.mem (g, r) gp) eqn:M; [|reflexivity].
      apply Hseen in M. rewrite (Hm g Ig) in M. discriminate. }
    assert (Hhead : In ((c, r), v) lck0) by (apply Hin; left; reflexivity).
    assert (Htl : incl todo lck0) by (intros x Ix; apply Hin; right; exact Ix).
    rewrite Ek in Eb. change ([] ++ kept) with kept in Eb. unfold eqb_of in Eb.
    destruct (eq_dec kept lG) as [Ekept|Hne].
    + cbv beta iota in Eb. injection Eb as <- <-.
      refine (IH _ _ s' ND Htl (fun p Hp => Hs p (Hseen p Hp)) _ E).
      intros side r' v' I. destruct (Hcur side r' v' I) as [[Ih|It]|G]; auto.
      inversion Ih; subst side r' v'. right. exists c. split; [exact Hhead|].
      exists lG, kept. split; [exact Gc|]. split; [exact Hi|].
      split; [left; auto | exact Hgp].
    + cbv beta iota in Eb.
      destruct (Dict.mem (c, r) (Dict.set (_liststr kept, r) v cur)); [|discriminate].
      injection Eb as <- <-.
      refine (IH _ _ s' _ Htl (fun p Hp => Hs p (Hseen p Hp)) _ E).
      * apply NoDup_keys_remove, NoDup_keys_set, ND.
      * intros side r' v' I.
        destruct (eq_dec (side, r') (c, r)) as [Eq|Hk].
        { inversion Eq; subst side r'. exfalso.
          apply not_In_remove in I; [exact I|]. apply NoDup_keys_set, ND. }
        apply In_remove, In_set in I. destruct I as [I|I].
        { inversion I; subst side r' v'. right. exists c. split; [exact Hhead|].
          exists lG, kept. split; [exact Gc|]. split; [exact Hi|].
          split; [right; reflexivity | exact Hgp]. }
        destruct (Hcur side r' v' I) as [[Ih|It]|G]; auto.
        inversion Ih; subst. congruence.
Qed.

Lemma conflictRight_loop_kept cls (gp rck0 : rules) (todo : rules) :
  forall seen (cur : rules) s',
  NoDup (Dict.keys cur) -> incl todo rck0 ->
  (forall p, Dict.mem p gp = true -> Dict.mem p seen = true) ->
  (forall l side v, In ((l, side), v) cur ->
     In ((l, side), v) todo \/
     exists rClass, In ((l, rClass), v) rck0 /\
                    kept_from cls gp (fun g => (l, g)) rClass side) ->
  forM (conflictRight_body cls) todo (seen, cur) = Ok s' ->
  (forall p, Dict.mem p gp = true -> Dict.mem p (fst s') = true) /\
  forall l side v, In ((l, side), v) (snd s') ->
    exists rClass, In ((l, rClass), v) rck0 /\
                   kept_from cls gp (fun g => (l, g)) rClass side.
Proof.
  induction todo as [|[[l c] v] todo IH]; intros seen cur s' ND Hin Hseen Hcur E;
    cbn [forM] in E.
  - inversion E; subst s'. cbn [fst snd]. split; [exact Hseen|].
    intros l side v I. destruct (Hcur l side v I) as [[]|G]. exact G.
  - apply bind_Ok in E. destruct E as ([seen1 cur1] & Eb & E).
    rewrite conflictRight_body_shape in Eb.
    destruct (Dict.get c cls) as [rG|] eqn:Gc; [|discriminate]. cbv zeta in Eb.
    destruct (keepRight_kept l v rG [] seen) as (kept & Ek & Hi & Hm & Hs).
    cbn [app] in Ek.
    assert (Hgp : forall g, In g kept -> Dict.get (l, g) gp = None).
    { intros g Ig. apply mem_false_get.
      destruct (Dict.mem (l, g) gp) eqn:M; [|reflexivity].
      apply Hseen in M. rewrite (Hm g Ig) in M. discriminate. }
    assert (Hhead : In ((l, c), v) rck0) by (apply Hin; left; reflexivity).
    assert (Htl : incl todo rck0) by (intros x Ix; apply Hin; right; exact Ix).
    rewrite Ek in Eb. change ([] ++ kept) with kept in Eb. unfold eqb_of in Eb.
    destruct (eq_dec kept rG) as [Ekept|Hne].
    + cbv beta iota in Eb. injection Eb as <- <-.
      refine (IH _ _ s' ND Htl (fun p Hp => Hs p (Hseen p Hp)) _ E).
      intros l' side v' I. destruct (Hcur l' side v' I) as [[Ih|It]|G]; auto.
      inversion Ih; subst side l' v'. right. exists c. split; [exact Hhead|].
      exists rG, kept. split; [exact Gc|]. split; [exact Hi|].
      split; [left; auto | exact Hgp].
    + cbv beta iota in Eb.
      destruct (Dict.mem (l, c) (Dict.set (l, _liststr kept) v cur)); [|discriminate].
      injection Eb as <- <-.
      refine (IH _ _ s' _ Htl (fun p Hp => Hs p (Hseen p Hp)) _ E).
      * apply NoDup_keys_remove, NoDup_keys_set, ND.
      * intros l' side v' I.
        destruct (eq_dec (l', side) (l, c)) as [Eq|Hk].
        { inversion Eq; subst side l'. exfalso.
          apply not_In_remove in I; [exact I|]. apply NoDup_keys_set, ND. }
        apply In_remove, In_set in I. destruct I as [I|I].
        { inversion I; subst side l' v'. right. exists c. split; [exact Hhead|].
          exists rG, kept. split; [exact Gc|]. split; [exact Hi|].
          split; [right; reflexivity | exact Hgp]. }
        destruct (Hcur l' side v' I) as [[Ih|It]|G]; auto.
        inversion Ih; subst. congruence.
Qed.

(** X7. Glyph pair rules come before the rules of a class and a glyph:
    after [_removeConflictingKerningRules], every rule of the left class
    bucket comes from a rule of that bucket with the same right glyph and
    value, and its left side is the class when all members are kept, else
    the list of the members kept; no member kept makes with the right glyph
    a pair that has a glyph pair rule.  The same holds, with the sides
    exchanged, for the right class bucket. *)
Theorem glyph_pairs_win_over_class_rules (w w' : Writer) :
  NoDup (Dict.keys (leftClassKerning w)) ->
  NoDup (Dict.keys (rightClassKerning w)) ->
  _removeConflictingKerningRules w = Ok w' ->
  let leftClasses := Dict.update (leftFeaClasses w) (leftUfoClasses w) in
  let rightClasses := Dict.update (rightFeaClasses w) (rightUfoClasses w) in
  (forall side r v, In ((side, r), v) (leftClassKerning w') ->
     exists lClass,
       In ((lClass, r), v) (leftClassKerning w) /\
       kept_from leftClasses (glyphPairKerning w) (fun g => (g, r)) lClass side) /\
  (forall l side v, In ((l, side), v) (rightClassKerning w') ->
     exists rClass,
       In ((l, rClass), v) (rightClassKerning w) /\
       kept_from rightClasses (glyphPairKerning w) (fun g => (l, g)) rClass side).
Proof.
  intros Nl Nr E leftClasses rightClasses.
  unfold _removeConflictingKerningRules in E. fold leftClasses rightClasses in E.
  apply bind_Ok in E. destruct E as ([seen1 lck] & E1 & E).
  apply bind_Ok in E. destruct E as ([seen2 rck] & E2 & E).
  apply bind_Ok in E. destruct E as ([seen3 cpk] & E3 & E).
  inversion E; subst w'; clear E. simpl.
  apply (@conflictLeft_loop_kept leftClasses (glyphPairKerning w) (leftClassKerning w))
    in E1; [|exact Nl | apply incl_refl | auto | auto].
  destruct E1 as [Hs1 G1]. cbn [fst snd] in Hs1, G1.
  apply (@conflictRight_loop_kept rightClasses (glyphPairKerning w) (rightClassKerning w))
    in E2; [|exact Nr | apply incl_refl | exact Hs1 | auto].
  destruct E2 as [_ G2]. cbn [snd] in G2.
  split; assumption.
Qed.

Lemma glyph_pairs_win_over_class_rules_witness :
  exists w3 w',
    registry parse_no_classes (init font_leftconflict) = Ok w3 /\
    _removeConflictingKerningRules (_collectUfoKerning w3) = Ok w' /\
    leftClassKerning w' = [(("[D]", "B"), (-20)%Z)] /\
    exists lClass,
      In ((lClass, "B"), (-20)%Z) (leftClassKerning (_collectUfoKerning w3)) /\
      kept_from (Dict.update (leftFeaClasses (_collectUfoKerning w3))
                             (leftUfoClasses (_collectUfoKerning w3)))
                (glyphPairKerning (_collectUfoKerning w3))
                (fun g => (g, "B")) lClass "[D]".
Proof.
  eexists. eexists. split; [vm_compute; reflexivity|].
  match goal with |- ?E /\ _ => assert (H : E) by (vm_compute; reflexivity) end.
  split; [exact H|]. split; [reflexivity|].
  refine (proj1 (@glyph_pairs_win_over_class_rules _ _ _ _ H) "[D]" "B" (-20)%Z _).
  - simpl. repeat constructor; simpl; intuition discriminate.
  - simpl. constructor.
  - simpl. left. reflexivity.
Defined.

(** ** The names of the registry *)

Lemma classDefinition_fold_names (defs : list (string * list string)) : forall w,
  (NoDup (Dict.keys (leftFeaClasses w)) /\ NoDup (Dict.keys (rightFeaClasses w)) /\
   (forall n, In n (Dict.keys (leftFeaClasses w)) ->
              _isClassName leftFeaClassRe n = true) /\
   (forall n, In n (Dict.keys (rightFeaClasses w)) ->
              _isClassName leftFeaClassRe n = false)) ->
  let w' := fold_left (fun w d => classDefinition (fst d) (snd d) w) defs w in
  NoDup (Dict.keys (leftFeaClasses w')) /\ NoDup (Dict.keys (rightFeaClasses w')) /\
  (forall n, In n (Dict.keys (leftFeaClasses w')) ->
             _isClassName leftFeaClassRe n = true) /\
  (forall n, In n (Dict.keys (rightFeaClasses w')) ->
             _isClassName leftFeaClassRe n = false).
Proof.
  induction defs as [|[n c] defs IH]; intros w H; cbn [fold_left]; cbv zeta;
    [exact H|].
  apply IH. destruct H as (Nl & Nr & Hl & Hr). unfold classDefinition. cbn [fst snd].
  destruct (_isClassName leftFeaClassRe n) eqn:El; simpl.
  - repeat split; try assumption; [apply NoDup_keys_set, Nl|].
    intros x I. apply In_keys_set in I. destruct I as [->|I]; auto.
  - destruct (_isClassName rightFeaClassRe n); simpl; repeat split; try assumption;
      [apply NoDup_keys_set, Nr|].
    intros x I. apply In_keys_set in I. destruct I as [->|I]; auto.
Qed.

Lemma NoDup_app_intro {A : Type} (l1 l2 : list A) :
  NoDup l1 -> NoDup l2 -> (forall x, In x l1 -> ~ In x l2) -> NoDup (l1 ++ l2).
Proof.
  intros N1 N2 Hd. induction l1 as [|a l1 IH]; simpl; [exact N2|].
  inversion N1; subst. constructor.
  - intros I. apply in_app_or in I. destruct I as [I|I]; [contradiction|].
    apply (Hd a); [left; reflexivity | exact I].
  - apply IH; [assumption|]. intros x I. apply Hd. right. exact I.
Qed.

(** the registry at the end of [_correctUfoClassNames], started from the
    registry that [_collectUfoClasses] leaves, has no name twice when the
    feature classes have none *)
Lemma _correctUfoClassNames_distinct w :
  NoDup (Dict.keys (leftFeaClasses w) ++ Dict.keys (rightFeaClasses w)) ->
  NoDup (Dict.keys (leftUfoClasses w)) -> NoDup (Dict.keys (rightUfoClasses w)) ->
  exists w', _correctUfoClassNames w = Ok w' /\ NoDup (existingClassNames w').
Proof.
  intros Nf Nl Nr.
  destruct (_correctUfoClassNames_renames w Nl Nr) as (w' & d1 & k1 & E & R1 & R2 & F).
  exists w'. split; [exact E|].
  assert (Fl : leftUfoClasses w' = d1) by (rewrite F; reflexivity).
  assert (Flf : leftFeaClasses w' = leftFeaClasses w) by (rewrite F; reflexivity).
  assert (Frf : rightFeaClasses w' = rightFeaClasses w) by (rewrite F; reflexivity).
  apply renames_classes in R1; [|exact Nl | exact Nl |
    intros n m I; apply In_get; [exact Nl | exact I]].
  apply renames_classes in R2; [|exact Nr | exact Nr |
    intros n m I; apply In_get; [exact Nr | exact I]].
  cbn [fst] in R1, R2. destruct R1 as (N1 & _ & K1). destruct R2 as (N2 & _ & K2).
  unfold existingClassNames. rewrite Fl, Flf, Frf.
  rewrite app_assoc. apply NoDup_app_intro; [exact Nf | |].
  - apply NoDup_app_intro; [exact N1 | exact N2 |].
    intros x I1 I2. destruct (K2 x I2) as [[A B]|[_ B]]; [contradiction|].
    apply B. rewrite !in_app_iff. auto.
  - intros x If I. apply in_app_or in I. destruct I as [I|I].
    + destruct (K1 x I) as [[A B]|[_ B]]; [contradiction|].
      apply B. apply in_app_or in If. rewrite !in_app_iff. tauto.
    + destruct (K2 x I) as [[A B]|[_ B]]; [contradiction|].
      apply B. apply in_app_or in If. rewrite !in_app_iff. tauto.
Qed.

(** X8. When the class registry of [write] is complete, no class name is
    there twice: the names of the left and right feature classes and the
    names made for the left and right groups are all different, so that no
    two classes share a declaration or a rule. *)
Theorem registry_names_distinct
  (parse : string -> result (list (string * list string)))
  (font : Font) (w' : Writer) :
  registry parse (init font) = Ok w' -> NoDup (existingClassNames w').
Proof.
  intros E. unfold registry in E.
  apply bind_Ok in E. destruct E as (w1 & E1 & E).
  apply bind_Ok in E. destruct E as (w2 & E2 & E).
  unfold _collectFeaClasses in E1. apply bind_Ok in E1.
  destruct E1 as (defs & _ & E1). inversion E1 as [Ew1]; clear E1.
  destruct (classDefinition_fold_frame defs (init font))
    as (_ & _ & Ul & Ur & _ & Bl & Br & Bc).
  destruct (classDefinition_fold_names defs (init font))
    as (Nlf & Nrf & Hlf & Hrf).
  { simpl. repeat split; try constructor; intros n []. }
  rewrite Ew1 in *. simpl in Ul, Ur, Bl, Br, Bc.
  destruct (@_collectFeaClassKerning_frame w1 w2)
    as (_ & Fl & Fr & Gl & Gr & _);
    [rewrite Bl; constructor | rewrite Br; constructor | rewrite Bc; constructor
    | exact E2 |].
  destruct (ufoClass_fold_frame (groups w2) w2)
    as (NUl & NUr & Fl3 & Fr3 & _);
    [rewrite Gl, Ul; constructor | rewrite Gr, Ur; constructor |].
  fold (_collectUfoClasses w2) in *.
  destruct (_correctUfoClassNames_distinct (_collectUfoClasses w2))
    as (w4 & E4 & N4); [|exact NUl | exact NUr |].
  - rewrite Fl3, Fr3, Fl, Fr. apply NoDup_app_intro; [exact Nlf | exact Nrf |].
    intros x Il Ir. apply Hlf in Il. apply Hrf in Ir. congruence.
  - rewrite E4 in E. inversion E; subst w4. exact N4.
Qed.

Lemma registry_names_distinct_witness :
  exists w',
    registry parse_no_classes (init font_collide) = Ok w' /\
    existingClassNames w' = ["@public.kern1.ab"; "@public.kern1.ab_1"] /\
    NoDup (existingClassNames w').
Proof.
  eexists.
  match goal with |- ?E /\ _ => assert (H : E) by (vm_compute; reflexivity) end.
  split; [exact H|]. split; [reflexivity|].
  exact (@registry_names_distinct _ _ _ H).
Defined.

(** ** A font without kerning classes *)

Lemma fold_set_fresh {K V : Type} `{EqDec K} (l : list (K * V)) :
  forall d : Dict.t K V,
  NoDup (Dict.keys (d ++ l)) ->
  fold_left (fun d e => Dict.set (fst e) (snd e) d) l d = d ++ l.
Proof.
  induction l as [|[k v] l IH]; intros d ND; simpl; [rewrite app_nil_r; reflexivity|].
  assert (Hk : ~ In k (Dict.keys d)).
  { rewrite keys_app in ND. simpl in ND. apply NoDup_remove_2 in ND.
    intros I. apply ND. apply in_or_app. auto. }
  rewrite set_absent by exact Hk. rewrite IH; rewrite <- app_assoc; [reflexivity|].
  exact ND.
Qed.

Lemma classDefinition_fold_none (defs : list (string * list string)) w :
  (forall d, In d defs -> _isClassName leftFeaClassRe (fst d) = false /\
                          _isClassName rightFeaClassRe (fst d) = false) ->
  fold_left (fun w d => classDefinition (fst d) (snd d) w) defs w = w.
Proof.
  induction defs as [|d defs IH]; intros H; simpl; [reflexivity|].
  unfold classDefinition at 2. destruct (H d (or_introl eq_refl)) as [-> ->].
  apply IH. intros d' I. apply H. right. exact I.
Qed.

Lemma ufoClass_fold_none (gs : classes) w :
  (forall n, In n (Dict.keys gs) -> _isClassName leftUfoGroupRe n = false /\
                                    _isClassName rightUfoGroupRe n = false) ->
  fold_left ufoClass_body gs w = w.
Proof.
  induction gs as [|[n c] gs IH]; intros H; simpl; [reflexivity|].
  destruct (H n (or_introl eq_refl)) as [-> ->].
  apply IH. intros n' I. apply H. right. exact I.
Qed.

Lemma ufoKerning_fold_flat (l : rules) : forall w,
  leftUfoClasses w = [] -> rightUfoClasses w = [] ->
  fold_left ufoKerning_body l w =
  with_glyphPairKerning
    (fold_left (fun d e => Dict.set (fst e) (snd e) d) l (glyphPairKerning w)) w.
Proof.
  induction l as [|[[a b] v] l IH]; intros w El Er; simpl.
  - destruct w; reflexivity.
  - rewrite El, Er. simpl. rewrite IH by (simpl; assumption). reflexivity.
Qed.

(** X9. A font none of whose groups is a kerning group, and in whose
    feature text the parser finds no kerning class, gets the flat feature:
    nothing for an empty kerning table, else an empty line, the opening of
    the feature, one [pos] line for every entry of the kerning table in the
    order of the keys, and the closing line. *)
Theorem write_without_classes
  (parse : string -> result (list (string * list string)))
  (font : Font) (defs : list (string * list string)) (linesep : string) :
  parse (featxt (init font)) = Ok defs ->
  (forall d, In d defs -> _isClassName leftFeaClassRe (fst d) = false /\
                          _isClassName rightFeaClassRe (fst d) = false) ->
  (forall n, In n (Dict.keys (font_groups font)) ->
             _isClassName leftUfoGroupRe n = false /\
             _isClassName rightUfoGroupRe n = false) ->
  NoDup (Dict.keys (font_kerning font)) ->
  write parse (init font) linesep =
  Ok (match font_kerning font with
      | [] => ""
      | _ => join linesep
               ("" :: "feature kern {" ::
                map (kernLine "") (sorted_by pair_leb (font_kerning font)) ++
                ["} kern;"])
      end).
Proof.
  intros Hp Hd Hg ND.
  assert (Ec : collect parse (init font) =
               Ok (with_glyphPairKerning (sorted_by pair_leb (font_kerning font))
                                         (init font))).
  { unfold collect, registry, _collectFeaClasses. rewrite Hp. cbn [bind].
    rewrite classDefinition_fold_none by exact Hd.
    change (_collectFeaClassKerning (init font)) with (Ok (init font)). cbn [bind].
    unfold _collectUfoClasses. rewrite ufoClass_fold_none by exact Hg.
    change (_correctUfoClassNames (init font)) with (Ok (init font)). cbn [bind].
    unfold _collectUfoKerning. rewrite ufoKerning_fold_flat by reflexivity.
    change (glyphPairKerning (init font)) with (@nil (kernKey * Z)).
    change (kerning (init font)) with (font_kerning font).
    rewrite fold_set_fresh.
    - reflexivity.
    - simpl. eapply Permutation_NoDup; [|exact ND].
      apply Permutation_map. symmetry. apply sorted_by_perm. }
  unfold write. rewrite Ec. cbn [bind]. simpl existsb.
  rewrite !orb_false_r.
  destruct (font_kerning font) as [|e k] eqn:Ek; [reflexivity|].
  assert (Hne : Dict.nonempty (sorted_by pair_leb (e :: k)) = true).
  { destruct (sorted_by pair_leb (e :: k)) eqn:Es; [|reflexivity].
    apply sorted_by_nil_iff in Es. discriminate. }
  rewrite Hne. cbn [negb]. f_equal. rewrite emit_layout.
  cbn [leftUfoClasses rightUfoClasses glyphPairKerning leftClassKerning
       rightClassKerning classPairKerning with_glyphPairKerning init].
  rewrite (@sorted_by_order_free _ _ pair_leb pair_leb_total pair_leb_trans
             pair_leb_antisym (sorted_by pair_leb (e :: k)) (e :: k)).
  - reflexivity.
  - eapply Permutation_NoDup; [|exact ND].
    apply Permutation_map. symmetry. apply sorted_by_perm.
  - apply sorted_by_perm.
Qed.

Lemma write_without_classes_witness :
  write parse_other (init font_flat) LF =
  Ok (join LF [""; "feature kern {"; "    pos A V -80;"; "    pos T o -30;";
               "} kern;"]).
Proof.
  refine (@write_without_classes parse_other font_flat
            [("@lowercase", ["a"; "o"])] LF eq_refl _ _ _).
  - intros d [<-|[]]. split; reflexivity.
  - intros n [<-|[]]. split; reflexivity.
  - simpl. repeat constructor; simpl; intuition discriminate.
Defined.

(** ** No value is invented *)

Lemma values_from_rekey_fold kern0 index newName (hits : list (kernKey * Z)) :
  forall kern : rules,
  values_from kern0 hits -> values_from kern0 kern ->
  values_from kern0 (fold_left (fun k hit => rekey index newName hit k) hits kern).
Proof.
  induction hits as [|[p v] hits IH]; intros kern Hh Hk; cbn [fold_left];
    [exact Hk|].
  apply IH; [intros k' v' I; apply (Hh k' v'); right; exact I|].
  intros k' v' I. unfold rekey in I. cbn [fst snd] in I.
  apply In_remove, In_set in I. destruct I as [E|I]; [|eapply Hk; exact I].
  inversion E; subst. apply (Hh p v). left. reflexivity.
Qed.

Lemma values_from_renames kern0 index avoid todo s s' :
  renames index avoid todo s s' ->
  values_from kern0 (snd s) -> values_from kern0 (snd s').
Proof.
  induction 1 as [s|name members todo d kern m s' newName Hfresh Hmin Hr IH];
    intros H; [exact H|].
  apply IH. cbn [snd] in *. apply values_from_rekey_fold; [|exact H].
  intros k v I. apply _getGlyphKern_In in I. destruct I as [I _].
  eapply H. exact I.
Qed.

Lemma values_from_ufoKerning kern0 (l : rules) : forall w,
  values_from kern0 l ->
  (values_from kern0 (glyphPairKerning w) /\ values_from kern0 (leftClassKerning w) /\
   values_from kern0 (rightClassKerning w) /\ values_from kern0 (classPairKerning w)) ->
  let w' := fold_left ufoKerning_body l w in
  values_from kern0 (glyphPairKerning w') /\ values_from kern0 (leftClassKerning w') /\
  values_from kern0 (rightClassKerning w') /\ values_from kern0 (classPairKerning w').
Proof.
  induction l as [|[[a b] v] l IH]; intros w Hl Hw; cbn [fold_left]; cbv zeta;
    [exact Hw|].
  apply IH; [intros k' v' I; apply (Hl k' v'); right; exact I|].
  destruct Hw as (Hg & Hlc & Hrc & Hc).
  assert (Hv : exists k0, In (k0, v) kern0) by (apply (Hl (a, b) v); left; reflexivity).
  assert (Hset : forall d : rules, values_from kern0 d ->
                                   values_from kern0 (Dict.set (a, b) v d)).
  { intros d Hd k' v' I. apply In_set in I. destruct I as [E|I];
      [inversion E; subst; exact Hv | eapply Hd; exact I]. }
  unfold ufoKerning_body.
  destruct (Dict.mem a (leftUfoClasses w)), (Dict.mem b (rightUfoClasses w));
    simpl; repeat split; auto.
Qed.

Lemma values_from_rules_from kern0 (L R : string -> string -> Prop)
  (before after : rules) :
  values_from kern0 before -> rules_from L R before after ->
  values_from kern0 after.
Proof.
  intros Hb Hr k' v I. destruct (Hr k' v I) as (k & Ik & _). eapply Hb. exact Ik.
Qed.

(** X17. [write] invents no value: when the buckets are final, every
    rule of the four buckets, and so every rule line of the text, has a
    value that the kerning table of the font gives to some pair. *)
Theorem write_invents_no_value
  (parse : string -> result (list (string * list string)))
  (font : Font) (w' : Writer) :
  collect parse (init font) = Ok w' ->
  values_from (font_kerning font) (glyphPairKerning w') /\
  values_from (font_kerning font) (leftClassKerning w') /\
  values_from (font_kerning font) (rightClassKerning w') /\
  values_from (font_kerning font) (classPairKerning w').
Proof.
  intros E. unfold collect in E. apply bind_Ok in E. destruct E as (w4 & E & E6).
  unfold registry in E.
  apply bind_Ok in E. destruct E as (w1 & E1 & E).
  apply bind_Ok in E. destruct E as (w2 & E2 & E4).
  unfold _collectFeaClasses in E1. apply bind_Ok in E1.
  destruct E1 as (defs & _ & E1). inversion E1 as [Ew1]; clear E1.
  destruct (classDefinition_fold_frame defs (init font))
    as (Ek & _ & Ul & Ur & Bg & Bl & Br & Bc).
  rewrite Ew1 in *. simpl in Ek, Ul, Ur, Bg, Bl, Br, Bc.
  destruct (@_collectFeaClassKerning_frame w1 w2)
    as (_ & Fl & Fr & Gl & Gr & Gg & _);
    [rewrite Bl; constructor | rewrite Br; constructor | rewrite Bc; constructor
    | exact E2 |].
  destruct (@_collectFeaClassKerning_from _ _ E2) as (Pk & Pl & Pr & Pc).
  rewrite Ek, Bl, Br, Bc in *.
  set (kern0 := font_kerning font) in *.
  assert (V2 : values_from kern0 (kerning w2) /\
               values_from kern0 (glyphPairKerning w2) /\
               values_from kern0 (leftClassKerning w2) /\
               values_from kern0 (rightClassKerning w2) /\
               values_from kern0 (classPairKerning w2)).
  { split; [intros k v I; exists k; apply Pk, I|].
    split; [rewrite Gg, Bg; intros k v []|].
    split; [|split].
    - intros [ln r] v I. destruct (Pl ln r v I) as [[]|(key & rest & _ & Ik)]. eauto.
    - intros [l rn] v I. destruct (Pr l rn v I) as [[]|(key & rest & _ & Ik)]. eauto.
    - intros [ln rn] v I.
      destruct (Pc ln rn v I) as [[]|(lk & lr & rk & rr & _ & _ & Ik)]. eauto. }
  destruct V2 as (Vk & Vg & Vl & Vr & Vc).
  destruct (ufoClass_fold_frame (groups w2) w2)
    as (NUl & NUr & _ & _ & Ek3 & Bg3 & Bl3 & Br3 & Bc3);
    [rewrite Gl, Ul; constructor | rewrite Gr, Ur; constructor |].
  fold (_collectUfoClasses w2) in *.
  destruct (_correctUfoClassNames_renames (_collectUfoClasses w2) NUl NUr)
    as (w4' & d1 & k1 & E4' & R1 & R2 & F4).
  rewrite E4' in E4. inversion E4; subst w4'. clear E4.
  assert (Vk4 : values_from kern0 (kerning w4)).
  { apply (values_from_renames (kern0 := kern0)) in R1; [|cbn [snd]; rewrite Ek3; exact Vk].
    apply (values_from_renames (kern0 := kern0)) in R2; [exact R2 | exact R1]. }
  assert (B4 : glyphPairKerning w4 = glyphPairKerning w2 /\
               leftClassKerning w4 = leftClassKerning w2 /\
               rightClassKerning w4 = rightClassKerning w2 /\
               classPairKerning w4 = classPairKerning w2).
  { rewrite F4. simpl. auto. }
  destruct B4 as (Bg4 & Bl4 & Br4 & Bc4).
  destruct (@values_from_ufoKerning kern0 (sorted_by pair_leb (kerning w4)) w4)
    as (Wg & Wl & Wr & Wc).
  { intros k v I. apply sorted_by_In in I. eapply Vk4. exact I. }
  { rewrite Bg4, Bl4, Br4, Bc4. auto. }
  fold (_collectUfoKerning w4) in Wg, Wl, Wr, Wc.
  set (w5 := _collectUfoKerning w4) in *.
  unfold _removeConflictingKerningRules in E6.
  apply bind_Ok in E6. destruct E6 as ([seen1 lck] & L1 & E6).
  apply bind_Ok in E6. destruct E6 as ([seen2 rck] & L2 & E6).
  apply bind_Ok in E6. destruct E6 as ([seen3 cpk] & L3 & E6).
  inversion E6; subst w'; clear E6. simpl.
  split; [exact Wg|]. split; [|split].
  - eapply values_from_rules_from; [exact Wl|].
    apply (@forM_invariant _ _ (conflictLeft_body _)
             (fun s => rules_from (narrowed_side
                                     (Dict.update (leftFeaClasses w5) (leftUfoClasses w5)))
                                  eq (leftClassKerning w5) (snd s))
             (leftClassKerning w5)) in L1; [exact L1 | |].
    + intros rule s s' I Hs Hb. eapply conflictLeft_body_from; eauto.
    + apply rules_from_refl; auto.
  - eapply values_from_rules_from; [exact Wr|].
    apply (@forM_invariant _ _ (conflictRight_body _)
             (fun s => rules_from eq (narrowed_side
                                     (Dict.update (rightFeaClasses w5) (rightUfoClasses w5)))
                                  (rightClassKerning w5) (snd s))
             (rightClassKerning w5)) in L2; [exact L2 | |].
    + intros rule s s' I Hs Hb. eapply conflictRight_body_from; eauto.
    + apply rules_from_refl; auto.
  - eapply values_from_rules_from; [exact Wc|].
    apply (@forM_invariant _ _ (conflictPair_body _ _)
             (fun s => rules_from
                         (narrowed_side
                            (Dict.update (leftFeaClasses w5) (leftUfoClasses w5)))
                         (narrowed_side
                            (Dict.update (rightFeaClasses w5) (rightUfoClasses w5)))
                         (classPairKerning w5) (snd s))
             (classPairKerning w5)) in L3; [exact L3 | |].
    + intros rule s s' I Hs Hb. eapply conflictPair_body_from; eauto.
    + apply rules_from_refl; auto.
Qed.

Lemma write_invents_no_value_witness :
  exists w',
    collect parse_no_classes (init font_twoleft) = Ok w' /\
    leftClassKerning w' = [(("[B C]", "X"), (-30)%Z); (("[A C]", "Y"), (-40)%Z)] /\
    values_from (font_kerning font_twoleft) (leftClassKerning w').
Proof.
  eexists.
  match goal with |- ?E /\ _ => assert (H : E) by (vm_compute; reflexivity) end.
  split; [exact H|]. split; [reflexivity|].
  exact (proj1 (proj2 (@write_invents_no_value _ _ _ H))).
Defined.

(** ** The classes of the feature text *)

(** a name cannot begin with both class prefixes *)
Lemma left_class_not_right n :
  _isClassName leftFeaClassRe n = true -> _isClassName rightFeaClassRe n = false.
Proof.
  unfold _isClassName, re_match.
  destruct (strip_prefix leftFeaClassRe n) as [t|] eqn:E; [|discriminate].
  apply strip_prefix_Some in E. subst n. intros _. reflexivity.
Qed.

Lemma feaClasses_fold (n : string) (defs : list (string * list string)) :
  forall w,
  let w' := fold_left (fun w d => classDefinition (fst d) (snd d) w) defs w in
  Dict.get n (leftFeaClasses w') =
    match (if _isClassName leftFeaClassRe n
           then Dict.get n (List.rev defs) else None) with
    | Some c => Some c
    | None => Dict.get n (leftFeaClasses w)
    end /\
  Dict.get n (rightFeaClasses w') =
    match (if _isClassName rightFeaClassRe n
           then Dict.get n (List.rev defs) else None) with
    | Some c => Some c
    | None => Dict.get n (rightFeaClasses w)
    end.
Proof.
  induction defs as [|[m c] defs IH] using rev_ind; intros w.
  - cbn. destruct (_isClassName leftFeaClassRe n),
                  (_isClassName rightFeaClassRe n); auto.
  - cbv zeta. rewrite fold_left_app, rev_app_distr.
    cbn [fold_left List.rev List.app fst snd].
    destruct (IH w) as [HL HR].
    set (w1 := fold_left _ defs w) in *.
    cbn [Dict.get fst snd].
    unfold classDefinition.
    destruct (_isClassName leftFeaClassRe m) eqn:Lm.
    + pose proof (left_class_not_right _ Lm) as Rm.
      cbn. rewrite get_set.
      destruct (eq_dec n m) as [->|Hn].
      * rewrite Lm, Rm. split; [reflexivity|]. rewrite HR, Rm. reflexivity.
      * split; [exact HL | exact HR].
    + destruct (_isClassName rightFeaClassRe m) eqn:Rm.
      * cbn. rewrite get_set.
        destruct (eq_dec n m) as [->|Hn].
        -- rewrite Lm, Rm. split; [|reflexivity]. rewrite HL, Lm. reflexivity.
        -- split; [exact HL | exact HR].
      * destruct (eq_dec n m) as [->|Hn].
        -- rewrite Lm, Rm. rewrite HL, HR, Lm, Rm. split; reflexivity.
        -- split; [exact HL | exact HR].
Qed.

(** X22. After [_collectFeaClasses] on a new writer, the left registry
    holds the classes the parser reported whose names are [@MMK_L_] and at
    least one more character, the right registry those of [@MMK_R_], each
    with the contents of its last definition; every other class is
    ignored, and no name is in both registries. *)
Theorem collectFeaClasses_registers
  (parseFeatures : string -> result (list (string * list string)))
  (font : Font) (defs : list (string * list string)) (w1 : Writer)
  (n : string) :
  parseFeatures (featxt (init font)) = Ok defs ->
  _collectFeaClasses parseFeatures (init font) = Ok w1 ->
  Dict.get n (leftFeaClasses w1) =
    (if _isClassName leftFeaClassRe n
     then Dict.get n (List.rev defs) else None) /\
  Dict.get n (rightFeaClasses w1) =
    (if _isClassName rightFeaClassRe n
     then Dict.get n (List.rev defs) else None) /\
  (Dict.get n (leftFeaClasses w1) = None \/
   Dict.get n (rightFeaClasses w1) = None).
Proof.
  intros Ep E. unfold _collectFeaClasses in E. rewrite Ep in E.
  cbn [bind] in E. injection E as <-.
  destruct (feaClasses_fold n defs (init font)) as [HL HR].
  cbn [init leftFeaClasses rightFeaClasses Dict.get] in HL, HR.
  assert (HL' : Dict.get n (leftFeaClasses
            (fold_left (fun w d => classDefinition (fst d) (snd d) w)
                       defs (init font))) =
    (if _isClassName leftFeaClassRe n
     then Dict.get n (List.rev defs) else None)).
  { rewrite HL. destruct (_isClassName leftFeaClassRe n); [|reflexivity].
    destruct (Dict.get n (List.rev defs)); reflexivity. }
  assert (HR' : Dict.get n (rightFeaClasses
            (fold_left (fun w d => classDefinition (fst d) (snd d) w)
                       defs (init font))) =
    (if _isClassName rightFeaClassRe n
     then Dict.get n (List.rev defs) else None)).
  { rewrite HR. destruct (_isClassName rightFeaClassRe n); [|reflexivity].
    destruct (Dict.get n (List.rev defs)); reflexivity. }
  split; [exact HL'|]. split; [exact HR'|].
  rewrite HL', HR'.
  destruct (_isClassName leftFeaClassRe n) eqn:Ln; [|left; reflexivity].
  rewrite (left_class_not_right _ Ln). right. reflexivity.
Qed.

Lemma collectFeaClasses_registers_witness :
  exists w1,
    _collectFeaClasses parse_redefined (init font_fea) = Ok w1 /\
    Dict.get "@MMK_L_A" (leftFeaClasses w1) = Some ["A"; "Agrave"] /\
    Dict.get "@MMK_L_A" (rightFeaClasses w1) = None.
Proof.
  eexists. split; [reflexivity|].
  destruct (@collectFeaClasses_registers parse_redefined font_fea
              [("@MMK_L_A", ["A"]); ("@MMK_L_", ["x"]);
               ("@MMK_R_o", ["o"]); ("@MMK_L_A", ["A"; "Agrave"])]
              _ "@MMK_L_A" eq_refl eq_refl) as (HL & HR & _).
  split; [exact HL | exact HR].
Defined.

(** a class named by the prefix alone is in neither registry *)
Example collectFeaClasses_prefix_alone :
  (w1 <- _collectFeaClasses parse_redefined (init font_fea) ;;
   Ok (leftFeaClasses w1, rightFeaClasses w1)) =
  Ok ([("@MMK_L_A", ["A"; "Agrave"])], [("@MMK_R_o", ["o"])]).
Proof. reflexivity. Qed.

(** * The maximal context *)

Lemma obj_ext_ind (P : obj -> Prop) :
  (forall ints objs lists dicts,
     Forall (fun p => P (snd p)) objs -> P (Obj ints objs lists dicts)) ->
  forall o, P o.
Proof.
  intros H. fix IH 1. intros [ints objs lists dicts]. apply H.
  induction objs as [|[n o] l IHl]; constructor; [apply IH | exact IHl].
Qed.

(** [maxCtxSubtable] with the call on the subtable of an extension written
    as the source has it *)
Lemma maxCtxSubtable_unfold m tag t st :
  maxCtxSubtable m tag t st =
  let gpos := String.eqb tag "GPOS" in
  let gsub := String.eqb tag "GSUB" in
  if gpos && (t =? 2)%Z then pairPosCtx m st
  else if gpos && (t =? 4)%Z then Returns m
  else if gpos && (t =? 5)%Z then markLigPosCtx m st
  else if gpos && (t =? 6)%Z then Returns m
  else if gsub && (t =? 4)%Z then ligatureSubstCtx m st
  else if gpos && (t =? 7)%Z || gsub && (t =? 5)%Z then
    maxCtxContextualSubtable m st (if gpos then "Pos" else "Sub") ""
  else if gpos && (t =? 8)%Z || gsub && (t =? 6)%Z then
    maxCtxContextualSubtable m st (if gpos then "Pos" else "Sub") "Chain"
  else if gpos && (t =? 9)%Z || gsub && (t =? 7)%Z then
    extensionLookupType <~ attr_int st "ExtensionLookupType" ;;
    sub <~ attr_obj st "ExtSubTable" ;;
    maxCtxSubtable m tag extensionLookupType sub
  else if gsub && (t =? 8)%Z then maxCtxContextualRule m st true
  else Returns m.
Proof.
  destruct st as [ints objs lists dicts]. cbn [maxCtxSubtable]. cbv zeta.
  repeat match goal with
         | |- (if ?b then _ else _) = (if ?b then _ else _) =>
             destruct b; [reflexivity|]
         end.
  match goal with
  | |- (if ?b then _ else _) = (if ?b then _ else _) => destruct b; [|reflexivity]
  end.
  unfold attr_int, attr_obj.
  destruct (of_option (Dict.get "ExtensionLookupType" ints)) as [e|]; [|reflexivity].
  cbn [and_then].
  induction objs as [|[n o] l IHl]; [reflexivity|].
  cbn [Dict.get]. destruct (eq_dec "ExtSubTable" n); [reflexivity | exact IHl].
Qed.

Lemma adds_max_nonneg f c : adds_max f -> f 0%Z = Returns c -> (0 <= c)%Z.
Proof.
  intros H E. specialize (H 0%Z (Z.le_refl 0)). rewrite E in H. cbn in H.
  inversion H. lia.
Qed.

Lemma adds_max_max k : adds_max (fun m => Returns (Z.max m k)).
Proof. intros m Hm. cbn. f_equal. lia. Qed.

Lemma adds_max_id : adds_max (fun m => Returns m).
Proof. intros m Hm. cbn. f_equal. lia. Qed.

Lemma adds_max_bind {A : Type} (e : outcome A) (f : A -> Z -> outcome Z) :
  (forall a, adds_max (f a)) -> adds_max (fun m => a <~ e ;; f a m).
Proof. intros H m Hm. destruct e as [a|]; cbn; [apply H, Hm | reflexivity]. Qed.

Lemma adds_max_if (b : bool) (f g : Z -> outcome Z) :
  adds_max f -> adds_max g -> adds_max (fun m => if b then f m else g m).
Proof. destruct b; auto. Qed.

Lemma adds_max_for_each {A : Type} (body : Z -> A -> outcome Z) (xs : list A) :
  (forall x, adds_max (fun m => body m x)) ->
  adds_max (fun m => for_each body xs m).
Proof.
  intros Hb. induction xs as [|x xs IH]; intros m Hm; cbn [for_each].
  - cbn. f_equal. lia.
  - rewrite (Hb x m Hm). destruct (body 0%Z x) as [c1|] eqn:E1; cbn [and_then];
      [|reflexivity].
    pose proof (adds_max_nonneg (Hb x) E1) as Hc1.
    rewrite (IH (Z.max m c1)) by lia. rewrite (IH c1 Hc1).
    destruct (for_each body xs 0%Z) as [c2|]; cbn [and_then]; [|reflexivity].
    f_equal. lia.
Qed.

Lemma adds_max_contextualRule st chain :
  adds_max (fun m => maxCtxContextualRule m st chain).
Proof.
  unfold maxCtxContextualRule. destruct chain; cbn [negb].
  - apply adds_max_bind. intros i. apply adds_max_bind. intros la.
    apply adds_max_bind. intros bt m Hm. cbn. f_equal. lia.
  - apply adds_max_bind. intros g. apply adds_max_max.
Qed.

Lemma adds_max_ruleLoop chain rules_ :
  adds_max (fun m => ruleLoop chain m rules_).
Proof.
  unfold ruleLoop. apply adds_max_for_each. intros [rule|];
    [apply adds_max_contextualRule | apply adds_max_id].
Qed.

Lemma adds_max_ruleSetLoop chain ruleType suffix rulesets :
  adds_max (fun m => ruleSetLoop chain ruleType suffix m rulesets).
Proof.
  unfold ruleSetLoop. apply adds_max_for_each. intros [ruleset|];
    [|apply adds_max_id].
  apply adds_max_bind. intros rules_. apply adds_max_ruleLoop.
Qed.

Lemma adds_max_contextualSubtable st ruleType chain :
  adds_max (fun m => maxCtxContextualSubtable m st ruleType chain).
Proof.
  unfold maxCtxContextualSubtable. apply adds_max_bind. intros format.
  apply adds_max_if; [apply adds_max_bind; intros; apply adds_max_ruleSetLoop|].
  apply adds_max_if; [apply adds_max_bind; intros; apply adds_max_ruleSetLoop|].
  apply adds_max_if; [apply adds_max_contextualRule | apply adds_max_id].
Qed.

Lemma adds_max_pairPos st : adds_max (fun m => pairPosCtx m st).
Proof.
  unfold pairPosCtx. apply adds_max_bind. intros format.
  apply adds_max_bind. intros ruleCount m Hm. cbn.
  destruct (ruleCount >? 0)%Z; f_equal; lia.
Qed.

Lemma adds_max_markLigPos st : adds_max (fun m => markLigPosCtx m st).
Proof.
  unfold markLigPosCtx. apply adds_max_bind. intros la.
  apply adds_max_bind. intros l. apply adds_max_for_each. intros x.
  apply adds_max_bind. intros c. apply adds_max_max.
Qed.

Lemma adds_max_ligatureSubst st : adds_max (fun m => ligatureSubstCtx m st).
Proof.
  unfold ligatureSubstCtx. apply adds_max_bind. intros d.
  apply adds_max_for_each. intros l. apply adds_max_for_each. intros x.
  apply adds_max_bind. intros c. apply adds_max_max.
Qed.

Lemma adds_max_ext (f g : Z -> outcome Z) :
  (forall m, f m = g m) -> adds_max g -> adds_max f.
Proof. intros E H m Hm. rewrite !E. apply H, Hm. Qed.

Lemma adds_max_subtable st : forall tag t,
  adds_max (fun m => maxCtxSubtable m tag t st).
Proof.
  induction st as [ints objs lists dicts IH] using obj_ext_ind. intros tag t.
  eapply adds_max_ext; [intros m; apply maxCtxSubtable_unfold|]. cbv zeta.
  repeat (apply adds_max_if;
          [first [apply adds_max_pairPos | apply adds_max_id
                 | apply adds_max_markLigPos | apply adds_max_ligatureSubst
                 | apply adds_max_contextualSubtable
                 | apply adds_max_contextualRule | idtac]|]);
    [|apply adds_max_id].
  apply adds_max_bind. intros e. unfold attr_obj.
  destruct (Dict.get "ExtSubTable" objs) as [sub|] eqn:G;
    [|intros m Hm; reflexivity].
  cbn [of_option and_then]. rewrite Forall_forall in IH.
  apply (IH ("ExtSubTable", sub)).
  clear -G. induction objs as [|[n o] l IHl]; [discriminate|].
  cbn [Dict.get] in G. destruct (eq_dec "ExtSubTable" n) as [<-|];
    [inversion G; left; reflexivity | right; auto].
Qed.

Lemma for_each_app {A S : Type} (body : S -> A -> outcome S) (xs ys : list A) s :
  for_each body (xs ++ ys) s = (s' <~ for_each body xs s ;; for_each body ys s').
Proof.
  revert s. induction xs as [|x xs IH]; intros s; cbn; [reflexivity|].
  destruct (body s x); cbn; [apply IH | reflexivity].
Qed.

Lemma for_each_map {A B S : Type} (body : S -> B -> outcome S) (f : A -> B)
  (xs : list A) s :
  for_each body (map f xs) s = for_each (fun s x => body s (f x)) xs s.
Proof.
  revert s. induction xs as [|x xs IH]; intros s; cbn; [reflexivity|].
  destruct (body s (f x)); cbn; [apply IH | reflexivity].
Qed.

Lemma lookupLoop_visits tag lookups m :
  lookupLoop tag m lookups = for_each visit (subtablesOf tag lookups) m.
Proof.
  unfold lookupLoop, subtablesOf. revert m.
  induction lookups as [|l ls IH]; intros m; cbn [for_each flat_map]; [reflexivity|].
  rewrite for_each_app, for_each_map. unfold visit at 1. cbn [fst snd].
  destruct (for_each _ (SubTable l) m); cbn [and_then]; [apply IH | reflexivity].
Qed.

Lemma maxCtxFont_visits font :
  maxCtxFont font = for_each visit (visited font) 0%Z.
Proof.
  unfold maxCtxFont, visited. cbn [for_each flat_map].
  rewrite app_nil_r, for_each_app.
  assert (H : forall tag m,
            match Dict.get tag font with
            | Some table =>
                match LookupList table with
                | Some lookups => lookupLoop tag m lookups
                | None => Returns m
                end
            | None => Returns m
            end =
            for_each visit
              match Dict.get tag font with
              | Some table =>
                  match LookupList table with
                  | Some lookups => subtablesOf tag lookups
                  | None => []
                  end
              | None => []
              end m).
  { intros tag m. destruct (Dict.get tag font) as [table|]; [|reflexivity].
    destruct (LookupList table); [apply lookupLoop_visits | reflexivity]. }
  rewrite H. destruct (for_each visit _ 0%Z) as [a|]; cbn [and_then]; [|reflexivity].
  rewrite H. destruct (for_each visit _ a); reflexivity.
Qed.

Lemma adds_max_visit x : adds_max (fun m => visit m x).
Proof. unfold visit. apply adds_max_subtable. Qed.

(** a loop of steps that each add a maximum gives, from 0, the largest of
    what the steps give from 0 *)
Lemma for_each_maximum {A : Type} (body : Z -> A -> outcome Z) (xs : list A) :
  (forall x, adds_max (fun m => body m x)) ->
  match for_each body xs 0%Z with
  | Returns r =>
      (0 <= r)%Z /\
      (forall x, In x xs -> exists c, body 0%Z x = Returns c /\ (c <= r)%Z) /\
      (r = 0%Z \/ exists x, In x xs /\ body 0%Z x = Returns r)
  | AttributeError => exists x, In x xs /\ body 0%Z x = AttributeError
  end.
Proof.
  intros Hb. induction xs as [|x xs IH]; cbn [for_each].
  - cbn. split; [lia|]. split; [intros x []| left; reflexivity].
  - destruct (body 0%Z x) as [c1|] eqn:E1; cbn [and_then].
    + pose proof (adds_max_nonneg (Hb x) E1) as Hc1.
      rewrite (@adds_max_for_each _ body xs Hb c1 Hc1).
      destruct (for_each body xs 0%Z) as [c2|]; cbn [and_then].
      * destruct IH as (H0 & Hall & Hex). split; [lia|]. split.
        -- intros y [<-|Iy]; [exists c1; split; [exact E1 | lia]|].
           destruct (Hall y Iy) as (c & Ec & Hc). exists c. split; [exact Ec | lia].
        -- destruct (Z.max_spec c1 c2) as [[Hlt ->]|[Hle ->]].
           ++ destruct Hex as [->|(y & Iy & Ey)]; [lia|].
              right. exists y. split; [right; exact Iy | exact Ey].
           ++ right. exists x. split; [left; reflexivity | exact E1].
      * destruct IH as (y & Iy & Ey). exists y. split; [right; exact Iy | exact Ey].
    + exists x. split; [left; reflexivity | exact E1].
Qed.

Lemma for_each_perm {A : Type} (body : Z -> A -> outcome Z) (xs ys : list A) :
  (forall x, adds_max (fun m => body m x)) -> Permutation xs ys ->
  forall m, (0 <= m)%Z -> for_each body xs m = for_each body ys m.
Proof.
  intros Hb P. induction P as [|x xs ys P IH|x y xs|xs ys zs P1 IH1 P2 IH2];
    intros m Hm; cbn [for_each].
  - reflexivity.
  - rewrite (Hb x m Hm). destruct (body 0%Z x) as [c|] eqn:E; cbn [and_then];
      [apply IH; lia | reflexivity].
  - rewrite (Hb x m Hm), (Hb y m Hm).
    destruct (body 0%Z y) as [cy|] eqn:Ey, (body 0%Z x) as [cx|] eqn:Ex;
      cbn [and_then]; try reflexivity.
    + rewrite (Hb x (Z.max m cy)), (Hb y (Z.max m cx)) by lia.
      rewrite Ex, Ey. cbn [and_then]. f_equal; lia.
    + rewrite (Hb x (Z.max m cy)) by lia. rewrite Ex. reflexivity.
    + rewrite (Hb y (Z.max m cx)) by lia. rewrite Ey. reflexivity.
  - rewrite IH1 by exact Hm. apply IH2, Hm.
Qed.

(** the result of [maxCtxFont] is the largest context of the subtables
    visited *)
Lemma maxCtxFont_maximum (font : TTFont) :
  match maxCtxFont font with
  | Returns r =>
      (0 <= r)%Z /\
      (forall x, In x (visited font) ->
                 exists c, context_of x = Returns c /\ (c <= r)%Z) /\
      (r = 0%Z \/ exists x, In x (visited font) /\ context_of x = Returns r)
  | AttributeError =>
      exists x, In x (visited font) /\ context_of x = AttributeError
  end.
Proof.
  rewrite maxCtxFont_visits.
  exact (@for_each_maximum _ visit (visited font) adds_max_visit).
Qed.

(** X10. [maxCtxSubtable] adds the context of the subtable to the running
    maximum: from a running maximum that is not negative, the result is
    the larger of it and the result from 0, and the call fails exactly when
    it fails from 0.  This holds for every tag and lookup type, extension
    subtables included. *)
Theorem maxCtxSubtable_adds_context (maxCtx : Z) (tag : string) (lookupType : Z)
  (st : obj) :
  (0 <= maxCtx)%Z ->
  maxCtxSubtable maxCtx tag lookupType st =
  (c <~ maxCtxSubtable 0 tag lookupType st ;; Returns (Z.max maxCtx c)).
Proof. intros H. exact (@adds_max_subtable st tag lookupType maxCtx H). Qed.

Lemma maxCtxSubtable_adds_context_witness :
  maxCtxSubtable 5 "GSUB" 7 st_extension = Returns 5%Z /\
  maxCtxSubtable 1 "GSUB" 7 st_extension = Returns 3%Z.
Proof.
  split.
  - rewrite (@maxCtxSubtable_adds_context 5 "GSUB" 7 st_extension); [reflexivity | lia].
  - rewrite (@maxCtxSubtable_adds_context 1 "GSUB" 7 st_extension); [reflexivity | lia].
Defined.

(** X11. [maxCtxFont] returns the largest context of the subtables of the
    GSUB and GPOS tables: it is not negative, no subtable has a larger
    context, and it is 0 or the context of one of them.  It fails exactly
    when [maxCtxSubtable] fails on one of the subtables. *)
Theorem maxCtxFont_is_largest_context (font : TTFont) :
  match maxCtxFont font with
  | Returns r =>
      (0 <= r)%Z /\
      (forall x, In x (visited font) ->
                 exists c, context_of x = Returns c /\ (c <= r)%Z) /\
      (r = 0%Z \/ exists x, In x (visited font) /\ context_of x = Returns r)
  | AttributeError =>
      exists x, In x (visited font) /\ context_of x = AttributeError
  end.
Proof. exact (maxCtxFont_maximum font). Qed.

(** X12. The result of [maxCtxFont] does not depend on the order of the
    tables in the font, of the lookups in a table or of the subtables in a
    lookup: two fonts in which it visits the same subtables, with the same
    tags and lookup types, get the same result. *)
Theorem maxCtxFont_order_free (font1 font2 : TTFont) :
  Permutation (visited font1) (visited font2) ->
  maxCtxFont font1 = maxCtxFont font2.
Proof.
  intros P. rewrite !maxCtxFont_visits.
  apply for_each_perm; [exact adds_max_visit | exact P | lia].
Qed.

Lemma maxCtxFont_order_free_witness :
  maxCtxFont ttfont_liga = maxCtxFont ttfont_liga_reordered /\
  maxCtxFont ttfont_liga = Returns 3%Z.
Proof.
  split; [|reflexivity]. apply maxCtxFont_order_free.
  vm_compute. apply perm_swap.
Defined.




(** the functions on a chaining rule with [None] entries around it, on a
    reverse chaining subtable, and on a subtable that lacks an attribute *)
Example maxCtxSubtable_runs :
  maxCtxSubtable 0 "GSUB" 6 st_chain = Returns 5%Z /\
  maxCtxSubtable 0 "GSUB" 8 st_reverse = Returns 5%Z /\
  maxCtxSubtable 0 "GPOS" 2 st_ligature = AttributeError /\
  maxCtxSubtable 7 "GPOS" 4 st_ligature = Returns 7%Z.
Proof. repeat split; reflexivity. Qed.

(** * The anchor pairs *)

Lemma anchorName_fold glyph (l : list Anchor) : forall names out,
  NoDup names ->
  let s := fold_left (anchorName_body glyph) l (names, out) in
  NoDup (fst s) /\
  forall n, In n (fst s) <->
            In n names \/
            In n (flat_map (fun anchor => match anchor_name anchor with
                                          | Some name => [name]
                                          | None => []
                                          end) l).
Proof.
  induction l as [|a l IH]; intros names out ND; cbn [fold_left flat_map]; cbv zeta.
  - cbn [fst]. split; [exact ND|]. intros n. simpl. tauto.
  - unfold anchorName_body at 2 4. destruct (anchor_name a) as [name|].
    + destruct (IH (PySet.add name names) out) as [N H].
      { unfold PySet.add. destruct (PySet.memb name names) eqn:M; [exact ND|].
        apply memb_not_In in M. apply NoDup_app_intro; [exact ND | |].
        - repeat constructor. intros [].
        - intros x Ix [<-|[]]. contradiction. }
      split; [exact N|]. intros n. rewrite H, In_add. simpl. intuition.
    + destruct (IH names (out ++ [("warning: unnamed anchor discarded in "
                                    ++ glyph_name glyph)%string])) as [N H];
        [exact ND|].
      split; [exact N|]. intros n. rewrite H. simpl. tauto.
Qed.

Lemma collectAnchorNames_names (font : list Glyph) :
  NoDup (fst (collectAnchorNames font)) /\
  forall n, In n (fst (collectAnchorNames font)) <-> In n (named_anchors font).
Proof.
  unfold collectAnchorNames, named_anchors.
  assert (G : forall font names out, NoDup names ->
            let s := fold_left (fun s glyph =>
                                  fold_left (anchorName_body glyph) (anchors glyph) s)
                               font (names, out) in
            NoDup (fst s) /\
            forall n, In n (fst s) <->
                      In n names \/
                      In n (flat_map (fun glyph =>
                              flat_map (fun anchor =>
                                          match anchor_name anchor with
                                          | Some name => [name]
                                          | None => []
                                          end) (anchors glyph)) font)).
  { clear. induction font as [|g font IH]; intros names out ND;
      cbn [fold_left flat_map]; cbv zeta.
    - cbn [fst]. split; [exact ND|]. intros n. simpl. tauto.
    - destruct (anchorName_fold g (anchors g) out ND) as [N H].
      destruct (fold_left (anchorName_body g) (anchors g) (names, out))
        as [names1 out1]. cbn [fst] in N, H.
      destruct (IH names1 out1 N) as [N' H']. split; [exact N'|].
      intros n. rewrite H', H, in_app_iff. tauto. }
  destruct (G font [] [] (NoDup_nil _)) as [N H]. split; [exact N|].
  intros n. rewrite H. simpl. tauto.
Qed.

Lemma anchorPair_fold names (l : list string) : forall pairs,
  fold_left (anchorPair_body names) l pairs =
  pairs ++ map (fun b => (b, ("_" ++ b)%string))
               (filter (fun b => PySet.memb ("_" ++ b)%string names) l).
Proof.
  induction l as [|b l IH]; intros pairs; cbn [fold_left filter].
  - cbn. rewrite app_nil_r. reflexivity.
  - rewrite IH. unfold anchorPair_body.
    destruct (PySet.memb ("_" ++ b)%string names); [|reflexivity].
    cbn [map]. rewrite <- app_assoc. reflexivity.
Qed.

Lemma setupAnchorPairs_pairs (font : list Glyph) :
  anchorPairs (setupAnchorPairs font) =
  map (fun b => (b, ("_" ++ b)%string))
      (filter (fun b => PySet.memb ("_" ++ b)%string (fst (collectAnchorNames font)))
              (sorted_strings (fst (collectAnchorNames font)))).
Proof.
  unfold setupAnchorPairs. destruct (collectAnchorNames font) as [names out].
  cbn [anchorPairs fst]. apply anchorPair_fold.
Qed.

Lemma sorted_strings_In (l : list string) x : In x (sorted_strings l) <-> In x l.
Proof.
  unfold sorted_strings. rewrite in_map_iff. split.
  - intros ([y u] & <- & I). apply sorted_by_In in I. apply in_map_iff in I.
    destruct I as (z & E & I). inversion E; subst. exact I.
  - intros I. exists (x, tt). split; [reflexivity|]. apply sorted_by_In.
    apply in_map_iff. exists x. auto.
Qed.

(** X14. [setupAnchorPairs] pairs every anchor name with the name that
    has an underscore before it, when both are names of anchors of the
    font: the pairs are exactly the pairs [(b, "_" ++ b)] of two such
    names.  The list of the mkmk pairs is left empty. *)
Theorem setupAnchorPairs_characterized (font : list Glyph) :
  (forall base accent,
     In (base, accent) (anchorPairs (setupAnchorPairs font)) <->
     accent = ("_" ++ base)%string /\
     In base (named_anchors font) /\ In accent (named_anchors font)) /\
  mkmkAnchorPairs (setupAnchorPairs font) = [].
Proof.
  destruct (collectAnchorNames_names font) as [N H]. split.
  - intros base accent. rewrite setupAnchorPairs_pairs, in_map_iff. split.
    + intros (b & E & I). inversion E; subst. apply filter_In in I.
      destruct I as [I M]. apply sorted_strings_In, H in I.
      apply memb_In, H in M. auto.
    + intros (-> & Ib & Ia). exists base. split; [reflexivity|].
      apply filter_In. split; [apply sorted_strings_In, H, Ib|].
      apply memb_In, H, Ia.
  - unfold setupAnchorPairs. destruct (collectAnchorNames font). reflexivity.
Qed.

(** the run on three glyphs, with its warning *)
Example setupAnchorPairs_run :
  setupAnchorPairs glyphs_marks =
  {| anchorPairs := [("top", "_top")];
     mkmkAnchorPairs := [];
     printed := ["warning: unnamed anchor discarded in acutecomb"] |}.
Proof. reflexivity. Qed.

Lemma StronglySorted_filter {A : Type} (R : A -> A -> Prop) (f : A -> bool)
  (l : list A) : StronglySorted R l -> StronglySorted R (filter f l).
Proof.
  induction 1 as [|x l S IH Hall]; cbn [filter]; [constructor|].
  destruct (f x); [|exact IH]. constructor; [exact IH|].
  rewrite Forall_forall in *. intros y I. apply filter_In in I. apply Hall, I.
Qed.

Lemma StronglySorted_map {A B : Type} (R : A -> A -> Prop) (Q : B -> B -> Prop)
  (f : A -> B) (l : list A) :
  (forall x y, R x y -> Q (f x) (f y)) ->
  StronglySorted R l -> StronglySorted Q (map f l).
Proof.
  intros H. induction 1 as [|x l S IH Hall]; cbn [map]; constructor; [exact IH|].
  rewrite Forall_forall in *. intros y I. apply in_map_iff in I.
  destruct I as (z & <- & I). apply H, Hall, I.
Qed.

Lemma NoDup_filter_ {A : Type} (f : A -> bool) (l : list A) :
  NoDup l -> NoDup (filter f l).
Proof.
  induction 1 as [|x l Hn N IH]; cbn [filter]; [constructor|].
  destruct (f x); [|exact IH]. constructor; [|exact IH].
  intros I. apply filter_In in I. tauto.
Qed.

Lemma sorted_strings_sorted (l : list string) :
  StronglySorted (fun a b => String.leb a b = true) (sorted_strings l).
Proof.
  unfold sorted_strings.
  apply (@StronglySorted_map _ _ (key_le String.leb)); [auto|].
  apply sorted_by_sorted; [apply String.leb_total | apply string_leb_trans].
Qed.

Lemma sorted_strings_perm (l : list string) : Permutation (sorted_strings l) l.
Proof.
  unfold sorted_strings.
  rewrite (Permutation_map fst (sorted_by_perm String.leb (map (fun s => (s, tt)) l))).
  rewrite map_map. cbn [fst]. rewrite map_id. reflexivity.
Qed.

(** X15. [setupAnchorPairs] lists the pairs in the order of the names of
    the base anchors, and no base anchor has two pairs. *)
Theorem setupAnchorPairs_sorted (font : list Glyph) :
  StronglySorted (fun p q => String.leb (fst p) (fst q) = true)
                 (anchorPairs (setupAnchorPairs font)) /\
  NoDup (map fst (anchorPairs (setupAnchorPairs font))).
Proof.
  destruct (collectAnchorNames_names font) as [N _].
  rewrite setupAnchorPairs_pairs. split.
  - apply (@StronglySorted_map _ _ (fun a b => String.leb a b = true)); [auto|].
    apply StronglySorted_filter, sorted_strings_sorted.
  - rewrite map_map. cbn [fst]. rewrite map_id. apply NoDup_filter_.
    eapply Permutation_NoDup; [symmetry; apply sorted_strings_perm | exact N].
Qed.

Lemma sorted_strings_order_free (l1 l2 : list string) :
  NoDup l1 -> Permutation l1 l2 -> sorted_strings l1 = sorted_strings l2.
Proof.
  intros N P. unfold sorted_strings. f_equal.
  apply sorted_by_order_free;
    [apply String.leb_total | apply string_leb_trans | apply String.leb_antisym | |].
  - rewrite map_map. cbn [fst]. rewrite map_id. exact N.
  - apply Permutation_map. exact P.
Qed.

(** X16. The anchor pairs depend on the set of the anchor names only, not
    on the order of the glyphs or of their anchors, nor on how often a
    name occurs: two fonts with the same named anchors get the same list
    of pairs. *)
Theorem setupAnchorPairs_order_free (font1 font2 : list Glyph) :
  (forall n, In n (named_anchors font1) <-> In n (named_anchors font2)) ->
  anchorPairs (setupAnchorPairs font1) = anchorPairs (setupAnchorPairs font2).
Proof.
  intros Hsame.
  destruct (collectAnchorNames_names font1) as [N1 H1].
  destruct (collectAnchorNames_names font2) as [N2 H2].
  rewrite !setupAnchorPairs_pairs. f_equal.
  assert (P : Permutation (fst (collectAnchorNames font1))
                          (fst (collectAnchorNames font2))).
  { apply NoDup_Permutation; [exact N1 | exact N2|].
    intros n. rewrite H1, H2. apply Hsame. }
  rewrite (sorted_strings_order_free N1 P).
  apply filter_ext. intros b.
  destruct (PySet.memb ("_" ++ b)%string (fst (collectAnchorNames font1))) eqn:M1,
           (PySet.memb ("_" ++ b)%string (fst (collectAnchorNames font2))) eqn:M2;
    try reflexivity; exfalso.
  - apply memb_In, H1, Hsame, H2 in M1. apply memb_not_In in M2. contradiction.
  - apply memb_In, H2, Hsame, H1 in M2. apply memb_not_In in M1. contradiction.
Qed.

Lemma setupAnchorPairs_order_free_witness :
  anchorPairs (setupAnchorPairs glyphs_marks) =
    anchorPairs (setupAnchorPairs (List.rev glyphs_marks)) /\
  anchorPairs (setupAnchorPairs glyphs_marks) = [("top", "_top")].
Proof.
  split; [|reflexivity]. apply setupAnchorPairs_order_free.
  intros n. simpl. tauto.
Defined.

(** * Include statements *)

Lemma string_app_assoc (a b c : string) : ((a ++ b) ++ c = a ++ (b ++ c))%string.
Proof. induction a as [|x a IH]; simpl; [reflexivity | rewrite IH; reflexivity]. Qed.

Lemma take_app (a b : string) : take (String.length a) (a ++ b) = a.
Proof.
  induction a as [|x a IH]; simpl; [destruct b; reflexivity | rewrite IH; reflexivity].
Qed.

Lemma drop_app (a b : string) : drop (String.length a) (a ++ b) = b.
Proof. induction a as [|x a IH]; simpl; [destruct b; reflexivity | exact IH]. Qed.

Section IncludesFacts.
Variable finditer : string -> list Match.
Variable isabs : string -> bool.
Variable path_join : string -> string -> string.
Variable normpath : string -> string.
Variable strip : string -> string.

(** the loop works from the last match to the first, so that the
    positions of the matches still to come are positions of the text as it
    was *)
Lemma include_loop directory (pieces : list piece) : forall pre rest,
  fold_left (include_body isabs path_join normpath strip directory)
            (List.rev (matches_at (String.length pre) pieces))
            (pre ++ text_of pieces rest)%string =
  (pre ++ rewritten isabs path_join normpath strip directory pieces rest)%string.
Proof.
  induction pieces as [|[before g] pieces IH]; intros pre rest;
    cbn [matches_at List.rev text_of rewritten fold_left]; [reflexivity|].
  rewrite fold_left_app. cbn [fold_left].
  assert (Ee : String.length pre + String.length before + String.length (matched g)
               = String.length ((pre ++ before) ++ matched g)%string)
    by (rewrite !append_length; reflexivity).
  rewrite Ee.
  replace (pre ++ before ++ matched g ++ text_of pieces rest)%string
    with (((pre ++ before) ++ matched g) ++ text_of pieces rest)%string
    by (rewrite !string_app_assoc; reflexivity).
  rewrite IH. unfold include_body. cbn [m_groups m_start m_end].
  set (R := rewritten isabs path_join normpath strip directory pieces rest).
  assert (T : take (String.length pre + String.length before)
                   (((pre ++ before) ++ matched g) ++ R)%string
              = (pre ++ before)%string).
  { rewrite <- append_length, string_app_assoc. apply take_app. }
  assert (D : drop (String.length ((pre ++ before) ++ matched g)%string)
                   (((pre ++ before) ++ matched g) ++ R)%string = R)
    by apply drop_app.
  destruct g as [[g1 g2] g3]. cbn [fst snd].
  destruct (isabs g2).
  - rewrite !string_app_assoc. reflexivity.
  - rewrite T, D. rewrite !string_app_assoc. reflexivity.
Qed.

(** X18. [forceAbsoluteIncludesInFeatures] changes the include paths and
    nothing else: when the engine reports the matches of the text at their
    positions, the result is the text with the path of every include whose
    path is not absolute replaced by the normalized path under the
    directory, and with the text between the matches, the absolute
    includes, and the opening and closing of every include as they
    were. *)
Theorem forceAbsoluteIncludes_rewrites_paths
  (text directory : string) (pieces : list piece) (rest : string) :
  text = text_of pieces rest ->
  finditer text = matches_at 0 pieces ->
  forceAbsoluteIncludesInFeatures finditer isabs path_join normpath strip
                                  text directory =
  rewritten isabs path_join normpath strip directory pieces rest.
Proof.
  intros Et Em. unfold forceAbsoluteIncludesInFeatures. rewrite Em, Et.
  exact (include_loop directory pieces "" rest).
Qed.

(** X19. A text all of whose includes have absolute paths, and a text
    without includes, is returned as it is. *)
Theorem forceAbsoluteIncludes_keeps_absolute
  (text directory : string) (pieces : list piece) (rest : string) :
  text = text_of pieces rest ->
  finditer text = matches_at 0 pieces ->
  (forall p, In p pieces -> isabs (snd (fst (snd p))) = true) ->
  forceAbsoluteIncludesInFeatures finditer isabs path_join normpath strip
                                  text directory = text.
Proof.
  intros Et Em Ha. unfold forceAbsoluteIncludesInFeatures. rewrite Em, Et.
  pose proof (include_loop directory pieces "" rest) as H.
  cbn [String.length append] in H. rewrite H.
  clear Et Em H. induction pieces as [|[before g] pieces IH];
    cbn [rewritten text_of]; [reflexivity|].
  pose proof (Ha (before, g) (or_introl eq_refl)) as Hg. cbn [fst snd] in Hg.
  rewrite Hg. rewrite IH; [reflexivity|]. intros p I. apply Ha. right. exact I.
Qed.
End IncludesFacts.

Lemma forceAbsoluteIncludes_rewrites_paths_witness :
  forceAbsoluteIncludesInFeatures include_matches posix_isabs posix_join
    (fun p => p) (fun p => p) include_text "/fonts/src" =
  ("languagesystem DFLT dflt; include(/fonts/src/family.fea);" ++ LF ++
   "include (/usr/share/kern.fea);" ++ LF)%string.
Proof.
  rewrite (@forceAbsoluteIncludes_rewrites_paths include_matches posix_isabs
             posix_join (fun p => p) (fun p => p) include_text "/fonts/src"
             include_pieces (";" ++ LF)%string eq_refl eq_refl).
  reflexivity.
Defined.

Lemma forceAbsoluteIncludes_keeps_absolute_witness :
  forceAbsoluteIncludesInFeatures
    (fun _ => matches_at 0 [("", ("include(", "/a/b.fea", ")"))])
    posix_isabs posix_join (fun p => p) (fun p => p)
    "include(/a/b.fea);" "/fonts/src" = "include(/a/b.fea);".
Proof.
  apply (@forceAbsoluteIncludes_keeps_absolute
           (fun _ => matches_at 0 [("", ("include(", "/a/b.fea", ")"))])
           posix_isabs posix_join (fun p => p) (fun p => p)
           "include(/a/b.fea);" "/fonts/src"
           [("", ("include(", "/a/b.fea", ")"))] ";" eq_refl eq_refl).
  intros p [<-|[]]. reflexivity.
Defined.

(** * The feature text *)

Lemma strip_prefix_app p s : strip_prefix p (p ++ s) = Some s.
Proof.
  induction p as [|c p IH]; simpl; [reflexivity|].
  rewrite Ascii.eqb_refl. exact IH.
Qed.

Lemma search_later re c s : search re s = true -> search re (String c s) = true.
Proof. intros H. cbn [search]. destruct (match_here re (String c s)); auto. Qed.

Lemma search_app re pre s : search re s = true -> search re (pre ++ s) = true.
Proof.
  intros H. induction pre as [|c pre IH]; [exact H|]. simpl append.
  apply search_later, IH.
Qed.

Lemma search_here re s r : match_here re s = Some r -> search re s = true.
Proof. intros H. destruct s; cbn [search]; rewrite H; reflexivity. Qed.

Lemma lazy_any_app k mid s r :
  k s = Some r -> exists r', lazy_any k (mid ++ s) = Some r'.
Proof.
  intros H. induction mid as [|c mid [r' IH]].
  - exists r. simpl append. destruct s; cbn [lazy_any]; rewrite H; reflexivity.
  - simpl append. cbn [lazy_any]. destruct (k (String c (mid ++ s))); eauto.
Qed.

(** the kern feature block is found wherever it stands *)
Lemma search_kern_block pre mid post :
  search kernRE (pre ++ "feature kern {" ++ mid ++ "} kern;" ++ post) = true.
Proof.
  apply search_app. 
  assert (K : match_here [Lit "}"; Spaces true; Lit "kern"; Spaces false; Lit ";"]
                         ("} kern;" ++ post) = Some post).
  { cbn. destruct post; reflexivity. }
  destruct (lazy_any_app _ mid _ K) as [r E].
  apply search_here with (r := r).
  unfold kernRE, featureRE. cbn -[lazy_any append]. 
  exact E.
Qed.

Lemma join_last sep (B : list string) y : exists mid, join sep (B ++ [y]) = (mid ++ y)%string.
Proof.
  unfold join. induction B as [|b B [mid IH]]; [exists ""; reflexivity|].
  cbn [List.app String.concat]. destruct (B ++ [y]) as [|z l] eqn:E.
  - destruct B; discriminate.
  - rewrite IH. exists (b ++ sep ++ mid)%string. rewrite !string_app_assoc. reflexivity.
Qed.

Lemma join_split sep (A : list string) x y (B : list string) :
  exists pre, join sep (A ++ x :: y :: B) = (pre ++ x ++ sep ++ join sep (y :: B))%string.
Proof.
  unfold join. induction A as [|a A [pre IH]]; [exists ""; reflexivity|].
  cbn [List.app String.concat]. destruct (A ++ x :: y :: B) as [|z l] eqn:E.
  - destruct A; discriminate.
  - rewrite IH. exists (a ++ sep ++ pre)%string. rewrite !string_app_assoc. reflexivity.
Qed.

Lemma emit_has_kern_block w linesep :
  exists pre mid,
    emit w linesep = (pre ++ "feature kern {" ++ mid ++ "} kern;")%string.
Proof.
  rewrite emit_layout.
  set (C := map classLine _). set (G := map (kernLine "") _).
  set (S1 := subtable _). set (S2 := subtable _). set (S3 := subtable _).
  replace (C ++ [""; "feature kern {"] ++ G ++ S1 ++ S2 ++ S3 ++ ["} kern;"])
    with ((C ++ [""]) ++ "feature kern {" :: ((G ++ S1 ++ S2 ++ S3) ++ ["} kern;"]))
    by (rewrite <- !app_assoc; reflexivity).
  destruct (join_last linesep (G ++ S1 ++ S2 ++ S3) "} kern;") as [mid Em].
  destruct ((G ++ S1 ++ S2 ++ S3) ++ ["} kern;"]) as [|y B] eqn:E.
  - destruct (G ++ S1 ++ S2 ++ S3); discriminate.
  - destruct (join_split linesep (C ++ [""]) "feature kern {" y B) as [pre Ep].
    exists pre, (linesep ++ mid)%string. rewrite Ep, Em.
    rewrite !string_app_assoc. reflexivity.
Qed.

(** X20. The compiler finds the kern feature that the writer writes: a
    text that [write] returns with the default line separator, when it is
    not empty, matches [kernRE] wherever it stands in a feature text. *)
Theorem written_kern_feature_is_found
  (parse : string -> result (list (string * list string)))
  (w : Writer) (text pre post : string) :
  write parse w LF = Ok text -> text <> "" ->
  search kernRE (pre ++ text ++ post) = true.
Proof.
  intros E Hne. unfold write in E. apply bind_Ok in E. destruct E as (w' & _ & E).
  destruct (negb _); inversion E; subst text; [congruence|].
  destruct (emit_has_kern_block w' LF) as (p & mid & ->).
  replace (pre ++ (p ++ "feature kern {" ++ mid ++ "} kern;") ++ post)%string
    with ((pre ++ p) ++ "feature kern {" ++ mid ++ "} kern;" ++ post)%string
    by (rewrite !string_app_assoc; reflexivity).
  apply search_kern_block.
Qed.

Lemma written_kern_feature_is_found_witness :
  search kernRE ("languagesystem DFLT dflt;" ++ LF ++
                 join LF [""; "feature kern {"; "    pos A V -80;";
                          "    pos T o -30;"; "} kern;"] ++ LF) = true.
Proof.
  apply (@written_kern_feature_is_found parse_other (init font_flat)
           (join LF [""; "feature kern {"; "    pos A V -80;";
                     "    pos T o -30;"; "} kern;"])
           ("languagesystem DFLT dflt;" ++ LF)%string LF);
    [reflexivity | discriminate].
Defined.

(** X21. [setupFile_features] leaves an existing kern feature alone: when
    [overwriteFeatures] is false and [kernRE] finds a kern feature in the
    feature text of the font, the kern writer is not run, so that the
    outcome is the same whatever the kern writer is, and the font is left
    as it was. *)
Theorem existing_kern_feature_is_kept
  (kernWriter1 kernWriter2 : Font -> result (string * Font))
  (markWriter : Font -> list (string * string) -> list (string * string) -> bool
                -> result string)
  (c : Compiler) (existing : string) :
  overwriteFeatures c = false ->
  font_features_text (c_font c) = Some existing ->
  search kernRE existing = true ->
  setupFile_features kernWriter1 markWriter c =
    setupFile_features kernWriter2 markWriter c /\
  forall c', setupFile_features kernWriter1 markWriter c = Ok c' ->
             c_font c' = c_font c.
Proof.
  intros Ho Hf Hs. unfold setupFile_features. rewrite Hf, Ho, Hs. cbn [orb negb bind].
  split; [reflexivity|]. intros c'.
  destruct (mtiFeaFiles c); [intros E; inversion E; reflexivity|].
  rewrite Ho. cbn [orb].
  destruct (negb (search markRE existing));
    [destruct (writeFeatures_mark markWriter c); [|discriminate]|]; cbn [bind];
    (destruct (negb (search mkmkRE existing));
     [destruct (writeFeatures_mkmk markWriter c); [|discriminate]|]; cbn [bind];
     intros E; inversion E; reflexivity).
Qed.

Lemma existing_kern_feature_is_kept_witness :
  setupFile_features (KernFeatureWriter parse_no_classes) no_marks
                     compiler_with_kern =
  setupFile_features (fun _ => Err ParseError) no_marks compiler_with_kern.
Proof.
  refine (proj1 (@existing_kern_feature_is_kept
                   (KernFeatureWriter parse_no_classes) (fun _ => Err ParseError)
                   no_marks compiler_with_kern _ eq_refl eq_refl eq_refl)).
Defined.

(** two runs of [setupFile_features]: on a font with a kern feature of its
    own, and on the same font without feature text *)
Example setupFile_features_runs :
  (c' <- setupFile_features (fun f => Ok ("KERN", f)) (fun _ _ _ _ => Ok "MK")
                            compiler_with_kern ;; Ok (features c')) =
  Ok (Some ("feature kern {" ++ LF ++ "    pos A V -75;" ++ LF ++ "} kern;"
            ++ LF ++ LF ++ "MK" ++ LF ++ LF ++ "MK")%string) /\
  (c' <- setupFile_features (fun f => Ok ("KERN", f)) (fun _ _ _ _ => Ok "MK")
                            (with_font font_flat compiler_with_kern) ;;
   Ok (features c')) =
  Ok (Some (LF ++ LF ++ "KERN" ++ LF ++ LF ++ "MK" ++ LF ++ LF ++ "MK")%string).
Proof. split; reflexivity. Qed.
